(** * Recipe path-finding engines of Tubes2_TrioKwekKwek

    A shallow embedding of the Go search engines (breadth-first,
    depth-bounded depth-first, bidirectional) over the tiered element
    catalog, and the properties the specification states about them.

    The sources hold two versions of each engine: one that checks the tier
    of every ingredient of a recipe before using it (the one the
    specification describes), and an earlier one that checks the tier of the
    result only.  Both are embedded; the earlier one has [V1] in its name.

    Go maps are finite maps ([gmap]); a [map[string]bool] that only ever
    stores [true] is a finite set ([gset]); slices are lists; [int] tiers
    and counters are integers ([Z]); a loop that Go runs until a condition
    holds is a structurally recursive function over a fuel counter, and the
    fuel the engines pass is shown to be enough.  The recursion by which
    the display tree is built can be without end: it is run to a depth
    beyond which its outcome is shown not to change. *)

From stdpp Require Import gmap strings list fin_maps sets.
From Stdlib Require Import ZArith Lia.

Open Scope Z_scope.

(** ** Data model (package main: [Element], [Recipe], [ElementStore], ...) *)

(** [Element]: a game element and its raw recipes. *)
Record Element := mkElement {
  ID : string;
  ElemRecipes : list (list string);
  ImageURL : string
}.

(** [ElementGroup]: the elements of one tier, as read from the JSON file. *)
Record ElementGroup := mkElementGroup {
  TierNum : Z;
  GroupElements : list Element
}.

(** [Recipe]: ingredients and the element they produce. *)
Record Recipe := mkRecipe {
  Ingredients : list string;
  Result : string
}.

(** [RecipeStep]: a backpointer, the element expanded and the recipe used. *)
Record RecipeStep := mkRecipeStep {
  ParentID : string;
  StepRecipe : Recipe
}.

(** [ElementStore]: the catalog index shared by all searches. *)
Record ElementStore := mkElementStore {
  Elements : gmap string Element;
  Recipes : list Recipe;
  BasicElements : list string;
  TierMap : gmap string Z
}.

(** [SearchResult].  The value of the field [TreeStructure] is not kept
    in the record: it is what the call of [buildTreeStructure] on [Path] and
    the target returns, a call every search makes before it builds its
    result (see [finish]); no search reads the tree back. *)
Record SearchResult := mkSearchResult {
  Path : list Recipe;
  VisitedNodes : Z;
  ExecutionTime : Z;
  VariationIndex : Z
}.

Inductive SearchError := ErrElementNotFound | ErrNoBasicElements | ErrNoPathFound.

#[global] Instance Recipe_eq_dec : EqDecision Recipe.
Proof. solve_decision. Defined.

#[global] Instance RecipeStep_eq_dec : EqDecision RecipeStep.
Proof. solve_decision. Defined.

#[global] Instance SearchError_eq_dec : EqDecision SearchError.
Proof. solve_decision. Defined.

(** [NewElementStore], after the JSON file was parsed into groups. *)
Definition addRecipes (id : string) (raw : list (list string)) (acc : list Recipe) : list Recipe :=
  fold_left (fun acc ingredients =>
               if (length ingredients =? 2)%nat
               then acc ++ [mkRecipe ingredients id] else acc) raw acc.

Definition addElement (tierNum : Z) (store : ElementStore) (elem : Element) : ElementStore :=
  {| Elements := <[ID elem := elem]> (Elements store);
     Recipes := addRecipes (ID elem) (ElemRecipes elem) (Recipes store);
     BasicElements := if tierNum =? 0 then BasicElements store ++ [ID elem]
                      else BasicElements store;
     TierMap := <[ID elem := tierNum]> (TierMap store) |}.

Definition NewElementStore (elementGroups : list ElementGroup) : ElementStore :=
  fold_left (fun store group =>
               fold_left (addElement (TierNum group)) (GroupElements group) store)
            elementGroups
            {| Elements := ∅; Recipes := []; BasicElements := []; TierMap := ∅ |}.

(** [GetBasicElements]: the basic names that are elements of the catalog. *)
Definition GetBasicElements (es : ElementStore) : list Element :=
  omap (fun name => Elements es !! name) (BasicElements es).

(** [IsBasicElement]. *)
Definition IsBasicElement (es : ElementStore) (elementID : string) : bool :=
  existsb (String.eqb elementID) (BasicElements es).

(** [GetElementTier]: the tier, or -1 when the tier is unknown. *)
Definition GetElementTier (es : ElementStore) (elementID : string) : Z :=
  match TierMap es !! elementID with
  | Some tier => tier
  | None => -1
  end.

(** The identifiers the searches start from. *)
Definition basicIDs (es : ElementStore) : list string := ID <$> GetBasicElements es.

(** The check every strict engine repeats: no ingredient has a tier at or
    above [resultTier]. *)
Definition allIngredientsLowerTier (es : ElementStore) (recipe : Recipe) (resultTier : Z) : bool :=
  forallb (fun ingredient => negb (resultTier <=? GetElementTier es ingredient))
          (Ingredients recipe).

(** [isIngredient]: the element is one of the recipe's ingredients. *)
Definition isIngredient (elementID : string) (recipe : Recipe) : bool :=
  existsb (String.eqb elementID) (Ingredients recipe).

(** ** Path reconstruction (reconstructPath, every engine)

    The walk follows backpointers until an identifier has none.  A walk of
    more steps than the map has entries has entered a cycle, which the Go
    loop never leaves: that is [None]. *)
Fixpoint reconstructPathFrom (fuel : nat) (parentMap : gmap string RecipeStep)
    (current : string) (path : list Recipe) : option (list Recipe) :=
  match parentMap !! current with
  | None => Some path
  | Some step =>
      match fuel with
      | O => None
      | S fuel' =>
          reconstructPathFrom fuel' parentMap (ParentID step) (StepRecipe step :: path)
      end
  end.

Definition reconstructPath (target : string) (parentMap : gmap string RecipeStep)
    : option (list Recipe) :=
  reconstructPathFrom (size parentMap) parentMap target [].

(** ** The display tree ([buildTreeStructure], the same in every engine)

    A call of a Go function returns, panics (here: a field read through a
    nil pointer), or is still running when the fuel of the model is used up. *)
Inductive Run (A : Type) : Type :=
| Returns (a : A)
| Panics
| Unfinished.
Arguments Returns {A} a.
Arguments Panics {A}.
Arguments Unfinished {A}.

(** The map literal appended to [nodes]. *)
Record DisplayNode := mkDisplayNode {
  nodeId : string;
  nodeLabel : string;
  nodeType : string;
  nodeTier : Z;
  nodeImageUrl : string
}.

(** The map literal appended to [edges]. *)
Record DisplayEdge := mkDisplayEdge {
  edgeId : string;
  edgeSource : string;
  edgeTarget : string
}.

(** The map returned by [buildTreeStructure]. *)
Record TreeStructure := mkTreeStructure {
  treeNodes : list DisplayNode;
  treeEdges : list DisplayEdge;
  treeTarget : string;
  treeRecipes : list Recipe
}.

(** The variables the closure [buildNodes] shares with its caller. *)
Record TreeState := mkTreeState {
  nodes : list DisplayNode;
  edges : list DisplayEdge;
  nodeMap : gset string
}.

(** [recipesByResult[recipe.Result] = recipe] for every recipe of the path:
    the last recipe of a result is the one kept. *)
Definition recipesByResult (path : list Recipe) : gmap string Recipe :=
  fold_left (fun m recipe => <[Result recipe := recipe]> m) path ∅.

(** [fmt.Sprintf("%s-%s", ingredient, element)]. *)
Definition edgeName (ingredient element : string) : string :=
  (ingredient ++ "-" ++ element)%string.

(** The node of an ingredient that has none yet; [ingElem.ImageURL] is read
    through the pointer the catalog gives, nil for an unknown element. *)
Definition addNode (es : ElementStore) (ingredient : string) (st : TreeState) : Run TreeState :=
  if decide (ingredient ∈ nodeMap st) then Returns st
  else
    match Elements es !! ingredient with
    | None => Panics
    | Some ingElem =>
        Returns {| nodes := nodes st ++
                      [{| nodeId := ingredient; nodeLabel := ingredient;
                          nodeType := if IsBasicElement es ingredient
                                      then "basic" else "ingredient";
                          nodeTier := GetElementTier es ingredient;
                          nodeImageUrl := ImageURL ingElem |}];
                   edges := edges st;
                   nodeMap := {[ingredient]} ∪ nodeMap st |}
    end.

Definition addEdge (ingredient element : string) (st : TreeState) : TreeState :=
  {| nodes := nodes st;
     edges := edges st ++ [{| edgeId := edgeName ingredient element;
                              edgeSource := ingredient; edgeTarget := element |}];
     nodeMap := nodeMap st |}.

Section BuildNodes.
Variable es : ElementStore.
Variable kept : gmap string Recipe.

(** [for _, ingredient := range recipe.Ingredients], [deeper] being the
    recursive call [buildNodes(ingredient)]. *)
Fixpoint addIngredients (deeper : string -> TreeState -> Run TreeState)
    (element : string) (ingredients : list string) (st : TreeState) : Run TreeState :=
  match ingredients with
  | [] => Returns st
  | ingredient :: rest =>
      match addNode es ingredient st with
      | Returns st1 =>
          match deeper ingredient (addEdge ingredient element st1) with
          | Returns st2 => addIngredients deeper element rest st2
          | Panics => Panics
          | Unfinished => Unfinished
          end
      | Panics => Panics
      | Unfinished => Unfinished
      end
  end.

(** The closure [buildNodes]; [fuel] bounds the depth of the recursion. *)
Fixpoint buildNodes (fuel : nat) (element : string) (st : TreeState) : Run TreeState :=
  match kept !! element with
  | None => Returns st
  | Some recipe =>
      match fuel with
      | O => Unfinished
      | S fuel' => addIngredients (buildNodes fuel') element (Ingredients recipe) st
      end
  end.
End BuildNodes.

(** [buildTreeStructure(path, target)]. *)
Definition buildTreeStructure (es : ElementStore) (path : list Recipe) (target : string)
    (fuel : nat) : Run TreeStructure :=
  match Elements es !! target with
  | None => Panics
  | Some targetElem =>
      match buildNodes es (recipesByResult path) fuel target
              {| nodes := [{| nodeId := target; nodeLabel := target;
                              nodeType := "target";
                              nodeTier := GetElementTier es target;
                              nodeImageUrl := ImageURL targetElem |}];
                 edges := [];
                 nodeMap := {[target]} |} with
      | Returns st =>
          Returns {| treeNodes := nodes st; treeEdges := edges st;
                     treeTarget := target; treeRecipes := path |}
      | Panics => Panics
      | Unfinished => Unfinished
      end
  end.

(** ** Breadth-first engine ([BreadthFirstFinder])

    The loop of [FindShortestPath] and of [findPathVariation] is the same
    up to three things, which are the parameters of this section: the
    candidate recipes of the element being expanded ([possible], the call of
    [getPossibleRecipesThatRespectTiers] and any reordering), the checks
    that make the inner loop [continue] ([keep]), and what [found] becomes
    when the target is first reached ([accept]). *)

Record SearchState := mkSearchState {
  queue : list string;
  visited : gset string;
  parent : gmap string RecipeStep;
  visitedCount : Z;
  found : bool
}.

Definition withQueue (q : list string) (s : SearchState) : SearchState :=
  {| queue := q; visited := visited s; parent := parent s;
     visitedCount := visitedCount s; found := found s |}.

Definition withFound (b : bool) (s : SearchState) : SearchState :=
  {| queue := queue s; visited := visited s; parent := parent s;
     visitedCount := visitedCount s; found := b |}.

(** [queue.PushBack(resultElem); visited[resultElem] = true;
    parent[resultElem] = RecipeStep{current, recipe}; visitedCount++]. *)
Definition discover (current : string) (recipe : Recipe) (s : SearchState) : SearchState :=
  {| queue := queue s ++ [Result recipe];
     visited := {[Result recipe]} ∪ visited s;
     parent := <[Result recipe := mkRecipeStep current recipe]> (parent s);
     visitedCount := visitedCount s + 1;
     found := found s |}.

Section BreadthFirstLoop.
Variable target : string.
Variable possible : string -> list Recipe.
Variable keep : string -> Recipe -> bool.
Variable accept : gmap string RecipeStep -> bool.

(** The inner [for _, recipe := range possibleRecipes]. *)
Fixpoint expand (current : string) (recipes : list Recipe) (s : SearchState) : SearchState :=
  match recipes with
  | [] => s
  | recipe :: rest =>
      if negb (keep current recipe) then expand current rest s
      else if decide (Result recipe ∈ visited s) then expand current rest s
      else
        let s' := discover current recipe s in
        if decide (Result recipe = target)
        then withFound (accept (parent s')) s'
        else expand current rest s'
  end.

(** The outer [for queue.Len() > 0 && !found]. *)
Fixpoint bfsLoop (fuel : nat) (s : SearchState) : option SearchState :=
  match queue s with
  | [] => Some s
  | current :: rest =>
      if found s then Some s
      else match fuel with
           | O => None
           | S fuel' =>
               if decide (current = target)
               then Some (withFound true (withQueue rest s))
               else bfsLoop fuel' (expand current (possible current) (withQueue rest s))
           end
  end.
End BreadthFirstLoop.

(** The queue, visited set and counter after the basic elements were
    pushed, in the order given. *)
Definition seedState (ids : list string) : SearchState :=
  {| queue := ids;
     visited := list_to_set ids;
     parent := ∅;
     visitedCount := Z.of_nat (length ids);
     found := false |}.

(** Every pass of the outer loop pops one identifier, and an identifier is
    pushed once: the seeds, and at most one per recipe. *)
Definition bfsFuel (es : ElementStore) : nat :=
  S (length (GetBasicElements es) + length (Recipes es)).

(** What a call of a search gives back: an error or a result; [None] is a
    call that gives nothing back, because it panics or because it has no
    end. *)
Definition Outcome : Type := option (SearchError + SearchResult).

(** [treeStructure := bf.buildTreeStructure(path, target)], by which every
    search ends.  The recursion of [buildNodes] is run to a depth of the
    number of recipes of the path: a greater depth gives the same outcome,
    and a recursion that is not over by then is not over at any depth
    ([buildTreeStructure_settled]). *)
Definition treeOf (es : ElementStore) (path : list Recipe) (target : string)
    : Run TreeStructure :=
  buildTreeStructure es path target (length path).

(** The tail of every search: [if !found { return nil, ErrNoPathFound }],
    then the path is rebuilt, the display tree is built from it, and the
    result is assembled. *)
Definition finish (es : ElementStore) (target : string) (elapsed variationIndex : Z)
    (final : option SearchState) : Outcome :=
  match final with
  | None => None
  | Some s =>
      if found s then
        match reconstructPath target (parent s) with
        | None => None
        | Some path =>
            match treeOf es path target with
            | Returns _ =>
                Some (inr {| Path := path; VisitedNodes := visitedCount s;
                             ExecutionTime := elapsed; VariationIndex := variationIndex |})
            | Panics | Unfinished => None
            end
        end
      else Some (inl ErrNoPathFound)
  end.

(** *** The tier-checking version of the engine (src/unnamed/part_000) *)
Module BreadthFirstFinder.

(** [getPossibleRecipesThatRespectTiers(elementID, currentTier, targetTier)]. *)
Definition getPossibleRecipesThatRespectTiers (es : ElementStore)
    (elementID : string) (currentTier targetTier : Z) : list Recipe :=
  List.filter (fun recipe =>
    isIngredient elementID recipe
    && negb (targetTier <? GetElementTier es (Result recipe))
    && (allIngredientsLowerTier es recipe (GetElementTier es (Result recipe))
        && (currentTier <? GetElementTier es (Result recipe))))
    (Recipes es).

(** The two [continue]s of the inner loop of [FindShortestPath]. *)
Definition keepRecipe (es : ElementStore) (current : string) (recipe : Recipe) : bool :=
  allIngredientsLowerTier es recipe (GetElementTier es (Result recipe))
  && negb (GetElementTier es (Result recipe) <=? GetElementTier es current).

Definition possibleRecipes (es : ElementStore) (target current : string) : list Recipe :=
  getPossibleRecipesThatRespectTiers es current
    (GetElementTier es current) (GetElementTier es target).

Definition search (es : ElementStore) (target : string) : option SearchState :=
  bfsLoop target (possibleRecipes es target) (keepRecipe es) (fun _ => true)
          (bfsFuel es) (seedState (basicIDs es)).

(** [FindShortestPath]; [elapsed] is what the clock reports at the end. *)
Definition FindShortestPath (es : ElementStore) (target : string) (elapsed : Z) : Outcome :=
  match Elements es !! target with
  | None => Some (inl ErrElementNotFound)
  | Some _ =>
      match GetBasicElements es with
      | [] => Some (inl ErrNoBasicElements)
      | _ :: _ => finish es target elapsed 0 (search es target)
      end
  end.

End BreadthFirstFinder.

(** *** The earlier version of the engine, which checks the result tier
    only (src/unnamed/part_001) *)
Module BreadthFirstFinderV1.

(** [getPossibleRecipesThatRespectTiers(elementID, currentTier)]. *)
Definition getPossibleRecipesThatRespectTiers (es : ElementStore)
    (elementID : string) (currentTier : Z) : list Recipe :=
  List.filter (fun recipe =>
    isIngredient elementID recipe
    && (currentTier <? GetElementTier es (Result recipe)))
    (Recipes es).

(** The [continue] of the inner loop of [FindShortestPath]. *)
Definition keepRecipe (es : ElementStore) (current : string) (recipe : Recipe) : bool :=
  negb (GetElementTier es (Result recipe) <=? GetElementTier es current).

Definition possibleRecipes (es : ElementStore) (current : string) : list Recipe :=
  getPossibleRecipesThatRespectTiers es current (GetElementTier es current).

Definition search (es : ElementStore) (target : string) : option SearchState :=
  bfsLoop target (possibleRecipes es) (keepRecipe es) (fun _ => true)
          (bfsFuel es) (seedState (basicIDs es)).

Definition FindShortestPath (es : ElementStore) (target : string) (elapsed : Z) : Outcome :=
  match Elements es !! target with
  | None => Some (inl ErrElementNotFound)
  | Some _ =>
      match GetBasicElements es with
      | [] => Some (inl ErrNoBasicElements)
      | _ :: _ => finish es target elapsed 0 (search es target)
      end
  end.

End BreadthFirstFinderV1.

(** ** Depth-bounded engine ([DepthFirstFinder]) *)

(** The visited set, the backpointer map and the counter that the recursive
    search shares with its caller. *)
Record DepthState := mkDepthState {
  dfsVisited : gset string;
  dfsParent : gmap string RecipeStep;
  dfsVisitedCount : Z
}.

(** [visited[resultElem] = true; *visitedCount++;
    parent[resultElem] = RecipeStep{current, recipe}]. *)
Definition mark (current : string) (recipe : Recipe) (s : DepthState) : DepthState :=
  {| dfsVisited := {[Result recipe]} ∪ dfsVisited s;
     dfsParent := <[Result recipe := mkRecipeStep current recipe]> (dfsParent s);
     dfsVisitedCount := dfsVisitedCount s + 1 |}.

(** [delete(visited, resultElem); delete(parent, resultElem)]. *)
Definition unmark (resultElem : string) (s : DepthState) : DepthState :=
  {| dfsVisited := dfsVisited s ∖ {[resultElem]};
     dfsParent := delete resultElem (dfsParent s);
     dfsVisitedCount := dfsVisitedCount s |}.

(** [visited[elem.ID] = true; visitedCount++] before a top-level attempt. *)
Definition enter (id : string) (s : DepthState) : DepthState :=
  {| dfsVisited := {[id]} ∪ dfsVisited s;
     dfsParent := dfsParent s;
     dfsVisitedCount := dfsVisitedCount s + 1 |}.

(** [delete(visited, elem.ID)] after a failed top-level attempt. *)
Definition leave (id : string) (s : DepthState) : DepthState :=
  {| dfsVisited := dfsVisited s ∖ {[id]};
     dfsParent := dfsParent s;
     dfsVisitedCount := dfsVisitedCount s |}.

(** Go's [int] is 64 bits wide; its [%] is [Z.rem]. *)
Definition wrapInt (z : Z) : Z := (z + 2 ^ 63) mod 2 ^ 64 - 2 ^ 63.

Section DepthFirstSearch.
Variable target : string.
Variable possible : string -> list Recipe.
Variable keep : string -> Recipe -> bool.
Variable maxDepth : Z.

(** The loop [for _, recipe := range possibleRecipes] of the recursive
    search, [deeper] being the recursive call at [depth+1]. *)
Fixpoint tryRecipes (deeper : string -> DepthState -> option (bool * DepthState))
    (current : string) (recipes : list Recipe) (s : DepthState)
    : option (bool * DepthState) :=
  match recipes with
  | [] => Some (false, s)
  | recipe :: rest =>
      if negb (keep current recipe) then tryRecipes deeper current rest s
      else if decide (Result recipe ∈ dfsVisited s) then tryRecipes deeper current rest s
      else
        match deeper (Result recipe) (mark current recipe s) with
        | None => None
        | Some (true, s') => Some (true, s')
        | Some (false, s') => tryRecipes deeper current rest (unmark (Result recipe) s')
        end
  end.

(** [dfsSearchWithTiers] (and [dfsVariationSearch], which differs in the
    order of [possible] only).  The recursion is at most
    [maxDepth - depth] deep; [None] is a search out of fuel. *)
Fixpoint dfsSearchWithTiers (fuel : nat) (current : string) (depth : Z) (s : DepthState)
    : option (bool * DepthState) :=
  if decide (current = target) then Some (true, s)
  else if maxDepth <=? depth then Some (false, s)
  else
    match fuel with
    | O => None
    | S fuel' =>
        tryRecipes (fun resultElem s' => dfsSearchWithTiers fuel' resultElem (depth + 1) s')
                   current (possible current) s
    end.

(** The loop over the starting elements of [FindShortestPath]. *)
Fixpoint tryStarts (starts : list string) (s : DepthState) : option (bool * DepthState) :=
  match starts with
  | [] => Some (false, s)
  | id :: rest =>
      match dfsSearchWithTiers (Z.to_nat maxDepth) id 0 (enter id s) with
      | None => None
      | Some (true, s') => Some (true, s')
      | Some (false, s') => tryStarts rest (leave id s')
      end
  end.
End DepthFirstSearch.

Definition emptyDepthState : DepthState :=
  {| dfsVisited := ∅; dfsParent := ∅; dfsVisitedCount := 0 |}.

(** The tail of a depth-first search: [if !found { return nil,
    ErrNoPathFound }], then the path is rebuilt, the display tree is built
    from it, and the result is assembled. *)
Definition finishDepth (es : ElementStore) (target : string) (elapsed variationIndex : Z)
    (final : option (bool * DepthState)) : Outcome :=
  match final with
  | None => None
  | Some (false, _) => Some (inl ErrNoPathFound)
  | Some (true, s) =>
      match reconstructPath target (dfsParent s) with
      | None => None
      | Some path =>
          match treeOf es path target with
          | Returns _ =>
              Some (inr {| Path := path; VisitedNodes := dfsVisitedCount s;
                           ExecutionTime := elapsed; VariationIndex := variationIndex |})
          | Panics | Unfinished => None
          end
      end
  end.

(** [getPathSignature]. *)
Definition recipeSignature (recipe : Recipe) : string :=
  (Result recipe ++ ":" ++
   match Ingredients recipe with
   | first :: second :: _ =>
       if String.ltb second first
       then second ++ "+" ++ first ++ ";"
       else first ++ "+" ++ second ++ ";"
   | _ => ""
   end)%string.

Definition getPathSignature (path : list Recipe) : string :=
  fold_left (fun sig recipe => (sig ++ recipeSignature recipe)%string) path ""%string.

(** [possibleRecipes[i], possibleRecipes[j] = possibleRecipes[j], possibleRecipes[i]]. *)
Definition swapRecipes (i j : nat) (recipes : list Recipe) : list Recipe :=
  match recipes !! i, recipes !! j with
  | Some a, Some b => <[i := b]> (<[j := a]> recipes)
  | _, _ => recipes
  end.

(** [reorderedElements = append(reorderedElements[start:], reorderedElements[:start]...)]. *)
Definition rotate {A} (start : nat) (l : list A) : list A := drop start l ++ take start l.

(** *** The tier-checking version of the engine (src/unnamed/part_003) *)
Module DepthFirstFinder.

Definition getPossibleRecipesThatRespectTiers :=
  BreadthFirstFinder.getPossibleRecipesThatRespectTiers.

Definition possibleRecipes (es : ElementStore) (target current : string) : list Recipe :=
  getPossibleRecipesThatRespectTiers es current
    (GetElementTier es current) (GetElementTier es target).

(** The two [continue]s of the loop of [dfsSearchWithTiers]. *)
Definition keepRecipe (es : ElementStore) (current : string) (recipe : Recipe) : bool :=
  allIngredientsLowerTier es recipe (GetElementTier es (Result recipe))
  && negb (GetElementTier es (Result recipe) <=? GetElementTier es current).

(** The attempts of [FindShortestPath]: [maxDepth := targetTier * 2]. *)
Definition search (es : ElementStore) (target : string) : option (bool * DepthState) :=
  tryStarts target (possibleRecipes es target) (keepRecipe es)
    (wrapInt (GetElementTier es target * 2)) (basicIDs es) emptyDepthState.

(** [FindShortestPath]. *)
Definition FindShortestPath (es : ElementStore) (target : string) (elapsed : Z) : Outcome :=
  match Elements es !! target with
  | None => Some (inl ErrElementNotFound)
  | Some _ =>
      match GetBasicElements es with
      | [] => Some (inl ErrNoBasicElements)
      | _ :: _ => finishDepth es target elapsed 0 (search es target)
      end
  end.

(** The shuffle of [dfsVariationSearch]: for each [i] in turn, swap
    positions [i] and [(i + variationIndex) % len]. *)
Definition shuffle (variationIndex : Z) (recipes : list Recipe) : list Recipe :=
  if (0 <? variationIndex) && (1 <? length recipes)%nat then
    fold_left (fun acc i =>
                 let swapIndex :=
                   Z.to_nat (Z.rem (Z.of_nat i + variationIndex) (Z.of_nat (length recipes))) in
                 if decide (swapIndex = i) then acc else swapRecipes i swapIndex acc)
              (seq 0 (length recipes)) recipes
  else recipes.

(** The loop over the reordered starting elements of [findPathVariation].
    [existing k] is the content of the shared signature set when the
    attempt from the [k]-th starting element reads it.  After a duplicate
    both maps are cleared and the starting element stays marked. *)
Fixpoint tryStartsVariation (target : string) (possible : string -> list Recipe)
    (keep : string -> Recipe -> bool) (maxDepth : Z) (existing : nat -> gset string)
    (k : nat) (starts : list string) (s : DepthState) : option (bool * DepthState) :=
  match starts with
  | [] => Some (false, s)
  | id :: rest =>
      match dfsSearchWithTiers target possible keep maxDepth (Z.to_nat maxDepth) id 0 (enter id s) with
      | None => None
      | Some (true, s') =>
          match reconstructPath target (dfsParent s') with
          | None => None
          | Some path =>
              if decide (getPathSignature path ∈ existing k) then
                tryStartsVariation target possible keep maxDepth existing (S k) rest
                  {| dfsVisited := {[id]}; dfsParent := ∅;
                     dfsVisitedCount := dfsVisitedCount s' |}
              else Some (true, s')
          end
      | Some (false, s') =>
          tryStartsVariation target possible keep maxDepth existing (S k) rest (leave id s')
      end
  end.

(** [findPathVariation]. *)
Definition findPathVariation (es : ElementStore) (target : string) (variationIndex : Z)
    (targetTier : Z) (existing : nat -> gset string) (elapsed : Z) : Outcome :=
  match GetBasicElements es with
  | [] => Some (inl ErrNoBasicElements)
  | _ :: _ =>
      let maxDepth := wrapInt (wrapInt (targetTier * 2) + Z.rem variationIndex 5) in
      let startElemIndex := Z.to_nat (Z.rem variationIndex (Z.of_nat (length (GetBasicElements es)))) in
      let reorderedElements :=
        if (0 <? startElemIndex)%nat && (1 <? length (GetBasicElements es))%nat
        then rotate startElemIndex (basicIDs es) else basicIDs es in
      finishDepth es target elapsed variationIndex
        (tryStartsVariation target
           (fun current => shuffle variationIndex
                             (getPossibleRecipesThatRespectTiers es current
                                (GetElementTier es current) targetTier))
           (keepRecipe es) maxDepth existing 0 reorderedElements emptyDepthState)
  end.

End DepthFirstFinder.

(** *** The earlier version of the engine, which checks the result tier
    only (src/unnamed/part_002) *)
Module DepthFirstFinderV1.

Definition getPossibleRecipesThatRespectTiers :=
  BreadthFirstFinderV1.getPossibleRecipesThatRespectTiers.

Definition possibleRecipes (es : ElementStore) (current : string) : list Recipe :=
  getPossibleRecipesThatRespectTiers es current (GetElementTier es current).

Definition keepRecipe (es : ElementStore) (current : string) (recipe : Recipe) : bool :=
  negb (GetElementTier es (Result recipe) <=? GetElementTier es current).

Definition search (es : ElementStore) (target : string) : option (bool * DepthState) :=
  tryStarts target (possibleRecipes es) (keepRecipe es)
    (wrapInt (GetElementTier es target * 2)) (basicIDs es) emptyDepthState.

Definition FindShortestPath (es : ElementStore) (target : string) (elapsed : Z) : Outcome :=
  match Elements es !! target with
  | None => Some (inl ErrElementNotFound)
  | Some _ =>
      match GetBasicElements es with
      | [] => Some (inl ErrNoBasicElements)
      | _ :: _ => finishDepth es target elapsed 0 (search es target)
      end
  end.

End DepthFirstFinderV1.

(** ** Bidirectional engine ([BidirectionalFinder],
    src/src/backend/Algorithm/bid.go) *)

Record BidState := mkBidState {
  forwardQueue : list string;
  forwardVisited : gset string;
  forwardParent : gmap string RecipeStep;
  forwardTier : gmap string Z;
  backwardQueue : list string;
  backwardVisited : gset string;
  backwardParent : gmap string RecipeStep;
  backwardTier : gmap string Z;
  bidVisitedCount : Z;
  meetingPoint : string;
  bidFound : bool
}.

(** [meetingPoint = x; found = true]. *)
Definition meet (x : string) (s : BidState) : BidState :=
  {| forwardQueue := forwardQueue s; forwardVisited := forwardVisited s;
     forwardParent := forwardParent s; forwardTier := forwardTier s;
     backwardQueue := backwardQueue s; backwardVisited := backwardVisited s;
     backwardParent := backwardParent s; backwardTier := backwardTier s;
     bidVisitedCount := bidVisitedCount s; meetingPoint := x; bidFound := true |}.

(** [forwardQueue.Remove(forwardQueue.Front())]. *)
Definition popForward (rest : list string) (s : BidState) : BidState :=
  {| forwardQueue := rest; forwardVisited := forwardVisited s;
     forwardParent := forwardParent s; forwardTier := forwardTier s;
     backwardQueue := backwardQueue s; backwardVisited := backwardVisited s;
     backwardParent := backwardParent s; backwardTier := backwardTier s;
     bidVisitedCount := bidVisitedCount s; meetingPoint := meetingPoint s;
     bidFound := bidFound s |}.

(** [backwardQueue.Remove(backwardQueue.Front())]. *)
Definition popBackward (rest : list string) (s : BidState) : BidState :=
  {| forwardQueue := forwardQueue s; forwardVisited := forwardVisited s;
     forwardParent := forwardParent s; forwardTier := forwardTier s;
     backwardQueue := rest; backwardVisited := backwardVisited s;
     backwardParent := backwardParent s; backwardTier := backwardTier s;
     bidVisitedCount := bidVisitedCount s; meetingPoint := meetingPoint s;
     bidFound := bidFound s |}.

(** The forward search records a result of [current]. *)
Definition discoverForward (current : string) (recipe : Recipe) (resultTier : Z)
    (s : BidState) : BidState :=
  {| forwardQueue := forwardQueue s ++ [Result recipe];
     forwardVisited := {[Result recipe]} ∪ forwardVisited s;
     forwardParent := <[Result recipe := mkRecipeStep current recipe]> (forwardParent s);
     forwardTier := <[Result recipe := resultTier]> (forwardTier s);
     backwardQueue := backwardQueue s; backwardVisited := backwardVisited s;
     backwardParent := backwardParent s; backwardTier := backwardTier s;
     bidVisitedCount := bidVisitedCount s + 1; meetingPoint := meetingPoint s;
     bidFound := bidFound s |}.

(** The backward search records an ingredient of [current]. *)
Definition discoverBackward (current : string) (recipe : Recipe) (ingredient : string)
    (ingredientTier : Z) (s : BidState) : BidState :=
  {| forwardQueue := forwardQueue s; forwardVisited := forwardVisited s;
     forwardParent := forwardParent s; forwardTier := forwardTier s;
     backwardQueue := backwardQueue s ++ [ingredient];
     backwardVisited := {[ingredient]} ∪ backwardVisited s;
     backwardParent := <[ingredient := mkRecipeStep current recipe]> (backwardParent s);
     backwardTier := <[ingredient := ingredientTier]> (backwardTier s);
     bidVisitedCount := bidVisitedCount s + 1; meetingPoint := meetingPoint s;
     bidFound := bidFound s |}.

(** A Go map read: the zero value when the key is absent. *)
Definition tierAt (tiers : gmap string Z) (id : string) : Z := default 0 (tiers !! id).

Module BidirectionalFinder.

(** [getValidRecipesWithElementAnyPosition]. *)
Definition getValidRecipesWithElementAnyPosition (es : ElementStore) (elementID : string)
    : list Recipe :=
  List.filter (fun recipe =>
    isIngredient elementID recipe
    && allIngredientsLowerTier es recipe (GetElementTier es (Result recipe)))
    (Recipes es).

(** The forward [for _, recipe := range possibleRecipes]. *)
Fixpoint expandForward (es : ElementStore) (current : string) (currentTier : Z)
    (recipes : list Recipe) (s : BidState) : BidState :=
  match recipes with
  | [] => s
  | recipe :: rest =>
      let resultTier := GetElementTier es (Result recipe) in
      if negb (allIngredientsLowerTier es recipe resultTier)
      then expandForward es current currentTier rest s
      else if resultTier <=? currentTier
      then expandForward es current currentTier rest s
      else if decide (Result recipe ∈ forwardVisited s)
      then expandForward es current currentTier rest s
      else
        let s' := discoverForward current recipe resultTier s in
        if decide (Result recipe ∈ backwardVisited s')
        then meet (Result recipe) s'
        else expandForward es current currentTier rest s'
  end.

(** One forward level: [for i := 0; i < levelSize && !found; i++].  The
    queue holds at least [levelSize - i] identifiers at pass [i]. *)
Fixpoint forwardLevel (es : ElementStore) (levelSize : nat) (s : BidState) : BidState :=
  match levelSize with
  | O => s
  | S levelSize' =>
      if bidFound s then s
      else
        match forwardQueue s with
        | [] => s
        | current :: rest =>
            if decide (current ∈ backwardVisited s)
            then meet current (popForward rest s)
            else
              forwardLevel es levelSize'
                (expandForward es current (tierAt (forwardTier s) current)
                   (getValidRecipesWithElementAnyPosition es current)
                   (popForward rest s))
        end
  end.

(** The backward [for _, ingredient := range recipe.Ingredients]. *)
Fixpoint expandIngredients (es : ElementStore) (current : string) (currentTier : Z)
    (recipe : Recipe) (ingredients : list string) (s : BidState) : BidState :=
  match ingredients with
  | [] => s
  | ingredient :: rest =>
      let ingredientTier := GetElementTier es ingredient in
      if currentTier <=? ingredientTier
      then expandIngredients es current currentTier recipe rest s
      else if decide (ingredient ∈ backwardVisited s)
      then expandIngredients es current currentTier recipe rest s
      else
        let s' := discoverBackward current recipe ingredient ingredientTier s in
        if decide (ingredient ∈ forwardVisited s')
        then meet ingredient s'
        else expandIngredients es current currentTier recipe rest s'
  end.

(** The backward [for _, recipe := range bf.store.Recipes]. *)
Fixpoint expandBackward (es : ElementStore) (current : string) (currentTier : Z)
    (recipes : list Recipe) (s : BidState) : BidState :=
  match recipes with
  | [] => s
  | recipe :: rest =>
      if decide (Result recipe = current) then
        if negb (allIngredientsLowerTier es recipe currentTier)
        then expandBackward es current currentTier rest s
        else
          let s' := expandIngredients es current currentTier recipe (Ingredients recipe) s in
          if bidFound s' then s' else expandBackward es current currentTier rest s'
      else expandBackward es current currentTier rest s
  end.

(** One backward level. *)
Fixpoint backwardLevel (es : ElementStore) (levelSize : nat) (s : BidState) : BidState :=
  match levelSize with
  | O => s
  | S levelSize' =>
      if bidFound s then s
      else
        match backwardQueue s with
        | [] => s
        | current :: rest =>
            if decide (current ∈ forwardVisited s)
            then meet current (popBackward rest s)
            else
              backwardLevel es levelSize'
                (expandBackward es current (tierAt (backwardTier s) current)
                   (Recipes es) (popBackward rest s))
        end
  end.

(** [for forwardQueue.Len() > 0 && backwardQueue.Len() > 0 && !found]. *)
Fixpoint bidLoop (es : ElementStore) (fuel : nat) (s : BidState) : option BidState :=
  match forwardQueue s, backwardQueue s, bidFound s with
  | _ :: _, _ :: _, false =>
      match fuel with
      | O => None
      | S fuel' =>
          let s1 := forwardLevel es (length (forwardQueue s)) s in
          if bidFound s1 then Some s1
          else bidLoop es fuel' (backwardLevel es (length (backwardQueue s1)) s1)
      end
  | _, _, _ => Some s
  end.

(** [reconstructForwardPath]: the walk also stops at a recipe that fails
    the tier check. *)
Fixpoint reconstructForwardFrom (es : ElementStore) (fuel : nat)
    (parentMap : gmap string RecipeStep) (current : string) (path : list Recipe)
    : option (list Recipe) :=
  match parentMap !! current with
  | None => Some path
  | Some step =>
      if negb (allIngredientsLowerTier es (StepRecipe step)
                 (GetElementTier es (Result (StepRecipe step))))
      then Some path
      else
        match fuel with
        | O => None
        | S fuel' =>
            reconstructForwardFrom es fuel' parentMap (ParentID step)
              (StepRecipe step :: path)
        end
  end.

Definition reconstructForwardPath (es : ElementStore) (meetingPoint : string)
    (parentMap : gmap string RecipeStep) : option (list Recipe) :=
  reconstructForwardFrom es (size parentMap) parentMap meetingPoint [].

(** [reconstructBackwardPath]: the same walk over the child map, appending. *)
Fixpoint reconstructBackwardFrom (es : ElementStore) (fuel : nat)
    (childMap : gmap string RecipeStep) (current : string) (path : list Recipe)
    : option (list Recipe) :=
  match childMap !! current with
  | None => Some path
  | Some step =>
      if negb (allIngredientsLowerTier es (StepRecipe step)
                 (GetElementTier es (Result (StepRecipe step))))
      then Some path
      else
        match fuel with
        | O => None
        | S fuel' =>
            reconstructBackwardFrom es fuel' childMap (ParentID step)
              (path ++ [StepRecipe step])
        end
  end.

Definition reconstructBackwardPath (es : ElementStore) (meetingPoint : string)
    (childMap : gmap string RecipeStep) : option (list Recipe) :=
  reconstructBackwardFrom es (size childMap) childMap meetingPoint [].

(** Both frontiers after their queues were initialised. *)
Definition initialState (es : ElementStore) (target : string) : BidState :=
  {| forwardQueue := basicIDs es;
     forwardVisited := list_to_set (basicIDs es);
     forwardParent := ∅;
     forwardTier := gset_to_gmap 0 (list_to_set (basicIDs es));
     backwardQueue := [target];
     backwardVisited := {[target]};
     backwardParent := ∅;
     backwardTier := {[target := GetElementTier es target]};
     bidVisitedCount := Z.of_nat (length (basicIDs es)) + 1;
     meetingPoint := "";
     bidFound := false |}.

Definition search (es : ElementStore) (target : string) : option BidState :=
  bidLoop es (bfsFuel es) (initialState es target).

(** [FindShortestPath]. *)
Definition FindShortestPath (es : ElementStore) (target : string) (elapsed : Z) : Outcome :=
  match Elements es !! target with
  | None => Some (inl ErrElementNotFound)
  | Some _ =>
      match GetBasicElements es with
      | [] => Some (inl ErrNoBasicElements)
      | _ :: _ =>
          match search es target with
          | None => None
          | Some s =>
              if bidFound s then
                match reconstructForwardPath es (meetingPoint s) (forwardParent s),
                      reconstructBackwardPath es (meetingPoint s) (backwardParent s) with
                | Some forwardPath, Some backwardPath =>
                    match treeOf es (forwardPath ++ backwardPath) target with
                    | Returns _ =>
                        Some (inr {| Path := forwardPath ++ backwardPath;
                                     VisitedNodes := bidVisitedCount s;
                                     ExecutionTime := elapsed; VariationIndex := 0 |})
                    | Panics | Unfinished => None
                    end
                | _, _ => None
                end
              else Some (inl ErrNoPathFound)
          end
      end
  end.

End BidirectionalFinder.

(** ** Multi-path search (FindMultiplePaths) *)

(** *** Earlier version (src/unnamed/part_001): every worker repeats
    [FindShortestPath] *)
Module MultiplePathsV1.

(** [findPathWithVariation]. *)
Definition findPathWithVariation (es : ElementStore) (target : string)
    (variationIndex : Z) (elapsed : Z) : Outcome :=
  match BreadthFirstFinderV1.FindShortestPath es target elapsed with
  | Some (inr result) =>
      Some (inr {| Path := Path result; VisitedNodes := VisitedNodes result;
                   ExecutionTime := ExecutionTime result;
                   VariationIndex := variationIndex |})
  | other => other
  end.

(** The workers append under the mutex in some order; a worker's search
    reads nothing another worker writes. *)
Fixpoint collect (es : ElementStore) (target : string) (elapsed : Z)
    (completion : list nat) (results : list SearchResult) : option (list SearchResult) :=
  match completion with
  | [] => Some results
  | index :: rest =>
      match findPathWithVariation es target (Z.of_nat index) elapsed with
      | None => None
      | Some (inl _) => collect es target elapsed rest results
      | Some (inr result) => collect es target elapsed rest (results ++ [result])
      end
  end.

(** [FindMultiplePaths]; [completion] lists the worker indices
    [0 .. maxPaths-1] in the order in which the workers finish. *)
Definition FindMultiplePaths (es : ElementStore) (target : string)
    (completion : list nat) (elapsed : Z) : option (SearchError + list SearchResult) :=
  match Elements es !! target with
  | None => Some (inl ErrElementNotFound)
  | Some _ =>
      match collect es target elapsed completion [] with
      | None => None
      | Some [] => Some (inl ErrNoPathFound)
      | Some results => Some (inr results)
      end
  end.

End MultiplePathsV1.

(** *** Tier-checking version (src/unnamed/part_000): variations of the
    breadth-first search, with a shared set of the signatures found so far *)
Module MultiplePaths.

(** The reordering of [findPathVariation]: positions [i] and [i+1] are
    swapped for every even [i] with [(i + randomFactor) % 7 == 0]. *)
Fixpoint swapPairs (randomFactor : Z) (i : Z) (recipes : list Recipe) : list Recipe :=
  match recipes with
  | a :: b :: rest =>
      if Z.rem (i + randomFactor) 7 =? 0
      then b :: a :: swapPairs randomFactor (i + 2) rest
      else a :: b :: swapPairs randomFactor (i + 2) rest
  | _ => recipes
  end.

Definition reorder (randomFactor : Z) (recipes : list Recipe) : list Recipe :=
  if (1 <? length recipes)%nat && (0 <? randomFactor)
  then swapPairs randomFactor 0 recipes else recipes.

(** What [found] becomes when the target is reached: false when the
    signature of the path is already in [existingPaths]. *)
Definition isNewPath (target : string) (existingPaths : gset string)
    (parentMap : gmap string RecipeStep) : bool :=
  match reconstructPath target parentMap with
  | Some path => negb (bool_decide (getPathSignature path ∈ existingPaths))
  | None => false
  end.

(** [findPathVariation] of the breadth-first engine; [existingPaths] is the
    shared set when the worker reads it (it does so at most once). *)
Definition findPathVariation (es : ElementStore) (target : string) (variationIndex : Z)
    (targetTier : Z) (existingPaths : gset string) (elapsed : Z) : Outcome :=
  match GetBasicElements es with
  | [] => Some (inl ErrNoBasicElements)
  | _ :: _ =>
      let offset := Z.to_nat (Z.rem variationIndex (Z.of_nat (length (GetBasicElements es)))) in
      let randomFactor := Z.rem variationIndex 10 in
      finish es target elapsed variationIndex
        (bfsLoop target
           (fun current =>
              reorder randomFactor
                (BreadthFirstFinder.getPossibleRecipesThatRespectTiers es current
                   (GetElementTier es current) targetTier))
           (fun _ recipe =>
              allIngredientsLowerTier es recipe (GetElementTier es (Result recipe)))
           (isNewPath target existingPaths)
           (bfsFuel es) (seedState (rotate offset (basicIDs es))))
  end.

(** The workers, each running to completion before the next one starts
    (one of the schedules the admission gate allows). *)
Fixpoint runWorkers (es : ElementStore) (target : string) (elapsed : Z)
    (indices : list nat) (results : list SearchResult) (pathSignatures : gset string)
    : option (list SearchResult) :=
  match indices with
  | [] => Some results
  | index :: rest =>
      match findPathVariation es target (Z.of_nat index) (GetElementTier es target)
              pathSignatures elapsed with
      | None => None
      | Some (inl _) => runWorkers es target elapsed rest results pathSignatures
      | Some (inr result) =>
          runWorkers es target elapsed rest (results ++ [result])
            ({[getPathSignature (Path result)]} ∪ pathSignatures)
      end
  end.

(** [FindMultiplePaths] of the breadth-first engine under that schedule. *)
Definition FindMultiplePaths (es : ElementStore) (target : string) (maxPaths : Z)
    (elapsed : Z) : option (SearchError + list SearchResult) :=
  match Elements es !! target with
  | None => Some (inl ErrElementNotFound)
  | Some _ =>
      match BreadthFirstFinder.FindShortestPath es target elapsed with
      | None => None
      | Some (inl err) => Some (inl err)
      | Some (inr shortestPath) =>
          match runWorkers es target elapsed (seq 0 (Z.to_nat (maxPaths - 1)))
                  [shortestPath]
                  (match Path shortestPath with
                   | [] => ∅
                   | _ :: _ => {[getPathSignature (Path shortestPath)]}
                   end) with
          | None => None
          | Some [] => Some (inl ErrNoPathFound)
          | Some results => Some (inr results)
          end
      end
  end.

End MultiplePaths.

(** *** The admission gate of [FindMultiplePaths]

    [sem := make(chan bool, maxGoroutines)]; the loop sends to [sem] before
    it starts worker [i] ([gate_admit], which needs room in the channel),
    and a worker receives from [sem] when its search is over
    ([gate_release]).  [searching] are the workers in between. *)
Record GateState := mkGateState {
  semLen : nat;
  nextIndex : nat;
  searching : gset nat
}.

(** [maxGoroutines := 4; if maxGoroutines > maxPaths { maxGoroutines = maxPaths }]. *)
Definition maxGoroutines (maxPaths : Z) : Z := if maxPaths <? 4 then maxPaths else 4.

Inductive gateStep (maxPaths : Z) (iterations : nat) : GateState -> GateState -> Prop :=
| gate_admit s :
    (nextIndex s < iterations)%nat ->
    Z.of_nat (semLen s) < maxGoroutines maxPaths ->
    gateStep maxPaths iterations s
      {| semLen := S (semLen s); nextIndex := S (nextIndex s);
         searching := {[nextIndex s]} ∪ searching s |}
| gate_release s index :
    index ∈ searching s ->
    gateStep maxPaths iterations s
      {| semLen := pred (semLen s); nextIndex := nextIndex s;
         searching := searching s ∖ {[index]} |}.

Definition gateStart : GateState := {| semLen := 0; nextIndex := 0; searching := ∅ |}.

(** The states an execution of the loop can be in. *)
Inductive gateReachable (maxPaths : Z) (iterations : nat) : GateState -> Prop :=
| gateReachable_start : gateReachable maxPaths iterations gateStart
| gateReachable_step s s' :
    gateReachable maxPaths iterations s -> gateStep maxPaths iterations s s' ->
    gateReachable maxPaths iterations s'.

(** *** [FindMultiplePaths] of the tier-checking breadth-first engine under
    any schedule (src/unnamed/part_000)

    A worker reads the shared set of signatures once at most: [seen index]
    is what the set holds when worker [index] reads it.  The workers append
    their results under the mutex in some order: [completion] lists the
    worker indices [0 .. maxPaths-2] in that order ([maxPaths] is not
    negative: [make(chan bool, maxGoroutines)] panics otherwise). *)
Module ScheduledPaths.

Fixpoint collect (es : ElementStore) (target : string) (elapsed : Z)
    (seen : nat -> gset string) (completion : list nat) (results : list SearchResult)
    : option (list SearchResult) :=
  match completion with
  | [] => Some results
  | index :: rest =>
      match MultiplePaths.findPathVariation es target (Z.of_nat index)
              (GetElementTier es target) (seen index) elapsed with
      | None => None
      | Some (inl _) => collect es target elapsed seen rest results
      | Some (inr result) => collect es target elapsed seen rest (results ++ [result])
      end
  end.

Definition FindMultiplePaths (es : ElementStore) (target : string)
    (completion : list nat) (seen : nat -> gset string) (elapsed : Z)
    : option (SearchError + list SearchResult) :=
  match Elements es !! target with
  | None => Some (inl ErrElementNotFound)
  | Some _ =>
      match BreadthFirstFinder.FindShortestPath es target elapsed with
      | None => None
      | Some (inl err) => Some (inl err)
      | Some (inr shortestPath) =>
          match collect es target elapsed seen completion [shortestPath] with
          | None => None
          | Some [] => Some (inl ErrNoPathFound)
          | Some results => Some (inr results)
          end
      end
  end.

End ScheduledPaths.

(** *** [FindMultiplePaths] of the tier-checking depth-first engine
    (src/unnamed/part_003)

    The workers run one after the other, each to completion before the next
    one starts (one of the schedules the admission gate allows), so that the
    shared set does not change while a worker searches.  [maxPaths] is not
    negative ([make(chan bool, maxGoroutines)] panics otherwise). *)
Module DepthFirstPaths.

Fixpoint runWorkers (es : ElementStore) (target : string) (elapsed : Z)
    (indices : list nat) (results : list SearchResult) (pathSignatures : gset string)
    : option (list SearchResult) :=
  match indices with
  | [] => Some results
  | index :: rest =>
      match DepthFirstFinder.findPathVariation es target (Z.of_nat index)
              (GetElementTier es target) (fun _ => pathSignatures) elapsed with
      | None => None
      | Some (inl _) => runWorkers es target elapsed rest results pathSignatures
      | Some (inr result) =>
          runWorkers es target elapsed rest (results ++ [result])
            ({[getPathSignature (Path result)]} ∪ pathSignatures)
      end
  end.

Definition FindMultiplePaths (es : ElementStore) (target : string) (maxPaths : Z)
    (elapsed : Z) : option (SearchError + list SearchResult) :=
  match Elements es !! target with
  | None => Some (inl ErrElementNotFound)
  | Some _ =>
      match DepthFirstFinder.FindShortestPath es target elapsed with
      | None => None
      | Some (inl err) => Some (inl err)
      | Some (inr shortestPath) =>
          match runWorkers es target elapsed (seq 0 (Z.to_nat (maxPaths - 1)))
                  [shortestPath]
                  (match Path shortestPath with
                   | [] => ∅
                   | _ :: _ => {[getPathSignature (Path shortestPath)]}
                   end) with
          | None => None
          | Some [] => Some (inl ErrNoPathFound)
          | Some results => Some (inr results)
          end
      end
  end.

End DepthFirstPaths.

(** *** [FindMultiplePaths] of the earlier depth-first engine
    (src/unnamed/part_002) *)
Module DepthFirstPathsV1.

(** [findPathWithVariation]: the depth limit is
    [targetTier * 2 + variationIndex % 5], and the basic elements are tried
    from position [variationIndex % len(basicElements)] on. *)
Definition findPathWithVariation (es : ElementStore) (target : string)
    (variationIndex : Z) (elapsed : Z) : Outcome :=
  match Elements es !! target with
  | None => Some (inl ErrElementNotFound)
  | Some _ =>
      match GetBasicElements es with
      | [] => Some (inl ErrNoBasicElements)
      | _ :: _ =>
          let maxDepth :=
            wrapInt (wrapInt (GetElementTier es target * 2) + Z.rem variationIndex 5) in
          let startElemIndex :=
            Z.rem variationIndex (Z.of_nat (length (GetBasicElements es))) in
          let reorderedElements :=
            if (0 <? startElemIndex) && (1 <? length (GetBasicElements es))%nat
            then rotate (Z.to_nat startElemIndex) (basicIDs es) else basicIDs es in
          finishDepth es target elapsed variationIndex
            (tryStarts target (DepthFirstFinderV1.possibleRecipes es)
               (DepthFirstFinderV1.keepRecipe es) maxDepth reorderedElements
               emptyDepthState)
      end
  end.

(** The workers append under the mutex in some order; a worker's search
    reads nothing another worker writes. *)
Fixpoint collect (es : ElementStore) (target : string) (elapsed : Z)
    (completion : list nat) (results : list SearchResult) : option (list SearchResult) :=
  match completion with
  | [] => Some results
  | index :: rest =>
      match findPathWithVariation es target (Z.of_nat index) elapsed with
      | None => None
      | Some (inl _) => collect es target elapsed rest results
      | Some (inr result) => collect es target elapsed rest (results ++ [result])
      end
  end.

(** [FindMultiplePaths]; [completion] lists the worker indices
    [0 .. maxPaths-1] in the order in which the workers finish. *)
Definition FindMultiplePaths (es : ElementStore) (target : string)
    (completion : list nat) (elapsed : Z) : option (SearchError + list SearchResult) :=
  match Elements es !! target with
  | None => Some (inl ErrElementNotFound)
  | Some _ =>
      match collect es target elapsed completion [] with
      | None => None
      | Some [] => Some (inl ErrNoPathFound)
      | Some results => Some (inr results)
      end
  end.

End DepthFirstPathsV1.

(** *** The variations of the bidirectional engine ([findPathWithVariation],
    src/src/backend/Algorithm/bid.go)

    The loop makes at most [1000 + variationIndex % 500] passes, so the
    search itself always ends; it panics where the source divides by the
    length of an empty list of recipes or indexes [basicElements] by a
    negative number, and where [buildTreeStructure] panics. *)
Module BidirectionalVariation.
Import BidirectionalFinder.

(** [offset := variationIndex % len(recipes)], then
    [recipes = append(recipes[offset:], recipes[:offset]...)] when
    [offset > 0 && len(recipes) > 1]. *)
Definition rotateRecipes (variationIndex : Z) (recipes : list Recipe) : Run (list Recipe) :=
  match recipes with
  | [] => Panics
  | _ :: _ =>
      let offset := Z.rem variationIndex (Z.of_nat (length recipes)) in
      if (0 <? offset) && (1 <? length recipes)%nat
      then Returns (rotate (Z.to_nat offset) recipes)
      else Returns recipes
  end.

(** One forward level. *)
Fixpoint forwardLevel (es : ElementStore) (variationIndex : Z) (levelSize : nat)
    (s : BidState) : Run BidState :=
  match levelSize with
  | O => Returns s
  | S levelSize' =>
      if bidFound s then Returns s
      else
        match forwardQueue s with
        | [] => Panics
        | current :: rest =>
            if decide (current ∈ backwardVisited s)
            then Returns (meet current (popForward rest s))
            else
              match rotateRecipes variationIndex
                      (getValidRecipesWithElementAnyPosition es current) with
              | Returns possibleRecipes =>
                  forwardLevel es variationIndex levelSize'
                    (expandForward es current (tierAt (forwardTier s) current)
                       possibleRecipes (popForward rest s))
              | Panics => Panics
              | Unfinished => Unfinished
              end
        end
  end.

(** [processOrder]: the first two ingredients, swapped, in odd variations. *)
Definition processOrder (variationIndex : Z) (ingredients : list string) : list string :=
  if (Z.rem variationIndex 2 =? 1) && (1 <? length ingredients)%nat
  then match ingredients with
       | first :: second :: _ => [second; first]
       | _ => ingredients
       end
  else ingredients.

(** The backward [for _, recipe := range relevantRecipes]. *)
Fixpoint expandBackward (es : ElementStore) (variationIndex : Z) (current : string)
    (currentTier : Z) (recipes : list Recipe) (s : BidState) : BidState :=
  match recipes with
  | [] => s
  | recipe :: rest =>
      if negb (allIngredientsLowerTier es recipe currentTier)
      then expandBackward es variationIndex current currentTier rest s
      else
        let s' := expandIngredients es current currentTier recipe
                    (processOrder variationIndex (Ingredients recipe)) s in
        if bidFound s' then s'
        else expandBackward es variationIndex current currentTier rest s'
  end.

(** The recipes that make [current]. *)
Definition relevantRecipes (es : ElementStore) (current : string) : list Recipe :=
  List.filter (fun recipe => bool_decide (Result recipe = current)) (Recipes es).

(** One backward level. *)
Fixpoint backwardLevel (es : ElementStore) (variationIndex : Z) (levelSize : nat)
    (s : BidState) : Run BidState :=
  match levelSize with
  | O => Returns s
  | S levelSize' =>
      if bidFound s then Returns s
      else
        match backwardQueue s with
        | [] => Panics
        | current :: rest =>
            if decide (current ∈ forwardVisited s)
            then Returns (meet current (popBackward rest s))
            else
              match rotateRecipes variationIndex (relevantRecipes es current) with
              | Returns recipes =>
                  backwardLevel es variationIndex levelSize'
                    (expandBackward es variationIndex current
                       (tierAt (backwardTier s) current) recipes (popBackward rest s))
              | Panics => Panics
              | Unfinished => Unfinished
              end
        end
  end.

(** [for forwardQueue.Len() > 0 && backwardQueue.Len() > 0 && !found &&
    iterations < maxIterations]; [remaining] is [maxIterations - iterations].
    Odd variations run the backward level before the forward one. *)
Fixpoint bidLoop (es : ElementStore) (variationIndex : Z) (remaining : nat)
    (s : BidState) : Run BidState :=
  match forwardQueue s, backwardQueue s, bidFound s, remaining with
  | _ :: _, _ :: _, false, S remaining' =>
      let doBackwardFirst := Z.rem variationIndex 2 =? 1 in
      match (if doBackwardFirst then Returns s
             else forwardLevel es variationIndex (length (forwardQueue s)) s) with
      | Returns s1 =>
          if bidFound s1 then Returns s1
          else
            match backwardLevel es variationIndex (length (backwardQueue s1)) s1 with
            | Returns s2 =>
                match (if doBackwardFirst
                       then forwardLevel es variationIndex (length (forwardQueue s2)) s2
                       else Returns s2) with
                | Returns s3 => bidLoop es variationIndex remaining' s3
                | Panics => Panics
                | Unfinished => Unfinished
                end
            | Panics => Panics
            | Unfinished => Unfinished
            end
      | Panics => Panics
      | Unfinished => Unfinished
      end
  | _, _, _, _ => Returns s
  end.

(** Both frontiers after their queues were initialised, the basic elements
    in the order [startOffset, startOffset + 1, ...]. *)
Definition initialState (es : ElementStore) (target : string) (startOffset : nat) : BidState :=
  {| forwardQueue := rotate startOffset (basicIDs es);
     forwardVisited := list_to_set (basicIDs es);
     forwardParent := ∅;
     forwardTier := gset_to_gmap 0 (list_to_set (basicIDs es));
     backwardQueue := [target];
     backwardVisited := {[target]};
     backwardParent := ∅;
     backwardTier := {[target := GetElementTier es target]};
     bidVisitedCount := Z.of_nat (length (basicIDs es)) + 1;
     meetingPoint := "";
     bidFound := false |}.

(** [findPathWithVariation]. *)
Definition findPathWithVariation (es : ElementStore) (target : string)
    (variationIndex : Z) (elapsed : Z) : Run (SearchError + SearchResult) :=
  match Elements es !! target with
  | None => Returns (inl ErrElementNotFound)
  | Some _ =>
      match GetBasicElements es with
      | [] => Returns (inl ErrNoBasicElements)
      | _ :: _ =>
          let startOffset := Z.rem variationIndex (Z.of_nat (length (GetBasicElements es))) in
          if startOffset <? 0 then Panics
          else
            match bidLoop es variationIndex (Z.to_nat (1000 + Z.rem variationIndex 500))
                    (initialState es target (Z.to_nat startOffset)) with
            | Returns s =>
                if bidFound s then
                  match reconstructForwardPath es (meetingPoint s) (forwardParent s),
                        reconstructBackwardPath es (meetingPoint s) (backwardParent s) with
                  | Some forwardPath, Some backwardPath =>
                      match treeOf es (forwardPath ++ backwardPath) target with
                      | Returns _ =>
                          Returns (inr {| Path := forwardPath ++ backwardPath;
                                          VisitedNodes := bidVisitedCount s;
                                          ExecutionTime := elapsed;
                                          VariationIndex := variationIndex |})
                      | Panics => Panics
                      | Unfinished => Unfinished
                      end
                  | _, _ => Unfinished
                  end
                else Returns (inl ErrNoPathFound)
            | Panics => Panics
            | Unfinished => Unfinished
            end
      end
  end.

End BidirectionalVariation.

(** ** The searches over element names (package [algorithm]:
    src/src/backend/Algorithm/bfs.go, dfs.go, search.go, graph.go and
    src/unnamed/part_009; [model.Element] of src/src/backend/model/element.go)

    [elements] is a Go map, and [for name, el := range elements] visits its
    entries in an order that the language leaves open and that may change
    from one loop to the next.  The searches take that order as an
    argument: [orders k] is the order of the [k]-th loop that is run, some
    arrangement of the entries of the map. *)
Module Algorithm.

Record Element := mkElement {
  Name : string;
  Recipes : list (list string)
}.

(** [contains]. *)
Definition contains (slice : list string) (s : string) : bool :=
  existsb (fun v => String.eqb v s) slice.

(** A read of [count]: the zero value when the key is absent. *)
Definition countAt (count : gmap string Z) (key : string) : Z := default 0 (count !! key).

(** The second loop of [containsAll]. *)
Fixpoint takeAll (count : gmap string Z) (need : list string) : bool :=
  match need with
  | [] => true
  | n :: rest =>
      if countAt count n =? 0 then false
      else takeAll (<[n := countAt count n - 1]> count) rest
  end.

(** [containsAll]. *)
Definition containsAll (have need : list string) : bool :=
  takeAll (fold_left (fun count h => <[h := countAt count h + 1]> count) have ∅) need.

Record PathNode := mkPathNode {
  NodeName : string;
  Path : list string
}.

Definition base : list string := ["air"; "earth"; "fire"; "water"].

Definition Entries : Type := list (string * Element).

(** The queue and the visited names of [bfs]. *)
Definition Frontier : Type := (list PathNode * gset string)%type.

(** The body of [for _, recipe := range el.Recipes] in [bfs]. *)
Definition tryRecipe (curr : PathNode) (name : string) (st : Frontier)
    (recipe : list string) : Frontier :=
  if containsAll (Path curr) recipe && negb (bool_decide (name ∈ st.2))
  then (st.1 ++ [mkPathNode name (Path curr ++ [name])], {[name]} ∪ st.2)
  else st.

(** The body of [for name, el := range elements] in [bfs]. *)
Definition tryElement (curr : PathNode) (st : Frontier) (entry : string * Element)
    : Frontier :=
  fold_left (tryRecipe curr entry.1) (Recipes entry.2) st.

(** [for len(queue) > 0]; a returned [None] is the nil slice. *)
Fixpoint bfsLoop (target : string) (orders : nat -> Entries) (fuel : nat) (k : nat)
    (st : Frontier) : option (option (list string)) :=
  match st.1 with
  | [] => Some None
  | curr :: rest =>
      if String.eqb (NodeName curr) target then Some (Some (Path curr))
      else
        match fuel with
        | O => None
        | S fuel' =>
            bfsLoop target orders fuel' (S k)
              (fold_left (tryElement curr) (orders k) (rest, st.2))
        end
  end.

(** The queue and the visited names after the loop over [base]. *)
Definition start : Frontier :=
  ((fun b => mkPathNode b [b]) <$> base, list_to_set base).

(** [bfs]: every pass takes one node from the queue, and a name is queued
    once. *)
Definition bfs (target : string) (elements : gmap string Element)
    (orders : nat -> Entries) : option (option (list string)) :=
  bfsLoop target orders (S (length base + size elements)) 0 start.

(** [dfs]: the state is the set of the names marked in [visited] and the
    number of loops over [elements] run so far. *)
Section DepthFirst.
Variable target : string.
Variable orders : nat -> Entries.

(** The result of a call: the slice returned, or [None] for nil. *)
Definition Found : Type := (option (list string) * (gset string * nat))%type.

(** [for _, recipe := range el.Recipes], with [deeper] for the recursive
    call. *)
Fixpoint dfsRecipes (deeper : list string -> gset string -> nat -> option Found)
    (path : list string) (name : string) (recipes : list (list string))
    (visited : gset string) (k : nat) : option Found :=
  match recipes with
  | [] => Some (None, (visited, k))
  | recipe :: rest =>
      if containsAll path recipe then
        match deeper (path ++ [name]) ({[name]} ∪ visited) k with
        | None => None
        | Some (Some res, st) => Some (Some res, st)
        | Some (None, (visited', k')) =>
            dfsRecipes deeper path name rest (visited' ∖ {[name]}) k'
        end
      else dfsRecipes deeper path name rest visited k
  end.

(** [for name, el := range elements]. *)
Fixpoint dfsElements (deeper : list string -> gset string -> nat -> option Found)
    (path : list string) (entries : Entries) (visited : gset string) (k : nat)
    : option Found :=
  match entries with
  | [] => Some (None, (visited, k))
  | (name, el) :: rest =>
      if bool_decide (name ∈ visited) || contains path name
      then dfsElements deeper path rest visited k
      else
        match dfsRecipes deeper path name (Recipes el) visited k with
        | None => None
        | Some (Some res, st) => Some (Some res, st)
        | Some (None, (visited', k')) => dfsElements deeper path rest visited' k'
        end
  end.

Fixpoint dfs (fuel : nat) (path : list string) (visited : gset string) (k : nat)
    : option Found :=
  if contains path target then Some (Some (path ++ [target]), (visited, k))
  else
    match fuel with
    | O => None
    | S fuel' => dfsElements (dfs fuel') path (orders k) visited (S k)
    end.
End DepthFirst.

(** [Search] for one recipe ([multiple] is false): a path, or [None] for
    nil. *)
Definition Search (target algo : string) (elements : gmap string Element)
    (orders : nat -> Entries) : option (option (list string)) :=
  if String.eqb algo "DFS"
  then fst <$> dfs target orders (S (size elements)) [] ∅ 0
  else bfs target elements orders.

(** *** [FindMultipleRecipes]

    Eight workers take paths from a channel that holds up to 100 of them.
    A worker is at the head of its loop ([Receiving]), has new paths left to
    send ([Sending]), has returned, or has panicked on an empty path.  The
    function returns [results] once every worker has returned; the channel
    is closed only after that. *)
Inductive Worker : Type :=
| Receiving
| Sending (paths : list (list string))
| Returned
| Crashed.

Record Pool := mkPool {
  queue : list (list string);
  workers : list Worker;
  results : list (list string)
}.

(** The paths that the loops over [elements] and [el.Recipes] send for
    [path], in the order in which they send them. *)
Definition newPaths (path : list string) (entries : Entries) : list (list string) :=
  flat_map (fun entry : string * Element =>
              if contains path entry.1 then []
              else flat_map (fun recipe => if containsAll path recipe
                                           then [path ++ [entry.1]] else [])
                            (Recipes entry.2))
           entries.

Definition resume (paths : list (list string)) : Worker :=
  match paths with
  | [] => Receiving
  | _ :: _ => Sending paths
  end.

Inductive step (target : string) (max : Z) (elements : gmap string Element)
    : Pool -> Pool -> Prop :=
| step_result s i path rest :
    workers s !! i = Some Receiving -> queue s = path :: rest ->
    last path = Some target ->
    step target max elements s
      {| queue := rest;
         workers := <[i := if max <=? Z.of_nat (length (results s ++ [path]))
                          then Returned else Receiving]> (workers s);
         results := results s ++ [path] |}
| step_expand s i path rest name entries :
    workers s !! i = Some Receiving -> queue s = path :: rest ->
    last path = Some name -> name <> target ->
    entries ≡ₚ map_to_list elements ->
    step target max elements s
      {| queue := rest;
         workers := <[i := resume (newPaths path entries)]> (workers s);
         results := results s |}
| step_crash s i rest :
    workers s !! i = Some Receiving -> queue s = [] :: rest ->
    step target max elements s
      {| queue := rest; workers := <[i := Crashed]> (workers s); results := results s |}
| step_send s i path paths :
    workers s !! i = Some (Sending (path :: paths)) ->
    (length (queue s) < 100)%nat ->
    step target max elements s
      {| queue := queue s ++ [path];
         workers := <[i := resume paths]> (workers s);
         results := results s |}.

(** The pool when the workers are started. *)
Definition launched : Pool :=
  {| queue := (fun b => [b]) <$> base; workers := replicate 8 Receiving; results := [] |}.

(** [FindMultipleRecipes] returns [found]: [wg.Wait()] has seen the eight
    workers return. *)
Definition FindMultipleRecipes (target : string) (elements : gmap string Element)
    (max : Z) (found : list (list string)) : Prop :=
  ∃ s, rtc (step target max elements) launched s
       ∧ Forall (fun w => w = Returned) (workers s)
       ∧ found = results s.

End Algorithm.

(** ** Catalogs and paths used as examples *)

(** The catalog of the specification's scenario. *)
Definition scenarioGroups : list ElementGroup :=
  [ mkElementGroup 0 [mkElement "A" [] ""; mkElement "B" [] ""];
    mkElementGroup 1 [mkElement "C" [["A"; "B"]] ""];
    mkElementGroup 2 [mkElement "D" [["A"; "C"]] ""] ].

Definition scenario : ElementStore := NewElementStore scenarioGroups.

(** A catalog with a recipe whose second ingredient is of a higher tier
    than its result. *)
Definition mixedGroups : list ElementGroup :=
  [ mkElementGroup 0 [mkElement "A" [] ""];
    mkElementGroup 1 [mkElement "C" [["A"; "X"]] ""];
    mkElementGroup 5 [mkElement "X" [] ""] ].

Definition mixed : ElementStore := NewElementStore mixedGroups.

(** A catalog that lists B twice, the second time in a group of tier -2. *)
Definition negativeGroups : list ElementGroup :=
  [ mkElementGroup 0 [mkElement "B" [] ""];
    mkElementGroup (-2) [mkElement "B" [] ""];
    mkElementGroup (-1) [mkElement "D" [["B"; "B"]] ""] ].

Definition negative : ElementStore := NewElementStore negativeGroups.

(** The path of the breadth-first search for D in the scenario, and its
    display tree. *)
Definition scenarioPath : list Recipe := [mkRecipe ["A"; "C"] "D"].

Definition scenarioTree : TreeStructure :=
  {| treeNodes := [ mkDisplayNode "D" "D" "target" 2 "";
                    mkDisplayNode "A" "A" "basic" 0 "";
                    mkDisplayNode "C" "C" "ingredient" 1 "" ];
     treeEdges := [ mkDisplayEdge "A-D" "A" "D"; mkDisplayEdge "C-D" "C" "D" ];
     treeTarget := "D";
     treeRecipes := scenarioPath |}.

(** A catalog whose recipes P = A + Q and Q = P + P lead in a circle, and
    the path of the earlier breadth-first search for Q. *)
Definition loopingGroups : list ElementGroup :=
  [ mkElementGroup 0 [mkElement "A" [] ""];
    mkElementGroup 1 [mkElement "P" [["A"; "Q"]] ""];
    mkElementGroup 2 [mkElement "Q" [["P"; "P"]] ""] ].

Definition looping : ElementStore := NewElementStore loopingGroups.

Definition loopingPath : list Recipe := [mkRecipe ["A"; "Q"] "P"; mkRecipe ["P"; "P"] "Q"].



(** A catalog in which T is made from A alone or from B alone. *)
Definition twoWaysGroups : list ElementGroup :=
  [ mkElementGroup 0 [mkElement "A" [] ""; mkElement "B" [] ""];
    mkElementGroup 1 [mkElement "T" [["A"; "A"]; ["B"; "B"]] ""] ].

Definition twoWays : ElementStore := NewElementStore twoWaysGroups.

(** The signature under which a result is stored in [pathSignatures]. *)
Definition signatureOf (res : SearchResult) : string := getPathSignature (Path res).

(** The two recipes make the same element from the same two ingredients,
    in either order (ingredients after the second are not looked at). *)
Definition sameStep (r1 r2 : Recipe) : Prop :=
  Result r1 = Result r2 ∧ take 2 (Ingredients r1) ≡ₚ take 2 (Ingredients r2).

(** The number of workers of [FindMultipleRecipes] that have returned. *)
Definition hasReturned (w : Algorithm.Worker) : bool :=
  match w with Algorithm.Returned => true | _ => false end.

Definition returned (ws : list Algorithm.Worker) : nat :=
  length (List.filter hasReturned ws).

(** Elements by name: mud is made from water and earth. *)
Definition mudOnly : gmap string Algorithm.Element :=
  {[ "mud"%string := Algorithm.mkElement "mud" [["water"; "earth"]] ]}.







(** ** The properties stated about the engines *)

(** Both ingredients of a recipe are of a lower tier than its result. *)
Definition tierValid (es : ElementStore) (recipe : Recipe) : Prop :=
  ∀ ingredient, ingredient ∈ Ingredients recipe →
    GetElementTier es ingredient < GetElementTier es (Result recipe).

(** A tier-valid path from [x]: recipes of the catalog, each with the
    element reached so far among its ingredients, each tier-valid. *)
Inductive tierPath (es : ElementStore) (x : string) : list Recipe → string → Prop :=
| tierPath_here : tierPath es x [] x
| tierPath_step rs y r :
    tierPath es x rs y → r ∈ Recipes es → y ∈ Ingredients r → tierValid es r →
    tierPath es x (rs ++ [r]) (Result r).

(** The paths of the earlier version: each recipe leads from the element
    reached so far to a result of a higher tier. *)
Inductive progressPath (es : ElementStore) (x : string) : list Recipe → string → Prop :=
| progressPath_here : progressPath es x [] x
| progressPath_step rs y r :
    progressPath es x rs y → r ∈ Recipes es → y ∈ Ingredients r →
    GetElementTier es y < GetElementTier es (Result r) →
    progressPath es x (rs ++ [r]) (Result r).

(** Every ingredient of a recipe of the catalog is an element of the
    catalog. *)
Definition listed (es : ElementStore) : Prop :=
  ∀ recipe, recipe ∈ Recipes es →
    ∀ ingredient, ingredient ∈ Ingredients recipe → is_Some (Elements es !! ingredient).

(** Every backpointer leads to an element of a lower tier. *)
Definition tierDecreasing (es : ElementStore) (parentMap : gmap string RecipeStep) : Prop :=
  ∀ child step, parentMap !! child = Some step →
    GetElementTier es (ParentID step) < GetElementTier es child.

Definition nonNegative (es : ElementStore) (x : string) : Prop := 0 ≤ GetElementTier es x.

(** A tree is built from the path at some depth of the recursion of
    [buildNodes]: the call of [buildTreeStructure] returns. *)
Definition builds (es : ElementStore) (path : list Recipe) (target : string) : Prop :=
  ∃ fuel tree, buildTreeStructure es path target fuel = Returns tree.


(** What is compared of two outcomes: the error, or the recipe path. *)
Definition pathOf (outcome : Outcome) : option (SearchError + list Recipe) :=
  match outcome with
  | None => None
  | Some (inl err) => Some (inl err)
  | Some (inr result) => Some (inr (Path result))
  end.

(** * Proofs *)

#[local] Set Warnings "-clear-no-such-hyp".

(** ** The display tree *)

Lemma recipesByResult_fold path : ∀ (m : gmap string Recipe) element recipe,
  fold_left (fun (m : gmap string Recipe) recipe => <[Result recipe := recipe]> m) path m !! element
  = Some recipe →
  (recipe ∈ path ∧ Result recipe = element) ∨ m !! element = Some recipe.
Proof.
  induction path as [|r path IH]; intros m element recipe; simpl; [by right|].
  intros Hl. apply IH in Hl as [[Hin Hres]|Hl].
  - left. split; [by right|done].
  - destruct (decide (Result r = element)) as [<-|Hne].
    + rewrite lookup_insert_eq in Hl. injection Hl as <-. left. split; [by left|done].
    + rewrite lookup_insert_ne in Hl by done. by right.
Qed.

Lemma recipesByResult_Some path element recipe :
  recipesByResult path !! element = Some recipe → recipe ∈ path ∧ Result recipe = element.
Proof. intros Hl. by apply recipesByResult_fold in Hl as [?|?]. Qed.

Definition edgeOf (ingredient element : string) : DisplayEdge :=
  {| edgeId := edgeName ingredient element; edgeSource := ingredient; edgeTarget := element |}.

Section TreeTheory.
Variable es : ElementStore.
Variable kept : gmap string Recipe.

(** [ingredient] is an ingredient of the recipe kept for [element]. *)
Definition feeds (element ingredient : string) : Prop :=
  ∃ recipe, kept !! element = Some recipe ∧ ingredient ∈ Ingredients recipe.

Record TreeInv (st : TreeState) : Prop := {
  ti_map : ∀ x, x ∈ nodeMap st ↔ x ∈ nodeId <$> nodes st;
  ti_nodup : NoDup (nodeId <$> nodes st);
  ti_nodes : ∀ n, n ∈ nodes st →
    ∃ elem, Elements es !! nodeId n = Some elem
            ∧ nodeLabel n = nodeId n
            ∧ nodeTier n = GetElementTier es (nodeId n)
            ∧ nodeImageUrl n = ImageURL elem;
  ti_edges : ∀ e, e ∈ edges st →
    edgeSource e ∈ nodeMap st ∧ edgeTarget e ∈ nodeMap st
    ∧ feeds (edgeTarget e) (edgeSource e)
    ∧ e = edgeOf (edgeSource e) (edgeTarget e)
}.

(** What a call for [element] adds to the state. *)
Record Post (element : string) (st st' : TreeState) : Prop := {
  post_inv : TreeInv st';
  post_nodes : ∃ more, nodes st' = nodes st ++ more
    ∧ ∀ n, n ∈ more →
        nodeType n = (if IsBasicElement es (nodeId n) then "basic" else "ingredient")%string
        ∧ tc feeds element (nodeId n);
  post_edges : ∃ more, edges st' = edges st ++ more
    ∧ ∀ e, e ∈ more → rtc feeds element (edgeTarget e);
  post_map : nodeMap st ⊆ nodeMap st'
}.

(** Every recipe kept for an element reached from [element] has all its
    ingredients in the tree, each with its edge. *)
Definition Closed (element : string) (st : TreeState) : Prop :=
  ∀ k i, rtc feeds element k → feeds k i → i ∈ nodeMap st ∧ edgeOf i k ∈ edges st.

Lemma Post_refl element st : TreeInv st → Post element st st.
Proof.
  intros Hinv. split; [done| | |done].
  - exists []. rewrite app_nil_r. split; [done|]. intros n Hn. by apply elem_of_nil in Hn.
  - exists []. rewrite app_nil_r. split; [done|]. intros n Hn. by apply elem_of_nil in Hn.
Qed.

Lemma Post_trans element st st1 st2 :
  Post element st st1 → Post element st1 st2 → Post element st st2.
Proof.
  intros [_ (n1 & Hn1 & Hn1') (e1 & He1 & He1') Hm1] [Hinv (n2 & Hn2 & Hn2') (e2 & He2 & He2') Hm2].
  split; [done| | |set_solver].
  - exists (n1 ++ n2). rewrite Hn2, Hn1, app_assoc. split; [done|].
    intros n [Hn|Hn]%elem_of_app; auto.
  - exists (e1 ++ e2). rewrite He2, He1, app_assoc. split; [done|].
    intros e [He|He]%elem_of_app; auto.
Qed.

Lemma Post_lift element ingredient st st' :
  feeds element ingredient → Post ingredient st st' → Post element st st'.
Proof.
  intros Hf [Hinv (n1 & Hn1 & Hn1') (e1 & He1 & He1') Hm1].
  split; [done| | |done].
  - exists n1. split; [done|]. intros n Hn. destruct (Hn1' n Hn) as [Ht Htc].
    split; [done|]. by eapply tc_l.
  - exists e1. split; [done|]. intros e He. eapply rtc_l; [exact Hf|]. by apply He1'.
Qed.

Lemma Closed_mono element st st' :
  Closed element st → nodeMap st ⊆ nodeMap st' → (∃ more, edges st' = edges st ++ more) →
  Closed element st'.
Proof.
  intros Hc Hm (more & He) k i Hk Hi. destruct (Hc k i Hk Hi) as [Hin Hedge].
  split; [set_solver|]. rewrite He. apply elem_of_app. by left.
Qed.

Lemma addNode_post element ingredient st st1 :
  TreeInv st → feeds element ingredient → addNode es ingredient st = Returns st1 →
  Post element st st1 ∧ ingredient ∈ nodeMap st1.
Proof.
  intros Hinv Hf. unfold addNode. destruct (decide (ingredient ∈ nodeMap st)) as [Hin|Hnin].
  - intros [= <-]. split; [by apply Post_refl|done].
  - destruct (Elements es !! ingredient) as [ingElem|] eqn:Hel; [|done].
    intros [= <-]. split; [|simpl; set_solver].
    destruct Hinv as [Hmap Hnd Hnodes Hedges].
    split; simpl.
    + split; simpl.
      * intros x. rewrite fmap_app, elem_of_app, elem_of_union, <- Hmap. simpl.
        rewrite elem_of_singleton, list_elem_of_singleton. tauto.
      * rewrite fmap_app. apply NoDup_app. split; [done|]. split.
        -- intros x Hx. simpl. rewrite list_elem_of_singleton. intros ->.
           by apply Hmap in Hx.
        -- simpl. apply NoDup_singleton.
      * intros n [Hn|Hn]%elem_of_app; [by apply Hnodes|].
        apply list_elem_of_singleton in Hn as ->. simpl. by exists ingElem.
      * intros e He. destruct (Hedges e He) as (? & ? & ? & ?).
        repeat split; [set_solver|set_solver|done|done].
    + eexists. split; [done|]. intros n Hn. apply list_elem_of_singleton in Hn as ->.
      simpl. split; [done|]. by apply tc_once.
    + exists []. rewrite app_nil_r. split; [done|]. intros e He. by apply elem_of_nil in He.
    + set_solver.
Qed.

Lemma addEdge_post element ingredient st :
  TreeInv st → feeds element ingredient → ingredient ∈ nodeMap st → element ∈ nodeMap st →
  Post element st (addEdge ingredient element st)
  ∧ edgeOf ingredient element ∈ edges (addEdge ingredient element st).
Proof.
  intros [Hmap Hnd Hnodes Hedges] Hf Hi He. split; [|simpl; set_solver].
  split; simpl; [| | |done].
  - split; simpl; [done|done|done|].
    intros e [Hin|Hin]%elem_of_app; [by apply Hedges|].
    apply list_elem_of_singleton in Hin as ->. simpl. done.
  - exists []. rewrite app_nil_r. split; [done|]. intros n Hn. by apply elem_of_nil in Hn.
  - eexists. split; [done|]. intros e Hin. apply list_elem_of_singleton in Hin as ->.
    simpl. apply rtc_refl.
Qed.

Lemma Post_edges_grow element st st' :
  Post element st st' → ∀ e, e ∈ edges st → e ∈ edges st'.
Proof. intros [_ _ (more & -> & _) _] e He. apply elem_of_app. by left. Qed.

Lemma addIngredients_post deeper element :
  (∀ i st st', TreeInv st → i ∈ nodeMap st → deeper i st = Returns st' →
               Post i st st' ∧ Closed i st') →
  ∀ ingredients st st',
    (∀ i, i ∈ ingredients → feeds element i) →
    TreeInv st → element ∈ nodeMap st →
    addIngredients es deeper element ingredients st = Returns st' →
    Post element st st'
    ∧ ∀ i, i ∈ ingredients → i ∈ nodeMap st' ∧ edgeOf i element ∈ edges st' ∧ Closed i st'.
Proof.
  intros Hdeeper. induction ingredients as [|i rest IH]; intros st st' Hfeeds Hinv Helem; simpl.
  - intros [= <-]. split; [by apply Post_refl|]. intros i Hi. by apply elem_of_nil in Hi.
  - assert (feeds element i) as Hf by (apply Hfeeds; by left).
    destruct (addNode es i st) as [st1| |] eqn:Hnode; [|done|done].
    destruct (addNode_post element i st st1 Hinv Hf Hnode) as [P1 Hi1].
    assert (element ∈ nodeMap st1) as Helem1 by (by apply (post_map _ _ _ P1)).
    destruct (addEdge_post element i st1 (post_inv _ _ _ P1) Hf Hi1 Helem1) as [P2 Hedge].
    destruct (deeper i (addEdge i element st1)) as [st2| |] eqn:Hdeep; [|done|done].
    destruct (Hdeeper i _ st2 (post_inv _ _ _ P2)) as [P3 Hclosed]; [done|done|].
    intros Hrest.
    assert (Post element st st2) as P02.
    { eapply Post_trans; [exact P1|]. eapply Post_trans; [exact P2|]. by eapply Post_lift. }
    destruct (IH st2 st') as [P4 Hall].
    { intros j Hj. apply Hfeeds. by right. }
    { apply (post_inv _ _ _ P3). }
    { apply (post_map _ _ _ P02), Helem. }
    { done. }
    split; [by eapply Post_trans|].
    intros j [->|Hj]%elem_of_cons; [|by apply Hall].
    split; [|split].
    + apply (post_map _ _ _ P4), (post_map _ _ _ P3). done.
    + apply (Post_edges_grow _ _ _ P4), (Post_edges_grow _ _ _ P3). done.
    + eapply Closed_mono; [exact Hclosed|apply (post_map _ _ _ P4)|].
      destruct (post_edges _ _ _ P4) as (more & Hmore & _). by exists more.
Qed.

Lemma buildNodes_post fuel : ∀ element st st',
  TreeInv st → element ∈ nodeMap st →
  buildNodes es kept fuel element st = Returns st' →
  Post element st st' ∧ Closed element st'.
Proof.
  induction fuel as [|fuel IH]; intros element st st' Hinv Helem; simpl.
  - destruct (kept !! element) as [recipe|] eqn:Hk; [done|].
    intros [= <-]. split; [by apply Post_refl|].
    intros k i Hrtc Hf. apply rtc_inv in Hrtc as [->|(j & [r [Hr _]] & _)].
    + destruct Hf as [r [Hr _]]. congruence.
    + congruence.
  - destruct (kept !! element) as [recipe|] eqn:Hk.
    + intros Hrun.
      destruct (addIngredients_post _ element IH (Ingredients recipe) st st') as [P Hall];
        [|done|done|done|].
      { intros i Hi. by exists recipe. }
      split; [done|].
      intros k i Hrtc Hf. apply rtc_inv in Hrtc as [->|(j & [r [Hr Hj]] & Hrtc)].
      * destruct Hf as [r [Hr Hi]]. assert (r = recipe) as -> by congruence.
        destruct (Hall i Hi) as (? & ? & _). done.
      * assert (r = recipe) as -> by congruence.
        destruct (Hall j Hj) as (_ & _ & Hc). by apply Hc.
    + intros [= <-]. split; [by apply Post_refl|].
      intros k i Hrtc Hf. apply rtc_inv in Hrtc as [->|(j & [r [Hr _]] & _)].
      * destruct Hf as [r [Hr _]]. congruence.
      * congruence.
Qed.

End TreeTheory.

(** *** Termination *)

Lemma filter_length_lt {A} (P Q : A → bool) (l : list A) x :
  (∀ y, P y = true → Q y = true) → x ∈ l → Q x = true → P x = false →
  (length (List.filter P l) < length (List.filter Q l))%nat.
Proof.
  intros HPQ. 
  assert (∀ l, (length (List.filter P l) ≤ length (List.filter Q l))%nat) as Hle.
  { clear l. induction l as [|y l IH]; simpl; [lia|].
    destruct (P y) eqn:HP; [rewrite (HPQ y HP); simpl; lia|].
    destruct (Q y); simpl; lia. }
  induction l as [|y l IH]; intros Hin HQ HP; [by apply elem_of_nil in Hin|].
  apply elem_of_cons in Hin as [<-|Hin]; simpl.
  - rewrite HP, HQ. simpl. specialize (Hle l). lia.
  - specialize (IH Hin HQ HP). destruct (P y) eqn:HPy; [rewrite (HPQ y HPy); simpl; lia|].
    destruct (Q y); simpl; lia.
Qed.

(** The recipes of the path whose result is of a tier at most that of [element]. *)
Definition rank (es : ElementStore) (path : list Recipe) (element : string) : nat :=
  length (List.filter (fun recipe => GetElementTier es (Result recipe) <=? GetElementTier es element)
            path).

Lemma rank_le es path element : (rank es path element ≤ length path)%nat.
Proof. unfold rank. induction path as [|r path IH]; simpl; [lia|]. destruct (_ <=? _); simpl; lia. Qed.

Lemma rank_lt es path element recipe ingredient :
  recipe ∈ path → Result recipe = element →
  GetElementTier es ingredient < GetElementTier es element →
  (rank es path ingredient < rank es path element)%nat.
Proof.
  intros Hin Hres Hlt. unfold rank. apply (filter_length_lt _ _ _ recipe); [|done| |].
  - intros y Hy. apply Z.leb_le in Hy. apply Z.leb_le. lia.
  - apply Z.leb_le. rewrite Hres. lia.
  - apply Z.leb_gt. rewrite Hres. lia.
Qed.

Section TreeTermination.
Variable es : ElementStore.
Variable path : list Recipe.
Hypothesis path_valid : ∀ recipe, recipe ∈ path → tierValid es recipe.

Lemma addIngredients_finishes deeper element ingredients : ∀ st,
  (∀ i st, i ∈ ingredients → deeper i st ≠ Unfinished) →
  addIngredients es deeper element ingredients st ≠ Unfinished.
Proof.
  induction ingredients as [|i rest IH]; intros st Hdeeper; simpl; [done|].
  unfold addNode. destruct (decide (i ∈ nodeMap st)).
  - destruct (deeper i _) as [st2| |] eqn:Hd; [|done|].
    + apply IH. intros j st' Hj. apply Hdeeper. by right.
    + exfalso. eapply Hdeeper; [|exact Hd]. by left.
  - destruct (Elements es !! i); [|done].
    destruct (deeper i _) as [st2| |] eqn:Hd; [|done|].
    + apply IH. intros j st' Hj. apply Hdeeper. by right.
    + exfalso. eapply Hdeeper; [|exact Hd]. by left.
Qed.

Lemma buildNodes_finishes fuel : ∀ element st,
  (rank es path element ≤ fuel)%nat →
  buildNodes es (recipesByResult path) fuel element st ≠ Unfinished.
Proof.
  induction fuel as [|fuel IH]; intros element st Hrank; simpl.
  - destruct (recipesByResult path !! element) as [recipe|] eqn:Hk; [|done].
    apply recipesByResult_Some in Hk as [Hin Hres]. exfalso.
    assert (0 < rank es path element)%nat; [|lia].
    unfold rank. 
    assert (recipe ∈ List.filter (fun recipe =>
              GetElementTier es (Result recipe) <=? GetElementTier es element) path) as Hf.
    { apply list_elem_of_In, filter_In. split; [by apply list_elem_of_In|].
      apply Z.leb_le. rewrite Hres. lia. }
    destruct (List.filter _ path); [by apply elem_of_nil in Hf|simpl; lia].
  - destruct (recipesByResult path !! element) as [recipe|] eqn:Hk; [|done].
    apply recipesByResult_Some in Hk as [Hin Hres].
    apply addIngredients_finishes. intros i st' Hi. apply IH.
    assert (rank es path i < rank es path element)%nat; [|lia].
    apply (rank_lt _ _ _ recipe); [done|done|].
    rewrite <- Hres. by apply path_valid.
Qed.

End TreeTermination.

(** *** More fuel changes nothing *)

Section TreeFuel.
Variable es : ElementStore.
Variable kept : gmap string Recipe.

Definition finished {A} (run : Run A) : Prop := run ≠ Unfinished.

Lemma addIngredients_fuel deeper deeper' element ingredients : ∀ st,
  (∀ i st, finished (deeper i st) → deeper' i st = deeper i st) →
  finished (addIngredients es deeper element ingredients st) →
  addIngredients es deeper' element ingredients st
  = addIngredients es deeper element ingredients st.
Proof.
  induction ingredients as [|i rest IH]; intros st Hd; simpl; [done|].
  destruct (addNode es i st) as [st1| |]; [|done|done].
  destruct (deeper i (addEdge i element st1)) as [st2| |] eqn:Hdeep.
  - rewrite Hd by (by rewrite Hdeep). rewrite Hdeep. by apply IH.
  - rewrite Hd by (by rewrite Hdeep). by rewrite Hdeep.
  - by intros [].
Qed.

Lemma buildNodes_fuel fuel : ∀ fuel' element st,
  (fuel ≤ fuel')%nat →
  finished (buildNodes es kept fuel element st) →
  buildNodes es kept fuel' element st = buildNodes es kept fuel element st.
Proof.
  induction fuel as [|fuel IH]; intros fuel' element st Hle; simpl.
  - destruct fuel'; simpl; destruct (kept !! element); try done; by intros [].
  - destruct fuel' as [|fuel']; [lia|]. simpl.
    destruct (kept !! element) as [recipe|]; [|done].
    apply addIngredients_fuel. intros i st' Hf. apply IH; [lia|done].
Qed.

(** *** No panic when the ingredients reached are elements of the catalog *)

Lemma addIngredients_no_panic deeper element ingredients : ∀ st,
  (∀ i, i ∈ ingredients → is_Some (Elements es !! i)) →
  (∀ i st, i ∈ ingredients → deeper i st ≠ Panics) →
  addIngredients es deeper element ingredients st ≠ Panics.
Proof.
  induction ingredients as [|i rest IH]; intros st Hknown Hdeeper; simpl; [done|].
  unfold addNode. destruct (decide (i ∈ nodeMap st)).
  - destruct (deeper i _) as [st2| |] eqn:Hd; [| |done].
    + apply IH; [intros j Hj; apply Hknown; by right|].
      intros j st' Hj. apply Hdeeper. by right.
    + exfalso. eapply Hdeeper; [|exact Hd]. by left.
  - destruct (Hknown i) as [elem ->]; [by left|].
    destruct (deeper i _) as [st2| |] eqn:Hd; [| |done].
    + apply IH; [intros j Hj; apply Hknown; by right|].
      intros j st' Hj. apply Hdeeper. by right.
    + exfalso. eapply Hdeeper; [|exact Hd]. by left.
Qed.

Lemma buildNodes_no_panic fuel : ∀ element st,
  (∀ k i, rtc (feeds kept) element k → feeds kept k i → is_Some (Elements es !! i)) →
  buildNodes es kept fuel element st ≠ Panics.
Proof.
  induction fuel as [|fuel IH]; intros element st Hknown; simpl.
  - by destruct (kept !! element).
  - destruct (kept !! element) as [recipe|] eqn:Hk; [|done].
    apply addIngredients_no_panic.
    + intros i Hi. apply (Hknown element i); [apply rtc_refl|by exists recipe].
    + intros i st' Hi. apply IH. intros k j Hrtc Hf. apply (Hknown k j); [|done].
      eapply rtc_l; [|exact Hrtc]. by exists recipe.
Qed.

End TreeFuel.

(** *** A cycle of kept recipes *)

Section TreeCycle.
Variable es : ElementStore.
Variable kept : gmap string Recipe.

(** From [element] the kept recipes lead to an element that they lead
    back to. *)
Definition cyclic (element : string) : Prop :=
  ∃ c, rtc (feeds kept) element c ∧ tc (feeds kept) c c.

Lemma cyclic_step element : cyclic element → ∃ i, feeds kept element i ∧ cyclic i.
Proof.
  intros (c & Hrtc & Htc). apply rtc_inv in Hrtc as [->|(i & Hf & Hrtc)].
  - inversion Htc as [? ? Hf|? i ? Hf Htc']; subst.
    + exists c. split; [done|]. exists c. split; [apply rtc_refl|done].
    + exists i. split; [done|]. exists i. split; [apply rtc_refl|].
      eapply tc_rtc_l; [apply tc_rtc, Htc'|]. by apply tc_once.
  - exists i. split; [done|]. by exists c.
Qed.

Lemma addIngredients_stuck deeper element ingredients i : ∀ st st',
  i ∈ ingredients → (∀ st st', deeper i st ≠ Returns st') →
  addIngredients es deeper element ingredients st ≠ Returns st'.
Proof.
  induction ingredients as [|j rest IH]; intros st st' Hin Hdeeper; simpl;
    [by apply elem_of_nil in Hin|].
  destruct (addNode es j st) as [st1| |]; [|done|done].
  destruct (deeper j (addEdge j element st1)) as [st2| |] eqn:Hd; [|done|done].
  apply elem_of_cons in Hin as [->|Hin]; [by destruct (Hdeeper _ _ Hd)|].
  by apply IH.
Qed.

Lemma buildNodes_cyclic fuel : ∀ element st st',
  cyclic element → buildNodes es kept fuel element st ≠ Returns st'.
Proof.
  induction fuel as [|fuel IH]; intros element st st' Hc;
    destruct (cyclic_step _ Hc) as (i & [recipe [Hk Hi]] & Hci); simpl; rewrite Hk; [done|].
  apply (addIngredients_stuck _ _ _ i); [done|]. intros st1 st1'. by apply IH.
Qed.

End TreeCycle.

(** *** The tree of [buildTreeStructure] *)

Definition targetNode (es : ElementStore) (target : string) (targetElem : Element) : DisplayNode :=
  {| nodeId := target; nodeLabel := target; nodeType := "target";
     nodeTier := GetElementTier es target; nodeImageUrl := ImageURL targetElem |}.

Lemma TreeInv_initial es kept target targetElem :
  Elements es !! target = Some targetElem →
  TreeInv es kept {| nodes := [targetNode es target targetElem]; edges := [];
                     nodeMap := {[target]} |}.
Proof.
  intros Hel. split; simpl.
  - intros x. rewrite elem_of_singleton, list_elem_of_singleton. done.
  - apply NoDup_singleton.
  - intros n Hn. apply list_elem_of_singleton in Hn as ->. simpl. by exists targetElem.
  - intros e He. by apply elem_of_nil in He.
Qed.

Lemma buildTreeStructure_Returns es path target fuel tree :
  buildTreeStructure es path target fuel = Returns tree →
  ∃ targetElem st,
    Elements es !! target = Some targetElem
    ∧ buildNodes es (recipesByResult path) fuel target
        {| nodes := [targetNode es target targetElem]; edges := []; nodeMap := {[target]} |}
      = Returns st
    ∧ tree = {| treeNodes := nodes st; treeEdges := edges st;
                treeTarget := target; treeRecipes := path |}.
Proof.
  unfold buildTreeStructure. destruct (Elements es !! target) as [targetElem|]; [|done].
  fold (targetNode es target targetElem).
  destruct (buildNodes _ _ _ _ _) as [st| |] eqn:Hrun; [|done|done].
  intros [= <-]. by exists targetElem, st.
Qed.

Lemma buildTreeStructure_post es path target fuel tree :
  buildTreeStructure es path target fuel = Returns tree →
  ∃ targetElem st,
    Elements es !! target = Some targetElem
    ∧ tree = {| treeNodes := nodes st; treeEdges := edges st;
                treeTarget := target; treeRecipes := path |}
    ∧ Post es (recipesByResult path) target
        {| nodes := [targetNode es target targetElem]; edges := []; nodeMap := {[target]} |} st
    ∧ Closed (recipesByResult path) target st.
Proof.
  intros (targetElem & st & Hel & Hrun & ->)%buildTreeStructure_Returns.
  exists targetElem, st. split; [done|]. split; [done|].
  apply buildNodes_post in Hrun; [done| |simpl; set_solver].
  by apply TreeInv_initial.
Qed.

Lemma buildTreeStructure_fuel es path target fuel fuel' :
  (fuel ≤ fuel')%nat →
  finished (buildTreeStructure es path target fuel) →
  buildTreeStructure es path target fuel' = buildTreeStructure es path target fuel.
Proof.
  intros Hle. unfold buildTreeStructure.
  destruct (Elements es !! target) as [targetElem|]; [|done].
  destruct (buildNodes es _ fuel target _) as [st| |] eqn:Hrun.
  - intros _. rewrite (buildNodes_fuel es _ fuel fuel') by (by rewrite ?Hrun). by rewrite Hrun.
  - intros _. rewrite (buildNodes_fuel es _ fuel fuel') by (by rewrite ?Hrun). by rewrite Hrun.
  - by intros [].
Qed.

Lemma buildTreeStructure_finishes es path target fuel :
  (∀ recipe, recipe ∈ path → tierValid es recipe) →
  (length path ≤ fuel)%nat →
  finished (buildTreeStructure es path target fuel).
Proof.
  intros Hvalid Hfuel. unfold finished, buildTreeStructure.
  destruct (Elements es !! target) as [targetElem|]; [|done].
  destruct (buildNodes es _ fuel target _) as [st| |] eqn:Hrun; [done|done|].
  exfalso. eapply (buildNodes_finishes es path Hvalid); [|exact Hrun].
  pose proof (rank_le es path target). lia.
Qed.

Lemma buildTreeStructure_known es path target fuel tree :
  buildTreeStructure es path target fuel = Returns tree →
  ∀ k i, rtc (feeds (recipesByResult path)) target k → feeds (recipesByResult path) k i →
         is_Some (Elements es !! i).
Proof.
  intros (targetElem & st & Hel & -> & HP & HC)%buildTreeStructure_post k i Hk Hi.
  destruct (HC k i Hk Hi) as [Hin _].
  destruct (post_inv _ _ _ _ _ HP) as [Hmap _ Hnodes _].
  apply Hmap, list_elem_of_fmap in Hin as (n & -> & Hn).
  destruct (Hnodes n Hn) as (elem & Helem & _). by exists elem.
Qed.

Lemma buildTreeStructure_no_panic es path target fuel :
  is_Some (Elements es !! target) →
  (∀ k i, rtc (feeds (recipesByResult path)) target k → feeds (recipesByResult path) k i →
          is_Some (Elements es !! i)) →
  buildTreeStructure es path target fuel ≠ Panics.
Proof.
  intros [targetElem Hel] Hknown. unfold buildTreeStructure. rewrite Hel.
  destruct (buildNodes es _ fuel target _) as [st| |] eqn:Hrun; [done| |done].
  by apply buildNodes_no_panic in Hrun.
Qed.

(** The tree of a path of tier-valid recipes. *)
Lemma buildTreeStructure_valid es path target fuel :
  (∀ recipe, recipe ∈ path → tierValid es recipe) →
  (length path ≤ fuel)%nat →
  buildTreeStructure es path target fuel = buildTreeStructure es path target (length path)
  ∧ (buildTreeStructure es path target fuel = Panics
     ∨ ∃ tree, buildTreeStructure es path target fuel = Returns tree)
  ∧ ((∃ tree, buildTreeStructure es path target fuel = Returns tree)
     ↔ is_Some (Elements es !! target)
       ∧ ∀ k i, rtc (feeds (recipesByResult path)) target k →
                feeds (recipesByResult path) k i → is_Some (Elements es !! i)).
Proof.
  intros Hvalid Hfuel.
  pose proof (buildTreeStructure_finishes es path target fuel Hvalid Hfuel) as Hfin.
  split; [|split].
  - apply buildTreeStructure_fuel; [done|]. by apply buildTreeStructure_finishes.
  - destruct (buildTreeStructure es path target fuel) as [tree| |]; [right; by eexists|by left|done].
  - split.
    + intros [tree Htree]. split; [|by eapply buildTreeStructure_known].
      apply buildTreeStructure_Returns in Htree as (targetElem & _ & -> & _). by eexists.
    + intros [Htarget Hknown].
      pose proof (buildTreeStructure_no_panic es path target fuel Htarget Hknown).
      destruct (buildTreeStructure es path target fuel) as [tree| |]; [by eexists|done|done].
Qed.

Lemma buildTreeStructure_cyclic es path target fuel tree :
  cyclic (recipesByResult path) target →
  buildTreeStructure es path target fuel ≠ Returns tree.
Proof.
  intros Hc (targetElem & st & _ & Hrun & _)%buildTreeStructure_Returns.
  by eapply buildNodes_cyclic.
Qed.

(** *** The depth of the recursion

    Whether a call of [buildNodes] returns, panics or recurses does not
    depend on the nodes and edges collected so far: a node is only ever
    added for an element of the catalog, so the lookup of an ingredient
    fails exactly when the ingredient is not in the catalog.  [shape] is
    that control flow without the state. *)

Section TreeShape.
Variable es : ElementStore.
Variable kept : gmap string Recipe.

Fixpoint shapeIngredients (deeper : string → Run unit) (ingredients : list string) : Run unit :=
  match ingredients with
  | [] => Returns tt
  | ingredient :: rest =>
      match Elements es !! ingredient with
      | None => Panics
      | Some _ =>
          match deeper ingredient with
          | Returns _ => shapeIngredients deeper rest
          | Panics => Panics
          | Unfinished => Unfinished
          end
      end
  end.

Fixpoint shape (fuel : nat) (element : string) : Run unit :=
  match kept !! element with
  | None => Returns tt
  | Some recipe =>
      match fuel with
      | O => Unfinished
      | S fuel' => shapeIngredients (shape fuel') (Ingredients recipe)
      end
  end.

Definition sameEnd {A B} (run : Run A) (run' : Run B) : Prop :=
  match run, run' with
  | Returns _, Returns _ | Panics, Panics | Unfinished, Unfinished => True
  | _, _ => False
  end.

(** Every node collected is an element of the catalog. *)
Definition known (st : TreeState) : Prop :=
  ∀ x, x ∈ nodeMap st → is_Some (Elements es !! x).

Lemma addNode_known ingredient st :
  known st →
  match Elements es !! ingredient with
  | None => addNode es ingredient st = Panics
  | Some _ => ∃ st1, addNode es ingredient st = Returns st1 ∧ known st1
  end.
Proof.
  intros Hk. unfold addNode. destruct (decide (ingredient ∈ nodeMap st)) as [Hin|Hnin].
  - destruct (Hk _ Hin) as [elem ->]. by exists st.
  - destruct (Elements es !! ingredient) as [elem|] eqn:Hel; [|done].
    eexists. split; [done|]. intros x. simpl. rewrite elem_of_union, elem_of_singleton.
    intros [->|Hx]; [by eexists|by apply Hk].
Qed.

Lemma addIngredients_shape deeper deeper' element ingredients : ∀ st,
  (∀ i st, known st →
     sameEnd (deeper i st) (deeper' i) ∧ ∀ st', deeper i st = Returns st' → known st') →
  known st →
  sameEnd (addIngredients es deeper element ingredients st)
          (shapeIngredients deeper' ingredients)
  ∧ ∀ st', addIngredients es deeper element ingredients st = Returns st' → known st'.
Proof.
  induction ingredients as [|i rest IH]; intros st Hd Hk; simpl.
  - split; [done|]. by intros st' [= <-].
  - pose proof (addNode_known i st Hk) as Hnode.
    destruct (Elements es !! i) as [elem|]; [|by rewrite Hnode].
    destruct Hnode as (st1 & -> & Hk1).
    destruct (Hd i (addEdge i element st1) Hk1) as [Hsame Hnext].
    destruct (deeper i (addEdge i element st1)) as [st2| |], (deeper' i) as [[]| |];
      try done.
    apply IH; [done|]. by apply Hnext.
Qed.

Lemma buildNodes_shape fuel : ∀ element st,
  known st →
  sameEnd (buildNodes es kept fuel element st) (shape fuel element)
  ∧ ∀ st', buildNodes es kept fuel element st = Returns st' → known st'.
Proof.
  induction fuel as [|fuel IH]; intros element st Hk; simpl;
    destruct (kept !! element) as [recipe|]; try done.
  - split; [done|]. by intros st' [= <-].
  - by apply addIngredients_shape.
  - split; [done|]. by intros st' [= <-].
Qed.

Lemma shapeIngredients_fuel deeper deeper' ingredients :
  (∀ i, finished (deeper i) → deeper' i = deeper i) →
  finished (shapeIngredients deeper ingredients) →
  shapeIngredients deeper' ingredients = shapeIngredients deeper ingredients.
Proof.
  intros Hd. induction ingredients as [|i rest IH]; simpl; [done|].
  destruct (Elements es !! i); [|done].
  destruct (deeper i) as [[]| |] eqn:Hdeep.
  - rewrite Hd by (by rewrite Hdeep). by rewrite Hdeep.
  - rewrite Hd by (by rewrite Hdeep). by rewrite Hdeep.
  - by intros [].
Qed.

Lemma shape_fuel fuel : ∀ fuel' element,
  (fuel ≤ fuel')%nat → finished (shape fuel element) →
  shape fuel' element = shape fuel element.
Proof.
  induction fuel as [|fuel IH]; intros fuel' element Hle; simpl.
  - destruct fuel'; simpl; destruct (kept !! element); try done; by intros [].
  - destruct fuel' as [|fuel']; [lia|]. simpl.
    destruct (kept !! element) as [recipe|]; [|done].
    apply shapeIngredients_fuel. intros i Hf. apply IH; [lia|done].
Qed.

(** [fuel] is the least depth at which the call for [element] is over. *)
Definition least (fuel : nat) (element : string) : Prop :=
  finished (shape fuel element)
  ∧ ∀ fuel', (fuel' < fuel)%nat → shape fuel' element = Unfinished.

Lemma finished_dec {A} (run : Run A) : {finished run} + {run = Unfinished}.
Proof. destruct run; [left|left|right]; done. Qed.

Lemma least_exists fuel : ∀ element,
  finished (shape fuel element) → ∃ fuel', (fuel' ≤ fuel)%nat ∧ least fuel' element.
Proof.
  induction fuel as [|fuel IH]; intros element Hfin.
  - exists 0%nat. split; [done|]. split; [done|]. intros; lia.
  - destruct (finished_dec (shape fuel element)) as [Hf|Hu].
    + destruct (IH element Hf) as (fuel' & Hle & Hl). exists fuel'. split; [lia|done].
    + exists (S fuel). split; [done|]. split; [done|]. intros fuel' Hlt.
      destruct (finished_dec (shape fuel' element)) as [Hf|Hu']; [|done].
      rewrite <- (shape_fuel fuel' fuel element) by (lia || done). done.
Qed.

Lemma shapeIngredients_least deeper deeper' ingredients :
  (∀ i, finished (deeper' i) → deeper i = deeper' i) →
  finished (shapeIngredients deeper ingredients) →
  shapeIngredients deeper' ingredients = Unfinished →
  ∃ i, i ∈ ingredients ∧ finished (deeper i) ∧ deeper' i = Unfinished.
Proof.
  intros Hd. induction ingredients as [|i rest IH]; simpl; [done|].
  destruct (Elements es !! i); [|done].
  destruct (deeper' i) as [[]| |] eqn:Hd'.
  - rewrite Hd by (by rewrite Hd'). rewrite Hd'.
    intros Hf Hu. destruct (IH Hf Hu) as (j & Hj & ?). exists j. split; [by right|done].
  - rewrite Hd by (by rewrite Hd'). by rewrite Hd'.
  - destruct (deeper i) as [[]| |] eqn:Hdeep.
    + intros _ _. exists i. split; [by left|]. by rewrite Hdeep.
    + intros _ _. exists i. split; [by left|]. by rewrite Hdeep.
    + by intros [].
Qed.

Lemma least_step fuel element :
  least (S fuel) element →
  is_Some (kept !! element) ∧ (fuel = 0%nat ∨ ∃ i, least fuel i).
Proof.
  intros [Hfin Hmin].
  pose proof (Hmin fuel ltac:(lia)) as Hu.
  assert (is_Some (kept !! element)) as [recipe Hk].
  { destruct fuel; simpl in Hu; destruct (kept !! element); by eauto. }
  split; [by eexists|].
  destruct fuel as [|fuel]; [by left|right].
  simpl in Hu, Hfin. rewrite Hk in Hu, Hfin.
  destruct (shapeIngredients_least (shape (S fuel)) (shape fuel) (Ingredients recipe))
    as (i & Hi & Hf & Hu'); [|done|done|].
  { intros i Hf. by apply shape_fuel; [lia|]. }
  exists i. split; [done|]. intros fuel' Hlt.
  destruct (finished_dec (shape fuel' i)) as [Hf'|]; [|done].
  rewrite <- (shape_fuel fuel' fuel i) by (lia || done). done.
Qed.

(** The least depths along a chain of calls are pairwise different, so
    there are as many kept recipes. *)
Lemma least_bound fuel : ∀ element (seen : gset string),
  least fuel element → seen ⊆ dom kept →
  (∀ y, y ∈ seen → shape fuel y = Unfinished) →
  (fuel + size seen ≤ size (dom kept))%nat.
Proof.
  induction fuel as [|fuel IH]; intros element seen Hl Hsub Hseen.
  - simpl. by apply subseteq_size.
  - destruct (least_step _ _ Hl) as [Hkey Hnext].
    assert (element ∉ seen) as Hnew.
    { intros Hin. destruct Hl as [Hfin _]. by apply Hfin, Hseen. }
    assert ({[element]} ∪ seen ⊆ dom kept) as Hsub'.
    { apply union_subseteq. split; [|done]. apply singleton_subseteq_l, elem_of_dom. exact Hkey. }
    assert (size ({[element]} ∪ seen) = S (size seen)) as Hsize.
    { rewrite size_union by set_solver. by rewrite size_singleton. }
    destruct Hnext as [->|[i Hi]].
    + apply subseteq_size in Hsub'. lia.
    + specialize (IH i ({[element]} ∪ seen) Hi Hsub'). rewrite Hsize in IH.
      assert (∀ y, y ∈ {[element]} ∪ seen → shape fuel y = Unfinished) as Hseen';
        [|specialize (IH Hseen'); lia].
      intros y [->%elem_of_singleton|Hy]%elem_of_union.
      * destruct Hl as [_ Hmin]. apply Hmin. lia.
      * destruct (finished_dec (shape fuel y)) as [Hf|]; [|done].
        rewrite <- (shape_fuel fuel (S fuel) y) by (lia || done). by apply Hseen.
Qed.

(** A call that is over at some depth is over at the depth of the number
    of kept recipes. *)
Lemma shape_settled fuel element :
  finished (shape fuel element) → finished (shape (size (dom kept)) element).
Proof.
  intros Hfin. destruct (least_exists fuel element Hfin) as (fuel' & _ & Hl).
  pose proof (least_bound fuel' element ∅ Hl ltac:(set_solver) ltac:(set_solver)) as Hb.
  rewrite size_empty in Hb.
  rewrite (shape_fuel fuel' (size (dom kept)) element) by (lia || apply Hl). apply Hl.
Qed.

End TreeShape.

Lemma recipesByResult_size path : (size (dom (recipesByResult path)) ≤ length path)%nat.
Proof.
  unfold recipesByResult.
  assert (∀ m : gmap string Recipe,
            (size (dom (fold_left (fun (m : gmap string Recipe) recipe =>
                                     <[Result recipe := recipe]> m) path m))
             ≤ size (dom m) + length path)%nat) as H.
  { induction path as [|r path IH]; intros m; simpl; [lia|].
    etrans; [apply IH|]. rewrite dom_insert.
    assert (size ({[Result r]} ∪ dom m) ≤ S (size (dom m)))%nat; [|lia].
    rewrite size_union_alt, size_singleton.
    assert (size (dom m ∖ {[Result r]}) ≤ size (dom m))%nat; [|lia].
    apply subseteq_size. set_solver. }
  specialize (H ∅). rewrite dom_empty, size_empty in H. lia.
Qed.

(** Whatever a depth of the length of the path leaves unfinished has no
    end: a greater depth changes nothing. *)
Lemma buildTreeStructure_settled es path target fuel :
  (length path ≤ fuel)%nat →
  buildTreeStructure es path target fuel = treeOf es path target.
Proof.
  intros Hle. unfold treeOf.
  destruct (finished_dec (buildTreeStructure es path target (length path))) as [Hf|Hu];
    [by apply buildTreeStructure_fuel|].
  rewrite Hu. revert Hu. unfold buildTreeStructure.
  destruct (Elements es !! target) as [targetElem|] eqn:Hel; [|done].
  set (st := {| nodes := _ |}).
  assert (known es st) as Hk.
  { intros x Hx. simpl in Hx. apply elem_of_singleton in Hx as ->. by eexists. }
  destruct (buildNodes_shape es (recipesByResult path) (length path) target st Hk) as [H1 _].
  destruct (buildNodes_shape es (recipesByResult path) fuel target st Hk) as [H2 _].
  destruct (buildNodes es _ (length path) target st) as [st1| |]; [done|done|]. intros _.
  destruct (shape es _ (length path) target) as [[]| |] eqn:Hs1; try done.
  destruct (finished_dec (shape es (recipesByResult path) fuel target)) as [Hf|Hu].
  - apply shape_settled in Hf.
    rewrite <- (shape_fuel es _ _ (length path) target) in Hf;
      [|apply recipesByResult_size|done]. by rewrite Hs1 in Hf.
  - rewrite Hu in H2. by destruct (buildNodes es _ fuel target st).
Qed.

Lemma builds_treeOf es path target :
  builds es path target ↔ ∃ tree, treeOf es path target = Returns tree.
Proof.
  split.
  - intros (fuel & tree & Hrun). exists tree.
    destruct (Nat.le_ge_cases (length path) fuel) as [Hle|Hge].
    + by rewrite <- (buildTreeStructure_settled es path target fuel).
    + unfold treeOf. rewrite (buildTreeStructure_fuel es path target fuel) by (by rewrite ?Hrun).
      done.
  - intros [tree Hrun]. by exists (length path), tree.
Qed.

(** Every ingredient of a recipe of the catalog is an element of it. *)
Lemma treeOf_listed es path target :
  (∀ recipe, recipe ∈ path → tierValid es recipe) →
  (∀ recipe, recipe ∈ path → recipe ∈ Recipes es) →
  listed es → is_Some (Elements es !! target) →
  ∃ tree, treeOf es path target = Returns tree.
Proof.
  intros Hvalid Hcat Hlisted Htarget.
  apply (buildTreeStructure_valid es path target (length path) Hvalid); [done|].
  split; [done|]. intros k i _ (recipe & [Hin _]%recipesByResult_Some & Hi).
  by eapply Hlisted; [apply Hcat|].
Qed.

(** What [finish] gives back. *)
Lemma finish_iff es target elapsed variationIndex final res :
  finish es target elapsed variationIndex final = Some (inr res) ↔
  ∃ s path, final = Some s ∧ found s = true
    ∧ reconstructPath target (parent s) = Some path ∧ builds es path target
    ∧ res = {| Path := path; VisitedNodes := visitedCount s;
               ExecutionTime := elapsed; VariationIndex := variationIndex |}.
Proof.
  unfold finish. split.
  - destruct final as [s|]; [|done]. destruct (found s) eqn:Hf; [|done].
    destruct (reconstructPath target (parent s)) as [path|] eqn:Hp; [|done].
    destruct (treeOf es path target) as [tree| |] eqn:Ht; [|done|done].
    intros [= <-]. exists s, path. repeat split; try done. apply builds_treeOf. by exists tree.
  - intros (s & path & -> & -> & -> & [tree ->]%builds_treeOf & ->). done.
Qed.

Lemma finish_error es target elapsed variationIndex final err :
  finish es target elapsed variationIndex final = Some (inl err) ↔
  err = ErrNoPathFound ∧ ∃ s, final = Some s ∧ found s = false.
Proof.
  unfold finish. split.
  - destruct final as [s|]; [|done]. destruct (found s) eqn:Hf.
    + destruct (reconstructPath target (parent s)) as [path|]; [|done].
      by destruct (treeOf es path target).
    + intros [= <-]. split; [done|]. by exists s.
  - intros (-> & s & -> & ->). done.
Qed.


Lemma finishDepth_iff es target elapsed variationIndex final res :
  finishDepth es target elapsed variationIndex final = Some (inr res) ↔
  ∃ s path, final = Some (true, s)
    ∧ reconstructPath target (dfsParent s) = Some path ∧ builds es path target
    ∧ res = {| Path := path; VisitedNodes := dfsVisitedCount s;
               ExecutionTime := elapsed; VariationIndex := variationIndex |}.
Proof.
  unfold finishDepth. split.
  - destruct final as [[[] s]|]; [|done|done].
    destruct (reconstructPath target (dfsParent s)) as [path|] eqn:Hp; [|done].
    destruct (treeOf es path target) as [tree| |] eqn:Ht; [|done|done].
    intros [= <-]. exists s, path. repeat split; try done. apply builds_treeOf. by exists tree.
  - intros (s & path & -> & -> & [tree ->]%builds_treeOf & ->). done.
Qed.

Lemma finishDepth_error es target elapsed variationIndex final err :
  finishDepth es target elapsed variationIndex final = Some (inl err) ↔
  err = ErrNoPathFound ∧ ∃ s, final = Some (false, s).
Proof.
  unfold finishDepth. split.
  - destruct final as [[[] s]|]; [|by intros [= <-]; eauto|done].
    destruct (reconstructPath target (dfsParent s)) as [path|]; [|done].
    by destruct (treeOf es path target).
  - intros (-> & s & ->). done.
Qed.

Lemma finishDepth_result es target elapsed variationIndex final res :
  finishDepth es target elapsed variationIndex final = Some (inr res) →
  ∃ s, final = Some (true, s) ∧ reconstructPath target (dfsParent s) = Some (Path res).
Proof. intros (s & path & -> & Hp & _ & ->)%finishDepth_iff. by exists s. Qed.

Lemma finish_result es target elapsed variationIndex final res :
  finish es target elapsed variationIndex final = Some (inr res) →
  ∃ s, final = Some s ∧ found s = true
       ∧ reconstructPath target (parent s) = Some (Path res)
       ∧ VisitedNodes res = visitedCount s.
Proof. intros (s & path & -> & Hf & Hp & _ & ->)%finish_iff. by exists s. Qed.

(** What the tail of a search gives when the loop found the target. *)
Lemma finish_found es target elapsed variationIndex s path :
  found s = true → reconstructPath target (parent s) = Some path →
  (builds es path target
   ∧ ∃ res, finish es target elapsed variationIndex (Some s) = Some (inr res)
            ∧ Path res = path)
  ∨ (¬ builds es path target
     ∧ finish es target elapsed variationIndex (Some s) = None).
Proof.
  intros Hf Hp. unfold finish. rewrite Hf, Hp, builds_treeOf.
  destruct (treeOf es path target) as [tree| |].
  - left. split; [by exists tree|]. by eexists.
  - right. split; [by intros [? ?]|done].
  - right. split; [by intros [? ?]|done].
Qed.

(** ** The scenario of the specification, run

    The breadth-first search for D reaches D from A by the recipe A + C
    alone: a recipe is followed from one of its ingredients, whether or not
    the other one was made. *)

Example scenario_bfs :
  Path <$> (BreadthFirstFinder.FindShortestPath scenario "D" 0 ≫= (fun r => match r with inr x => Some x | _ => None end))
  = Some [mkRecipe ["A"; "C"] "D"].
Proof. vm_compute. reflexivity. Qed.

Example scenario_bid :
  BidirectionalFinder.FindShortestPath scenario "D" 7
  = Some (inr {| Path := [mkRecipe ["A"; "C"] "D"]; VisitedNodes := 5;
                 ExecutionTime := 7; VariationIndex := 0 |}).
Proof. vm_compute. reflexivity. Qed.

Example scenario_multiple_v1 :
  (fun o => match o with Some (inr rs) => Some (Path <$> rs) | _ => None end)
    (MultiplePathsV1.FindMultiplePaths scenario "D" [0; 1]%nat 0)
  = Some [[mkRecipe ["A"; "C"] "D"]; [mkRecipe ["A"; "C"] "D"]].
Proof. vm_compute. reflexivity. Qed.

Example scenario_multiple :
  (fun o => match o with Some (inr rs) => Some (Path <$> rs) | _ => None end)
    (MultiplePaths.FindMultiplePaths scenario "D" 3 0)
  = Some [[mkRecipe ["A"; "C"] "D"]; [mkRecipe ["A"; "C"] "D"]; [mkRecipe ["A"; "C"] "D"]].
Proof. vm_compute. reflexivity. Qed.

(** ** The checks of the engines, as propositions *)

Lemma isIngredient_spec x r : isIngredient x r = true ↔ x ∈ Ingredients r.
Proof.
  unfold isIngredient. rewrite existsb_exists. split.
  - intros (y & Hy & Heq). apply String.eqb_eq in Heq as ->. by apply list_elem_of_In.
  - intros H. exists x. split; [by apply list_elem_of_In|apply String.eqb_refl].
Qed.

Lemma allIngredientsLowerTier_spec es r t :
  allIngredientsLowerTier es r t = true
  ↔ ∀ ing, ing ∈ Ingredients r → GetElementTier es ing < t.
Proof.
  unfold allIngredientsLowerTier. rewrite forallb_forall. split.
  - intros H ing Hing. apply list_elem_of_In, H in Hing.
    apply negb_true_iff, Z.leb_gt in Hing. lia.
  - intros H ing Hing. apply list_elem_of_In, H in Hing.
    apply negb_true_iff, Z.leb_gt. lia.
Qed.

Lemma reconstructPath_tierDecreasing es parentMap :
  tierDecreasing es parentMap → ∀ x, is_Some (reconstructPath x parentMap).
Proof.
  intros Hdec. unfold reconstructPath.
  set (below (x : string) := filter (fun k => GetElementTier es k ≤ GetElementTier es x)
                                    (dom parentMap)).
  assert (Hgo : ∀ fuel x acc, (size (below x) ≤ fuel)%nat →
            is_Some (reconstructPathFrom fuel parentMap x acc)).
  { induction fuel as [|fuel IH]; intros x acc Hsz.
    - simpl. destruct (parentMap !! x) as [st|] eqn:Hp; [|eauto].
      assert (x ∈ below x) by (apply elem_of_filter; split; [lia|by apply elem_of_dom]).
      assert (Hz : size (below x) = 0%nat) by lia.
      apply size_empty_inv in Hz. set_solver.
    - simpl. destruct (parentMap !! x) as [st|] eqn:Hp; [|eauto].
      apply IH. pose proof (Hdec _ _ Hp) as Hlt.
      assert (Hsub : below (ParentID st) ⊂ below x).
      { split.
        - intros k. unfold below. rewrite !elem_of_filter. intros [? ?]. split; [lia|done].
        - intros Hsub. assert (Hx : x ∈ below x).
          { apply elem_of_filter; split; [lia|by apply elem_of_dom]. }
          apply Hsub in Hx. apply elem_of_filter in Hx as [? _]. lia. }
      apply subset_size in Hsub. lia. }
  intros x. apply Hgo. rewrite <- size_dom. apply subseteq_size.
  intros k Hk. by apply elem_of_filter in Hk as [_ ?].
Qed.

(** ** The breadth-first loop finds a shortest chain *)

Section BreadthFirstTheory.
Variable target : string.
Variable possible : string -> list Recipe.
Variable keep : string -> Recipe -> bool.
Variable basics : list string.

Definition edge (x : string) (r : Recipe) (y : string) : Prop :=
  r ∈ possible x ∧ keep x r = true ∧ Result r = y.

Inductive chain (x : string) : list Recipe -> string -> Prop :=
| chain_here : chain x [] x
| chain_step rs y r z : chain x rs y -> edge y r z -> chain x (rs ++ [r]) z.

Record Levels (s : SearchState) (lev : gmap string nat) : Prop := {
  lev_dom : ∀ x, x ∈ visited s ↔ is_Some (lev !! x);
  lev_parent_dom : ∀ x st, parent s !! x = Some st → x ∈ visited s;
  lev_root : ∀ x, x ∈ visited s → parent s !! x = None → lev !! x = Some 0%nat ∧ x ∈ basics;
  lev_child : ∀ x st, parent s !! x = Some st →
     ∃ n, lev !! ParentID st = Some n ∧ lev !! x = Some (S n)
          ∧ edge (ParentID st) (StepRecipe st) x
}.

Record Inv (s : SearchState) (lev : gmap string nat) (h : nat)
    (cur : string) (pending : list Recipe) : Prop := {
  inv_levels : Levels s lev;
  inv_queue : ∃ A B, queue s = A ++ B
      ∧ (∀ x, x ∈ A → lev !! x = Some h) ∧ (∀ x, x ∈ B → lev !! x = Some (S h));
  inv_bound : ∀ x n, lev !! x = Some n → (n ≤ S h)%nat;
  inv_closed : ∀ x r, x ∈ visited s → x ∉ queue s → edge x r (Result r) →
      Result r ∈ visited s ∨ (x = cur ∧ r ∈ pending);
  inv_short : ∀ x rs y, x ∈ basics → chain x rs y → (length rs ≤ h)%nat →
      ∃ n, lev !! y = Some n ∧ (n ≤ length rs)%nat;
  inv_target : target ∈ visited s → target ∈ queue s;
  inv_found : found s = false
}.

Definition Minimal (s : SearchState) : Prop :=
  ∃ lev n, Levels s lev ∧ lev !! target = Some n
    ∧ ∀ x rs, x ∈ basics → chain x rs target → (n ≤ length rs)%nat.

Lemma Levels_discover s lev cur r n :
  Levels s lev → lev !! cur = Some n → Result r ∉ visited s → edge cur r (Result r) →
  Levels (discover cur r s) (<[Result r := S n]> lev).
Proof.
  intros [Hd Hpd Hr Hc] Hcur Hnv He.
  assert (Hlr : lev !! Result r = None).
  { destruct (lev !! Result r) eqn:E; [|done]. exfalso. apply Hnv, Hd. eauto. }
  assert (Hne : cur ≠ Result r) by (intros ->; congruence).
  split; simpl.
  - intros x. rewrite elem_of_union, elem_of_singleton, Hd.
    destruct (decide (x = Result r)) as [->|Hx].
    + rewrite lookup_insert_eq. naive_solver.
    + rewrite lookup_insert_ne by done. naive_solver.
  - intros x st. destruct (decide (x = Result r)) as [->|Hx].
    + set_solver.
    + rewrite lookup_insert_ne by done. intros H. apply Hpd in H. set_solver.
  - intros x Hx. destruct (decide (x = Result r)) as [->|Hxr].
    + rewrite lookup_insert_eq. done.
    + rewrite !lookup_insert_ne by done. intros Hp. apply Hr; [set_solver|done].
  - intros x st. destruct (decide (x = Result r)) as [->|Hxr].
    + rewrite lookup_insert_eq. intros [= <-]. simpl.
      exists n. rewrite lookup_insert_ne by done. rewrite lookup_insert_eq. done.
    + rewrite lookup_insert_ne by done. intros Hp.
      destruct (Hc _ _ Hp) as (m & Hm1 & Hm2 & Hm3).
      exists m. rewrite !lookup_insert_ne; [done|done|].
      intros Heq. rewrite <- Heq in Hm1. congruence.
Qed.

Lemma Levels_withFound b s lev : Levels s lev → Levels (withFound b s) lev.
Proof. intros [? ? ? ?]. by split. Qed.

Lemma Levels_withQueue q s lev : Levels s lev → Levels (withQueue q s) lev.
Proof. intros [? ? ? ?]. by split. Qed.

Lemma lev_unvisited s lev x : Levels s lev → x ∉ visited s → lev !! x = None.
Proof.
  intros HL Hx. destruct (lev !! x) eqn:E; [|done].
  exfalso. apply Hx, (lev_dom _ _ HL). eauto.
Qed.

Lemma expand_inv pending : ∀ s lev h cur,
  Inv s lev h cur pending → lev !! cur = Some h →
  (∀ r, r ∈ pending → r ∈ possible cur) →
  (∃ lev', Inv (expand target keep (λ _, true) cur pending s) lev' h cur []
           ∧ lev' !! cur = Some h)
  ∨ (found (expand target keep (λ _, true) cur pending s) = true
     ∧ Minimal (expand target keep (λ _, true) cur pending s)).
Proof.
  induction pending as [|r rest IH]; intros s lev h cur HI Hcur Hsub; simpl.
  { left. eauto. }
  assert (Hsub' : ∀ r', r' ∈ rest → r' ∈ possible cur).
  { intros r' Hr'. apply Hsub. by right. }
  destruct (keep cur r) eqn:Hkeep; simpl.
  2:{ apply (IH s lev); [|done|done].
      destruct HI as [HL HQ HB HC HS HT HF]. split; try done.
      intros x r' Hx Hq He. destruct (HC x r' Hx Hq He) as [?|[-> Hr']]; [by left|].
      apply elem_of_cons in Hr' as [->|Hr']; [|by right].
      destruct He as (_ & He & _). congruence. }
  destruct (decide (Result r ∈ visited s)) as [Hv|Hnv].
  { apply (IH s lev); [|done|done].
    destruct HI as [HL HQ HB HC HS HT HF]. split; try done.
    intros x r' Hx Hq He. destruct (HC x r' Hx Hq He) as [?|[-> Hr']]; [by left|].
    apply elem_of_cons in Hr' as [->|Hr']; [by left|by right]. }
  assert (Hedge : edge cur r (Result r)).
  { split; [apply Hsub; by left|done]. }
  pose proof (inv_levels _ _ _ _ _ HI) as HL.
  pose proof (lev_unvisited _ _ _ HL Hnv) as Hnone.
  pose proof (Levels_discover _ _ _ _ _ HL Hcur Hnv Hedge) as HL'.
  assert (Hne : cur ≠ Result r) by (intros Heq; rewrite <- Heq in Hnone; congruence).
  destruct (decide (Result r = target)) as [Htgt|Hntgt].
  - right. split; [done|].
    exists (<[Result r := S h]> lev), (S h). split; [by apply Levels_withFound|].
    split; [rewrite <- Htgt; apply lookup_insert_eq|].
    intros x rs Hx Hch. destruct (decide (length rs ≤ h)%nat) as [Hle|]; [|lia].
    destruct (inv_short _ _ _ _ _ HI x rs target Hx Hch Hle) as (n & Hn & _).
    rewrite <- Htgt in Hn. congruence.
  - apply (IH _ (<[Result r := S h]> lev)); [|by rewrite lookup_insert_ne|done].
    destruct HI as [_ HQ HB HC HS HT HF]. split; try done.
    + destruct HQ as (A & B & HAB & HA & HBl).
      exists A, (B ++ [Result r]). simpl. rewrite HAB, app_assoc. split; [done|]. split.
      * intros x Hx. rewrite lookup_insert_ne; [by apply HA|].
        intros <-. specialize (HA _ Hx). congruence.
      * intros x Hx. apply elem_of_app in Hx as [Hx|Hx].
        -- rewrite lookup_insert_ne; [by apply HBl|].
           intros <-. specialize (HBl _ Hx). congruence.
        -- apply list_elem_of_singleton in Hx as ->. apply lookup_insert_eq.
    + intros x n. destruct (decide (x = Result r)) as [->|Hx].
      * rewrite lookup_insert_eq. intros [= <-]. lia.
      * rewrite lookup_insert_ne by done. apply HB.
    + simpl. intros x r' Hx Hq He.
      apply elem_of_union in Hx as [Hx|Hx].
      { apply elem_of_singleton in Hx as ->. exfalso. apply Hq.
        apply elem_of_app. right. by left. }
      assert (Hq' : x ∉ queue s).
      { intros Hin. apply Hq. apply elem_of_app. by left. }
      destruct (HC x r' Hx Hq' He) as [?|[-> Hr']]; [left; set_solver|].
      apply elem_of_cons in Hr' as [->|Hr']; [left; set_solver|by right].
    + intros x rs y Hx Hch Hle.
      destruct (HS x rs y Hx Hch Hle) as (n & Hn & Hnle).
      exists n. split; [|done]. rewrite lookup_insert_ne; [done|].
      intros <-. congruence.
    + simpl. intros Ht. apply elem_of_app. left. apply HT. set_solver.
Qed.

Lemma Inv_next_level s lev h cur :
  Inv s lev h cur [] → (∀ x, x ∈ queue s → lev !! x = Some (S h)) →
  Inv s lev (S h) cur [].
Proof.
  intros [HL HQ HB HC HS HT HF] Hall. split; try done.
  - exists (queue s), []. rewrite app_nil_r. split; [done|]. split; [done|].
    intros x Hx. by apply elem_of_nil in Hx.
  - intros x n Hn. specialize (HB x n Hn). lia.
  - intros x rs y Hx Hch Hle.
    destruct (decide (length rs ≤ h)%nat) as [Hle'|Hgt]; [by apply (HS x)|].
    destruct Hch as [|rs' y' r z Hch He].
    { simpl in *. lia. }
    rewrite length_app in Hle, Hgt. simpl in Hle, Hgt.
    destruct (HS x rs' y' Hx Hch ltac:(lia)) as (n & Hn & Hnle).
    assert (Hy' : y' ∈ visited s) by (apply (lev_dom _ _ HL); eauto).
    assert (Hq : y' ∉ queue s).
    { intros Hin. specialize (Hall _ Hin). rewrite Hall in Hn.
      injection Hn as <-. lia. }
    assert (He' : edge y' r (Result r)).
    { destruct He as (? & ? & ?). by split. }
    destruct (HC y' r Hy' Hq He') as [Hv|[_ Hr]]; [|by apply elem_of_nil in Hr].
    destruct He as (_ & _ & <-).
    apply (lev_dom _ _ HL) in Hv as [m Hm]. exists m. split; [done|].
    specialize (HB _ _ Hm). rewrite length_app. simpl. lia.
Qed.

Lemma Inv_head s lev h cur x rest :
  Inv s lev h cur [] → queue s = x :: rest →
  ∃ h' A B, Inv s lev h' cur [] ∧ rest = A ++ B
    ∧ (∀ y, y ∈ x :: A → lev !! y = Some h') ∧ (∀ y, y ∈ B → lev !! y = Some (S h')).
Proof.
  intros HI Hq. destruct (inv_queue _ _ _ _ _ HI) as (A & B & HAB & HA & HB).
  destruct A as [|a A].
  - simpl in HAB. exists (S h), rest, [].
    assert (Hall : ∀ y, y ∈ queue s → lev !! y = Some (S h)).
    { intros y Hy. apply HB. by rewrite <- HAB. }
    split; [by apply Inv_next_level|]. rewrite app_nil_r. split; [done|].
    split; [intros y Hy; apply Hall; by rewrite Hq|].
    intros y Hy. by apply elem_of_nil in Hy.
  - rewrite Hq in HAB. simpl in HAB. injection HAB as -> ->.
    exists h, A, B. done.
Qed.

Lemma bfsLoop_found fuel s (accept : gmap string RecipeStep → bool) :
  found s = true → bfsLoop target possible keep accept fuel s = Some s.
Proof. intros Hf. destruct fuel; simpl; destruct (queue s); by rewrite ?Hf. Qed.

Lemma bfsLoop_inv fuel : ∀ s s' lev h cur,
  Inv s lev h cur [] →
  bfsLoop target possible keep (λ _, true) fuel s = Some s' →
  (found s' = true ∧ Minimal s')
  ∨ (found s' = false ∧ queue s' = [] ∧ ∃ lev' h' cur', Inv s' lev' h' cur' []).
Proof.
  induction fuel as [|fuel IH]; intros s s' lev h cur HI Hrun.
  - simpl in Hrun. destruct (queue s) as [|x rest] eqn:Hq.
    + injection Hrun as <-. right. split; [apply (inv_found _ _ _ _ _ HI)|]. eauto 6.
    + rewrite (inv_found _ _ _ _ _ HI) in Hrun. done.
  - simpl in Hrun. destruct (queue s) as [|x rest] eqn:Hq.
    { injection Hrun as <-. right. split; [apply (inv_found _ _ _ _ _ HI)|]. eauto 6. }
    rewrite (inv_found _ _ _ _ _ HI) in Hrun.
    destruct (Inv_head _ _ _ _ _ _ HI Hq) as (h' & A & B & HI' & Hrest & HA & HB).
    assert (Hx : lev !! x = Some h') by (apply HA; by left).
    destruct (decide (x = target)) as [->|Hne].
    + injection Hrun as <-. left. split; [done|].
      exists lev, h'. split.
      { apply Levels_withFound, Levels_withQueue, (inv_levels _ _ _ _ _ HI'). }
      split; [done|].
      intros b rs Hb Hch. destruct (decide (length rs ≤ h')%nat) as [Hle|]; [|lia].
      destruct (inv_short _ _ _ _ _ HI' b rs target Hb Hch Hle) as (n & Hn & Hnle).
      congruence.
    + assert (HI0 : Inv (withQueue rest s) lev h' x (possible x)).
      { destruct HI' as [HL HQ HBd HC HS HT HF]. split; try done.
        - by apply Levels_withQueue.
        - exists A, B. split; [done|]. split; [|done].
          intros y Hy. apply HA. by right.
        - simpl. intros y r Hy Hyq He.
          destruct (decide (y = x)) as [->|Hyx].
          + right. split; [done|]. by destruct He.
          + left. assert (Hyq' : y ∉ queue s).
            { rewrite Hq. intros Hin. apply elem_of_cons in Hin as [?|?]; done. }
            destruct (HC y r Hy Hyq' He) as [?|[_ Hr]]; [done|].
            by apply elem_of_nil in Hr.
        - simpl. intros Ht. specialize (HT Ht). rewrite Hq in HT.
          apply elem_of_cons in HT as [?|?]; [congruence|done]. }
      destruct (expand_inv _ _ _ _ _ HI0 Hx ltac:(done)) as [(lev' & HI1 & _)|[Hf HM]].
      * apply (IH _ _ _ _ _ HI1 Hrun).
      * rewrite bfsLoop_found in Hrun by done. injection Hrun as <-. by left.
Qed.

Lemma Inv_seed : Inv (seedState basics) (gset_to_gmap 0%nat (list_to_set basics)) 0 target [].
Proof.
  split; simpl.
  - split; simpl.
    + intros x. unfold is_Some. setoid_rewrite lookup_gset_to_gmap_Some. naive_solver.
    + intros x st. by rewrite lookup_empty.
    + intros x Hx _. rewrite lookup_gset_to_gmap_Some. set_solver.
    + intros x st. by rewrite lookup_empty.
  - exists basics, []. rewrite app_nil_r. split; [done|]. split.
    + intros x Hx. apply lookup_gset_to_gmap_Some. set_solver.
    + intros x Hx. by apply elem_of_nil in Hx.
  - intros x n. rewrite lookup_gset_to_gmap_Some. intros [_ <-]. lia.
  - intros x r Hx Hq. set_solver.
  - intros x rs y Hx Hch Hle. destruct Hch.
    + exists 0%nat. split; [|done]. apply lookup_gset_to_gmap_Some. set_solver.
    + rewrite length_app in Hle. simpl in Hle. lia.
  - set_solver.
  - done.
Qed.

Lemma Inv_drained s lev h cur k :
  Inv s lev h cur [] → queue s = [] → Inv s lev (k + h) cur [].
Proof.
  intros HI Hq. induction k as [|k IH]; [done|]. simpl.
  apply Inv_next_level; [done|]. rewrite Hq. intros x Hx. by apply elem_of_nil in Hx.
Qed.

(** The search from the seeds: found with a shortest chain, or every chain
    from a seed misses the target. *)
Lemma bfsLoop_seed fuel s' :
  bfsLoop target possible keep (λ _, true) fuel (seedState basics) = Some s' →
  (found s' = true ∧ Minimal s')
  ∨ (found s' = false ∧ queue s' = [] ∧ (∃ lev, Levels s' lev)
     ∧ ∀ x rs, x ∈ basics → ¬ chain x rs target).
Proof.
  intros Hrun.
  destruct (bfsLoop_inv _ _ _ _ _ _ Inv_seed Hrun)
    as [?|(Hf & Hq & lev & h & cur & HI)]; [by left|].
  right. split; [done|]. split; [done|].
  split; [exists lev; apply (inv_levels _ _ _ _ _ HI)|]. intros x rs Hx Hch.
  pose proof (Inv_drained _ _ _ _ (length rs) HI Hq) as HI'.
  destruct (inv_short _ _ _ _ _ HI' x rs target Hx Hch ltac:(lia)) as (n & Hn & _).
  assert (Ht : target ∈ visited s') by (apply (lev_dom _ _ (inv_levels _ _ _ _ _ HI)); eauto).
  apply (inv_target _ _ _ _ _ HI) in Ht. rewrite Hq in Ht. by apply elem_of_nil in Ht.
Qed.

(** The backpointer walk from an identifier of level [n] takes [n] steps and
    yields a chain from a seed. *)
Lemma reconstructPathFrom_levels s lev : Levels s lev →
  ∀ n x fuel acc, lev !! x = Some n → (n ≤ fuel)%nat →
  ∃ p b, reconstructPathFrom fuel (parent s) x acc = Some (p ++ acc)
         ∧ length p = n ∧ b ∈ basics ∧ chain b p x.
Proof.
  intros HL. induction n as [|n IH]; intros x fuel acc Hx Hfuel.
  - assert (Hv : x ∈ visited s) by (apply (lev_dom _ _ HL); eauto).
    destruct (parent s !! x) as [st|] eqn:Hp.
    { destruct (lev_child _ _ HL _ _ Hp) as (m & _ & Hm & _). congruence. }
    exists [], x. destruct fuel; simpl; rewrite Hp.
    all: repeat split; try done; try apply (lev_root _ _ HL); try done; constructor.
  - destruct (parent s !! x) as [st|] eqn:Hp.
    2:{ assert (Hv : x ∈ visited s) by (apply (lev_dom _ _ HL); eauto).
        destruct (lev_root _ _ HL _ Hv Hp). congruence. }
    destruct (lev_child _ _ HL _ _ Hp) as (m & Hm & Hm' & He).
    assert (m = n) as -> by congruence.
    destruct fuel as [|fuel]; [lia|]. simpl. rewrite Hp.
    destruct (IH (ParentID st) fuel (StepRecipe st :: acc) Hm ltac:(lia))
      as (p & b & Hrun & Hlen & Hb & Hch).
    exists (p ++ [StepRecipe st]), b. rewrite <- app_assoc. simpl.
    split; [done|]. split; [rewrite length_app; simpl; lia|]. split; [done|].
    by econstructor.
Qed.

Lemma levels_keys s lev : Levels s lev →
  ∀ n x, lev !! x = Some n →
  ∃ K : gset string, K ⊆ dom (parent s) ∧ size K = n
    ∧ ∀ k, k ∈ K → ∃ m, lev !! k = Some m ∧ (m ≤ n)%nat.
Proof.
  intros HL. induction n as [|n IH]; intros x Hx.
  - exists ∅. split; [set_solver|]. split; [apply size_empty|set_solver].
  - destruct (parent s !! x) as [st|] eqn:Hp.
    2:{ assert (Hv : x ∈ visited s) by (apply (lev_dom _ _ HL); eauto).
        destruct (lev_root _ _ HL _ Hv Hp). congruence. }
    destruct (lev_child _ _ HL _ _ Hp) as (m & Hm & Hm' & He).
    assert (m = n) as -> by congruence.
    destruct (IH _ Hm) as (K & HK & Hsz & Hlev).
    assert (Hnot : x ∉ K).
    { intros Hin. destruct (Hlev _ Hin) as (m & Hm1 & Hm2).
      rewrite Hx in Hm1. injection Hm1 as <-. lia. }
    exists ({[x]} ∪ K). split.
    { apply union_subseteq. split; [|done].
      apply singleton_subseteq_l, elem_of_dom. eauto. }
    split.
    { rewrite size_union by set_solver. rewrite size_singleton. lia. }
    intros k Hk. apply elem_of_union in Hk as [Hk|Hk].
    + apply elem_of_singleton in Hk as ->. eauto.
    + destruct (Hlev _ Hk) as (m & ? & ?). exists m. split; [done|lia].
Qed.

Lemma reconstructPath_levels s lev n x : Levels s lev → lev !! x = Some n →
  ∃ p b, reconstructPath x (parent s) = Some p
         ∧ length p = n ∧ b ∈ basics ∧ chain b p x.
Proof.
  intros HL Hx. unfold reconstructPath.
  assert (Hsz : (n ≤ size (parent s))%nat).
  { destruct (levels_keys _ _ HL _ _ Hx) as (K & HK & <- & _).
    rewrite <- size_dom. by apply subseteq_size. }
  destruct (reconstructPathFrom_levels _ _ HL n x _ [] Hx Hsz) as (p & b & Hrun & ?).
  rewrite app_nil_r in Hrun. eauto.
Qed.

(** What every search of the loop from the seeds ends with. *)
Lemma bfsLoop_outcome fuel s :
  bfsLoop target possible keep (λ _, true) fuel (seedState basics) = Some s →
  (found s = true ↔ ∃ b rs, b ∈ basics ∧ chain b rs target)
  ∧ (found s = false → queue s = [])
  ∧ (found s = true → ∃ p b, reconstructPath target (parent s) = Some p
       ∧ b ∈ basics ∧ chain b p target
       ∧ ∀ b' rs, b' ∈ basics → chain b' rs target → (length p ≤ length rs)%nat)
  ∧ (∃ lev, Levels s lev).
Proof.
  intros Hrun. apply bfsLoop_seed in Hrun as [[Hf HM]|(Hf & Hq & HL & Hno)].
  - destruct HM as (lev & n & HL & Hn & Hmin).
    destruct (reconstructPath_levels _ _ _ _ HL Hn) as (p & b & Hp & Hlen & Hb & Hch).
    split; [split; [eauto|done]|]. split; [congruence|].
    split; [|eauto]. intros _. exists p, b. rewrite Hlen. eauto.
  - split.
    { split; [congruence|]. intros (b & rs & Hb & Hch). by destruct (Hno b rs Hb). }
    split; [done|]. split; [congruence|done].
Qed.

End BreadthFirstTheory.

(** ** The breadth-first loop ends within its fuel *)

Definition unvisitedResults (V : gset string) (l : list Recipe) : nat :=
  length (List.filter (fun r => bool_decide (Result r ∉ V)) l).

Lemma unvisitedResults_mono V x l :
  (unvisitedResults ({[x]} ∪ V) l ≤ unvisitedResults V l)%nat.
Proof.
  unfold unvisitedResults. induction l as [|r l IH]; simpl; [done|].
  repeat case_bool_decide; simpl; try lia. set_solver.
Qed.

Lemma unvisitedResults_discover V r l :
  r ∈ l → Result r ∉ V →
  (S (unvisitedResults ({[Result r]} ∪ V) l) ≤ unvisitedResults V l)%nat.
Proof.
  unfold unvisitedResults. induction l as [|r' l IH]; intros Hin Hnv.
  { by apply elem_of_nil in Hin. }
  apply elem_of_cons in Hin as [<-|Hin]; simpl.
  - rewrite (bool_decide_eq_false_2 (Result r ∉ {[Result r]} ∪ V)) by set_solver.
    rewrite bool_decide_eq_true_2 by done. simpl.
    pose proof (unvisitedResults_mono V (Result r) l) as H.
    unfold unvisitedResults in H. lia.
  - specialize (IH Hin Hnv). repeat case_bool_decide; simpl; try lia. set_solver.
Qed.

Section BreadthFirstTermination.
Variable target : string.
Variable possible : string -> list Recipe.
Variable keep : string -> Recipe -> bool.
Variable accept : gmap string RecipeStep -> bool.
Variable universe : list Recipe.
Hypothesis possible_universe : ∀ x r, r ∈ possible x → r ∈ universe.

Definition measure (s : SearchState) : nat :=
  (length (queue s) + unvisitedResults (visited s) universe)%nat.

Lemma expand_measure cur pending : ∀ s,
  (∀ r, r ∈ pending → r ∈ universe) →
  (measure (expand target keep accept cur pending s) ≤ measure s)%nat.
Proof.
  induction pending as [|r rest IH]; intros s Hsub; simpl; [done|].
  assert (Hsub' : ∀ r', r' ∈ rest → r' ∈ universe) by (intros; apply Hsub; by right).
  destruct (keep cur r); simpl; [|by apply IH].
  destruct (decide (Result r ∈ visited s)); [by apply IH|].
  assert (Hd : (measure (discover cur r s) ≤ measure s)%nat).
  { unfold measure. simpl. rewrite length_app. simpl.
    pose proof (unvisitedResults_discover (visited s) r universe
                  ltac:(apply Hsub; by left) ltac:(done)). lia. }
  destruct (decide (Result r = target)); [done|].
  etrans; [by apply IH|done].
Qed.

Lemma bfsLoop_total fuel : ∀ s,
  (measure s ≤ fuel)%nat → is_Some (bfsLoop target possible keep accept fuel s).
Proof.
  induction fuel as [|fuel IH]; intros s Hm; simpl.
  - destruct (queue s) eqn:Hq; [eauto|]. destruct (found s); [eauto|].
    unfold measure in Hm. rewrite Hq in Hm. simpl in Hm. lia.
  - destruct (queue s) as [|x rest] eqn:Hq; [eauto|]. destruct (found s); [eauto|].
    destruct (decide (x = target)); [eauto|].
    apply IH. etrans; [apply expand_measure; intros; by eapply possible_universe|].
    unfold measure in *. rewrite Hq in Hm. simpl in *. lia.
Qed.

Lemma measure_seed ids : (measure (seedState ids) ≤ length ids + length universe)%nat.
Proof.
  unfold measure, unvisitedResults. simpl.
  pose proof (filter_length_le
    (fun r => bool_decide (Result r ∉ (list_to_set ids : gset string))) universe).
  lia.
Qed.

End BreadthFirstTermination.

(** ** The two versions of the breadth-first engine *)

Lemma basicIDs_length es : length (basicIDs es) = length (GetBasicElements es).
Proof. unfold basicIDs. apply length_fmap. Qed.

Lemma strict_possible_universe es target x r :
  r ∈ BreadthFirstFinder.possibleRecipes es target x → r ∈ Recipes es.
Proof.
  unfold BreadthFirstFinder.possibleRecipes, BreadthFirstFinder.getPossibleRecipesThatRespectTiers.
  rewrite !list_elem_of_In, filter_In. tauto.
Qed.

Lemma strict_search_total es target : is_Some (BreadthFirstFinder.search es target).
Proof.
  apply (bfsLoop_total _ _ _ _ (Recipes es)).
  - intros x r. apply strict_possible_universe.
  - etrans; [apply measure_seed|]. rewrite basicIDs_length. unfold bfsFuel. lia.
Qed.

Lemma strict_edge es target y r z :
  edge (BreadthFirstFinder.possibleRecipes es target) (BreadthFirstFinder.keepRecipe es) y r z
  ↔ r ∈ Recipes es ∧ y ∈ Ingredients r ∧ tierValid es r
    ∧ GetElementTier es (Result r) ≤ GetElementTier es target ∧ Result r = z.
Proof.
  unfold edge, BreadthFirstFinder.possibleRecipes, BreadthFirstFinder.keepRecipe,
    BreadthFirstFinder.getPossibleRecipesThatRespectTiers.
  rewrite list_elem_of_In, filter_In, <- list_elem_of_In.
  rewrite !andb_true_iff, !negb_true_iff, isIngredient_spec, allIngredientsLowerTier_spec.
  rewrite Z.ltb_ge, Z.ltb_lt, Z.leb_gt. unfold tierValid.
  split; [tauto|]. intros (? & Hy & Hv & ? & ?).
  specialize (Hv _ Hy) as Hlt. tauto.
Qed.

Lemma tierPath_tier es x rs y : tierPath es x rs y → GetElementTier es x ≤ GetElementTier es y.
Proof.
  induction 1 as [|rs y r _ IH _ Hy Hv]; [lia|]. specialize (Hv _ Hy). lia.
Qed.

Lemma tierPath_chain es target x rs y :
  tierPath es x rs y → GetElementTier es y ≤ GetElementTier es target →
  chain (BreadthFirstFinder.possibleRecipes es target) (BreadthFirstFinder.keepRecipe es) x rs y.
Proof.
  induction 1 as [|rs y r _ IH Hr Hy Hv]; intros Hle; [constructor|].
  econstructor.
  - apply IH. specialize (Hv _ Hy). lia.
  - by apply strict_edge.
Qed.

Lemma chain_tierPath es target x rs y :
  chain (BreadthFirstFinder.possibleRecipes es target) (BreadthFirstFinder.keepRecipe es) x rs y →
  tierPath es x rs y.
Proof.
  induction 1 as [|rs y r z _ IH He]; [constructor|].
  apply strict_edge in He as (? & ? & ? & _ & <-). by econstructor.
Qed.

Lemma v1_possible_universe es x r :
  r ∈ BreadthFirstFinderV1.possibleRecipes es x → r ∈ Recipes es.
Proof.
  unfold BreadthFirstFinderV1.possibleRecipes,
    BreadthFirstFinderV1.getPossibleRecipesThatRespectTiers.
  rewrite !list_elem_of_In, filter_In. tauto.
Qed.

Lemma v1_search_total es target : is_Some (BreadthFirstFinderV1.search es target).
Proof.
  apply (bfsLoop_total _ _ _ _ (Recipes es)).
  - intros x r. apply v1_possible_universe.
  - etrans; [apply measure_seed|]. rewrite basicIDs_length. unfold bfsFuel. lia.
Qed.

Lemma v1_edge es y r z :
  edge (BreadthFirstFinderV1.possibleRecipes es) (BreadthFirstFinderV1.keepRecipe es) y r z
  ↔ r ∈ Recipes es ∧ y ∈ Ingredients r
    ∧ GetElementTier es y < GetElementTier es (Result r) ∧ Result r = z.
Proof.
  unfold edge, BreadthFirstFinderV1.possibleRecipes, BreadthFirstFinderV1.keepRecipe,
    BreadthFirstFinderV1.getPossibleRecipesThatRespectTiers.
  rewrite list_elem_of_In, filter_In, <- list_elem_of_In.
  rewrite !andb_true_iff, !negb_true_iff, isIngredient_spec, Z.ltb_lt, Z.leb_gt. tauto.
Qed.

Lemma v1_chain es x rs y :
  chain (BreadthFirstFinderV1.possibleRecipes es) (BreadthFirstFinderV1.keepRecipe es) x rs y
  ↔ progressPath es x rs y.
Proof.
  split.
  - induction 1 as [|rs y r z _ IH He]; [constructor|].
    apply v1_edge in He as (? & ? & ? & <-). by econstructor.
  - induction 1 as [|rs y r _ IH Hr Hy Hlt]; [constructor|].
    econstructor; [done|]. by apply v1_edge.
Qed.

Lemma strict_chain_target es target x rs :
  chain (BreadthFirstFinder.possibleRecipes es target) (BreadthFirstFinder.keepRecipe es)
        x rs target
  ↔ tierPath es x rs target.
Proof.
  split; [apply chain_tierPath|]. intros H. apply tierPath_chain; [done|lia].
Qed.


(** ** The depth-bounded search *)

Section DepthFirstTheory.
Variable target : string.
Variable possible : string -> list Recipe.
Variable keep : string -> Recipe -> bool.
Variable maxDepth : Z.

(** Backtracking in the loop over the candidates, given backtracking in the
    recursive call. *)
Lemma tryRecipes_restores deeper current recipes : ∀ s s',
  (∀ x s0 s1, dom (dfsParent s0) ⊆ dfsVisited s0 → deeper x s0 = Some (false, s1) →
     dfsVisited s1 = dfsVisited s0 ∧ dfsParent s1 = dfsParent s0) →
  dom (dfsParent s) ⊆ dfsVisited s →
  tryRecipes keep deeper current recipes s = Some (false, s') →
  dfsVisited s' = dfsVisited s ∧ dfsParent s' = dfsParent s.
Proof.
  induction recipes as [|recipe rest IH]; intros s s' Hdeeper Hdom Hrun; simpl in Hrun.
  { by injection Hrun as <-. }
  destruct (keep current recipe); simpl in Hrun; [|by apply IH].
  destruct (decide (Result recipe ∈ dfsVisited s)) as [|Hnv]; [by apply IH|].
  destruct (deeper (Result recipe) (mark current recipe s)) as [[[] s1]|] eqn:Hd; try done.
  assert (Hdom' : dom (dfsParent (mark current recipe s)) ⊆ dfsVisited (mark current recipe s)).
  { simpl. rewrite dom_insert_L. set_solver. }
  destruct (Hdeeper _ _ _ Hdom' Hd) as [Hv Hp].
  assert (Hv' : dfsVisited (unmark (Result recipe) s1) = dfsVisited s).
  { simpl. rewrite Hv. simpl. set_solver. }
  assert (Hp' : dfsParent (unmark (Result recipe) s1) = dfsParent s).
  { simpl. rewrite Hp. simpl. apply delete_insert_id.
    apply not_elem_of_dom. set_solver. }
  destruct (IH _ _ Hdeeper ltac:(by rewrite Hv', Hp') Hrun) as [-> ->]. done.
Qed.

Lemma dfsSearchWithTiers_restores fuel : ∀ current depth s s',
  dom (dfsParent s) ⊆ dfsVisited s →
  dfsSearchWithTiers target possible keep maxDepth fuel current depth s = Some (false, s') →
  dfsVisited s' = dfsVisited s ∧ dfsParent s' = dfsParent s.
Proof.
  induction fuel as [|fuel IH]; intros current depth s s' Hdom Hrun; simpl in Hrun.
  - destruct (decide (current = target)); [done|].
    destruct (maxDepth <=? depth); [|done]. by injection Hrun as <-.
  - destruct (decide (current = target)); [done|].
    destruct (maxDepth <=? depth); [by injection Hrun as <-|].
    refine (tryRecipes_restores _ _ _ _ _ _ Hdom Hrun).
    intros x s0 s1 Hd0 Hx. by eapply IH.
Qed.

(** The recursion never runs out of the fuel [maxDepth - depth]. *)
Lemma tryRecipes_total deeper current recipes : ∀ s,
  (∀ x s0, is_Some (deeper x s0)) →
  is_Some (tryRecipes keep deeper current recipes s).
Proof.
  induction recipes as [|recipe rest IH]; intros s Hdeeper; simpl; [eauto|].
  destruct (keep current recipe); simpl; [|by apply IH].
  destruct (decide (Result recipe ∈ dfsVisited s)); [by apply IH|].
  destruct (Hdeeper (Result recipe) (mark current recipe s)) as [[[] s1] ->]; [eauto|].
  by apply IH.
Qed.

Lemma dfsSearchWithTiers_total fuel : ∀ current depth s,
  maxDepth - depth ≤ Z.of_nat fuel →
  is_Some (dfsSearchWithTiers target possible keep maxDepth fuel current depth s).
Proof.
  induction fuel as [|fuel IH]; intros current depth s Hfuel; simpl.
  - destruct (decide (current = target)); [eauto|].
    destruct (maxDepth <=? depth) eqn:Hd; [eauto|]. apply Z.leb_gt in Hd. lia.
  - destruct (decide (current = target)); [eauto|].
    destruct (maxDepth <=? depth) eqn:Hd; [eauto|].
    apply tryRecipes_total. intros x s0. apply IH. lia.
Qed.

Lemma tryStarts_total starts : ∀ s,
  is_Some (tryStarts target possible keep maxDepth starts s).
Proof.
  induction starts as [|id rest IH]; intros s; simpl; [eauto|].
  destruct (dfsSearchWithTiers_total (Z.to_nat maxDepth) id 0 (enter id s) ltac:(lia))
    as [[[] s1] ->]; [eauto|]. apply IH.
Qed.

(** What the recorded backpointers satisfy when the candidates kept lead to
    a higher tier: every entry points to an element of a lower tier, which
    is [ok] when the starting elements are and [keep] preserves it. *)
Variable tier : string -> Z.
Variable ok : string -> Prop.
Hypothesis keep_progress : ∀ current recipe,
  keep current recipe = true → tier current < tier (Result recipe).
Hypothesis keep_ok : ∀ current recipe,
  ok current → keep current recipe = true → ok (Result recipe).

Definition climbing (parentMap : gmap string RecipeStep) : Prop :=
  ∀ child step, parentMap !! child = Some step →
    ok (ParentID step) ∧ tier (ParentID step) < tier child
    ∧ keep (ParentID step) (StepRecipe step) = true
    ∧ Result (StepRecipe step) = child.

Lemma climbing_insert current recipe parentMap :
  climbing parentMap → ok current → keep current recipe = true →
  climbing (<[Result recipe := mkRecipeStep current recipe]> parentMap).
Proof.
  intros Hc Hcur Hk child step. destruct (decide (child = Result recipe)) as [->|Hne].
  - rewrite lookup_insert_eq. intros [= <-]. simpl.
    pose proof (keep_progress _ _ Hk). done.
  - rewrite lookup_insert_ne by done. apply Hc.
Qed.

Lemma climbing_delete x parentMap : climbing parentMap → climbing (delete x parentMap).
Proof. intros Hc child step Hl. apply lookup_delete_Some in Hl as [_ Hl]. by eapply Hc. Qed.

Lemma climbing_empty : climbing ∅.
Proof. intros child step. by rewrite lookup_empty. Qed.

Definition reached (current : string) (s s' : DepthState) : Prop :=
  (current = target ∧ s' = s) ∨ is_Some (dfsParent s' !! target).

Lemma tryRecipes_climbing deeper current recipes : ∀ s b s',
  (∀ x s0 b0 s1, climbing (dfsParent s0) → ok x → deeper x s0 = Some (b0, s1) →
     climbing (dfsParent s1) ∧ (b0 = true → reached x s0 s1)) →
  climbing (dfsParent s) → ok current →
  tryRecipes keep deeper current recipes s = Some (b, s') →
  climbing (dfsParent s') ∧ (b = true → is_Some (dfsParent s' !! target)).
Proof.
  induction recipes as [|recipe rest IH]; intros s b s' Hdeeper Hc Hcur Hrun; simpl in Hrun.
  { injection Hrun as <- <-. done. }
  destruct (keep current recipe) eqn:Hk; simpl in Hrun; [|by eapply IH].
  destruct (decide (Result recipe ∈ dfsVisited s)) as [|Hnv]; [by eapply IH|].
  destruct (deeper (Result recipe) (mark current recipe s)) as [[b1 s1]|] eqn:Hd; [|done].
  destruct (Hdeeper (Result recipe) (mark current recipe s) b1 s1
              (climbing_insert _ _ _ Hc Hcur Hk) (keep_ok _ _ Hcur Hk) Hd) as [Hc1 Hr1].
  destruct b1.
  - injection Hrun as <- <-. split; [done|]. intros _.
    destruct (Hr1 eq_refl) as [[Heq ->]|?]; [|done].
    simpl. rewrite Heq. rewrite lookup_insert_eq. eauto.
  - eapply IH; [done| |done|done]. simpl. by apply climbing_delete.
Qed.

Lemma dfsSearchWithTiers_climbing fuel : ∀ current depth s b s',
  climbing (dfsParent s) → ok current →
  dfsSearchWithTiers target possible keep maxDepth fuel current depth s = Some (b, s') →
  climbing (dfsParent s') ∧ (b = true → reached current s s').
Proof.
  induction fuel as [|fuel IH]; intros current depth s b s' Hc Hcur Hrun; simpl in Hrun.
  - destruct (decide (current = target)).
    { injection Hrun as <- <-. split; [done|]. by left. }
    destruct (maxDepth <=? depth); [|done]. by injection Hrun as <- <-.
  - destruct (decide (current = target)).
    { injection Hrun as <- <-. split; [done|]. by left. }
    destruct (maxDepth <=? depth); [by injection Hrun as <- <-|].
    assert (Hd : ∀ x s0 b0 s1, climbing (dfsParent s0) → ok x →
        dfsSearchWithTiers target possible keep maxDepth fuel x (depth + 1) s0 = Some (b0, s1) →
        climbing (dfsParent s1) ∧ (b0 = true → reached x s0 s1)).
    { intros. by eapply IH. }
    destruct (tryRecipes_climbing _ _ _ _ _ _ Hd Hc Hcur Hrun) as [? Hr].
    split; [done|]. intros Hb. right. by apply Hr.
Qed.

Lemma tryStarts_climbing starts : ∀ s b s',
  (∀ id, id ∈ starts → ok id) →
  climbing (dfsParent s) →
  tryStarts target possible keep maxDepth starts s = Some (b, s') →
  climbing (dfsParent s')
  ∧ (b = true → is_Some (dfsParent s' !! target)
                ∨ (ok target ∧ dfsParent s' !! target = None)).
Proof.
  induction starts as [|id rest IH]; intros s b s' Hstarts Hc Hrun; simpl in Hrun.
  { by injection Hrun as <- <-. }
  assert (Hid : ok id) by (apply Hstarts; by left).
  destruct (dfsSearchWithTiers target possible keep maxDepth (Z.to_nat maxDepth) id 0 (enter id s))
    as [[b1 s1]|] eqn:Hd; [|done].
  destruct (dfsSearchWithTiers_climbing _ _ _ (enter id s) _ _ Hc Hid Hd) as [Hc1 Hr1].
  destruct b1.
  - injection Hrun as <- <-. split; [done|]. intros _.
    destruct (Hr1 eq_refl) as [[<- ->]|?]; [|by left].
    destruct (dfsParent (enter id s) !! id) eqn:E; [left; eauto|by right].
  - apply (IH (leave id s1)); [|done|done]. intros; apply Hstarts; by right.
Qed.

End DepthFirstTheory.

(** A walk over backpointers that climb from elements of non-negative tier
    takes at most [tier x] steps from [x]. *)
Lemma reconstructPathFrom_climbing keep (tier : string → Z) parentMap :
  climbing keep tier (fun x => 0 ≤ tier x) parentMap →
  ∀ fuel x acc p, 0 ≤ tier x →
  reconstructPathFrom fuel parentMap x acc = Some p →
  Z.of_nat (length p) ≤ Z.of_nat (length acc) + tier x.
Proof.
  intros Hc. induction fuel as [|fuel IH]; intros x acc p Hx Hrun; simpl in Hrun.
  - destruct (parentMap !! x); [done|]. injection Hrun as <-. lia.
  - destruct (parentMap !! x) as [st|] eqn:Hp; [|injection Hrun as <-; lia].
    destruct (Hc _ _ Hp) as (Hok & Hlt & _). simpl in Hok.
    apply IH in Hrun; [|lia]. simpl in Hrun. lia.
Qed.

Lemma reconstructPath_climbing keep (tier : string → Z) parentMap x p :
  climbing keep tier (fun x => 0 ≤ tier x) parentMap →
  is_Some (parentMap !! x) ∨ (0 ≤ tier x ∧ parentMap !! x = None) →
  reconstructPath x parentMap = Some p →
  Z.of_nat (length p) ≤ tier x.
Proof.
  intros Hc Hx Hrun. unfold reconstructPath in Hrun.
  apply (reconstructPathFrom_climbing _ _ _ Hc) in Hrun; [simpl in Hrun; lia|].
  destruct Hx as [[st Hst]|[? _]]; [|done].
  destruct (Hc _ _ Hst) as (Hok & Hlt & _). simpl in Hok. lia.
Qed.

Lemma rotate_elem_of {A} (n : nat) (l : list A) x : x ∈ rotate n l → x ∈ l.
Proof.
  unfold rotate. rewrite elem_of_app. intros H.
  rewrite <- (take_drop n l). apply elem_of_app. tauto.
Qed.

Lemma dfs_keep_progress es current recipe :
  DepthFirstFinder.keepRecipe es current recipe = true →
  GetElementTier es current < GetElementTier es (Result recipe).
Proof.
  unfold DepthFirstFinder.keepRecipe. rewrite andb_true_iff, negb_true_iff, Z.leb_gt. lia.
Qed.

Lemma dfs_keep_nonNegative es current recipe :
  nonNegative es current → DepthFirstFinder.keepRecipe es current recipe = true →
  nonNegative es (Result recipe).
Proof. unfold nonNegative. intros ? H%dfs_keep_progress. lia. Qed.

Lemma tryStartsVariation_climbing es target possible maxDepth existing
    (ok : string → Prop) starts :
  (∀ current recipe, ok current → DepthFirstFinder.keepRecipe es current recipe = true →
     ok (Result recipe)) →
  ∀ k s s',
  (∀ id, id ∈ starts → ok id) →
  climbing (DepthFirstFinder.keepRecipe es) (GetElementTier es) ok (dfsParent s) →
  DepthFirstFinder.tryStartsVariation target possible (DepthFirstFinder.keepRecipe es)
    maxDepth existing k starts s = Some (true, s') →
  climbing (DepthFirstFinder.keepRecipe es) (GetElementTier es) ok (dfsParent s')
  ∧ (is_Some (dfsParent s' !! target) ∨ (ok target ∧ dfsParent s' !! target = None)).
Proof.
  intros Hok.
  induction starts as [|id rest IH]; intros k s s' Hstarts Hc Hrun; simpl in Hrun; [done|].
  assert (Hid : ok id) by (apply Hstarts; by left).
  assert (Hrest : ∀ id', id' ∈ rest → ok id') by (intros; apply Hstarts; by right).
  destruct (dfsSearchWithTiers target possible (DepthFirstFinder.keepRecipe es) maxDepth
              (Z.to_nat maxDepth) id 0 (enter id s)) as [[b s1]|] eqn:Hd; [|done].
  destruct (dfsSearchWithTiers_climbing target possible _ maxDepth (GetElementTier es)
              ok (dfs_keep_progress es) Hok
              _ _ _ (enter id s) _ _ Hc Hid Hd) as [Hc1 Hr1].
  destruct b.
  - destruct (reconstructPath target (dfsParent s1)) as [path|]; [|done].
    destruct (decide (getPathSignature path ∈ existing k)).
    + apply IH in Hrun; [done|done|]. simpl. apply climbing_empty.
    + injection Hrun as <-. split; [done|].
      destruct (Hr1 eq_refl) as [[<- ->]|?]; [|by left].
      destruct (dfsParent (enter id s) !! id) eqn:E; [left; eauto|by right].
  - apply IH in Hrun; done.
Qed.

Lemma dfs_v1_keep_progress es current recipe :
  DepthFirstFinderV1.keepRecipe es current recipe = true →
  GetElementTier es current < GetElementTier es (Result recipe).
Proof. unfold DepthFirstFinderV1.keepRecipe. rewrite negb_true_iff, Z.leb_gt. lia. Qed.

(** ** The bidirectional search *)

Section BidirectionalTheory.
Import BidirectionalFinder.

Record BidInv (es : ElementStore) (target : string) (s : BidState) : Prop := {
  bi_fq : ∀ x, x ∈ forwardQueue s → x ∈ forwardVisited s;
  bi_bq : ∀ x, x ∈ backwardQueue s → x ∈ backwardVisited s;
  bi_meet : bidFound s = true →
    meetingPoint s ∈ forwardVisited s ∧ meetingPoint s ∈ backwardVisited s;
  bi_fp : ∀ x st, forwardParent s !! x = Some st →
    Result (StepRecipe st) = x ∧ ParentID st ∈ Ingredients (StepRecipe st)
    ∧ tierValid es (StepRecipe st) ∧ StepRecipe st ∈ Recipes es;
  bi_froot : ∀ x, x ∈ forwardVisited s → forwardParent s !! x = None → x ∈ basicIDs es;
  bi_bp : ∀ x st, backwardParent s !! x = Some st →
    x ∈ Ingredients (StepRecipe st) ∧ Result (StepRecipe st) = ParentID st
    ∧ tierValid es (StepRecipe st) ∧ StepRecipe st ∈ Recipes es
    ∧ ParentID st ∈ backwardVisited s;
  bi_broot : ∀ x, x ∈ backwardVisited s → backwardParent s !! x = None → x = target;
  bi_btier : ∀ x, x ∈ backwardVisited s → tierAt (backwardTier s) x = GetElementTier es x
}.

Lemma tierValid_check es r :
  allIngredientsLowerTier es r (GetElementTier es (Result r)) = true ↔ tierValid es r.
Proof. apply allIngredientsLowerTier_spec. Qed.

Lemma getValid_elem es x r :
  r ∈ getValidRecipesWithElementAnyPosition es x
  ↔ r ∈ Recipes es ∧ x ∈ Ingredients r ∧ tierValid es r.
Proof.
  unfold getValidRecipesWithElementAnyPosition.
  rewrite list_elem_of_In, filter_In, <- list_elem_of_In, andb_true_iff,
    isIngredient_spec, tierValid_check. tauto.
Qed.

Lemma BidInv_meet_forward es target x s :
  BidInv es target s → x ∈ forwardVisited s → x ∈ backwardVisited s →
  BidInv es target (meet x s).
Proof. intros [] ? ?. split; simpl; try done. Qed.

Lemma BidInv_popForward es target x rest s :
  BidInv es target s → forwardQueue s = x :: rest →
  BidInv es target (popForward rest s).
Proof.
  intros [] Hq. split; simpl; try done.
  intros y Hy. apply bi_fq0. rewrite Hq. by right.
Qed.

Lemma BidInv_popBackward es target x rest s :
  BidInv es target s → backwardQueue s = x :: rest →
  BidInv es target (popBackward rest s).
Proof.
  intros [] Hq. split; simpl; try done.
  intros y Hy. apply bi_bq0. rewrite Hq. by right.
Qed.

Lemma BidInv_discoverForward es target current r t s :
  BidInv es target s → bidFound s = false →
  r ∈ Recipes es → current ∈ Ingredients r → tierValid es r →
  Result r ∉ forwardVisited s →
  BidInv es target (discoverForward current r t s).
Proof.
  intros [] Hf Hr Hc Hv Hnv. split; simpl; try done.
  - intros y Hy. apply elem_of_app in Hy as [Hy|Hy]; [set_solver|].
    apply list_elem_of_singleton in Hy. set_solver.
  - by rewrite Hf.
  - intros y st. destruct (decide (y = Result r)) as [->|Hne].
    + rewrite lookup_insert_eq. intros [= <-]. done.
    + rewrite lookup_insert_ne by done. apply bi_fp0.
  - intros y Hy. destruct (decide (y = Result r)) as [->|Hne].
    + by rewrite lookup_insert_eq.
    + rewrite lookup_insert_ne by done. apply bi_froot0. set_solver.
Qed.

Lemma expandForward_inv es target current currentTier recipes : ∀ s,
  BidInv es target s → bidFound s = false →
  (∀ r, r ∈ recipes → r ∈ getValidRecipesWithElementAnyPosition es current) →
  BidInv es target (expandForward es current currentTier recipes s).
Proof.
  induction recipes as [|r rest IH]; intros s HI Hf Hsub; simpl; [done|].
  assert (Hsub' : ∀ r', r' ∈ rest → r' ∈ getValidRecipesWithElementAnyPosition es current)
    by (intros; apply Hsub; by right).
  destruct (negb _); [by apply IH|].
  destruct (_ <=? _); [by apply IH|].
  destruct (decide (Result r ∈ forwardVisited s)) as [|Hnv]; [by apply IH|].
  assert (Hr : r ∈ getValidRecipesWithElementAnyPosition es current) by (apply Hsub; by left).
  apply getValid_elem in Hr as (Hr1 & Hr2 & Hr3).
  pose proof (BidInv_discoverForward es target current r (GetElementTier es (Result r)) s
                HI Hf Hr1 Hr2 Hr3 Hnv) as HI'.
  destruct (decide (Result r ∈ _)) as [Hb|Hb].
  - apply BidInv_meet_forward; [done| |done]. simpl. set_solver.
  - by apply IH.
Qed.

Lemma forwardLevel_inv es target n : ∀ s,
  BidInv es target s → BidInv es target (forwardLevel es n s).
Proof.
  induction n as [|n IH]; intros s HI; simpl; [done|].
  destruct (bidFound s) eqn:Hf; [done|].
  destruct (forwardQueue s) as [|x rest] eqn:Hq; [done|].
  pose proof (BidInv_popForward _ _ _ _ _ HI Hq) as HI0.
  destruct (decide (x ∈ backwardVisited s)) as [Hb|Hb].
  - apply BidInv_meet_forward; [done| |done]. simpl. apply (bi_fq _ _ _ HI). rewrite Hq. by left.
  - apply IH. by apply expandForward_inv.
Qed.

Lemma BidInv_discoverBackward es target current r ing s :
  BidInv es target s → bidFound s = false →
  r ∈ Recipes es → ing ∈ Ingredients r → tierValid es r → Result r = current →
  current ∈ backwardVisited s → ing ∉ backwardVisited s →
  BidInv es target (discoverBackward current r ing (GetElementTier es ing) s).
Proof.
  intros [] Hf Hr Hc Hv Hres Hcur Hnv. split; simpl; try done.
  - intros y Hy. apply elem_of_app in Hy as [Hy|Hy]; [set_solver|].
    apply list_elem_of_singleton in Hy. set_solver.
  - by rewrite Hf.
  - intros y st. destruct (decide (y = ing)) as [->|Hne].
    + rewrite lookup_insert_eq. intros [= <-]. simpl. repeat split; try done. set_solver.
    + rewrite lookup_insert_ne by done. intros Hy.
      destruct (bi_bp0 _ _ Hy) as (? & ? & ? & ? & ?). repeat split; try done. set_solver.
  - intros y Hy. destruct (decide (y = ing)) as [->|Hne].
    + by rewrite lookup_insert_eq.
    + rewrite lookup_insert_ne by done. apply bi_broot0. set_solver.
  - intros y Hy. unfold tierAt. destruct (decide (y = ing)) as [->|Hne].
    + by rewrite lookup_insert_eq.
    + rewrite lookup_insert_ne by done. apply bi_btier0. set_solver.
Qed.

Lemma expandIngredients_inv es target current r ingredients : ∀ s,
  BidInv es target s → bidFound s = false →
  r ∈ Recipes es → tierValid es r → Result r = current → current ∈ backwardVisited s →
  (∀ i, i ∈ ingredients → i ∈ Ingredients r) →
  BidInv es target (expandIngredients es current (GetElementTier es current) r ingredients s).
Proof.
  induction ingredients as [|ing rest IH]; intros s HI Hf Hr Hv Hres Hcur Hsub; simpl; [done|].
  assert (Hsub' : ∀ i, i ∈ rest → i ∈ Ingredients r) by (intros; apply Hsub; by right).
  destruct (_ <=? _); [by apply IH|].
  destruct (decide (ing ∈ backwardVisited s)) as [|Hnv]; [by apply IH|].
  pose proof (BidInv_discoverBackward es target current r ing s HI Hf Hr
                ltac:(apply Hsub; by left) Hv Hres Hcur Hnv) as HI'.
  destruct (decide (ing ∈ _)) as [Hb|Hb].
  - apply BidInv_meet_forward; [done|done|]. simpl. set_solver.
  - apply IH; try done. simpl. set_solver.
Qed.

Lemma expandIngredients_visited es current t r ingredients : ∀ s,
  backwardVisited s ⊆ backwardVisited (expandIngredients es current t r ingredients s).
Proof.
  induction ingredients as [|ing rest IH]; intros s; simpl; [done|].
  destruct (_ <=? _); [by apply IH|].
  destruct (decide (ing ∈ backwardVisited s)) as [|Hnv]; [by apply IH|].
  destruct (decide (ing ∈ _)) as [Hb|Hb]; simpl; [set_solver|].
  etrans; [|apply IH]. simpl. set_solver.
Qed.

Lemma expandBackward_inv es target current recipes : ∀ s,
  BidInv es target s → bidFound s = false → current ∈ backwardVisited s →
  (∀ r, r ∈ recipes → r ∈ Recipes es) →
  BidInv es target (expandBackward es current (GetElementTier es current) recipes s).
Proof.
  induction recipes as [|r rest IH]; intros s HI Hf Hcur Hsub; simpl; [done|].
  assert (Hsub' : ∀ r', r' ∈ rest → r' ∈ Recipes es) by (intros; apply Hsub; by right).
  destruct (decide (Result r = current)) as [Hres|]; [|by apply IH].
  destruct (negb _) eqn:Hv; [by apply IH|].
  apply negb_false_iff in Hv. rewrite <- Hres in Hv. apply tierValid_check in Hv.
  pose proof (expandIngredients_inv es target current r (Ingredients r) s HI Hf
                ltac:(apply Hsub; by left) Hv Hres Hcur ltac:(done)) as HI'.
  destruct (bidFound (expandIngredients es current (GetElementTier es current) r
                        (Ingredients r) s)) eqn:Hf'; [done|].
  apply IH; try done. by apply expandIngredients_visited.
Qed.

Lemma backwardLevel_inv es target n : ∀ s,
  BidInv es target s → BidInv es target (backwardLevel es n s).
Proof.
  induction n as [|n IH]; intros s HI; simpl; [done|].
  destruct (bidFound s) eqn:Hf; [done|].
  destruct (backwardQueue s) as [|x rest] eqn:Hq; [done|].
  pose proof (BidInv_popBackward _ _ _ _ _ HI Hq) as HI0.
  assert (Hx : x ∈ backwardVisited s) by (apply (bi_bq _ _ _ HI); rewrite Hq; by left).
  destruct (decide (x ∈ forwardVisited s)) as [Hb|Hb].
  - by apply BidInv_meet_forward.
  - apply IH. rewrite (bi_btier _ _ _ HI x Hx). by apply expandBackward_inv.
Qed.

Lemma bidLoop_inv es target fuel : ∀ s s',
  BidInv es target s → bidLoop es fuel s = Some s' → BidInv es target s'.
Proof.
  induction fuel as [|fuel IH]; intros s s' HI Hrun; simpl in Hrun.
  - destruct (forwardQueue s), (backwardQueue s), (bidFound s); by simplify_eq.
  - destruct (forwardQueue s) eqn:Hfq, (backwardQueue s) eqn:Hbq, (bidFound s) eqn:Hf;
      try by simplify_eq.
    rewrite <- Hfq in Hrun.
    pose proof (forwardLevel_inv es target (length (forwardQueue s)) s HI) as HI1.
    destruct (bidFound (forwardLevel es _ s)); [by simplify_eq|].
    eapply IH; [|exact Hrun]. by apply backwardLevel_inv.
Qed.

Lemma BidInv_initial es target : BidInv es target (initialState es target).
Proof.
  split; simpl; try done.
  - set_solver.
  - set_solver.
  - set_solver.
  - set_solver.
  - intros x Hx. apply elem_of_singleton in Hx as ->. unfold tierAt.
    by rewrite lookup_singleton_eq.
Qed.

Lemma search_inv es target s : search es target = Some s → BidInv es target s.
Proof. apply bidLoop_inv, BidInv_initial. Qed.

Lemma reconstructForwardFrom_suffix es pm fuel : ∀ x acc p,
  reconstructForwardFrom es fuel pm x acc = Some p → ∃ q, p = q ++ acc.
Proof.
  induction fuel as [|fuel IH]; intros x acc p Hrun; simpl in Hrun.
  - destruct (pm !! x); [destruct (negb _); [|done]|]; injection Hrun as <-; by exists [].
  - destruct (pm !! x) as [st|]; [|injection Hrun as <-; by exists []].
    destruct (negb _); [injection Hrun as <-; by exists []|].
    apply IH in Hrun as [q ->]. exists (q ++ [StepRecipe st]). by rewrite <- app_assoc.
Qed.

Lemma reconstructForwardPath_last es target s p r :
  BidInv es target s →
  reconstructForwardPath es (meetingPoint s) (forwardParent s) = Some p →
  last p = Some r → Result r = meetingPoint s.
Proof.
  intros HI Hrun Hlast. unfold reconstructForwardPath in Hrun.
  destruct (size (forwardParent s)) as [|fuel]; simpl in Hrun.
  - destruct (forwardParent s !! meetingPoint s); [destruct (negb _); [|done]|];
      injection Hrun as <-; done.
  - destruct (forwardParent s !! meetingPoint s) as [st|] eqn:Hp;
      [|injection Hrun as <-; done].
    destruct (negb _); [injection Hrun as <-; done|].
    apply reconstructForwardFrom_suffix in Hrun as [q ->].
    rewrite last_snoc in Hlast. injection Hlast as <-.
    by destruct (bi_fp _ _ _ HI _ _ Hp) as [? _].
Qed.

Lemma reconstructForwardPath_nil es target s :
  BidInv es target s → bidFound s = true →
  reconstructForwardPath es (meetingPoint s) (forwardParent s) = Some [] →
  meetingPoint s ∈ basicIDs es.
Proof.
  intros HI Hf Hrun. unfold reconstructForwardPath in Hrun.
  destruct (bi_meet _ _ _ HI Hf) as [Hm _].
  destruct (forwardParent s !! meetingPoint s) as [st|] eqn:Hp.
  2:{ by apply (bi_froot _ _ _ HI). }
  destruct (bi_fp _ _ _ HI _ _ Hp) as (_ & _ & Hv & _). apply tierValid_check in Hv.
  destruct (size (forwardParent s)) as [|fuel]; simpl in Hrun; rewrite Hp, Hv in Hrun;
    simpl in Hrun; [done|].
  apply reconstructForwardFrom_suffix in Hrun as [q Hq].
  by destruct q.
Qed.

Lemma reconstructBackwardFrom_chain es target s : BidInv es target s →
  ∀ fuel x acc p, x ∈ backwardVisited s →
  reconstructBackwardFrom es fuel (backwardParent s) x acc = Some p →
  ∃ q, p = acc ++ q
       ∧ (∀ r, head q = Some r → x ∈ Ingredients r)
       ∧ (∀ r, last q = Some r → Result r = target)
       ∧ (q = [] → x = target).
Proof.
  intros HI. induction fuel as [|fuel IH]; intros x acc p Hx Hrun; simpl in Hrun.
  - destruct (backwardParent s !! x) as [st|] eqn:Hp.
    + destruct (bi_bp _ _ _ HI _ _ Hp) as (_ & _ & Hv & _). apply tierValid_check in Hv.
      rewrite Hv in Hrun. done.
    + injection Hrun as <-. exists []. rewrite app_nil_r. repeat split; try done.
      intros _. by apply (bi_broot _ _ _ HI).
  - destruct (backwardParent s !! x) as [st|] eqn:Hp.
    + destruct (bi_bp _ _ _ HI _ _ Hp) as (Hing & Hres & Hv & _ & Hpar).
      apply tierValid_check in Hv. rewrite Hv in Hrun. simpl in Hrun.
      apply IH in Hrun as (q & -> & Hhd & Hlast & Hnil); [|done].
      exists (StepRecipe st :: q). rewrite <- app_assoc. simpl. repeat split; try done.
      * intros r [= <-]. done.
      * intros r Hr. destruct q as [|r' q'].
        -- simpl in Hr. injection Hr as <-. rewrite Hres. by apply Hnil.
        -- apply Hlast. by rewrite last_cons_cons in Hr.
    + injection Hrun as <-. exists []. rewrite app_nil_r. repeat split; try done.
      intros _. by apply (bi_broot _ _ _ HI).
Qed.

(** Termination of the round loop: every round pops a forward identifier,
    and a forward identifier is pushed once. *)
Definition forwardMeasure (es : ElementStore) (s : BidState) : nat :=
  (length (forwardQueue s) + unvisitedResults (forwardVisited s) (Recipes es))%nat.

Lemma expandForward_measure es current currentTier recipes : ∀ s,
  (∀ r, r ∈ recipes → r ∈ Recipes es) →
  (forwardMeasure es (expandForward es current currentTier recipes s)
   ≤ forwardMeasure es s)%nat.
Proof.
  induction recipes as [|r rest IH]; intros s Hsub; simpl; [done|].
  assert (Hsub' : ∀ r', r' ∈ rest → r' ∈ Recipes es) by (intros; apply Hsub; by right).
  destruct (negb _); [by apply IH|].
  destruct (_ <=? _); [by apply IH|].
  destruct (decide (Result r ∈ forwardVisited s)) as [|Hnv]; [by apply IH|].
  assert (Hd : (forwardMeasure es (discoverForward current r (GetElementTier es (Result r)) s)
                ≤ forwardMeasure es s)%nat).
  { unfold forwardMeasure. simpl. rewrite length_app. simpl.
    pose proof (unvisitedResults_discover (forwardVisited s) r (Recipes es)
                  ltac:(apply Hsub; by left) Hnv). lia. }
  destruct (decide (Result r ∈ _)); [done|].
  etrans; [by apply IH|done].
Qed.

Lemma getValid_universe es x r :
  r ∈ getValidRecipesWithElementAnyPosition es x → r ∈ Recipes es.
Proof. intros H. by apply getValid_elem in H as [? _]. Qed.

Lemma forwardLevel_measure es n : ∀ s,
  (forwardMeasure es (forwardLevel es n s) ≤ forwardMeasure es s)%nat.
Proof.
  induction n as [|n IH]; intros s; simpl; [done|].
  destruct (bidFound s); [done|].
  destruct (forwardQueue s) as [|x rest] eqn:Hq; [done|].
  assert (Hpop : (forwardMeasure es (popForward rest s) ≤ forwardMeasure es s)%nat).
  { unfold forwardMeasure. simpl. rewrite Hq. simpl. lia. }
  destruct (decide (x ∈ backwardVisited s)); [done|].
  etrans; [apply IH|]. etrans; [|exact Hpop].
  apply expandForward_measure. intros r. apply getValid_universe.
Qed.

Lemma forwardLevel_pops es n s x rest :
  forwardQueue s = x :: rest → bidFound s = false →
  (S (forwardMeasure es (forwardLevel es (S n) s)) ≤ forwardMeasure es s)%nat.
Proof.
  intros Hq Hf. simpl. rewrite Hf, Hq.
  assert (Hpop : (S (forwardMeasure es (popForward rest s)) ≤ forwardMeasure es s)%nat).
  { unfold forwardMeasure. simpl. rewrite Hq. simpl. lia. }
  destruct (decide (x ∈ backwardVisited s)); [done|].
  etrans; [|exact Hpop]. apply le_n_S.
  etrans; [apply forwardLevel_measure|].
  apply expandForward_measure. intros r. apply getValid_universe.
Qed.

Lemma expandIngredients_forward es current t r ingredients : ∀ s,
  forwardQueue (expandIngredients es current t r ingredients s) = forwardQueue s
  ∧ forwardVisited (expandIngredients es current t r ingredients s) = forwardVisited s.
Proof.
  induction ingredients as [|ing rest IH]; intros s; simpl; [done|].
  destruct (_ <=? _); [by apply IH|].
  destruct (decide (ing ∈ backwardVisited s)); [by apply IH|].
  destruct (decide (ing ∈ _)); [done|]. by destruct (IH (discoverBackward current r ing
    (GetElementTier es ing) s)) as [-> ->].
Qed.

Lemma expandBackward_forward es current t recipes : ∀ s,
  forwardQueue (expandBackward es current t recipes s) = forwardQueue s
  ∧ forwardVisited (expandBackward es current t recipes s) = forwardVisited s.
Proof.
  induction recipes as [|r rest IH]; intros s; simpl; [done|].
  destruct (decide (Result r = current)); [|by apply IH].
  destruct (negb _); [by apply IH|].
  pose proof (expandIngredients_forward es current t r (Ingredients r) s) as [H1 H2].
  destruct (bidFound _); [done|].
  destruct (IH (expandIngredients es current t r (Ingredients r) s)) as [-> ->]. done.
Qed.

Lemma backwardLevel_forward es n : ∀ s,
  forwardQueue (backwardLevel es n s) = forwardQueue s
  ∧ forwardVisited (backwardLevel es n s) = forwardVisited s.
Proof.
  induction n as [|n IH]; intros s; simpl; [done|].
  destruct (bidFound s); [done|].
  destruct (backwardQueue s) as [|x rest]; [done|].
  destruct (decide (x ∈ forwardVisited s)); [done|].
  destruct (IH (expandBackward es x (tierAt (backwardTier s) x) (Recipes es)
                  (popBackward rest s))) as [-> ->].
  apply (expandBackward_forward es x _ (Recipes es) (popBackward rest s)).
Qed.

Lemma bidLoop_total es fuel : ∀ s,
  (forwardMeasure es s ≤ fuel)%nat → is_Some (bidLoop es fuel s).
Proof.
  induction fuel as [|fuel IH]; intros s Hm; simpl.
  - destruct (forwardQueue s) eqn:Hq; [eauto|]. destruct (backwardQueue s); [eauto|].
    destruct (bidFound s); [eauto|].
    unfold forwardMeasure in Hm. rewrite Hq in Hm. simpl in Hm. lia.
  - destruct (forwardQueue s) as [|x rest] eqn:Hq; [eauto|].
    destruct (backwardQueue s); [eauto|].
    destruct (bidFound s) eqn:Hf; [eauto|].
    pose proof (forwardLevel_pops es (length rest) s x rest Hq Hf) as Hpop.
    change (length (x :: rest)) with (S (length rest)).
    destruct (bidFound (forwardLevel es (S (length rest)) s)); [eauto|].
    apply IH. unfold forwardMeasure.
    destruct (backwardLevel_forward es
      (length (backwardQueue (forwardLevel es (S (length rest)) s)))
      (forwardLevel es (S (length rest)) s)) as [-> ->].
    unfold forwardMeasure in Hpop, Hm. lia.
Qed.

Lemma bid_search_total es target : is_Some (search es target).
Proof.
  apply bidLoop_total. unfold forwardMeasure, initialState, bfsFuel. simpl.
  rewrite basicIDs_length.
  pose proof (filter_length_le
    (fun r => bool_decide (Result r ∉ (list_to_set (basicIDs es) : gset string)))
    (Recipes es)). unfold unvisitedResults. lia.
Qed.

Lemma bid_forward_tierDecreasing es target s :
  BidInv es target s → tierDecreasing es (forwardParent s).
Proof.
  intros HI child step Hp.
  destruct (bi_fp _ _ _ HI _ _ Hp) as (Hres & Hing & Hv & _).
  rewrite <- Hres. by apply Hv.
Qed.

Lemma reconstructForwardPath_tierDecreasing es parentMap :
  tierDecreasing es parentMap → ∀ x, is_Some (reconstructForwardPath es x parentMap).
Proof.
  intros Hdec. unfold reconstructForwardPath.
  set (below (x : string) := filter (fun k => GetElementTier es k ≤ GetElementTier es x)
                                    (dom parentMap)).
  assert (Hgo : ∀ fuel x acc, (size (below x) ≤ fuel)%nat →
            is_Some (reconstructForwardFrom es fuel parentMap x acc)).
  { induction fuel as [|fuel IH]; intros x acc Hsz.
    - simpl. destruct (parentMap !! x) as [st|] eqn:Hp; [|eauto].
      assert (x ∈ below x) by (apply elem_of_filter; split; [lia|by apply elem_of_dom]).
      assert (Hz : size (below x) = 0%nat) by lia.
      apply size_empty_inv in Hz. set_solver.
    - simpl. destruct (parentMap !! x) as [st|] eqn:Hp; [|eauto].
      destruct (negb _); [eauto|].
      apply IH. pose proof (Hdec _ _ Hp) as Hlt.
      assert (Hsub : below (ParentID st) ⊂ below x).
      { split.
        - intros k. unfold below. rewrite !elem_of_filter. intros [? ?]. split; [lia|done].
        - intros Hsub. assert (Hx : x ∈ below x).
          { apply elem_of_filter; split; [lia|by apply elem_of_dom]. }
          apply Hsub in Hx. apply elem_of_filter in Hx as [? _]. lia. }
      apply subset_size in Hsub. lia. }
  intros x. apply Hgo. rewrite <- size_dom. apply subseteq_size.
  intros k Hk. by apply elem_of_filter in Hk as [_ ?].
Qed.

End BidirectionalTheory.

(** ** The admission gate *)

Lemma gate_invariant maxPaths iterations s :
  gateReachable maxPaths iterations s →
  semLen s = size (searching s)
  ∧ (∀ index, index ∈ searching s → (index < nextIndex s)%nat)
  ∧ Z.of_nat (semLen s) ≤ Z.max 0 (maxGoroutines maxPaths).
Proof.
  induction 1 as [|s s' _ (Hsem & Hlt & Hcap) Hstep].
  - split; [symmetry; apply size_empty|]. split; [set_solver|simpl; lia].
  - destruct Hstep as [s Hnext Hroom|s index Hin]; simpl.
    + assert (Hfresh : nextIndex s ∉ searching s).
      { intros Hin. specialize (Hlt _ Hin). lia. }
      split; [|split].
      * rewrite size_union by set_solver. rewrite size_singleton. lia.
      * intros index Hin. apply elem_of_union in Hin as [Hin|Hin].
        -- apply elem_of_singleton in Hin as ->. lia.
        -- specialize (Hlt _ Hin). lia.
      * lia.
    + split; [|split].
      * rewrite size_difference by set_solver. rewrite size_singleton. lia.
      * intros i Hi. apply Hlt. set_solver.
      * lia.
Qed.

(** ** Tier validity in the tier-checking engines *)

Lemma strict_keep_valid es current recipe :
  DepthFirstFinder.keepRecipe es current recipe = true → tierValid es recipe.
Proof.
  unfold DepthFirstFinder.keepRecipe. rewrite andb_true_iff. intros [Hv _].
  by apply tierValid_check.
Qed.






(** ** The loops of the single-result searches end *)

Lemma dfs_search_ends es target :
  ∃ b s, DepthFirstFinder.search es target = Some (b, s)
         ∧ (b = true → is_Some (reconstructPath target (dfsParent s))).
Proof.
  unfold DepthFirstFinder.search.
  destruct (tryStarts_total target (DepthFirstFinder.possibleRecipes es target)
              (DepthFirstFinder.keepRecipe es)
              (wrapInt (GetElementTier es target * 2)) (basicIDs es) emptyDepthState)
    as [[b s] Hs].
  exists b, s. split; [done|]. intros ->.
  destruct (tryStarts_climbing target _ _ _ (GetElementTier es) (fun _ => True)
              (dfs_keep_progress es) ltac:(done) (basicIDs es) emptyDepthState true s
              ltac:(done) (climbing_empty _ _ _) Hs) as [Hc _].
  assert (Hdec : tierDecreasing es (dfsParent s)).
  { intros child step Hp. by destruct (Hc _ _ Hp) as (_ & ? & _). }
  apply (reconstructPath_tierDecreasing es _ Hdec target).
Qed.

Lemma reconstructBackwardPath_returns es target s :
  BidInv es target s → ∀ x,
  is_Some (BidirectionalFinder.reconstructBackwardPath es x (backwardParent s)).
Proof.
  intros HI. unfold BidirectionalFinder.reconstructBackwardPath.
  set (above (x : string) := filter (fun k => GetElementTier es x ≤ GetElementTier es k)
                                    (dom (backwardParent s))).
  assert (Hgo : ∀ fuel x acc, (size (above x) ≤ fuel)%nat →
            is_Some (BidirectionalFinder.reconstructBackwardFrom es fuel
                       (backwardParent s) x acc)).
  { induction fuel as [|fuel IH]; intros x acc Hsz.
    - simpl. destruct (backwardParent s !! x) as [st|] eqn:Hp; [|eauto].
      assert (x ∈ above x) by (apply elem_of_filter; split; [lia|by apply elem_of_dom]).
      assert (Hz : size (above x) = 0%nat) by lia.
      apply size_empty_inv in Hz. set_solver.
    - simpl. destruct (backwardParent s !! x) as [st|] eqn:Hp; [|eauto].
      destruct (negb _); [eauto|].
      apply IH. destruct (bi_bp _ _ _ HI _ _ Hp) as (Hing & Hres & Hv & _).
      pose proof (Hv _ Hing) as Hlt. rewrite Hres in Hlt.
      assert (Hsub : above (ParentID st) ⊂ above x).
      { split.
        - intros k. unfold above. rewrite !elem_of_filter. intros [? ?]. split; [lia|done].
        - intros Hsub. assert (Hx : x ∈ above x).
          { apply elem_of_filter; split; [lia|by apply elem_of_dom]. }
          apply Hsub in Hx. apply elem_of_filter in Hx as [? _]. lia. }
      apply subset_size in Hsub. lia. }
  intros x. apply Hgo. rewrite <- size_dom. apply subseteq_size.
  intros k Hk. by apply elem_of_filter in Hk as [_ ?].
Qed.

Lemma bid_search_ends es target :
  ∃ s, BidirectionalFinder.search es target = Some s
       ∧ BidInv es target s
       ∧ is_Some (BidirectionalFinder.reconstructForwardPath es (meetingPoint s)
                    (forwardParent s))
       ∧ is_Some (BidirectionalFinder.reconstructBackwardPath es (meetingPoint s)
                    (backwardParent s)).
Proof.
  destruct (bid_search_total es target) as [s Hs]. exists s. split; [done|].
  pose proof (search_inv _ _ _ Hs) as HI. split; [done|]. split.
  - apply (reconstructForwardPath_tierDecreasing es _ (bid_forward_tierDecreasing _ _ _ HI)).
  - apply (reconstructBackwardPath_returns _ _ _ HI).
Qed.

(** ** The depth ceiling

    The elements on the recursion stack form the backpointer chain of the
    element being expanded: [onStack parentMap V x n] says that the chain
    from [x] has [n] entries and stays within [V]. *)
Inductive onStack (parentMap : gmap string RecipeStep) (V : gset string)
    : string → nat → Prop :=
| onStack_root x : parentMap !! x = None → x ∈ V → onStack parentMap V x 0
| onStack_step x step n :
    parentMap !! x = Some step → x ∈ V → onStack parentMap V (ParentID step) n →
    onStack parentMap V x (S n).

Lemma onStack_mark parentMap V x n y step :
  onStack parentMap V x n → y ∉ V →
  onStack (<[y := step]> parentMap) ({[y]} ∪ V) x n.
Proof.
  induction 1 as [x Hx Hv|x st n Hx Hv _ IH]; intros Hy.
  - apply onStack_root; [|set_solver]. rewrite lookup_insert_ne; [done|]. by intros ->.
  - eapply onStack_step; [|set_solver|by apply IH].
    rewrite lookup_insert_ne; [done|]. by intros ->.
Qed.

Lemma onStack_walk parentMap V x n : onStack parentMap V x n →
  ∀ fuel acc p, reconstructPathFrom fuel parentMap x acc = Some p →
  length p = (n + length acc)%nat.
Proof.
  induction 1 as [x Hx Hv|x st n Hx Hv _ IH]; intros fuel acc p Hrun.
  - destruct fuel; simpl in Hrun; rewrite Hx in Hrun; by injection Hrun as <-.
  - destruct fuel; simpl in Hrun; rewrite Hx in Hrun; [done|].
    apply IH in Hrun. simpl in Hrun. lia.
Qed.

Section DepthCeiling.
Variable target : string.
Variable possible : string -> list Recipe.
Variable keep : string -> Recipe -> bool.
Variable maxDepth : Z.

Lemma tryRecipes_ceiling deeper current depth n recipes : ∀ s s',
  (∀ x s0 s1, dom (dfsParent s0) ⊆ dfsVisited s0 → deeper x s0 = Some (false, s1) →
     dfsVisited s1 = dfsVisited s0 ∧ dfsParent s1 = dfsParent s0) →
  (∀ x s0 s1, dom (dfsParent s0) ⊆ dfsVisited s0 →
     onStack (dfsParent s0) (dfsVisited s0) x (S n) →
     deeper x s0 = Some (true, s1) →
     ∃ m, onStack (dfsParent s1) (dfsVisited s1) target m ∧ Z.of_nat m ≤ maxDepth) →
  Z.of_nat n = depth → depth < maxDepth →
  dom (dfsParent s) ⊆ dfsVisited s →
  onStack (dfsParent s) (dfsVisited s) current n →
  tryRecipes keep deeper current recipes s = Some (true, s') →
  ∃ m, onStack (dfsParent s') (dfsVisited s') target m ∧ Z.of_nat m ≤ maxDepth.
Proof.
  induction recipes as [|recipe rest IH];
    intros s s' Hfalse Htrue Hn Hlt Hdom Hst Hrun; simpl in Hrun; [done|].
  destruct (keep current recipe); simpl in Hrun; [|by eapply IH].
  destruct (decide (Result recipe ∈ dfsVisited s)) as [|Hnv]; [by eapply IH|].
  assert (Hdom' : dom (dfsParent (mark current recipe s)) ⊆ dfsVisited (mark current recipe s)).
  { simpl. rewrite dom_insert_L. set_solver. }
  destruct (deeper (Result recipe) (mark current recipe s)) as [[[] s1]|] eqn:Hd; [| |done].
  - injection Hrun as <-.
    apply (Htrue (Result recipe) (mark current recipe s) s1 Hdom'); [|done]. simpl.
    eapply onStack_step.
    + apply lookup_insert_eq.
    + set_solver.
    + simpl. by apply onStack_mark.
  - destruct (Hfalse _ _ _ Hdom' Hd) as [Hv Hp].
    assert (Hv' : dfsVisited (unmark (Result recipe) s1) = dfsVisited s).
    { simpl. rewrite Hv. simpl. set_solver. }
    assert (Hp' : dfsParent (unmark (Result recipe) s1) = dfsParent s).
    { simpl. rewrite Hp. simpl. apply delete_insert_id.
      apply not_elem_of_dom. set_solver. }
    apply (IH (unmark (Result recipe) s1) s' Hfalse Htrue Hn Hlt);
      [by rewrite Hp', Hv'|by rewrite Hp', Hv'|done].
Qed.

Lemma dfsSearchWithTiers_ceiling fuel : ∀ current depth n s s',
  Z.of_nat n = depth →
  dom (dfsParent s) ⊆ dfsVisited s →
  onStack (dfsParent s) (dfsVisited s) current n →
  dfsSearchWithTiers target possible keep maxDepth fuel current depth s = Some (true, s') →
  ∃ m, onStack (dfsParent s') (dfsVisited s') target m
       ∧ Z.of_nat m ≤ Z.max depth maxDepth.
Proof.
  induction fuel as [|fuel IH]; intros current depth n s s' Hn Hdom Hst Hrun;
    simpl in Hrun.
  - destruct (decide (current = target)) as [->|].
    { injection Hrun as <-. exists n. split; [done|lia]. }
    by destruct (maxDepth <=? depth).
  - destruct (decide (current = target)) as [->|].
    { injection Hrun as <-. exists n. split; [done|lia]. }
    destruct (maxDepth <=? depth) eqn:Hd; [done|]. apply Z.leb_gt in Hd.
    assert (Hfalse : ∀ x s0 s1, dom (dfsParent s0) ⊆ dfsVisited s0 →
      dfsSearchWithTiers target possible keep maxDepth fuel x (depth + 1) s0
        = Some (false, s1) →
      dfsVisited s1 = dfsVisited s0 ∧ dfsParent s1 = dfsParent s0).
    { intros x s0 s1 Hd0 Hx. by eapply dfsSearchWithTiers_restores. }
    assert (Htrue : ∀ x s0 s1, dom (dfsParent s0) ⊆ dfsVisited s0 →
      onStack (dfsParent s0) (dfsVisited s0) x (S n) →
      dfsSearchWithTiers target possible keep maxDepth fuel x (depth + 1) s0
        = Some (true, s1) →
      ∃ m, onStack (dfsParent s1) (dfsVisited s1) target m ∧ Z.of_nat m ≤ maxDepth).
    { intros x s0 s1 Hd0 Hst0 Hx.
      destruct (IH x (depth + 1) (S n) s0 s1 ltac:(lia) Hd0 Hst0 Hx) as (m & Hm & Hle).
      exists m. split; [done|lia]. }
    destruct (tryRecipes_ceiling _ current depth n _ s s' Hfalse Htrue Hn Hd Hdom Hst Hrun)
      as (m & Hm & Hle).
    exists m. split; [done|lia].
Qed.

Lemma tryStarts_ceiling starts : ∀ s s',
  dfsParent s = ∅ →
  tryStarts target possible keep maxDepth starts s = Some (true, s') →
  ∃ m, onStack (dfsParent s') (dfsVisited s') target m
       ∧ Z.of_nat m ≤ Z.max 0 maxDepth.
Proof.
  induction starts as [|id rest IH]; intros s s' Hempty Hrun; simpl in Hrun; [done|].
  assert (Hdom : dom (dfsParent (enter id s)) ⊆ dfsVisited (enter id s)).
  { simpl. rewrite Hempty, dom_empty_L. set_solver. }
  assert (Hst : onStack (dfsParent (enter id s)) (dfsVisited (enter id s)) id 0).
  { apply onStack_root; simpl; [by rewrite Hempty|set_solver]. }
  destruct (dfsSearchWithTiers target possible keep maxDepth (Z.to_nat maxDepth) id 0 (enter id s))
    as [[[] s1]|] eqn:Hd; [| |done].
  - injection Hrun as <-.
    by apply (dfsSearchWithTiers_ceiling (Z.to_nat maxDepth) id 0 0%nat (enter id s) s1).
  - apply (IH (leave id s1)); [|done]. simpl.
    destruct (dfsSearchWithTiers_restores _ _ _ _ _ _ _ _ _ Hdom Hd) as [_ ->]. done.
Qed.

End DepthCeiling.

Lemma tryStartsVariation_ceiling target possible keep maxDepth existing starts : ∀ k s s',
  dfsParent s = ∅ →
  DepthFirstFinder.tryStartsVariation target possible keep maxDepth existing k starts s
    = Some (true, s') →
  ∃ m, onStack (dfsParent s') (dfsVisited s') target m
       ∧ Z.of_nat m ≤ Z.max 0 maxDepth.
Proof.
  induction starts as [|id rest IH]; intros k s s' Hempty Hrun; simpl in Hrun; [done|].
  assert (Hdom : dom (dfsParent (enter id s)) ⊆ dfsVisited (enter id s)).
  { simpl. rewrite Hempty, dom_empty_L. set_solver. }
  assert (Hst : onStack (dfsParent (enter id s)) (dfsVisited (enter id s)) id 0).
  { apply onStack_root; simpl; [by rewrite Hempty|set_solver]. }
  destruct (dfsSearchWithTiers target possible keep maxDepth (Z.to_nat maxDepth) id 0 (enter id s))
    as [[[] s1]|] eqn:Hd; [| |done].
  - destruct (reconstructPath target (dfsParent s1)) as [path|]; [|done].
    destruct (decide (getPathSignature path ∈ existing k)).
    + by apply IH in Hrun.
    + injection Hrun as <-.
      by apply (dfsSearchWithTiers_ceiling target possible keep maxDepth
                  (Z.to_nat maxDepth) id 0 0%nat (enter id s) s1).
  - apply (IH (S k) (leave id s1)); [|done]. simpl.
    destruct (dfsSearchWithTiers_restores _ _ _ _ _ _ _ _ _ Hdom Hd) as [_ ->]. done.
Qed.

(** A path returned by the depth-bounded engine is within the ceiling of
    the search that found it: [targetTier * 2] for [FindShortestPath], and
    [targetTier * 2 + variationIndex % 5] for [findPathVariation]. *)
Lemma dfs_path_within_ceiling es target elapsed res :
  (DepthFirstFinder.FindShortestPath es target elapsed = Some (inr res) →
   Z.of_nat (length (Path res)) ≤ Z.max 0 (wrapInt (GetElementTier es target * 2)))
  ∧ (∀ variationIndex targetTier existing,
       DepthFirstFinder.findPathVariation es target variationIndex targetTier
         existing elapsed = Some (inr res) →
       Z.of_nat (length (Path res))
       ≤ Z.max 0 (wrapInt (wrapInt (targetTier * 2) + Z.rem variationIndex 5))).
Proof.
  split.
  - unfold DepthFirstFinder.FindShortestPath. intros Hres.
    destruct (Elements es !! target); [|done].
    destruct (GetBasicElements es); [done|].
    apply finishDepth_result in Hres as (s & Hrun & Hp).
    apply tryStarts_ceiling in Hrun as (m & Hm & Hle); [|done].
    unfold reconstructPath in Hp. apply (onStack_walk _ _ _ _ Hm) in Hp.
    simpl in Hp. lia.
  - intros vi tt existing. unfold DepthFirstFinder.findPathVariation. intros Hres.
    destruct (GetBasicElements es); [done|].
    apply finishDepth_result in Hres as (s & Hrun & Hp).
    apply tryStartsVariation_ceiling in Hrun as (m & Hm & Hle); [|done].
    unfold reconstructPath in Hp. apply (onStack_walk _ _ _ _ Hm) in Hp.
    simpl in Hp. lia.
Qed.

(** ** The count of the results of the earlier orchestrator *)

Lemma collect_length es target elapsed completion : ∀ results final,
  MultiplePathsV1.collect es target elapsed completion results = Some final →
  (length final ≤ length results + length completion)%nat.
Proof.
  induction completion as [|index rest IH]; intros results final Hrun; simpl in Hrun.
  { injection Hrun as <-. lia. }
  destruct (MultiplePathsV1.findPathWithVariation _ _ _ _) as [[err|result]|]; [| |done].
  - apply IH in Hrun. simpl. lia.
  - apply IH in Hrun. rewrite length_app in Hrun. simpl in *. lia.
Qed.

Lemma v1_multiple_paths_count es target completion elapsed results :
  MultiplePathsV1.FindMultiplePaths es target completion elapsed = Some (inr results) →
  (length results ≤ length completion)%nat.
Proof.
  unfold MultiplePathsV1.FindMultiplePaths. destruct (Elements es !! target); [|done].
  destruct (MultiplePathsV1.collect _ _ _ _ _) as [[|r l]|] eqn:Hrun; [done| |done].
  intros [= <-]. apply collect_length in Hrun. simpl in *. lia.
Qed.

(** ** What the hypotheses of the claims below exclude *)

(** Without non-negative tiers a variation returns a path above
    [2 * tier(target)]: B is basic with tier -2, D has tier -1. *)
Example dfs_bound_needs_tiers :
  pathOf (DepthFirstFinder.findPathVariation negative "D" 3
            (GetElementTier negative "D") (fun _ => ∅) 0)
  = Some (inr [mkRecipe ["B"; "B"] "D"])
  ∧ 2 * GetElementTier negative "D" = -2.
Proof. split; by vm_compute. Qed.

(** A backpointer whose key is not marked visited is lost by a failed
    search that passes through the key. *)
Example backtracking_needs_marked_keys :
  match dfsSearchWithTiers "Z" (DepthFirstFinder.possibleRecipes scenario "D")
          (DepthFirstFinder.keepRecipe scenario) 4 4 "A" 0
          {| dfsVisited := {["A"]};
             dfsParent := {["C" := mkRecipeStep "B" (mkRecipe ["A"; "B"] "C")]};
             dfsVisitedCount := 1 |} with
  | Some (false, s') => dfsParent s' = ∅
  | _ => False
  end.
Proof. by vm_compute. Qed.

(** For [maxPaths = 0] the tier-checking orchestrator returns one result. *)
Example multiple_paths_zero :
  match MultiplePaths.FindMultiplePaths scenario "D" 0 0 with
  | Some (inr results) => length results = 1%nat
  | _ => False
  end.
Proof. by vm_compute. Qed.

(** ** The tree of a tier-valid path *)

Lemma tierPath_valid es x rs y : tierPath es x rs y → ∀ r, r ∈ rs → tierValid es r.
Proof.
  induction 1 as [|rs y r _ IH _ _ Hv]; intros r' Hr'.
  - by apply elem_of_nil in Hr'.
  - apply elem_of_app in Hr' as [?|Hr']; [by apply IH|].
    by apply list_elem_of_singleton in Hr' as ->.
Qed.

Lemma tierPath_catalog es x rs y : tierPath es x rs y → ∀ r, r ∈ rs → r ∈ Recipes es.
Proof.
  induction 1 as [|rs y r _ IH Hr _ _]; intros r' Hr'.
  - by apply elem_of_nil in Hr'.
  - apply elem_of_app in Hr' as [?|Hr']; [by apply IH|].
    by apply list_elem_of_singleton in Hr' as ->.
Qed.

(** In a catalog that lists every ingredient, the tree of a tier-valid
    path to an element of the catalog is built. *)
Lemma tierPath_builds es x rs target :
  tierPath es x rs target → listed es → is_Some (Elements es !! target) →
  builds es rs target.
Proof.
  intros Hpath Hlisted Htarget. apply builds_treeOf, treeOf_listed; try done.
  - by eapply tierPath_valid.
  - by eapply tierPath_catalog.
Qed.

(** ** The searches over element names *)

Section NameSearches.
Import Algorithm.

Lemma contains_spec slice s : contains slice s = true ↔ s ∈ slice.
Proof.
  unfold contains. rewrite existsb_exists. setoid_rewrite String.eqb_eq.
  setoid_rewrite <- list_elem_of_In. naive_solver.
Qed.

(** The counts of a map are those of a list of names. *)
Definition counts (count : gmap string Z) (have : list string) : Prop :=
  ∀ x, countAt count x = Z.of_nat (length (List.filter (String.eqb x) have)).

Lemma counts_fold have : ∀ count seen,
  counts count seen →
  counts (fold_left (fun count h => <[h := countAt count h + 1]> count) have count)
         (seen ++ have).
Proof.
  induction have as [|h have IH]; intros count seen Hc; simpl.
  { by rewrite app_nil_r. }
  replace (seen ++ h :: have) with ((seen ++ [h]) ++ have) by by rewrite <- app_assoc.
  apply IH. intros x. unfold countAt at 1.
  rewrite List.filter_app, length_app. simpl.
  destruct (decide (x = h)) as [->|Hne].
  - rewrite lookup_insert_eq, String.eqb_refl. simpl. rewrite Hc. lia.
  - rewrite lookup_insert_ne by done.
    apply String.eqb_neq in Hne. rewrite Hne. simpl. fold (countAt count x).
    rewrite Hc. lia.
Qed.

Lemma counts_positive count have x :
  counts count have → countAt count x ≠ 0 ↔ x ∈ have.
Proof.
  intros Hc. rewrite Hc. split.
  - intros Hne. destruct (List.filter (String.eqb x) have) as [|y l] eqn:Hf; [done|].
    assert (y ∈ List.filter (String.eqb x) have) as Hy by (rewrite Hf; by left).
    apply list_elem_of_In, filter_In in Hy as [Hy Heq]. apply String.eqb_eq in Heq as ->.
    by apply list_elem_of_In.
  - intros Hin Hz.
    assert (x ∈ List.filter (String.eqb x) have) as Hx.
    { apply list_elem_of_In, filter_In. split; [by apply list_elem_of_In|].
      apply String.eqb_refl. }
    destruct (List.filter (String.eqb x) have); [by apply elem_of_nil in Hx|].
    simpl in Hz. lia.
Qed.

Lemma filter_length_perm {A} (f : A → bool) (l1 l2 : list A) :
  l1 ≡ₚ l2 → length (List.filter f l1) = length (List.filter f l2).
Proof.
  induction 1 as [|a l1 l2 _ IH|a b l|l1 l2 l3 _ IH1 _ IH2]; simpl.
  - done.
  - destruct (f a); simpl; by rewrite IH.
  - by destruct (f a), (f b).
  - congruence.
Qed.

Lemma counts_perm count have1 have2 :
  have1 ≡ₚ have2 → counts count have1 → counts count have2.
Proof.
  intros Hp Hc x. rewrite Hc. f_equal. by apply filter_length_perm.
Qed.

Lemma counts_take count n have :
  counts count (n :: have) → counts (<[n := countAt count n - 1]> count) have.
Proof.
  intros Hc x. specialize (Hc x). simpl in Hc. unfold countAt at 1.
  destruct (decide (x = n)) as [->|Hne].
  - rewrite lookup_insert_eq. simpl. rewrite String.eqb_refl in Hc. simpl in Hc. lia.
  - rewrite lookup_insert_ne by done. fold (countAt count x).
    apply String.eqb_neq in Hne. rewrite Hne in Hc. done.
Qed.

Lemma takeAll_spec need : ∀ count have,
  counts count have → takeAll count need = true ↔ need ⊆+ have.
Proof.
  induction need as [|n need IH]; intros count have Hc; simpl.
  { split; [intros _; apply submseteq_nil_l|done]. }
  destruct (countAt count n =? 0) eqn:Hz.
  - apply Z.eqb_eq in Hz. split; [done|]. intros Hsub.
    assert (n ∈ have) as Hin by (eapply elem_of_submseteq; [|exact Hsub]; by left).
    by apply (counts_positive count have n Hc) in Hin.
  - apply Z.eqb_neq in Hz. apply (counts_positive count have n Hc) in Hz.
    apply elem_of_Permutation in Hz as [have' Hp].
    rewrite (IH _ have' (counts_take _ _ _ (counts_perm _ _ _ Hp Hc))).
    rewrite Hp. split; [by apply submseteq_skip|]. by apply submseteq_app_inv_l with (k := [n]).
Qed.

Lemma containsAll_spec have need : containsAll have need = true ↔ need ⊆+ have.
Proof.
  unfold containsAll. apply takeAll_spec.
  apply (counts_fold have ∅ []). intros x. unfold countAt. by rewrite lookup_empty.
Qed.


(** A recipe of two or more names is not contained in a path of one. *)
Lemma containsAll_short have need :
  (length have < length need)%nat → containsAll have need = false.
Proof.
  intros Hlen. apply not_true_is_false. intros Hc. apply containsAll_spec in Hc.
  apply submseteq_length in Hc. lia.
Qed.

Lemma tryElement_idle curr st entry :
  (∀ recipe, recipe ∈ Recipes entry.2 → (length (Path curr) < length recipe)%nat) →
  tryElement curr st entry = st.
Proof.
  unfold tryElement. induction (Recipes entry.2) as [|recipe rest IH]; intros Hlong; [done|].
  simpl. unfold tryRecipe at 2. rewrite containsAll_short by (apply Hlong; by left).
  simpl. apply IH. intros r Hr. apply Hlong. by right.
Qed.

Lemma tryElements_idle curr entries : ∀ st,
  (∀ entry recipe, entry ∈ entries → recipe ∈ Recipes entry.2 →
     (length (Path curr) < length recipe)%nat) →
  fold_left (tryElement curr) entries st = st.
Proof.
  induction entries as [|entry rest IH]; intros st Hlong; [done|]. simpl.
  rewrite tryElement_idle by (intros r Hr; apply (Hlong entry r); [by left|done]).
  apply IH. intros e r He Hr. apply (Hlong e r); [by right|done].
Qed.

(** When no recipe can be used from a path of one name, the queue of the
    breadth-first search only shrinks. *)
Lemma nameQueue_drain target orders :
  (∀ k entry recipe, entry ∈ orders k → recipe ∈ Recipes entry.2 →
     (2 ≤ length recipe)%nat) →
  ∀ pending fuel k visited,
    (length pending ≤ fuel)%nat → Forall (fun node => length (Path node) = 1%nat) pending →
    bfsLoop target orders fuel k (pending, visited)
    = Some (Path <$> List.find (fun node => String.eqb (NodeName node) target) pending).
Proof.
  intros Hlong. induction pending as [|curr rest IH]; intros fuel k visited Hfuel Hone.
  { by destruct fuel. }
  apply Forall_cons in Hone as [Hcurr Hrest].
  destruct fuel as [|fuel]; [simpl in Hfuel; lia|]. simpl.
  destruct (String.eqb (NodeName curr) target); [done|].
  rewrite tryElements_idle.
  - apply IH; [simpl in Hfuel; lia|done].
  - intros entry recipe He Hr. rewrite Hcurr. specialize (Hlong k entry recipe He Hr). lia.
Qed.

Lemma orders_entries (elements : gmap string Element) (orders : nat → Entries) k entry :
  (∀ k, orders k ≡ₚ map_to_list elements) → entry ∈ orders k →
  elements !! entry.1 = Some entry.2.
Proof.
  intros Hperm Hin. rewrite (Hperm k) in Hin. destruct entry as [name el].
  by apply elem_of_map_to_list in Hin.
Qed.

Lemma find_start target (names : list string) :
  Path <$> List.find (fun node => String.eqb (NodeName node) target)
             ((fun b => mkPathNode b [b]) <$> names)
  = if decide (target ∈ names) then Some [target] else None.
Proof.
  induction names as [|b names IH]; [done|].
  rewrite fmap_cons. cbn [List.find NodeName].
  destruct (String.eqb_spec b target) as [->|Hne].
  - rewrite decide_True by (by left). reflexivity.
  - rewrite IH. destruct (decide (target ∈ names)).
    + rewrite decide_True by (by right). done.
    + rewrite decide_False; [done|]. set_solver.
Qed.

Lemma bfs_two_ingredients target elements orders :
  (∀ k, orders k ≡ₚ map_to_list elements) →
  (∀ name el recipe, elements !! name = Some el → recipe ∈ Recipes el →
     (2 ≤ length recipe)%nat) →
  bfs target elements orders = Some (if decide (target ∈ base) then Some [target] else None).
Proof.
  intros Hperm Hlong. unfold bfs, start.
  rewrite (nameQueue_drain target orders).
  - f_equal. apply find_start.
  - intros k entry recipe He Hr.
    apply (Hlong entry.1 entry.2 recipe); [|done]. by eapply orders_entries.
  - rewrite length_fmap. lia.
  - unfold base. repeat constructor.
Qed.

Lemma dfsRecipes_idle target orders fuel name recipes visited k :
  (∀ recipe, recipe ∈ recipes → recipe ≠ []) →
  dfsRecipes (dfs target orders fuel) [] name recipes visited k = Some (None, (visited, k)).
Proof.
  induction recipes as [|recipe rest IH]; intros Hne; [done|]. simpl.
  rewrite containsAll_short.
  - apply IH. intros r Hr. apply Hne. by right.
  - specialize (Hne recipe ltac:(by left)). destruct recipe; [done|simpl; lia].
Qed.

Lemma dfsElements_idle target orders fuel entries : ∀ visited k,
  (∀ entry recipe, entry ∈ entries → recipe ∈ Recipes entry.2 → recipe ≠ []) →
  dfsElements (dfs target orders fuel) [] entries visited k = Some (None, (visited, k)).
Proof.
  induction entries as [|[name el] rest IH]; intros visited k Hne; [done|]. simpl.
  assert (∀ entry recipe, entry ∈ rest → recipe ∈ Recipes entry.2 → recipe ≠ []) as Hrest.
  { intros e r He Hr. apply (Hne e r); [by right|done]. }
  destruct (bool_decide (name ∈ visited)); simpl; [by apply IH|].
  rewrite dfsRecipes_idle; [by apply IH|].
  intros r Hr. apply (Hne (name, el) r); [by left|done].
Qed.

Lemma dfs_no_empty_recipe target elements orders :
  (∀ k, orders k ≡ₚ map_to_list elements) →
  (∀ name el recipe, elements !! name = Some el → recipe ∈ Recipes el → recipe ≠ []) →
  dfs target orders (S (size elements)) [] ∅ 0 = Some (None, (∅, 1%nat)).
Proof.
  intros Hperm Hne. simpl. apply dfsElements_idle. intros entry recipe He Hr.
  apply (Hne entry.1 entry.2 recipe); [|done]. by eapply orders_entries.
Qed.

End NameSearches.

(** ** The workers of [FindMultipleRecipes] *)

Section WorkerPool.
Import Algorithm.

Definition weight (w : Worker) : nat := if hasReturned w then 1 else 0.

Lemma returned_insert ws : ∀ i w w',
  ws !! i = Some w →
  (returned (<[i := w']> ws) + weight w = returned ws + weight w')%nat.
Proof.
  unfold returned, weight.
  induction ws as [|w0 ws IH]; intros i w w' Hi; [done|].
  destruct i as [|i]; simpl in *.
  - injection Hi as ->. destruct (hasReturned w), (hasReturned w'); simpl; lia.
  - specialize (IH i w w' Hi). destruct (hasReturned w0); simpl; lia.
Qed.

Lemma returned_all ws :
  Forall (fun w => w = Returned) ws → returned ws = length ws.
Proof.
  unfold returned. induction 1 as [|w ws -> _ IH]; [done|]. simpl. by rewrite IH.
Qed.

Variable target : string.
Variable max : Z.
Variable elements : gmap string Element.

(** Every worker that has returned has added a path of its own. *)
Record counted (s : Pool) : Prop := {
  counted_workers : length (workers s) = 8%nat;
  counted_results : (returned (workers s) ≤ length (results s))%nat;
  counted_target : ∀ path, path ∈ results s → last path = Some target
}.

Lemma counted_launched : counted launched.
Proof. split; simpl; [done|done|]. intros path H. by apply elem_of_nil in H. Qed.

Lemma counted_step s s' : counted s → step target max elements s s' → counted s'.
Proof.
  intros [Hw Hr Ht] Hstep. destruct Hstep as
    [s i path rest Hi Hq Hlast|s i path rest name entries Hi Hq Hlast Hne Hperm
    |s i rest Hi Hq|s i path paths Hi Hlen]; split; simpl;
    rewrite ?length_insert; try done.
  - pose proof (returned_insert (workers s) i Receiving
                  (if max <=? Z.of_nat (length (results s ++ [path]))
                   then Returned else Receiving) Hi) as Hcount.
    unfold weight in Hcount.
    destruct (max <=? _); rewrite length_app; simpl in *; lia.
  - intros p [Hp|Hp]%elem_of_app; [by apply Ht|].
    by apply list_elem_of_singleton in Hp as ->.
  - pose proof (returned_insert (workers s) i Receiving
                  (resume (newPaths path entries)) Hi) as Hcount.
    unfold weight in Hcount. destruct (newPaths path entries); simpl in *; lia.
  - pose proof (returned_insert (workers s) i Receiving Crashed Hi) as Hcount.
    unfold weight in Hcount. simpl in Hcount. lia.
  - pose proof (returned_insert (workers s) i (Sending (path :: paths))
                  (resume paths) Hi) as Hcount.
    unfold weight in Hcount. destruct paths; simpl in *; lia.
Qed.

Lemma counted_reachable s : rtc (step target max elements) launched s → counted s.
Proof.
  intros Hrun. pattern s. eapply rtc_ind_r; [apply counted_launched| |exact Hrun].
  intros s1 s2 _ Hstep IH. by eapply counted_step.
Qed.

(** With recipes of two names or more, the channel never holds more than
    the four paths it starts with, and each of them has one name. *)
Hypothesis two_or_more : ∀ name el recipe,
  elements !! name = Some el → recipe ∈ Recipes el → (2 ≤ length recipe)%nat.

Lemma newPaths_one path entries :
  length path = 1%nat → entries ≡ₚ map_to_list elements → newPaths path entries = [].
Proof.
  intros Hone Hperm. unfold newPaths.
  assert (∀ entry, entry ∈ entries → elements !! entry.1 = Some entry.2) as Hin.
  { intros [name el] He. rewrite Hperm in He. by apply elem_of_map_to_list in He. }
  clear Hperm. induction entries as [|entry rest IH]; [done|]. simpl.
  rewrite IH by (intros e He; apply Hin; by right). rewrite app_nil_r.
  destruct (contains path entry.1); [done|].
  specialize (Hin entry ltac:(by left)).
  assert (∀ recipe, recipe ∈ Recipes entry.2 → (2 ≤ length recipe)%nat) as Hlong
    by (intros r Hr; by eapply two_or_more).
  induction (Recipes entry.2) as [|recipe recipes IHr]; [done|]. simpl.
  rewrite containsAll_short.
  - apply IHr. intros r Hr. apply Hlong. by right.
  - specialize (Hlong recipe ltac:(by left)). lia.
Qed.

Record starved (s : Pool) : Prop := {
  starved_workers : length (workers s) = 8%nat;
  starved_paths : Forall (fun path => length path = 1%nat) (queue s);
  starved_idle : Forall (fun w => w = Receiving ∨ w = Returned) (workers s);
  starved_count : (returned (workers s) + length (queue s) ≤ 4)%nat
}.

Lemma starved_launched : starved launched.
Proof. split; simpl; [done|repeat constructor|repeat constructor; by left|done]. Qed.

Lemma Forall_insert_idle (ws : list Worker) i w :
  Forall (fun w => w = Receiving ∨ w = Returned) ws → w = Receiving ∨ w = Returned →
  Forall (fun w => w = Receiving ∨ w = Returned) (<[i := w]> ws).
Proof.
  intros Hall Hw. apply Forall_forall. intros x Hx.
  apply list_elem_of_lookup in Hx as [j Hj].
  destruct (decide (i = j)) as [->|Hne].
  - destruct (decide (j < length ws)%nat).
    + rewrite list_lookup_insert_eq in Hj by done. by injection Hj as <-.
    + rewrite list_insert_ge in Hj by lia.
      rewrite Forall_forall in Hall. apply Hall. by eapply list_elem_of_lookup_2.
  - rewrite list_lookup_insert_ne in Hj by done.
    rewrite Forall_forall in Hall. apply Hall. by eapply list_elem_of_lookup_2.
Qed.

Lemma starved_step s s' : starved s → step target max elements s s' → starved s'.
Proof.
  intros [Hw Hp Hidle Hc] Hstep. destruct Hstep as
    [s i path rest Hi Hq Hlast|s i path rest name entries Hi Hq Hlast Hne Hperm
    |s i rest Hi Hq|s i path paths Hi Hlen].
  - rewrite Hq in Hp, Hc. apply Forall_cons in Hp as [Hone Hrest].
    split; simpl; rewrite ?length_insert; try done.
    + apply Forall_insert_idle; [done|]. destruct (max <=? _); auto.
    + pose proof (returned_insert (workers s) i Receiving
                    (if max <=? Z.of_nat (length (results s ++ [path]))
                     then Returned else Receiving) Hi) as Hcount.
      unfold weight in Hcount. simpl in Hc.
      destruct (max <=? _); simpl in Hcount; lia.
  - rewrite Hq in Hp, Hc. apply Forall_cons in Hp as [Hone Hrest].
    rewrite (newPaths_one path entries Hone Hperm). simpl.
    split; simpl; rewrite ?length_insert; try done.
    + apply Forall_insert_idle; [done|by left].
    + pose proof (returned_insert (workers s) i Receiving Receiving Hi) as Hcount.
      unfold weight in Hcount. simpl in Hc, Hcount. lia.
  - rewrite Hq in Hp. apply Forall_cons in Hp as [Hone _]. done.
  - rewrite Forall_forall in Hidle.
    destruct (Hidle (Sending (path :: paths))) as [?|?]; [|done|done].
    by eapply list_elem_of_lookup_2.
Qed.

Lemma starved_reachable s : rtc (step target max elements) launched s → starved s.
Proof.
  intros Hrun. pattern s. eapply rtc_ind_r; [apply starved_launched| |exact Hrun].
  intros s1 s2 _ Hstep IH. by eapply starved_step.
Qed.

End WorkerPool.

(** * The claims of the specification *)


(** C1 (tier validity of every returned path), on the earlier breadth-first
    engine: for the catalog [mixed], whose element C (tier 1) has the recipe
    A + X with X of tier 5, the search for C returns that recipe, which is
    not tier-valid.  The tier-checking engines return tier-valid recipes
    only ([strict_bfs_path_tier_valid], [strict_dfs_path_tier_valid],
    [bid_path_tier_valid]). *)
Theorem v1_path_breaks_tier_validity :
  BreadthFirstFinderV1.FindShortestPath mixed "C" 0
  = Some (inr {| Path := [mkRecipe ["A"; "X"] "C"]; VisitedNodes := 2;
                 ExecutionTime := 0; VariationIndex := 0 |})
  ∧ ¬ tierValid mixed (mkRecipe ["A"; "X"] "C").
Proof.
  split; [by vm_compute|].
  intros Hv. specialize (Hv "X" ltac:(simpl; set_solver)).
  vm_compute in Hv. done.
Qed.

(** C2 (minimality of the breadth-first path): when the target is in the
    catalog and some tier-valid path leads from a basic element to it, a
    path returned by [FindShortestPath] of the breadth-first engine is
    itself a tier-valid path from a basic element to the target and has no
    more recipes than the given one; the search returns no error; and it
    returns a result when every ingredient of a recipe of the catalog is an
    element of the catalog, so that the display tree can be built. *)
Theorem bfs_shortest_path_minimal es target elapsed b rs :
  is_Some (Elements es !! target) →
  b ∈ basicIDs es →
  tierPath es b rs target →
  (∀ res, BreadthFirstFinder.FindShortestPath es target elapsed = Some (inr res) →
     (length (Path res) ≤ length rs)%nat
     ∧ ∃ b', b' ∈ basicIDs es ∧ tierPath es b' (Path res) target)
  ∧ (∀ err, BreadthFirstFinder.FindShortestPath es target elapsed ≠ Some (inl err))
  ∧ (listed es →
     ∃ res, BreadthFirstFinder.FindShortestPath es target elapsed = Some (inr res)).
Proof.
  intros [e He] Hb Hpath. unfold BreadthFirstFinder.FindShortestPath. rewrite He.
  destruct (GetBasicElements es) as [|e0 l] eqn:Hbasics.
  { unfold basicIDs in Hb. rewrite Hbasics in Hb. by apply elem_of_nil in Hb. }
  destruct (strict_search_total es target) as [s Hs]. rewrite Hs.
  unfold BreadthFirstFinder.search in Hs.
  apply (bfsLoop_outcome target _ _ (basicIDs es)) in Hs as (Hreach & _ & Hp & _).
  assert (Hf : found s = true).
  { apply Hreach. exists b, rs. split; [done|]. by apply strict_chain_target. }
  destruct (Hp Hf) as (p & b' & Hrec & Hb' & Hch & Hmin).
  apply strict_chain_target in Hch.
  split; [|split].
  - intros res (s' & [= <-] & _ & Hrec' & _)%finish_result.
    rewrite Hrec in Hrec'. injection Hrec' as <-. split.
    + apply (Hmin b rs Hb). by apply strict_chain_target.
    + by exists b'.
  - intros err (_ & s' & [= <-] & Hf')%finish_error. congruence.
  - intros Hlisted. eexists. apply finish_iff. exists s, p. repeat split; try done.
    apply (tierPath_builds es b'); [done|done|by eexists].
Qed.

Lemma scenario_listed : listed scenario.
Proof.
  intros recipe Hr ingredient Hi. vm_compute in Hr.
  repeat (apply elem_of_cons in Hr as [->|Hr];
          [simpl in Hi;
           repeat (apply elem_of_cons in Hi as [->|Hi]; [by vm_compute; eauto|]);
           by apply elem_of_nil in Hi|]).
  by apply elem_of_nil in Hr.
Qed.

Lemma bfs_shortest_path_minimal_witness :
  (∀ res, BreadthFirstFinder.FindShortestPath scenario "D" 0 = Some (inr res) →
     (length (Path res) ≤ length [mkRecipe ["A"; "C"] "D"])%nat
     ∧ ∃ b', b' ∈ basicIDs scenario ∧ tierPath scenario b' (Path res) "D")
  ∧ (∀ err, BreadthFirstFinder.FindShortestPath scenario "D" 0 ≠ Some (inl err))
  ∧ (listed scenario →
     ∃ res, BreadthFirstFinder.FindShortestPath scenario "D" 0 = Some (inr res)).
Proof.
  apply (bfs_shortest_path_minimal scenario "D" 0 "A" [mkRecipe ["A"; "C"] "D"]).
  - vm_compute. eauto.
  - vm_compute. set_solver.
  - apply (tierPath_step scenario "A" [] "A" (mkRecipe ["A"; "C"] "D")).
    + constructor.
    + vm_compute. set_solver.
    + simpl. set_solver.
    + intros ingredient Hin. simpl in Hin.
      apply elem_of_cons in Hin as [->|Hin]; [by vm_compute|].
      apply list_elem_of_singleton in Hin as ->. by vm_compute.
Defined.

(** C3 (depth bound): in a catalog whose basic elements have a
    non-negative tier, a path returned by the depth-bounded engine, by
    [FindShortestPath] or by [findPathVariation] for any variation index and
    any content of the shared signature set, has at most
    [2 * tier(target)] recipes. *)
Theorem dfs_path_depth_bound es target elapsed res :
  (∀ b, b ∈ basicIDs es → 0 ≤ GetElementTier es b) →
  (DepthFirstFinder.FindShortestPath es target elapsed = Some (inr res)
   ∨ ∃ variationIndex existing,
       DepthFirstFinder.findPathVariation es target variationIndex
         (GetElementTier es target) existing elapsed = Some (inr res)) →
  Z.of_nat (length (Path res)) ≤ 2 * GetElementTier es target.
Proof.
  intros Hbasics Hres.
  assert (Hfin : ∀ vi final, finishDepth es target elapsed vi final = Some (inr res) →
            ∃ s, final = Some (true, s) ∧ reconstructPath target (dfsParent s) = Some (Path res)).
  { intros vi final. apply finishDepth_result. }
  assert (Hbound : ∀ s, climbing (DepthFirstFinder.keepRecipe es) (GetElementTier es) (nonNegative es) (dfsParent s)
            ∧ (is_Some (dfsParent s !! target)
               ∨ (0 ≤ GetElementTier es target ∧ dfsParent s !! target = None)) →
            reconstructPath target (dfsParent s) = Some (Path res) →
            Z.of_nat (length (Path res)) ≤ 2 * GetElementTier es target).
  { intros s [Hc Ht] Hp.
    pose proof (reconstructPath_climbing _ _ _ _ _ Hc Ht Hp). lia. }
  assert (Hempty : climbing (DepthFirstFinder.keepRecipe es) (GetElementTier es) (nonNegative es) (dfsParent emptyDepthState)).
  { apply climbing_empty. }
  destruct Hres as [Hres|(vi & existing & Hres)].
  - unfold DepthFirstFinder.FindShortestPath in Hres.
    destruct (Elements es !! target); [|done].
    destruct (GetBasicElements es); [done|].
    apply Hfin in Hres as (s & Hrun & Hp). apply (Hbound s); [|done].
    destruct (tryStarts_climbing target _ _ _ (GetElementTier es) (nonNegative es)
                (dfs_keep_progress es) (dfs_keep_nonNegative es) _ _ _ _
                Hbasics Hempty Hrun) as [? Hr]. split; [done|]. by apply Hr.
  - unfold DepthFirstFinder.findPathVariation in Hres.
    destruct (GetBasicElements es) eqn:Hb; [done|].
    apply Hfin in Hres as (s & Hrun & Hp). apply (Hbound s); [|done].
    eapply (tryStartsVariation_climbing es target _ _ _ (nonNegative es));
      [apply dfs_keep_nonNegative| |exact Hempty|exact Hrun].
    intros id Hid. apply Hbasics.
    destruct (_ && _) in Hid; [by apply rotate_elem_of in Hid|done].
Qed.

Lemma dfs_path_depth_bound_witness :
  Z.of_nat (length [mkRecipe ["A"; "B"] "C"; mkRecipe ["A"; "C"] "D"])
  ≤ 2 * GetElementTier scenario "D".
Proof.
  apply (dfs_path_depth_bound scenario "D" 0
           {| Path := [mkRecipe ["A"; "B"] "C"; mkRecipe ["A"; "C"] "D"];
              VisitedNodes := 3; ExecutionTime := 0; VariationIndex := 0 |}).
  - intros b Hb. vm_compute in Hb.
    apply elem_of_cons in Hb as [->|Hb]; [by vm_compute|].
    apply list_elem_of_singleton in Hb as ->. by vm_compute.
  - left. by vm_compute.
Defined.

(** C4 (distinct signatures), on the breadth-first orchestrators: for the
    catalog of the specification's scenario and target D, the earlier
    version returns two results for [k = 2], and the tier-checking version
    three results for [k = 3], all with the one signature. *)
Theorem multiple_paths_repeat_signature :
  (getPathSignature <$>
     (match MultiplePathsV1.FindMultiplePaths scenario "D" [0; 1]%nat 0 with
      | Some (inr results) => Path <$> results
      | _ => []
      end)) = ["D:A+C;"; "D:A+C;"]%string
  ∧ (getPathSignature <$>
     (match MultiplePaths.FindMultiplePaths scenario "D" 3 0 with
      | Some (inr results) => Path <$> results
      | _ => []
      end)) = ["D:A+C;"; "D:A+C;"; "D:A+C;"]%string.
Proof. split; by vm_compute. Qed.










(** C7 (backtracking restores state): when every key of the backpointer
    map is marked visited, as it is at every call the engine makes, a call
    of [dfsSearchWithTiers] that returns false leaves the visited set and
    the backpointer map as they were at its entry.  The candidates and the
    checks are arbitrary, which covers both versions of the engine and
    [dfsVariationSearch]. *)
Theorem dfs_backtracking_restores target possible keep maxDepth fuel current depth s s' :
  dom (dfsParent s) ⊆ dfsVisited s →
  dfsSearchWithTiers target possible keep maxDepth fuel current depth s = Some (false, s') →
  dfsVisited s' = dfsVisited s ∧ dfsParent s' = dfsParent s.
Proof. apply dfsSearchWithTiers_restores. Qed.

Lemma dfs_backtracking_restores_witness :
  dfsVisited {| dfsVisited := {["A"]}; dfsParent := ∅; dfsVisitedCount := 4 |}
  = dfsVisited (enter "A" emptyDepthState)
  ∧ dfsParent {| dfsVisited := {["A"]}; dfsParent := ∅; dfsVisitedCount := 4 |}
    = dfsParent (enter "A" emptyDepthState).
Proof.
  apply (dfs_backtracking_restores "Z"
           (DepthFirstFinder.possibleRecipes scenario "D")
           (DepthFirstFinder.keepRecipe scenario) 4 4 "A" 0).
  - simpl. set_solver.
  - by vm_compute.
Defined.

(** C8 (meeting point of the bidirectional search): when
    [FindShortestPath] returns a result, the loop ended in a state whose
    meeting point is in both visited sets; the path is the forward path to
    the meeting point followed by the backward path from it; the forward
    path ends with a recipe for the meeting point (or is empty at a basic
    element), and the backward path starts with a recipe that uses the
    meeting point and ends with a recipe for the target (or is empty at the
    target). *)
Theorem bid_meeting_point es target elapsed res :
  BidirectionalFinder.FindShortestPath es target elapsed = Some (inr res) →
  ∃ s forwardPath backwardPath,
    BidirectionalFinder.search es target = Some s
    ∧ meetingPoint s ∈ forwardVisited s ∧ meetingPoint s ∈ backwardVisited s
    ∧ BidirectionalFinder.reconstructForwardPath es (meetingPoint s) (forwardParent s)
      = Some forwardPath
    ∧ BidirectionalFinder.reconstructBackwardPath es (meetingPoint s) (backwardParent s)
      = Some backwardPath
    ∧ Path res = forwardPath ++ backwardPath
    ∧ (∀ r, last forwardPath = Some r → Result r = meetingPoint s)
    ∧ (forwardPath = [] → meetingPoint s ∈ basicIDs es)
    ∧ (∀ r, head backwardPath = Some r → meetingPoint s ∈ Ingredients r)
    ∧ (∀ r, last backwardPath = Some r → Result r = target)
    ∧ (backwardPath = [] → meetingPoint s = target).
Proof.
  unfold BidirectionalFinder.FindShortestPath. intros Hres.
  destruct (Elements es !! target); [|done].
  destruct (GetBasicElements es); [done|].
  destruct (BidirectionalFinder.search es target) as [s|] eqn:Hs; [|done].
  pose proof (search_inv _ _ _ Hs) as HI.
  destruct (bidFound s) eqn:Hf; [|done].
  destruct (BidirectionalFinder.reconstructForwardPath es (meetingPoint s) (forwardParent s))
    as [fp|] eqn:Hfp; [|done].
  destruct (BidirectionalFinder.reconstructBackwardPath es (meetingPoint s) (backwardParent s))
    as [bp|] eqn:Hbp; [|done].
  destruct (treeOf es (fp ++ bp) target); [|done|done].
  injection Hres as <-. simpl.
  destruct (bi_meet _ _ _ HI Hf) as [Hmf Hmb].
  unfold BidirectionalFinder.reconstructBackwardPath in Hbp.
  destruct (reconstructBackwardFrom_chain _ _ _ HI _ _ _ _ Hmb Hbp) as (q & Hq & ? & ? & ?).
  simpl in Hq. subst q.
  exists s, fp, bp. repeat split; try done.
  - intros r. by eapply reconstructForwardPath_last.
  - intros ->. by eapply reconstructForwardPath_nil.
Qed.

Lemma bid_meeting_point_witness :
  ∃ s forwardPath backwardPath,
    BidirectionalFinder.search scenario "D" = Some s
    ∧ meetingPoint s ∈ forwardVisited s ∧ meetingPoint s ∈ backwardVisited s
    ∧ BidirectionalFinder.reconstructForwardPath scenario (meetingPoint s) (forwardParent s)
      = Some forwardPath
    ∧ BidirectionalFinder.reconstructBackwardPath scenario (meetingPoint s) (backwardParent s)
      = Some backwardPath
    ∧ Path {| Path := [mkRecipe ["A"; "C"] "D"]; VisitedNodes := 5;
              ExecutionTime := 7; VariationIndex := 0 |}
      = forwardPath ++ backwardPath
    ∧ (∀ r, last forwardPath = Some r → Result r = meetingPoint s)
    ∧ (forwardPath = [] → meetingPoint s ∈ basicIDs scenario)
    ∧ (∀ r, head backwardPath = Some r → meetingPoint s ∈ Ingredients r)
    ∧ (∀ r, last backwardPath = Some r → Result r = "D")
    ∧ (backwardPath = [] → meetingPoint s = "D").
Proof.
  apply (bid_meeting_point scenario "D" 7). by vm_compute.
Defined.

(** C9 (bounded parallelism): for a requested count [maxPaths >= 0], in
    every state that the admission gate of [FindMultiplePaths] can reach,
    whatever the number of workers the loop starts in total, at most
    [min 4 maxPaths] workers are between their admission and their
    release. *)
Theorem bounded_parallelism maxPaths iterations s :
  0 ≤ maxPaths →
  gateReachable maxPaths iterations s →
  Z.of_nat (size (searching s)) ≤ Z.min 4 maxPaths.
Proof.
  intros Hk Hreach.
  destruct (gate_invariant _ _ _ Hreach) as (Hsem & _ & Hcap). rewrite <- Hsem.
  unfold maxGoroutines in Hcap. destruct (maxPaths <? 4) eqn:E.
  - apply Z.ltb_lt in E. lia.
  - apply Z.ltb_ge in E. lia.
Qed.

Lemma bounded_parallelism_witness :
  Z.of_nat (size (searching {| semLen := 1; nextIndex := 1;
                               searching := {[0%nat]} ∪ ∅ |})) ≤ Z.min 4 2.
Proof.
  apply (bounded_parallelism 2 4); [lia|].
  apply (gateReachable_step 2 4 gateStart); [constructor|].
  apply (gate_admit 2 4 gateStart); simpl; [lia|by vm_compute].
Defined.

(** C10 (backpointers lead to lower tiers, and the walk ends): the search
    loop of every engine ends, and in the backpointer map it ends with (the
    forward map, for the bidirectional engine) every entry points to an
    element of a strictly lower tier than its key; over any map with that
    property, [reconstructPath] and [reconstructForwardPath] return from
    every starting identifier. *)
Theorem backpointers_decrease_tier es target :
  (∃ s, BreadthFirstFinderV1.search es target = Some s ∧ tierDecreasing es (parent s))
  ∧ (∃ s, BreadthFirstFinder.search es target = Some s ∧ tierDecreasing es (parent s))
  ∧ (∃ b s, DepthFirstFinderV1.search es target = Some (b, s)
            ∧ tierDecreasing es (dfsParent s))
  ∧ (∃ b s, DepthFirstFinder.search es target = Some (b, s)
            ∧ tierDecreasing es (dfsParent s))
  ∧ (∃ s, BidirectionalFinder.search es target = Some s
          ∧ tierDecreasing es (forwardParent s))
  ∧ (∀ parentMap x, tierDecreasing es parentMap →
       is_Some (reconstructPath x parentMap)
       ∧ is_Some (BidirectionalFinder.reconstructForwardPath es x parentMap)).
Proof.
  split; [|split; [|split; [|split; [|split]]]].
  - destruct (v1_search_total es target) as [s Hs]. exists s. split; [done|].
    unfold BreadthFirstFinderV1.search in Hs.
    apply (bfsLoop_outcome target _ _ (basicIDs es)) in Hs as (_ & _ & _ & lev & HL).
    intros child step Hp. destruct (lev_child _ _ _ _ _ HL _ _ Hp) as (_ & _ & _ & He).
    apply v1_edge in He as (_ & _ & Hlt & <-). done.
  - destruct (strict_search_total es target) as [s Hs]. exists s. split; [done|].
    unfold BreadthFirstFinder.search in Hs.
    apply (bfsLoop_outcome target _ _ (basicIDs es)) in Hs as (_ & _ & _ & lev & HL).
    intros child step Hp. destruct (lev_child _ _ _ _ _ HL _ _ Hp) as (_ & _ & _ & He).
    apply strict_edge in He as (_ & Hin & Hv & _ & <-). by apply Hv.
  - destruct (tryStarts_total target (DepthFirstFinderV1.possibleRecipes es)
                (DepthFirstFinderV1.keepRecipe es)
                (wrapInt (GetElementTier es target * 2)) (basicIDs es) emptyDepthState)
      as [[b s] Hs].
    exists b, s. split; [done|].
    destruct (tryStarts_climbing target _ _ _ (GetElementTier es) (fun _ => True)
                (dfs_v1_keep_progress es) ltac:(done) (basicIDs es) emptyDepthState b s
                ltac:(done) (climbing_empty _ _ _) Hs) as [Hc _].
    intros child step Hp. by destruct (Hc _ _ Hp) as (_ & ? & _).
  - destruct (tryStarts_total target (DepthFirstFinder.possibleRecipes es target)
                (DepthFirstFinder.keepRecipe es)
                (wrapInt (GetElementTier es target * 2)) (basicIDs es) emptyDepthState)
      as [[b s] Hs].
    exists b, s. split; [done|].
    destruct (tryStarts_climbing target _ _ _ (GetElementTier es) (fun _ => True)
                (dfs_keep_progress es) ltac:(done) (basicIDs es) emptyDepthState b s
                ltac:(done) (climbing_empty _ _ _) Hs) as [Hc _].
    intros child step Hp. by destruct (Hc _ _ Hp) as (_ & ? & _).
  - destruct (bid_search_total es target) as [s Hs]. exists s. split; [done|].
    apply (bid_forward_tierDecreasing es target s), search_inv, Hs.
  - intros parentMap x Hdec. split.
    + by apply (reconstructPath_tierDecreasing es).
    + by apply reconstructForwardPath_tierDecreasing.
Qed.

(** * Further properties of the code *)

(** ** The catalog index built by [NewElementStore] *)

(** The elements of the groups in file order, each with the tier of its group. *)
Definition listing (elementGroups : list ElementGroup) : list (Z * Element) :=
  elementGroups ≫= (fun group => (fun elem => (TierNum group, elem)) <$> GroupElements group).

Definition emptyStore : ElementStore :=
  {| Elements := ∅; Recipes := []; BasicElements := []; TierMap := ∅ |}.

Definition addListed (store : ElementStore) (entry : Z * Element) : ElementStore :=
  addElement entry.1 store entry.2.

Lemma fold_addElement t elems : ∀ store,
  fold_left (addElement t) elems store
  = fold_left addListed ((fun elem => (t, elem)) <$> elems) store.
Proof. induction elems as [|e elems IH]; intros store; simpl; [done|]. by rewrite IH. Qed.

Lemma NewElementStore_listing elementGroups :
  NewElementStore elementGroups = fold_left addListed (listing elementGroups) emptyStore.
Proof.
  unfold NewElementStore, listing. fold emptyStore.
  generalize emptyStore. induction elementGroups as [|g gs IH]; intros store; simpl; [done|].
  rewrite fold_left_app, IH. f_equal. apply fold_addElement.
Qed.

(** The two-ingredient raw recipes of an element, as recipes. *)
Definition recipesOf (elem : Element) : list Recipe :=
  (fun ingredients => mkRecipe ingredients (ID elem))
    <$> List.filter (fun ingredients => (length ingredients =? 2)%nat) (ElemRecipes elem).

Lemma addRecipes_app id raw : ∀ acc,
  addRecipes id raw acc
  = acc ++ ((fun ingredients => mkRecipe ingredients id)
              <$> List.filter (fun ingredients => (length ingredients =? 2)%nat) raw).
Proof.
  unfold addRecipes. induction raw as [|i raw IH]; intros acc; simpl.
  - by rewrite app_nil_r.
  - rewrite IH. destruct (length i =? 2)%nat; simpl; [|done].
    by rewrite <- app_assoc.
Qed.

Lemma Recipes_fold entries : ∀ store,
  Recipes (fold_left addListed entries store)
  = Recipes store ++ (entries ≫= (fun entry => recipesOf entry.2)).
Proof.
  induction entries as [|[t e] entries IH]; intros store; simpl.
  - by rewrite app_nil_r.
  - rewrite IH. simpl. rewrite addRecipes_app. unfold recipesOf. by rewrite <- app_assoc.
Qed.

Lemma Recipes_NewElementStore elementGroups :
  Recipes (NewElementStore elementGroups)
  = listing elementGroups ≫= (fun entry => recipesOf entry.2).
Proof. rewrite NewElementStore_listing, Recipes_fold. done. Qed.

Lemma BasicElements_fold entries : ∀ store,
  BasicElements (fold_left addListed entries store)
  = BasicElements store
    ++ (ID <$> (snd <$> List.filter (fun entry : Z * Element => entry.1 =? 0) entries)).
Proof.
  induction entries as [|[t e] entries IH]; intros store; simpl.
  - by rewrite app_nil_r.
  - rewrite IH. simpl. destruct (t =? 0); simpl; [|done]. by rewrite <- app_assoc.
Qed.

Lemma Elements_fold entries : ∀ store x,
  Elements (fold_left addListed entries store) !! x
  = match last (List.filter (fun entry : Z * Element => bool_decide (ID entry.2 = x)) entries) with
    | Some entry => Some entry.2
    | None => Elements store !! x
    end.
Proof.
  induction entries as [|[t e] entries IH]; intros store x; simpl; [done|].
  rewrite IH. simpl. case_bool_decide as Hx; simpl.
  - destruct (List.filter _ entries) as [|e' l] eqn:El; simpl.
    + subst x. by rewrite lookup_insert_eq.
    + destruct (last (e' :: l)) eqn:E; [done|]. by apply last_None in E.
  - destruct (last _); [done|]. by rewrite lookup_insert_ne.
Qed.

Lemma TierMap_fold entries : ∀ store x,
  TierMap (fold_left addListed entries store) !! x
  = match last (List.filter (fun entry : Z * Element => bool_decide (ID entry.2 = x)) entries) with
    | Some entry => Some entry.1
    | None => TierMap store !! x
    end.
Proof.
  induction entries as [|[t e] entries IH]; intros store x; simpl; [done|].
  rewrite IH. simpl. case_bool_decide as Hx; simpl.
  - destruct (List.filter _ entries) as [|e' l] eqn:El; simpl.
    + subst x. by rewrite lookup_insert_eq.
    + destruct (last (e' :: l)) eqn:E; [done|]. by apply last_None in E.
  - destruct (last _); [done|]. by rewrite lookup_insert_ne.
Qed.

(** The last entry of the listing that names [x]. *)
Definition lastListed (elementGroups : list ElementGroup) (x : string) : option (Z * Element) :=
  last (List.filter (fun entry : Z * Element => bool_decide (ID entry.2 = x))
          (listing elementGroups)).

Lemma Elements_NewElementStore elementGroups x :
  Elements (NewElementStore elementGroups) !! x = snd <$> lastListed elementGroups x.
Proof.
  rewrite NewElementStore_listing, Elements_fold. unfold lastListed.
  by destruct (last _).
Qed.

Lemma TierMap_NewElementStore elementGroups x :
  TierMap (NewElementStore elementGroups) !! x = fst <$> lastListed elementGroups x.
Proof.
  rewrite NewElementStore_listing, TierMap_fold. unfold lastListed.
  by destruct (last _).
Qed.

Lemma lastListed_Some elementGroups x entry :
  lastListed elementGroups x = Some entry →
  entry ∈ listing elementGroups ∧ ID entry.2 = x.
Proof.
  unfold lastListed. intros Hl.
  assert (entry ∈ List.filter (fun entry : Z * Element => bool_decide (ID entry.2 = x))
                     (listing elementGroups)) as Hin.
  { apply last_Some in Hl as [l' ->]. set_solver. }
  apply list_elem_of_In, filter_In in Hin as [Hin Hx].
  split; [by apply list_elem_of_In|]. by apply bool_decide_eq_true in Hx.
Qed.

Lemma lastListed_None elementGroups x :
  lastListed elementGroups x = None ↔ ∀ entry, entry ∈ listing elementGroups → ID entry.2 ≠ x.
Proof.
  unfold lastListed. rewrite last_None. split.
  - intros Hnil entry Hin Hx.
    assert (In entry (List.filter (fun entry : Z * Element => bool_decide (ID entry.2 = x))
                        (listing elementGroups))) as Hf.
    { apply filter_In. split; [by apply list_elem_of_In|]. by apply bool_decide_eq_true. }
    by rewrite Hnil in Hf.
  - intros Hno. destruct (List.filter _ _) as [|entry l] eqn:El; [done|].
    assert (In entry (entry :: l)) as Hin by (by left).
    rewrite <- El in Hin. apply filter_In in Hin as [Hin Hx].
    apply bool_decide_eq_true in Hx. by destruct (Hno entry (proj2 (list_elem_of_In _ _) Hin)).
Qed.

Lemma IsBasicElement_spec es x : IsBasicElement es x = true ↔ x ∈ BasicElements es.
Proof.
  unfold IsBasicElement. rewrite existsb_exists. split.
  - intros (y & Hin & Heq). apply String.eqb_eq in Heq as ->. by apply list_elem_of_In.
  - intros Hin. exists x. split; [by apply list_elem_of_In|apply String.eqb_refl].
Qed.

Lemma BasicElements_NewElementStore elementGroups :
  BasicElements (NewElementStore elementGroups)
  = ID <$> (snd <$> List.filter (fun entry : Z * Element => entry.1 =? 0)
                      (listing elementGroups)).
Proof. by rewrite NewElementStore_listing, BasicElements_fold. Qed.

Lemma listed_is_element elementGroups entry :
  entry ∈ listing elementGroups →
  ∃ elem, Elements (NewElementStore elementGroups) !! ID entry.2 = Some elem
          ∧ ID elem = ID entry.2.
Proof.
  intros Hin. rewrite Elements_NewElementStore.
  destruct (lastListed elementGroups (ID entry.2)) as [entry'|] eqn:El.
  - apply lastListed_Some in El as [_ Hid]. by exists entry'.2.
  - rewrite lastListed_None in El. by destruct (El entry Hin).
Qed.

Lemma omap_lookup_all (m : gmap string Element) (names : list string) :
  (∀ x, x ∈ names → ∃ elem, m !! x = Some elem ∧ ID elem = x) →
  ID <$> omap (fun name => m !! name) names = names.
Proof.
  induction names as [|x names IH]; intros Hall; simpl; [done|].
  destruct (Hall x) as (elem & -> & Hid); [set_solver|]. simpl. rewrite Hid. f_equal.
  apply IH. intros y Hy. apply Hall. set_solver.
Qed.

(** X1: the recipes of a built store are, in file order, the raw recipes
    with two ingredients of the listed elements; each has two ingredients
    and produces an element that is in [Elements] and in [TierMap]. *)
Theorem store_recipes_listed elementGroups :
  let es := NewElementStore elementGroups in
  Recipes es = listing elementGroups ≫= (fun entry => recipesOf entry.2)
  ∧ Forall (fun recipe => length (Ingredients recipe) = 2%nat
                          ∧ is_Some (Elements es !! Result recipe)
                          ∧ is_Some (TierMap es !! Result recipe)) (Recipes es)
  ∧ ∀ recipe, recipe ∈ Recipes es
      ↔ ∃ entry, entry ∈ listing elementGroups
                 ∧ Result recipe = ID entry.2
                 ∧ Ingredients recipe ∈ ElemRecipes entry.2
                 ∧ length (Ingredients recipe) = 2%nat.
Proof.
  intros es. unfold es.
  assert (∀ recipe, recipe ∈ Recipes (NewElementStore elementGroups)
      ↔ ∃ entry, entry ∈ listing elementGroups
                 ∧ Result recipe = ID entry.2
                 ∧ Ingredients recipe ∈ ElemRecipes entry.2
                 ∧ length (Ingredients recipe) = 2%nat) as Hiff.
  { intros recipe. rewrite Recipes_NewElementStore, list_elem_of_bind.
    unfold recipesOf. split.
    - intros (entry & Hr & Hentry). exists entry. split; [done|].
      apply list_elem_of_fmap in Hr as (ing & -> & Hin).
      apply list_elem_of_In, filter_In in Hin as [Hin Hlen].
      apply Nat.eqb_eq in Hlen. simpl. by rewrite list_elem_of_In.
    - intros (entry & Hentry & Hres & Hin & Hlen). exists entry. split; [|done].
      apply list_elem_of_fmap. exists (Ingredients recipe). split.
      + destruct recipe; simpl in *; by subst.
      + apply list_elem_of_In, filter_In. split; [by apply list_elem_of_In|].
        by apply Nat.eqb_eq. }
  split; [apply Recipes_NewElementStore|]. split; [|done].
  apply Forall_forall. intros recipe Hin. apply Hiff in Hin as (entry & Hentry & Hres & _ & Hlen).
  split; [done|]. rewrite Hres.
  destruct (listed_is_element _ _ Hentry) as (elem & Hel & _).
  split; [by eexists|].
  rewrite Elements_NewElementStore in Hel. rewrite TierMap_NewElementStore.
  destruct (lastListed _ _); [by eexists|done].
Qed.

(** X2: the basic elements of a built store. [GetBasicElements] drops no
    name of [BasicElements], each element carries its own name, and
    [IsBasicElement] holds exactly for the names listed in a group of
    tier 0. *)
Theorem store_basic_elements elementGroups :
  let es := NewElementStore elementGroups in
  basicIDs es = BasicElements es
  ∧ length (GetBasicElements es) = length (BasicElements es)
  ∧ ∀ x, IsBasicElement es x = true
         ↔ ∃ entry, entry ∈ listing elementGroups ∧ entry.1 = 0 ∧ ID entry.2 = x.
Proof.
  intros es. unfold es.
  assert (∀ x, x ∈ BasicElements (NewElementStore elementGroups)
               ↔ ∃ entry, entry ∈ listing elementGroups ∧ entry.1 = 0 ∧ ID entry.2 = x) as Hb.
  { intros x. rewrite BasicElements_NewElementStore. split.
    - intros Hx. apply list_elem_of_fmap in Hx as (elem & -> & Hx).
      apply list_elem_of_fmap in Hx as (entry & -> & Hx).
      apply list_elem_of_In, filter_In in Hx as [Hin Ht].
      exists entry. rewrite Z.eqb_eq in Ht. by rewrite list_elem_of_In.
    - intros (entry & Hin & Ht & <-). apply list_elem_of_fmap. exists entry.2. split; [done|].
      apply list_elem_of_fmap. exists entry. split; [done|].
      apply list_elem_of_In, filter_In. split; [by apply list_elem_of_In|].
      by apply Z.eqb_eq. }
  assert (basicIDs (NewElementStore elementGroups) = BasicElements (NewElementStore elementGroups))
    as Hids.
  { unfold basicIDs, GetBasicElements. apply omap_lookup_all. intros x Hx.
    apply Hb in Hx as (entry & Hin & _ & <-). by apply listed_is_element. }
  split; [done|]. split.
  - rewrite <- Hids. unfold basicIDs. by rewrite length_fmap.
  - intros x. rewrite IsBasicElement_spec. apply Hb.
Qed.

(** X3: the tier of an element of a built store is that of the last group
    that lists it, -1 when none does; [Elements] and [TierMap] have the same
    keys; an element of tier 0 is a basic element. *)
Theorem store_tier_last_listing elementGroups x :
  let es := NewElementStore elementGroups in
  GetElementTier es x = match lastListed elementGroups x with
                        | Some entry => entry.1
                        | None => -1
                        end
  ∧ (Elements es !! x = None ↔ TierMap es !! x = None)
  ∧ (Elements es !! x = None ↔ ∀ entry, entry ∈ listing elementGroups → ID entry.2 ≠ x)
  ∧ (GetElementTier es x = 0 → IsBasicElement es x = true).
Proof.
  intros es. unfold es, GetElementTier.
  rewrite TierMap_NewElementStore, Elements_NewElementStore.
  destruct (lastListed elementGroups x) as [entry|] eqn:El; simpl.
  - apply lastListed_Some in El as [Hin Hid].
    split; [done|]. split; [done|]. split.
    + split; [done|]. intros Hno. by destruct (Hno entry Hin).
    + intros Ht. apply IsBasicElement_spec. rewrite BasicElements_NewElementStore.
      apply list_elem_of_fmap. exists entry.2. split; [done|].
      apply list_elem_of_fmap. exists entry. split; [done|].
      apply list_elem_of_In, filter_In. split; [by apply list_elem_of_In|].
      by apply Z.eqb_eq.
  - pose proof (proj1 (lastListed_None _ _) El) as Hno.
    split; [done|]. split; [done|]. split; [done|]. done.
Qed.

(** ** The display tree of a path *)

(** X4: the nodes of the display tree. When [buildTreeStructure] returns,
    the first node is the target, typed "target"; the node identifiers are
    pairwise distinct; every node is an element of the catalog, shown with
    its own name, tier and image; every other node is reached from the
    target through the recipes kept for the path, and typed "basic" exactly
    when [IsBasicElement] holds. *)
Theorem tree_nodes es path target fuel tree :
  buildTreeStructure es path target fuel = Returns tree →
  treeTarget tree = target ∧ treeRecipes tree = path
  ∧ NoDup (nodeId <$> treeNodes tree)
  ∧ (∃ root rest, treeNodes tree = root :: rest
       ∧ nodeId root = target ∧ nodeType root = "target"%string
       ∧ ∀ n, n ∈ rest →
           nodeType n = (if IsBasicElement es (nodeId n) then "basic" else "ingredient")%string
           ∧ tc (feeds (recipesByResult path)) target (nodeId n))
  ∧ (∀ n, n ∈ treeNodes tree →
       ∃ elem, Elements es !! nodeId n = Some elem
               ∧ nodeLabel n = nodeId n
               ∧ nodeTier n = GetElementTier es (nodeId n)
               ∧ nodeImageUrl n = ImageURL elem).
Proof.
  intros (targetElem & st & Hel & -> & HP & HC)%buildTreeStructure_post. simpl.
  destruct HP as [[Hmap Hnd Hnodes Hedges] (more & Hmore & Htyped) _ _]. simpl in *.
  split; [done|]. split; [done|]. split; [done|]. split; [|done].
  exists (targetNode es target targetElem), more. by rewrite Hmore.
Qed.

Lemma tree_nodes_witness :
  buildTreeStructure scenario scenarioPath "D" 1 = Returns scenarioTree
  ∧ NoDup (nodeId <$> treeNodes scenarioTree).
Proof.
  split; [reflexivity|].
  apply (tree_nodes scenario scenarioPath "D" 1 scenarioTree). reflexivity.
Defined.

(** X5: the edges of the display tree. When [buildTreeStructure] returns,
    every edge leads from an ingredient of the recipe kept for an element
    to that element, both are nodes, and the edge is named
    "ingredient-element"; and for every element reached from the target,
    every ingredient of its kept recipe is a node with such an edge. *)
Theorem tree_edges es path target fuel tree :
  buildTreeStructure es path target fuel = Returns tree →
  (∀ e, e ∈ treeEdges tree →
     edgeSource e ∈ nodeId <$> treeNodes tree
     ∧ edgeTarget e ∈ nodeId <$> treeNodes tree
     ∧ feeds (recipesByResult path) (edgeTarget e) (edgeSource e)
     ∧ rtc (feeds (recipesByResult path)) target (edgeTarget e)
     ∧ edgeId e = edgeName (edgeSource e) (edgeTarget e))
  ∧ (∀ k i, rtc (feeds (recipesByResult path)) target k → feeds (recipesByResult path) k i →
       i ∈ nodeId <$> treeNodes tree
       ∧ {| edgeId := edgeName i k; edgeSource := i; edgeTarget := k |} ∈ treeEdges tree).
Proof.
  intros (targetElem & st & Hel & -> & HP & HC)%buildTreeStructure_post. simpl.
  destruct HP as [[Hmap Hnd Hnodes Hedges] _ (more & Hmore & Hreach) _]. simpl in *.
  split.
  - intros e He. destruct (Hedges e He) as (Hs & Ht & Hf & Heq).
    split; [by apply Hmap|]. split; [by apply Hmap|]. split; [done|]. split.
    + apply Hreach. by rewrite <- Hmore.
    + by rewrite Heq at 1.
  - intros k i Hk Hi. destruct (HC k i Hk Hi) as [Hin Hedge]. split; [by apply Hmap|done].
Qed.

Lemma tree_edges_witness :
  buildTreeStructure scenario scenarioPath "D" 1 = Returns scenarioTree
  ∧ ∀ e, e ∈ treeEdges scenarioTree → edgeTarget e ∈ nodeId <$> treeNodes scenarioTree.
Proof.
  split; [reflexivity|]. intros e He.
  by apply (tree_edges scenario scenarioPath "D" 1 scenarioTree eq_refl).
Defined.

(** X6: the display tree of a path of tier-valid recipes. The construction
    ends within a recursion depth of the length of the path (more fuel gives
    the same outcome); it returns a tree exactly when the target and every
    ingredient of a recipe reached from the target are elements of the
    catalog, and panics otherwise. *)
Theorem tree_of_valid_path es path target fuel :
  (∀ recipe, recipe ∈ path → tierValid es recipe) →
  (length path ≤ fuel)%nat →
  buildTreeStructure es path target fuel = buildTreeStructure es path target (length path)
  ∧ (buildTreeStructure es path target fuel = Panics
     ∨ ∃ tree, buildTreeStructure es path target fuel = Returns tree)
  ∧ ((∃ tree, buildTreeStructure es path target fuel = Returns tree)
     ↔ is_Some (Elements es !! target)
       ∧ ∀ k i, rtc (feeds (recipesByResult path)) target k →
                feeds (recipesByResult path) k i → is_Some (Elements es !! i)).
Proof. apply buildTreeStructure_valid. Qed.

Lemma scenarioPath_valid recipe : recipe ∈ scenarioPath → tierValid scenario recipe.
Proof.
  intros ->%list_elem_of_singleton ingredient Hin. simpl in Hin.
  apply elem_of_cons in Hin as [->|Hin]; [by vm_compute|].
  apply list_elem_of_singleton in Hin as ->. by vm_compute.
Qed.

Lemma tree_of_valid_path_witness :
  buildTreeStructure scenario scenarioPath "D" 5
  = buildTreeStructure scenario scenarioPath "D" (length scenarioPath).
Proof.
  apply (tree_of_valid_path scenario scenarioPath "D" 5 scenarioPath_valid).
  simpl. lia.
Defined.

(** X7: the display tree of a path whose kept recipes lead in a circle.
    When the recipes kept for the path lead from the target to an element
    that they lead back to, [buildTreeStructure] does not return, whatever
    the depth allowed. *)
Theorem tree_of_cyclic_path es path target fuel tree :
  cyclic (recipesByResult path) target →
  buildTreeStructure es path target fuel ≠ Returns tree.
Proof. apply buildTreeStructure_cyclic. Qed.

Lemma loopingPath_cyclic : cyclic (recipesByResult loopingPath) "Q".
Proof.
  exists "Q". split; [apply rtc_refl|].
  apply (tc_l _ _ "P").
  - exists (mkRecipe ["P"; "P"] "Q"). split; [by vm_compute|set_solver].
  - apply tc_once. exists (mkRecipe ["A"; "Q"] "P"). split; [by vm_compute|set_solver].
Qed.

Lemma tree_of_cyclic_path_witness :
  (∃ s, BreadthFirstFinderV1.search looping "Q" = Some s ∧ found s = true
        ∧ reconstructPath "Q" (parent s) = Some loopingPath)
  ∧ ∀ fuel tree, buildTreeStructure looping loopingPath "Q" fuel ≠ Returns tree.
Proof.
  split; [eexists; by vm_compute|]. intros fuel tree.
  apply (tree_of_cyclic_path looping loopingPath "Q" fuel tree loopingPath_cyclic).
Defined.



(** X27: the depth of the recursion of [buildTreeStructure]. Whatever the
    path, the outcome is settled at a recursion depth of the number of
    recipes of the path: a greater depth gives the same tree or the same
    panic, and a recursion of [buildNodes] that is not over at that depth
    has no end. *)
Theorem tree_depth_settled es path target fuel :
  (length path ≤ fuel)%nat →
  buildTreeStructure es path target fuel
  = buildTreeStructure es path target (length path).
Proof. apply buildTreeStructure_settled. Qed.

Lemma tree_depth_settled_witness :
  buildTreeStructure looping loopingPath "Q" 9
  = buildTreeStructure looping loopingPath "Q" (length loopingPath)
  ∧ buildTreeStructure looping loopingPath "Q" 9 = Unfinished.
Proof.
  split; [|by vm_compute].
  apply (tree_depth_settled looping loopingPath "Q" 9). simpl. lia.
Defined.

(** ** The path of the depth-bounded search *)

Lemma unmark_mark current recipe s s1 :
  dom (dfsParent s) ⊆ dfsVisited s → Result recipe ∉ dfsVisited s →
  dfsVisited s1 = dfsVisited (mark current recipe s) →
  dfsParent s1 = dfsParent (mark current recipe s) →
  dfsVisited (unmark (Result recipe) s1) = dfsVisited s
  ∧ dfsParent (unmark (Result recipe) s1) = dfsParent s.
Proof.
  intros Hdom Hnew Hv Hp. simpl. rewrite Hv, Hp. simpl. split; [set_solver|].
  apply delete_insert_id, not_elem_of_dom. set_solver.
Qed.

Section DepthFirstPaths.
Variable target : string.
Variable possible : string -> list Recipe.
Variable keep : string -> Recipe -> bool.
Variable maxDepth : Z.

(** The backpointers are the stack of the search from [start]: each entry
    records an admitted step from an element that is [start] or has an
    entry itself. *)
Definition stackInv (start : string) (s : DepthState) : Prop :=
  ∀ x step, dfsParent s !! x = Some step →
    edge possible keep (ParentID step) (StepRecipe step) x
    ∧ ParentID step ∈ dfsVisited s
    ∧ x ∈ dfsVisited s
    ∧ (ParentID step = start ∨ is_Some (dfsParent s !! ParentID step)).

Definition rooted (start x : string) (s : DepthState) : Prop :=
  x = start ∨ is_Some (dfsParent s !! x).

Lemma stackInv_dom start s : stackInv start s → dom (dfsParent s) ⊆ dfsVisited s.
Proof.
  intros Hinv x [step Hx]%elem_of_dom. by destruct (Hinv x step Hx) as (_ & _ & ? & _).
Qed.

Lemma stackInv_ext start s s' :
  dfsVisited s' = dfsVisited s → dfsParent s' = dfsParent s →
  stackInv start s → stackInv start s'.
Proof. unfold stackInv. intros -> ->. done. Qed.

Lemma stackInv_mark start current recipe s :
  stackInv start s → recipe ∈ possible current → keep current recipe = true →
  current ∈ dfsVisited s → rooted start current s → Result recipe ∉ dfsVisited s →
  stackInv start (mark current recipe s)
  ∧ Result recipe ∈ dfsVisited (mark current recipe s)
  ∧ rooted start (Result recipe) (mark current recipe s).
Proof.
  intros Hinv Hp Hk Hcur Hroot Hnew.
  assert (dfsParent s !! Result recipe = None) as Hnone.
  { apply not_elem_of_dom. intros Hd. by apply (stackInv_dom _ _ Hinv) in Hd. }
  split; [|split].
  - intros x step. simpl. destruct (decide (x = Result recipe)) as [->|Hne].
    + rewrite lookup_insert_eq. intros [= <-]. simpl.
      split; [done|]. split; [set_solver|]. split; [set_solver|].
      destruct Hroot as [->|[st Hst]]; [by left|right].
      rewrite lookup_insert_ne; [by eexists|]. intros Heq. rewrite Heq in Hnone. congruence.
    + rewrite lookup_insert_ne by done. intros Hx.
      destruct (Hinv x step Hx) as (He & Hpv & Hxv & Hr).
      split; [done|]. split; [set_solver|]. split; [set_solver|].
      destruct Hr as [->|[st Hst]]; [by left|right].
      rewrite lookup_insert_ne; [by eexists|]. intros Heq. rewrite Heq in Hnone. congruence.
  - simpl. set_solver.
  - right. simpl. rewrite lookup_insert_eq. by eexists.
Qed.

Lemma tryRecipes_path deeper start current recipes : ∀ s s',
  (∀ x s0 s1, stackInv start s0 → x ∈ dfsVisited s0 → rooted start x s0 →
     deeper x s0 = Some (true, s1) → stackInv start s1 ∧ rooted start target s1) →
  (∀ x s0 s1, dom (dfsParent s0) ⊆ dfsVisited s0 → deeper x s0 = Some (false, s1) →
     dfsVisited s1 = dfsVisited s0 ∧ dfsParent s1 = dfsParent s0) →
  (∀ r, r ∈ recipes → r ∈ possible current) →
  stackInv start s → current ∈ dfsVisited s → rooted start current s →
  tryRecipes keep deeper current recipes s = Some (true, s') →
  stackInv start s' ∧ rooted start target s'.
Proof.
  induction recipes as [|recipe rest IH]; intros s s' Hdeeper Hrest Hposs Hinv Hcur Hroot Hrun;
    simpl in Hrun; [done|].
  assert (∀ r, r ∈ rest → r ∈ possible current) as Hposs' by (intros; apply Hposs; by right).
  destruct (keep current recipe) eqn:Hk; simpl in Hrun; [|by eapply IH].
  destruct (decide (Result recipe ∈ dfsVisited s)) as [|Hnv]; [by eapply IH|].
  destruct (stackInv_mark start current recipe s Hinv) as (Hinv1 & Hv1 & Hr1);
    [apply Hposs; by left|done|done|done|done|].
  destruct (deeper (Result recipe) (mark current recipe s)) as [[[] s1]|] eqn:Hd; [| |done].
  - injection Hrun as <-. by eapply Hdeeper.
  - destruct (Hrest _ _ _ (stackInv_dom _ _ Hinv1) Hd) as [Hv Hp].
    destruct (unmark_mark current recipe s s1 (stackInv_dom _ _ Hinv) Hnv Hv Hp) as [Hv' Hp'].
    eapply (IH (unmark (Result recipe) s1)); [done|done|done| | | |done].
    + by eapply stackInv_ext.
    + by rewrite Hv'.
    + unfold rooted. by rewrite Hp'.
Qed.

Lemma dfsSearchWithTiers_path start fuel : ∀ current depth s s',
  stackInv start s → current ∈ dfsVisited s → rooted start current s →
  dfsSearchWithTiers target possible keep maxDepth fuel current depth s = Some (true, s') →
  stackInv start s' ∧ rooted start target s'.
Proof.
  induction fuel as [|fuel IH]; intros current depth s s' Hinv Hcur Hroot Hrun; simpl in Hrun.
  - destruct (decide (current = target)) as [<-|]; [by injection Hrun as <-|].
    by destruct (maxDepth <=? depth).
  - destruct (decide (current = target)) as [<-|]; [by injection Hrun as <-|].
    destruct (maxDepth <=? depth); [done|].
    eapply tryRecipes_path; [| | |done|done|done|exact Hrun].
    + intros x s0 s1 ? ? ?. by apply IH.
    + intros x s0 s1 ?. by apply dfsSearchWithTiers_restores.
    + done.
Qed.

Lemma tryStarts_path starts : ∀ s s',
  dfsVisited s = ∅ → dfsParent s = ∅ →
  tryStarts target possible keep maxDepth starts s = Some (true, s') →
  ∃ start, start ∈ starts ∧ stackInv start s' ∧ rooted start target s'.
Proof.
  induction starts as [|id rest IH]; intros s s' Hv Hp Hrun; simpl in Hrun; [done|].
  assert (stackInv id (enter id s)) as Hinv.
  { intros x step. simpl. by rewrite Hp, lookup_empty. }
  destruct (dfsSearchWithTiers target possible keep maxDepth (Z.to_nat maxDepth) id 0 (enter id s))
    as [[[] s1]|] eqn:Hd; [| |done].
  - injection Hrun as <-. exists id. split; [by left|].
    eapply dfsSearchWithTiers_path; [exact Hinv| |by left|exact Hd]. simpl. set_solver.
  - apply dfsSearchWithTiers_restores in Hd as [Hv1 Hp1]; [|by apply stackInv_dom in Hinv].
    destruct (IH (leave id s1) s') as (start & Hin & ?); [| |done|].
    + simpl. rewrite Hv1. simpl. set_solver.
    + simpl. by rewrite Hp1.
    + exists start. split; [by right|done].
Qed.

Lemma reconstructPathFrom_stack start s : stackInv start s →
  ∀ fuel x acc p, rooted start x s →
  reconstructPathFrom fuel (dfsParent s) x acc = Some p →
  ∃ rs, p = rs ++ acc ∧ chain possible keep start rs x.
Proof.
  intros Hinv. induction fuel as [|fuel IH]; intros x acc p Hroot Hrun; simpl in Hrun.
  - destruct (dfsParent s !! x) eqn:Hx; [done|]. injection Hrun as <-.
    destruct Hroot as [->|[? ?]]; [|congruence]. exists []. split; [done|constructor].
  - destruct (dfsParent s !! x) as [step|] eqn:Hx.
    + destruct (Hinv x step Hx) as (He & _ & _ & Hr).
      destruct (IH _ _ _ Hr Hrun) as (rs & -> & Hch).
      exists (rs ++ [StepRecipe step]). split; [by rewrite <- app_assoc|].
      by econstructor.
    + injection Hrun as <-.
      destruct Hroot as [->|[? ?]]; [|congruence]. exists []. split; [done|constructor].
Qed.

End DepthFirstPaths.

(** ** The depth-bounded search finds the target *)

Lemma chain_first possible keep x rs z :
  chain possible keep x rs z →
  (x = z ∧ rs = []) ∨ ∃ r y rs', rs = r :: rs' ∧ edge possible keep x r y
                                 ∧ chain possible keep y rs' z.
Proof.
  induction 1 as [|rs y r z _ IH He]; [by left|]. right.
  destruct IH as [[-> ->]|(r0 & y0 & rs' & -> & He0 & Hch)].
  - exists r, z, []. split; [done|]. split; [done|constructor].
  - exists r0, y0, (rs' ++ [r]). split; [done|]. split; [done|]. by econstructor.
Qed.

Section DepthFirstComplete.
Variable target : string.
Variable possible : string -> list Recipe.
Variable keep : string -> Recipe -> bool.
Variable maxDepth : Z.
Variable tier : string -> Z.
Hypothesis keep_progress : ∀ current recipe,
  keep current recipe = true → tier current < tier (Result recipe).

Lemma chain_tier x rs y : chain possible keep x rs y → tier x ≤ tier y.
Proof.
  induction 1 as [|rs y r z _ IH (_ & Hk & <-)]; [lia|].
  apply keep_progress in Hk. lia.
Qed.

Lemma tryRecipes_finds deeper current r1 (V : gset string) recipes :
  r1 ∈ recipes → keep current r1 = true → Result r1 ∉ V →
  ∀ s, dfsVisited s = V → dom (dfsParent s) ⊆ V →
  (∀ s0, dfsVisited s0 = {[Result r1]} ∪ V → dom (dfsParent s0) ⊆ dfsVisited s0 →
         ∃ s', deeper (Result r1) s0 = Some (true, s')) →
  (∀ x s0, is_Some (deeper x s0)) →
  (∀ x s0 s1, dom (dfsParent s0) ⊆ dfsVisited s0 → deeper x s0 = Some (false, s1) →
     dfsVisited s1 = dfsVisited s0 ∧ dfsParent s1 = dfsParent s0) →
  ∃ s', tryRecipes keep deeper current recipes s = Some (true, s').
Proof.
  intros Hin Hk Hnew. revert Hin.
  induction recipes as [|recipe rest IH]; intros Hin s Hv Hdom Hgood Htotal Hrest; simpl.
  { by apply elem_of_nil in Hin. }
  assert (dom (dfsParent s) ⊆ dfsVisited s) as Hdom0 by (by rewrite Hv).
  assert (dom (dfsParent (mark current recipe s)) ⊆ dfsVisited (mark current recipe s)) as Hdom1.
  { simpl. rewrite dom_insert_L. set_solver. }
  destruct (decide (recipe = r1)) as [->|Hne].
  - rewrite Hk. simpl. destruct (decide (Result r1 ∈ dfsVisited s)) as [Hvis|_]; [set_solver|].
    destruct (Hgood (mark current r1 s)) as [s' ->]; [by simpl; rewrite Hv|done|]. eauto.
  - assert (r1 ∈ rest) as Hin'.
    { apply elem_of_cons in Hin as [?|?]; [congruence|done]. }
    destruct (keep current recipe); simpl; [|by apply IH].
    destruct (decide (Result recipe ∈ dfsVisited s)) as [|Hnv]; [by apply IH|].
    destruct (Htotal (Result recipe) (mark current recipe s)) as [[[] s1] Hd]; rewrite Hd; [eauto|].
    destruct (Hrest _ _ _ Hdom1 Hd) as [Hv1 Hp1].
    destruct (unmark_mark current recipe s s1) as [Hv' Hp']; [done|done|done|done|].
    apply IH; [done| | |done|done|done].
    + by rewrite Hv'.
    + rewrite Hp'. done.
Qed.

Lemma dfsSearchWithTiers_finds fuel : ∀ current depth s rs,
  chain possible keep current rs target →
  (∀ v, v ∈ dfsVisited s → tier v ≤ tier current) →
  dom (dfsParent s) ⊆ dfsVisited s →
  depth + (tier target - tier current) ≤ maxDepth →
  maxDepth - depth ≤ Z.of_nat fuel →
  ∃ s', dfsSearchWithTiers target possible keep maxDepth fuel current depth s = Some (true, s').
Proof.
  induction fuel as [|fuel IH]; intros current depth s rs Hch Hvis Hdom Hdepth Hfuel; simpl.
  - destruct (decide (current = target)); [eauto|].
    apply chain_first in Hch as [[? _]|(r & y & rs' & _ & (_ & Hk & <-) & Hch')]; [done|].
    apply keep_progress in Hk. apply chain_tier in Hch'. lia.
  - destruct (decide (current = target)); [eauto|].
    apply chain_first in Hch as [[? _]|(r & y & rs' & _ & (Hp & Hk & <-) & Hch')]; [done|].
    pose proof (keep_progress _ _ Hk) as Hlt. pose proof (chain_tier _ _ _ Hch') as Hle.
    destruct (maxDepth <=? depth) eqn:Hd; [apply Z.leb_le in Hd; lia|].
    apply (tryRecipes_finds _ _ r (dfsVisited s)); [done|done| |done|done| | |].
    + intros Hin. apply Hvis in Hin. lia.
    + intros s0 Hv0 Hdom0. apply (IH _ _ _ rs'); [done| |done|lia|lia].
      intros v Hv. rewrite Hv0 in Hv. apply elem_of_union in Hv as [->%elem_of_singleton|Hv];
        [lia|]. apply Hvis in Hv. lia.
    + intros x s0. apply dfsSearchWithTiers_total. lia.
    + intros x s0 s1 ?. by apply dfsSearchWithTiers_restores.
Qed.

Lemma tryStarts_finds starts b rs :
  b ∈ starts → chain possible keep b rs target →
  tier target - tier b ≤ maxDepth →
  ∀ s, dfsVisited s = ∅ → dfsParent s = ∅ →
  ∃ s', tryStarts target possible keep maxDepth starts s = Some (true, s').
Proof.
  intros Hb Hch Hdepth. revert Hb.
  induction starts as [|id rest IH]; intros Hb s Hv Hp; simpl; [by apply elem_of_nil in Hb|].
  assert (dom (dfsParent (enter id s)) ⊆ dfsVisited (enter id s)) as Hdom.
  { simpl. rewrite Hp. set_solver. }
  destruct (dfsSearchWithTiers_total target possible keep maxDepth (Z.to_nat maxDepth) id 0
              (enter id s) ltac:(lia)) as [[[] s1] Hd]; rewrite Hd; [eauto|].
  destruct (decide (id = b)) as [->|Hne].
  - destruct (dfsSearchWithTiers_finds (Z.to_nat maxDepth) b 0 (enter b s) rs) as [s' Hs'];
      [done| |done|lia|lia|congruence].
    intros v. simpl. rewrite Hv. intros Hin. assert (v = b) as -> by set_solver. lia.
  - apply dfsSearchWithTiers_restores in Hd as [Hv1 Hp1]; [|done].
    apply IH.
    + apply elem_of_cons in Hb as [?|?]; [congruence|done].
    + simpl. rewrite Hv1. simpl. set_solver.
    + simpl. by rewrite Hp1.
Qed.

End DepthFirstComplete.

(** ** The paths of the two depth-first engines *)

Lemma swapRecipes_elem_of i j recipes (r : Recipe) :
  r ∈ swapRecipes i j recipes → r ∈ recipes.
Proof.
  unfold swapRecipes. destruct (recipes !! i) as [a|] eqn:Ha; [|done].
  destruct (recipes !! j) as [b|] eqn:Hb; [|done].
  intros Hin. apply list_elem_of_lookup in Hin as [k Hk].
  apply list_lookup_insert_Some in Hk as [(-> & -> & _)|[_ Hk]].
  { by eapply list_elem_of_lookup_2. }
  apply list_lookup_insert_Some in Hk as [(-> & -> & _)|[_ Hk]].
  { by eapply list_elem_of_lookup_2. }
  by eapply list_elem_of_lookup_2.
Qed.

Lemma fold_left_elem_of {A B} (f : list A → B → list A) indices : ∀ recipes (r : A),
  (∀ acc i x, x ∈ f acc i → x ∈ acc) →
  r ∈ fold_left f indices recipes → r ∈ recipes.
Proof.
  induction indices as [|i indices IH]; intros recipes r Hf; simpl; [done|].
  intros Hin. apply IH in Hin; [|done]. by apply Hf in Hin.
Qed.

Lemma shuffle_elem_of variationIndex recipes (r : Recipe) :
  r ∈ DepthFirstFinder.shuffle variationIndex recipes → r ∈ recipes.
Proof.
  unfold DepthFirstFinder.shuffle. destruct (_ && _); [|done].
  apply fold_left_elem_of. intros acc i x. destruct (decide _); [done|].
  apply swapRecipes_elem_of.
Qed.

Lemma strict_edge_tierPath es (possible : string → list Recipe) x rs y :
  (∀ current r, r ∈ possible current →
     ∃ targetTier, r ∈ BreadthFirstFinder.getPossibleRecipesThatRespectTiers es current
                         (GetElementTier es current) targetTier) →
  chain possible (DepthFirstFinder.keepRecipe es) x rs y → tierPath es x rs y.
Proof.
  intros Hposs. induction 1 as [|rs y r z _ IH (Hp & Hk & <-)]; [constructor|].
  destruct (Hposs _ _ Hp) as [targetTier Hin].
  unfold BreadthFirstFinder.getPossibleRecipesThatRespectTiers in Hin.
  apply list_elem_of_In, filter_In in Hin as [Hin Hf].
  rewrite !andb_true_iff, isIngredient_spec in Hf. destruct Hf as [[Hing _] _].
  econstructor; [done|by apply list_elem_of_In|done|by eapply strict_keep_valid].
Qed.

Lemma tryStartsVariation_path target possible keep maxDepth existing starts : ∀ k s s',
  dfsParent s = ∅ →
  DepthFirstFinder.tryStartsVariation target possible keep maxDepth existing k starts s
  = Some (true, s') →
  ∃ start, start ∈ starts ∧ stackInv possible keep start s' ∧ rooted start target s'.
Proof.
  induction starts as [|id rest IH]; intros k s s' Hp Hrun; simpl in Hrun; [done|].
  assert (stackInv possible keep id (enter id s)) as Hinv.
  { intros x step. simpl. by rewrite Hp, lookup_empty. }
  destruct (dfsSearchWithTiers target possible keep maxDepth (Z.to_nat maxDepth) id 0 (enter id s))
    as [[[] s1]|] eqn:Hd; [| |done].
  - destruct (reconstructPath target (dfsParent s1)) as [path|]; [|done].
    destruct (decide (getPathSignature path ∈ existing k)).
    + apply IH in Hrun as (start & Hin & ?); [|done]. exists start. split; [by right|done].
    + injection Hrun as <-. exists id. split; [by left|].
      eapply dfsSearchWithTiers_path; [exact Hinv| |by left|exact Hd]. simpl. set_solver.
  - apply dfsSearchWithTiers_restores in Hd as [Hv1 Hp1]; [|by apply stackInv_dom in Hinv].
    apply IH in Hrun as (start & Hin & ?); [|by simpl; rewrite Hp1].
    exists start. split; [by right|done].
Qed.

Lemma stack_path target possible keep start s p :
  stackInv possible keep start s → rooted start target s →
  reconstructPath target (dfsParent s) = Some p →
  chain possible keep start p target.
Proof.
  intros Hinv Hroot Hp. unfold reconstructPath in Hp.
  destruct (reconstructPathFrom_stack possible keep start s Hinv _ _ _ _ Hroot Hp)
    as (rs & -> & Hch). by rewrite app_nil_r.
Qed.

Lemma strict_dfs_path es target elapsed res :
  (DepthFirstFinder.FindShortestPath es target elapsed = Some (inr res)
   ∨ ∃ variationIndex targetTier existing,
       DepthFirstFinder.findPathVariation es target variationIndex targetTier
         existing elapsed = Some (inr res)) →
  ∃ b, b ∈ basicIDs es ∧ tierPath es b (Path res) target.
Proof.
  intros [Hres|(vi & tt & existing & Hres)].
  - unfold DepthFirstFinder.FindShortestPath in Hres.
    destruct (Elements es !! target); [|done].
    destruct (GetBasicElements es); [done|].
    apply finishDepth_result in Hres as (s & Hrun & Hp).
    apply tryStarts_path in Hrun as (b & Hb & Hinv & Hroot); [|done|done].
    exists b. split; [done|].
    eapply strict_edge_tierPath; [|by eapply stack_path].
    intros current r Hr. by exists (GetElementTier es target).
  - unfold DepthFirstFinder.findPathVariation in Hres.
    destruct (GetBasicElements es); [done|].
    apply finishDepth_result in Hres as (s & Hrun & Hp).
    apply tryStartsVariation_path in Hrun as (b & Hb & Hinv & Hroot); [|done].
    exists b. split.
    { destruct (_ && _) in Hb; [by apply rotate_elem_of in Hb|done]. }
    eapply strict_edge_tierPath; [|by eapply stack_path].
    intros current r Hr. exists tt. by apply shuffle_elem_of in Hr.
Qed.

Lemma v1_dfs_path es target elapsed res :
  DepthFirstFinderV1.FindShortestPath es target elapsed = Some (inr res) →
  ∃ b, b ∈ basicIDs es ∧ progressPath es b (Path res) target.
Proof.
  intros Hres. unfold DepthFirstFinderV1.FindShortestPath in Hres.
  destruct (Elements es !! target); [|done].
  destruct (GetBasicElements es); [done|].
  apply finishDepth_result in Hres as (s & Hrun & Hp).
  apply tryStarts_path in Hrun as (b & Hb & Hinv & Hroot); [|done|done].
  exists b. split; [done|]. apply v1_chain. by eapply stack_path.
Qed.

Lemma wrapInt_small z : - 2 ^ 63 ≤ z < 2 ^ 63 → wrapInt z = z.
Proof. intros Hz. unfold wrapInt. rewrite Z.mod_small; lia. Qed.

(** The path rebuilt after a search that found the target. *)
Lemma strict_dfs_search_path es target s path :
  DepthFirstFinder.search es target = Some (true, s) →
  reconstructPath target (dfsParent s) = Some path →
  ∃ b, b ∈ basicIDs es ∧ tierPath es b path target.
Proof.
  intros Hrun Hp.
  apply tryStarts_path in Hrun as (b & Hb & Hinv & Hroot); [|done|done].
  exists b. split; [done|].
  eapply strict_edge_tierPath; [|by eapply stack_path].
  intros current r Hr. by exists (GetElementTier es target).
Qed.

Lemma v1_dfs_search_path es target s path :
  DepthFirstFinderV1.search es target = Some (true, s) →
  reconstructPath target (dfsParent s) = Some path →
  ∃ b, b ∈ basicIDs es ∧ progressPath es b path target.
Proof.
  intros Hrun Hp.
  apply tryStarts_path in Hrun as (b & Hb & Hinv & Hroot); [|done|done].
  exists b. split; [done|]. apply v1_chain. by eapply stack_path.
Qed.

(** The depth limit of twice the target tier cuts off no path. *)
Lemma strict_dfs_search_finds es target b rs :
  (∀ b, b ∈ basicIDs es → 0 ≤ GetElementTier es b) →
  GetElementTier es target < 2 ^ 62 →
  b ∈ basicIDs es → tierPath es b rs target →
  ∃ s path, DepthFirstFinder.search es target = Some (true, s)
    ∧ reconstructPath target (dfsParent s) = Some path.
Proof.
  intros Hbasics Hsmall Hb Hpath.
  pose proof (tierPath_tier _ _ _ _ Hpath) as Htier. specialize (Hbasics b Hb) as Hb0.
  assert (chain (DepthFirstFinder.possibleRecipes es target) (DepthFirstFinder.keepRecipe es)
            b rs target) as Hch.
  { apply (tierPath_chain es target) in Hpath; [exact Hpath|lia]. }
  assert (GetElementTier es target - GetElementTier es b
          ≤ wrapInt (GetElementTier es target * 2)) as Hdepth.
  { rewrite wrapInt_small; lia. }
  destruct (tryStarts_finds target (DepthFirstFinder.possibleRecipes es target)
              (DepthFirstFinder.keepRecipe es)
              (wrapInt (GetElementTier es target * 2)) (GetElementTier es)
              (dfs_keep_progress es) (basicIDs es) b rs Hb Hch Hdepth
              emptyDepthState eq_refl eq_refl) as [s' Hs'].
  destruct (dfs_search_ends es target) as (b0 & s0 & Hs0 & Hrec).
  unfold DepthFirstFinder.search in *. rewrite Hs' in Hs0. injection Hs0 as <- <-.
  destruct (Hrec eq_refl) as [path Hp]. by exists s', path.
Qed.

Lemma v1_dfs_search_finds es target b rs :
  (∀ b, b ∈ basicIDs es → 0 ≤ GetElementTier es b) →
  GetElementTier es target < 2 ^ 62 →
  b ∈ basicIDs es → progressPath es b rs target →
  ∃ s path, DepthFirstFinderV1.search es target = Some (true, s)
    ∧ reconstructPath target (dfsParent s) = Some path.
Proof.
  intros Hbasics Hsmall Hb Hpath.
  apply v1_chain in Hpath.
  pose proof (chain_tier _ _ (GetElementTier es) (dfs_v1_keep_progress es) _ _ _ Hpath) as Htier.
  specialize (Hbasics b Hb) as Hb0.
  assert (GetElementTier es target - GetElementTier es b
          ≤ wrapInt (GetElementTier es target * 2)) as Hdepth.
  { rewrite wrapInt_small; lia. }
  destruct (tryStarts_finds target (DepthFirstFinderV1.possibleRecipes es)
              (DepthFirstFinderV1.keepRecipe es)
              (wrapInt (GetElementTier es target * 2)) (GetElementTier es)
              (dfs_v1_keep_progress es) (basicIDs es) b rs Hb Hpath Hdepth
              emptyDepthState eq_refl eq_refl) as [s' Hs'].
  exists s'.
  destruct (tryStarts_climbing target _ _ _ (GetElementTier es) (fun _ => True)
              (dfs_v1_keep_progress es) ltac:(done) (basicIDs es) emptyDepthState true s'
              ltac:(done) (climbing_empty _ _ _) Hs') as [Hc _].
  assert (Hdec : tierDecreasing es (dfsParent s')).
  { intros child step Hp. by destruct (Hc _ _ Hp) as (_ & ? & _). }
  destruct (reconstructPath_tierDecreasing es _ Hdec target) as [p Hp]. by exists p.
Qed.

(** What the tail of a search gives when the search found the target. *)
Lemma finishDepth_found es target elapsed variationIndex s path :
  reconstructPath target (dfsParent s) = Some path →
  (builds es path target
   ∧ ∃ res, finishDepth es target elapsed variationIndex (Some (true, s)) = Some (inr res)
            ∧ Path res = path)
  ∨ (¬ builds es path target
     ∧ finishDepth es target elapsed variationIndex (Some (true, s)) = None).
Proof.
  intros Hp. unfold finishDepth. rewrite Hp, builds_treeOf.
  destruct (treeOf es path target) as [tree| |].
  - left. split; [by exists tree|]. by eexists.
  - right. split; [by intros [? ?]|done].
  - right. split; [by intros [? ?]|done].
Qed.

(** ** The path of the bidirectional search *)

Section BidirectionalPaths.
Import BidirectionalFinder.

(** The forward backpointers lead to elements the forward search visited. *)
Definition forwardLinked (s : BidState) : Prop :=
  ∀ x st, forwardParent s !! x = Some st → ParentID st ∈ forwardVisited s.

Lemma expandForward_linked es current currentTier recipes : ∀ s,
  forwardLinked s → current ∈ forwardVisited s →
  forwardLinked (expandForward es current currentTier recipes s).
Proof.
  induction recipes as [|r rest IH]; intros s Hl Hcur; simpl; [done|].
  destruct (negb _); [by apply IH|].
  destruct (_ <=? _); [by apply IH|].
  destruct (decide (Result r ∈ forwardVisited s)) as [|Hnv]; [by apply IH|].
  assert (forwardLinked (discoverForward current r (GetElementTier es (Result r)) s)) as Hl'.
  { intros x st. simpl. destruct (decide (x = Result r)) as [->|Hne].
    - rewrite lookup_insert_eq. intros [= <-]. simpl. set_solver.
    - rewrite lookup_insert_ne by done. intros Hx. apply Hl in Hx. set_solver. }
  destruct (decide (Result r ∈ _)); [done|].
  apply IH; [done|]. simpl. set_solver.
Qed.

Lemma forwardLevel_linked es target n : ∀ s,
  BidInv es target s → forwardLinked s → forwardLinked (forwardLevel es n s).
Proof.
  induction n as [|n IH]; intros s HI Hl; simpl; [done|].
  destruct (bidFound s) eqn:Hf; [done|].
  destruct (forwardQueue s) as [|x rest] eqn:Hq; [done|].
  assert (x ∈ forwardVisited s) as Hx by (apply (bi_fq _ _ _ HI); rewrite Hq; by left).
  destruct (decide (x ∈ backwardVisited s)); [done|].
  apply IH.
  - apply expandForward_inv; [by eapply BidInv_popForward|done|done].
  - by apply expandForward_linked.
Qed.

Lemma expandIngredients_frame es current t r ingredients : ∀ s,
  forwardParent (expandIngredients es current t r ingredients s) = forwardParent s
  ∧ forwardTier (expandIngredients es current t r ingredients s) = forwardTier s.
Proof.
  induction ingredients as [|ing rest IH]; intros s; simpl; [done|].
  destruct (_ <=? _); [by apply IH|].
  destruct (decide (ing ∈ backwardVisited s)); [by apply IH|].
  destruct (decide (ing ∈ _)); [done|]. by destruct (IH (discoverBackward current r ing
    (GetElementTier es ing) s)) as [-> ->].
Qed.

Lemma expandBackward_frame es current t recipes : ∀ s,
  forwardParent (expandBackward es current t recipes s) = forwardParent s
  ∧ forwardTier (expandBackward es current t recipes s) = forwardTier s.
Proof.
  induction recipes as [|r rest IH]; intros s; simpl; [done|].
  destruct (decide (Result r = current)); [|by apply IH].
  destruct (negb _); [by apply IH|].
  pose proof (expandIngredients_frame es current t r (Ingredients r) s) as [H1 H2].
  destruct (bidFound _); [done|].
  destruct (IH (expandIngredients es current t r (Ingredients r) s)) as [-> ->]. done.
Qed.

Lemma backwardLevel_frame es n : ∀ s,
  forwardParent (backwardLevel es n s) = forwardParent s
  ∧ forwardTier (backwardLevel es n s) = forwardTier s.
Proof.
  induction n as [|n IH]; intros s; simpl; [done|].
  destruct (bidFound s); [done|].
  destruct (backwardQueue s) as [|x rest]; [done|].
  destruct (decide (x ∈ forwardVisited s)); [done|].
  destruct (IH (expandBackward es x (tierAt (backwardTier s) x) (Recipes es)
                  (popBackward rest s))) as [-> ->].
  apply (expandBackward_frame es x _ (Recipes es) (popBackward rest s)).
Qed.

Lemma backwardLevel_linked es n s :
  forwardLinked s → forwardLinked (backwardLevel es n s).
Proof.
  unfold forwardLinked. destruct (backwardLevel_frame es n s) as [-> _].
  destruct (backwardLevel_forward es n s) as [_ ->]. done.
Qed.

Lemma bidLoop_linked es target fuel : ∀ s s',
  BidInv es target s → forwardLinked s → bidLoop es fuel s = Some s' → forwardLinked s'.
Proof.
  induction fuel as [|fuel IH]; intros s s' HI Hl Hrun; simpl in Hrun.
  - destruct (forwardQueue s), (backwardQueue s), (bidFound s); by simplify_eq.
  - destruct (forwardQueue s) eqn:Hfq, (backwardQueue s) eqn:Hbq, (bidFound s) eqn:Hf;
      try by simplify_eq.
    rewrite <- Hfq in Hrun.
    pose proof (forwardLevel_inv es target (length (forwardQueue s)) s HI) as HI1.
    pose proof (forwardLevel_linked es target (length (forwardQueue s)) s HI Hl) as Hl1.
    destruct (bidFound (forwardLevel es _ s)); [by simplify_eq|].
    eapply IH; [| |exact Hrun]; [by apply backwardLevel_inv|by apply backwardLevel_linked].
Qed.

Lemma search_linked es target s : search es target = Some s → forwardLinked s.
Proof.
  apply (bidLoop_linked es target); [apply BidInv_initial|].
  intros x st. simpl. by rewrite lookup_empty.
Qed.

Lemma reconstructForwardFrom_path es target s : BidInv es target s → forwardLinked s →
  ∀ fuel x acc p, x ∈ forwardVisited s →
  reconstructForwardFrom es fuel (forwardParent s) x acc = Some p →
  ∃ b q, b ∈ basicIDs es ∧ p = q ++ acc ∧ tierPath es b q x.
Proof.
  intros HI Hl. induction fuel as [|fuel IH]; intros x acc p Hx Hrun; simpl in Hrun.
  - destruct (forwardParent s !! x) as [st|] eqn:Hp.
    + destruct (bi_fp _ _ _ HI _ _ Hp) as (_ & _ & Hv & _). apply tierValid_check in Hv.
      rewrite Hv in Hrun. done.
    + injection Hrun as <-. exists x, []. split; [by apply (bi_froot _ _ _ HI)|].
      split; [done|constructor].
  - destruct (forwardParent s !! x) as [st|] eqn:Hp.
    + destruct (bi_fp _ _ _ HI _ _ Hp) as (Hres & Hing & Hv & Hin).
      pose proof Hv as Hv'. apply tierValid_check in Hv'. rewrite Hv' in Hrun. simpl in Hrun.
      apply IH in Hrun as (b & q & Hb & -> & Hpath); [|by eapply Hl].
      exists b, (q ++ [StepRecipe st]). split; [done|]. split; [by rewrite <- app_assoc|].
      rewrite <- Hres. by econstructor.
    + injection Hrun as <-. exists x, []. split; [by apply (bi_froot _ _ _ HI)|].
      split; [done|constructor].
Qed.

Lemma reconstructBackwardFrom_path es target s b : BidInv es target s →
  ∀ fuel x acc p, x ∈ backwardVisited s → tierPath es b acc x →
  reconstructBackwardFrom es fuel (backwardParent s) x acc = Some p →
  tierPath es b p target.
Proof.
  intros HI. induction fuel as [|fuel IH]; intros x acc p Hx Hacc Hrun; simpl in Hrun.
  - destruct (backwardParent s !! x) as [st|] eqn:Hp.
    + destruct (bi_bp _ _ _ HI _ _ Hp) as (_ & _ & Hv & _). apply tierValid_check in Hv.
      rewrite Hv in Hrun. done.
    + injection Hrun as <-. by rewrite <- (bi_broot _ _ _ HI x Hx Hp).
  - destruct (backwardParent s !! x) as [st|] eqn:Hp.
    + destruct (bi_bp _ _ _ HI _ _ Hp) as (Hing & Hres & Hv & Hin & Hpar).
      pose proof Hv as Hv'. apply tierValid_check in Hv'. rewrite Hv' in Hrun. simpl in Hrun.
      eapply IH; [exact Hpar| |exact Hrun]. rewrite <- Hres. by econstructor.
    + injection Hrun as <-. by rewrite <- (bi_broot _ _ _ HI x Hx Hp).
Qed.

Lemma reconstructBackwardFrom_prefix es childMap pre fuel : ∀ x acc p,
  reconstructBackwardFrom es fuel childMap x acc = Some p →
  reconstructBackwardFrom es fuel childMap x (pre ++ acc) = Some (pre ++ p).
Proof.
  induction fuel as [|fuel IH]; intros x acc p; simpl.
  - destruct (childMap !! x); [destruct (negb _); [|done]|]; by intros [= <-].
  - destruct (childMap !! x) as [st|]; [|by intros [= <-]].
    destruct (negb _); [by intros [= <-]|].
    intros Hrun. apply IH in Hrun. by rewrite <- app_assoc.
Qed.

Lemma bid_search_path es target s fp bp :
  search es target = Some s → bidFound s = true →
  reconstructForwardPath es (meetingPoint s) (forwardParent s) = Some fp →
  reconstructBackwardPath es (meetingPoint s) (backwardParent s) = Some bp →
  ∃ b, b ∈ basicIDs es ∧ tierPath es b (fp ++ bp) target.
Proof.
  intros Hs Hf Hfp Hbp.
  pose proof (search_inv _ _ _ Hs) as HI. pose proof (search_linked _ _ _ Hs) as Hl.
  destruct (bi_meet _ _ _ HI Hf) as [Hmf Hmb].
  apply (reconstructForwardFrom_path es target s HI Hl) in Hfp as (b & q & Hb & -> & Hq); [|done].
  rewrite app_nil_r in *. exists b. split; [done|].
  unfold reconstructBackwardPath in Hbp.
  apply (reconstructBackwardFrom_prefix es _ q) in Hbp. rewrite app_nil_r in Hbp.
  by eapply (reconstructBackwardFrom_path es target s b HI).
Qed.

Lemma bid_path es target elapsed res :
  FindShortestPath es target elapsed = Some (inr res) →
  ∃ b, b ∈ basicIDs es ∧ tierPath es b (Path res) target.
Proof.
  unfold FindShortestPath. intros Hres.
  destruct (Elements es !! target); [|done].
  destruct (GetBasicElements es); [done|].
  destruct (search es target) as [s|] eqn:Hs; [|done].
  destruct (bidFound s) eqn:Hf; [|done].
  destruct (reconstructForwardPath _ _ _) as [fp|] eqn:Hfp; [|done].
  destruct (reconstructBackwardPath _ _ _) as [bp|] eqn:Hbp; [|done].
  destruct (treeOf es (fp ++ bp) target); [|done|done].
  injection Hres as <-. simpl. by eapply bid_search_path.
Qed.

End BidirectionalPaths.

(** ** The bidirectional search finds the target *)

Lemma tierPath_forward es (V : gset string) b rs y :
  (∀ x r, x ∈ V → r ∈ Recipes es → x ∈ Ingredients r → tierValid es r → Result r ∈ V) →
  tierPath es b rs y → b ∈ V → y ∈ V.
Proof.
  intros Hclosed Hpath Hb. induction Hpath as [|rs y r _ IH Hr Hy Hv]; [done|].
  by apply (Hclosed y r).
Qed.

Lemma tierPath_backward es (V : gset string) b rs y :
  (∀ r i, Result r ∈ V → r ∈ Recipes es → tierValid es r → i ∈ Ingredients r → i ∈ V) →
  tierPath es b rs y → y ∈ V → b ∈ V.
Proof.
  intros Hclosed Hpath. induction Hpath as [|rs y r _ IH Hr Hy Hv]; [done|].
  intros Hres. apply IH. by apply (Hclosed r y).
Qed.

Section BidirectionalComplete.
Import BidirectionalFinder.
Variable es : ElementStore.
Variable target : string.

(** What holds while no meeting point was found: both visited sets are
    closed under the tier-valid recipes, up to the elements still queued
    and the work [ftodo], [btodo] that is left for the element being
    expanded; an element visited from both sides is still queued on both. *)
Record BidReach (ftodo : string → Recipe → Prop) (btodo : string → Recipe → string → Prop)
    (s : BidState) : Prop := {
  br_basics : ∀ b, b ∈ basicIDs es → b ∈ forwardVisited s;
  br_target : target ∈ backwardVisited s;
  br_ftier : ∀ x, x ∈ forwardVisited s → tierAt (forwardTier s) x ≤ GetElementTier es x;
  br_common : ∀ x, x ∈ forwardVisited s → x ∈ backwardVisited s →
    x ∈ forwardQueue s ∧ x ∈ backwardQueue s;
  br_fclosed : ∀ x r, x ∈ forwardVisited s → x ∉ forwardQueue s →
    r ∈ Recipes es → x ∈ Ingredients r → tierValid es r →
    Result r ∈ forwardVisited s ∨ ftodo x r;
  br_bclosed : ∀ x r i, x ∈ backwardVisited s → x ∉ backwardQueue s →
    r ∈ Recipes es → Result r = x → tierValid es r → i ∈ Ingredients r →
    i ∈ backwardVisited s ∨ btodo x r i
}.

Lemma BidReach_weaken (ftodo ftodo' : string → Recipe → Prop)
    (btodo btodo' : string → Recipe → string → Prop) s :
  (∀ x r, r ∈ Recipes es → x ∈ Ingredients r → tierValid es r →
          ftodo x r → Result r ∈ forwardVisited s ∨ ftodo' x r) →
  (∀ x r i, r ∈ Recipes es → Result r = x → tierValid es r → i ∈ Ingredients r →
            btodo x r i → i ∈ backwardVisited s ∨ btodo' x r i) →
  BidReach ftodo btodo s → BidReach ftodo' btodo' s.
Proof.
  intros Hf Hb [H1 H2 H3 H4 H5 H6]. split; try done.
  - intros x r Hx Hq Hr Hi Hv. destruct (H5 x r Hx Hq Hr Hi Hv) as [?|?]; [by left|eauto].
  - intros x r i Hx Hq Hr Hres Hv Hi.
    destruct (H6 x r i Hx Hq Hr Hres Hv Hi) as [?|?]; [by left|eauto].
Qed.

Definition noForward : string → Recipe → Prop := fun _ _ => False.
Definition noBackward : string → Recipe → string → Prop := fun _ _ _ => False.

Lemma expandForward_reach btodo cur currentTier pending : ∀ s,
  (∀ r, r ∈ pending → r ∈ getValidRecipesWithElementAnyPosition es cur) →
  currentTier ≤ GetElementTier es cur →
  BidReach (fun x r => x = cur ∧ r ∈ pending) btodo s →
  bidFound (expandForward es cur currentTier pending s) = false →
  BidReach noForward btodo (expandForward es cur currentTier pending s).
Proof.
  induction pending as [|r rest IH]; intros s Hsub Htier HR Hnf; simpl in *.
  { eapply BidReach_weaken; [| |exact HR]; [|by right].
    intros x r _ _ _ [_ Hin]. by apply elem_of_nil in Hin. }
  assert (Hsub' : ∀ r', r' ∈ rest → r' ∈ getValidRecipesWithElementAnyPosition es cur)
    by (intros; apply Hsub; by right).
  assert (Hr : r ∈ getValidRecipesWithElementAnyPosition es cur) by (apply Hsub; by left).
  apply getValid_elem in Hr as (Hr1 & Hr2 & Hr3).
  pose proof Hr3 as Hcheck. apply tierValid_check in Hcheck. rewrite Hcheck in *. simpl in *.
  pose proof (Hr3 _ Hr2) as Hlt.
  destruct (GetElementTier es (Result r) <=? currentTier) eqn:Hle; [apply Z.leb_le in Hle; lia|].
  destruct (decide (Result r ∈ forwardVisited s)) as [Hvis|Hnv].
  { apply IH; [done|done| |done]. eapply BidReach_weaken; [| |exact HR]; [|by right].
    intros x r' _ _ _ [-> [->|?]%elem_of_cons]; [by left|by right]. }
  destruct (decide (Result r ∈ backwardVisited s)) as [Hb|Hb]; [done|].
  apply IH; [done|done| |done].
  destruct HR as [H1 H2 H3 H4 H5 H6]. split; simpl.
  - intros b Hb'. apply H1 in Hb'. set_solver.
  - done.
  - intros x Hx. unfold tierAt. destruct (decide (x = Result r)) as [->|Hne].
    + rewrite lookup_insert_eq. simpl. lia.
    + rewrite lookup_insert_ne by done. apply H3. set_solver.
  - intros x Hx Hxb. assert (x ≠ Result r) by (by intros ->).
    destruct (H4 x) as [? ?]; [set_solver|done|]. split; [|done].
    apply elem_of_app. by left.
  - intros x r' Hx Hq Hr' Hi Hv.
    assert (x ∉ forwardQueue s) as Hq' by (intros ?; apply Hq, elem_of_app; by left).
    assert (x ≠ Result r) as Hne.
    { intros ->. apply Hq, elem_of_app. right. by apply list_elem_of_singleton. }
    destruct (H5 x r') as [?|[-> [->|?]%elem_of_cons]]; [set_solver|done|done|done|done| | |].
    + left. set_solver.
    + left. set_solver.
    + by right.
  - done.
Qed.

Lemma forwardLevel_found n s : bidFound s = true → forwardLevel es n s = s.
Proof. intros Hf. destruct n; simpl; [done|]. by rewrite Hf. Qed.

Lemma backwardLevel_found n s : bidFound s = true → backwardLevel es n s = s.
Proof. intros Hf. destruct n; simpl; [done|]. by rewrite Hf. Qed.

Lemma forwardLevel_reach btodo n : ∀ s,
  BidInv es target s → BidReach noForward btodo s →
  bidFound (forwardLevel es n s) = false →
  BidReach noForward btodo (forwardLevel es n s).
Proof.
  induction n as [|n IH]; intros s HI HR Hnf; simpl in *; [done|].
  destruct (bidFound s) eqn:Hf; [done|].
  destruct (forwardQueue s) as [|cur rest] eqn:Hq; [done|].
  assert (cur ∈ forwardVisited s) as Hcur by (apply (bi_fq _ _ _ HI); rewrite Hq; by left).
  destruct (decide (cur ∈ backwardVisited s)) as [|Hnb]; [done|].
  pose proof (BidInv_popForward _ _ _ _ _ HI Hq) as HI0.
  assert (BidReach noForward btodo
            (expandForward es cur (tierAt (forwardTier s) cur)
               (getValidRecipesWithElementAnyPosition es cur) (popForward rest s))) as HR1.
  { apply expandForward_reach; [done|by apply (br_ftier _ _ _ HR)| |].
    - destruct HR as [H1 H2 H3 H4 H5 H6]. split; simpl; try done.
      + intros x Hx Hxb. destruct (H4 x Hx Hxb) as [Hin ?]. split; [|done].
        rewrite Hq in Hin. apply elem_of_cons in Hin as [->|?]; done.
      + intros x r Hx Hnq Hr Hi Hv. destruct (decide (x = cur)) as [->|Hne].
        * right. split; [done|]. by apply getValid_elem.
        * destruct (H5 x r) as [?|[]]; try done; [|by left].
          rewrite Hq. intros [?|?]%elem_of_cons; done.
    - destruct (bidFound (expandForward _ _ _ _ _)) eqn:Hf1; [|done].
      rewrite forwardLevel_found in Hnf by done. congruence. }
  apply IH; [|done|done]. by apply expandForward_inv.
Qed.

Lemma expandIngredients_reach ftodo cur r0 (pendingR : list Recipe) pendingI : ∀ s,
  (∀ i, i ∈ pendingI → i ∈ Ingredients r0) → tierValid es r0 → Result r0 = cur →
  BidReach ftodo (fun x r i => x = cur ∧ (r ∈ pendingR ∨ (r = r0 ∧ i ∈ pendingI))) s →
  bidFound (expandIngredients es cur (GetElementTier es cur) r0 pendingI s) = false →
  BidReach ftodo (fun x r i => x = cur ∧ r ∈ pendingR)
    (expandIngredients es cur (GetElementTier es cur) r0 pendingI s).
Proof.
  induction pendingI as [|ing rest IH]; intros s Hsub Hv Hres HR Hnf; simpl in *.
  { eapply BidReach_weaken; [| |exact HR]; [by right|].
    intros x r i _ _ _ _ [-> [?|[_ Hin]]]; [by right|by apply elem_of_nil in Hin]. }
  assert (Hsub' : ∀ i, i ∈ rest → i ∈ Ingredients r0) by (intros; apply Hsub; by right).
  assert (GetElementTier es ing < GetElementTier es cur) as Hlt.
  { rewrite <- Hres. apply Hv, Hsub. by left. }
  destruct (GetElementTier es cur <=? GetElementTier es ing) eqn:Hle;
    [apply Z.leb_le in Hle; lia|].
  destruct (decide (ing ∈ backwardVisited s)) as [Hvis|Hnv].
  { apply IH; [done|done|done| |done]. eapply BidReach_weaken; [| |exact HR]; [by right|].
    intros x r i _ _ _ _ [-> [?|[-> [->|?]%elem_of_cons]]]; [right|by left|right]; tauto. }
  destruct (decide (ing ∈ forwardVisited s)) as [Hf|Hf]; [done|].
  apply IH; [done|done|done| |done].
  destruct HR as [H1 H2 H3 H4 H5 H6]. split; simpl; try done.
  - set_solver.
  - intros x Hx Hxb. assert (x ≠ ing) by (by intros ->).
    destruct (H4 x) as [? ?]; [done|set_solver|]. split; [done|].
    apply elem_of_app. by left.
  - intros x r i Hx Hq Hr Hrx Hvr Hi.
    assert (x ∉ backwardQueue s) as Hq' by (intros ?; apply Hq, elem_of_app; by left).
    assert (x ≠ ing) as Hne.
    { intros ->. apply Hq, elem_of_app. right. by apply list_elem_of_singleton. }
    destruct (H6 x r i) as [?|[-> [?|[-> [->|?]%elem_of_cons]]]];
      [set_solver|done|done|done|done|done| | | |].
    + left. set_solver.
    + right. tauto.
    + left. set_solver.
    + right. tauto.
Qed.

Lemma expandBackward_reach ftodo cur pendingR : ∀ s,
  BidReach ftodo (fun x r i => x = cur ∧ r ∈ pendingR) s →
  bidFound (expandBackward es cur (GetElementTier es cur) pendingR s) = false →
  BidReach ftodo noBackward (expandBackward es cur (GetElementTier es cur) pendingR s).
Proof.
  induction pendingR as [|r rest IH]; intros s HR Hnf; simpl in *.
  { eapply BidReach_weaken; [| |exact HR]; [by right|].
    intros x r i _ _ _ _ [_ Hin]. by apply elem_of_nil in Hin. }
  destruct (decide (Result r = cur)) as [Hres|Hres].
  2:{ apply IH; [|done]. eapply BidReach_weaken; [| |exact HR]; [by right|].
      intros x r' i _ Hrx _ _ [-> [->|?]%elem_of_cons]; [done|by right]. }
  destruct (negb _) eqn:Hcheck.
  { apply IH; [|done]. eapply BidReach_weaken; [| |exact HR]; [by right|].
    intros x r' i _ Hrx Hv _ [-> [->|?]%elem_of_cons]; [|by right].
    apply tierValid_check in Hv. rewrite Hres in Hv. by rewrite Hv in Hcheck. }
  apply negb_false_iff in Hcheck. rewrite <- Hres in Hcheck.
  apply tierValid_check in Hcheck.
  destruct (bidFound (expandIngredients es cur (GetElementTier es cur) r (Ingredients r) s))
    eqn:Hf1; [congruence|].
  apply IH; [|done].
  apply expandIngredients_reach; [done|done|done| |done].
  eapply BidReach_weaken; [| |exact HR]; [by right|].
  intros x r' i _ _ _ Hi [-> [->|?]%elem_of_cons]; right; tauto.
Qed.

Lemma backwardLevel_reach ftodo n : ∀ s,
  BidInv es target s → BidReach ftodo noBackward s →
  bidFound (backwardLevel es n s) = false →
  BidReach ftodo noBackward (backwardLevel es n s).
Proof.
  induction n as [|n IH]; intros s HI HR Hnf; simpl in *; [done|].
  destruct (bidFound s) eqn:Hf; [done|].
  destruct (backwardQueue s) as [|cur rest] eqn:Hq; [done|].
  assert (cur ∈ backwardVisited s) as Hcur by (apply (bi_bq _ _ _ HI); rewrite Hq; by left).
  destruct (decide (cur ∈ forwardVisited s)) as [|Hnb]; [done|].
  pose proof (BidInv_popBackward _ _ _ _ _ HI Hq) as HI0.
  rewrite (bi_btier _ _ _ HI cur Hcur) in *.
  assert (BidReach ftodo noBackward
            (expandBackward es cur (GetElementTier es cur) (Recipes es) (popBackward rest s)))
    as HR1.
  { apply expandBackward_reach.
    - destruct HR as [H1 H2 H3 H4 H5 H6]. split; simpl; try done.
      + intros x Hx Hxb. destruct (H4 x Hx Hxb) as [? Hin]. split; [done|].
        rewrite Hq in Hin. apply elem_of_cons in Hin as [->|?]; done.
      + intros x r i Hx Hnq Hr Hrx Hv Hi. destruct (decide (x = cur)) as [->|Hne].
        * by right.
        * destruct (H6 x r i) as [?|[]]; try done; [|by left].
          rewrite Hq. intros [?|?]%elem_of_cons; done.
    - destruct (bidFound (expandBackward _ _ _ _ _)) eqn:Hf1; [|done].
      rewrite backwardLevel_found in Hnf by done. congruence. }
  apply IH; [|done|done]. by apply expandBackward_inv.
Qed.

Lemma bidLoop_found fuel s : bidFound s = true → bidLoop es fuel s = Some s.
Proof.
  intros Hf. destruct fuel; simpl; rewrite Hf;
    by destruct (forwardQueue s), (backwardQueue s).
Qed.

Lemma bidLoop_reach fuel : ∀ s s',
  BidInv es target s → BidReach noForward noBackward s →
  bidLoop es fuel s = Some s' → bidFound s' = false →
  BidReach noForward noBackward s' ∧ (forwardQueue s' = [] ∨ backwardQueue s' = []).
Proof.
  induction fuel as [|fuel IH]; intros s s' HI HR Hrun Hnf; simpl in Hrun.
  - destruct (forwardQueue s) eqn:Hfq; [injection Hrun as <-; split; [done|by left]|].
    destruct (backwardQueue s) eqn:Hbq; [injection Hrun as <-; split; [done|by right]|].
    destruct (bidFound s) eqn:Hf; [injection Hrun as <-; congruence|done].
  - destruct (forwardQueue s) eqn:Hfq; [injection Hrun as <-; split; [done|by left]|].
    destruct (backwardQueue s) eqn:Hbq; [injection Hrun as <-; split; [done|by right]|].
    destruct (bidFound s) eqn:Hf; [injection Hrun as <-; congruence|].
    rewrite <- Hfq in Hrun.
    pose proof (forwardLevel_inv es target (length (forwardQueue s)) s HI) as HI1.
    destruct (bidFound (forwardLevel es (length (forwardQueue s)) s)) eqn:Hf1.
    { injection Hrun as <-. congruence. }
    pose proof (forwardLevel_reach _ _ _ HI HR Hf1) as HR1.
    remember (forwardLevel es (length (forwardQueue s)) s) as t1 eqn:Ht1.
    destruct (bidFound (backwardLevel es (length (backwardQueue t1)) t1)) eqn:Hf2.
    + rewrite bidLoop_found in Hrun by done. injection Hrun as <-. congruence.
    + eapply IH; [| |exact Hrun|done].
      * by apply backwardLevel_inv.
      * by apply backwardLevel_reach.
Qed.

Hypothesis basics_nonNegative : ∀ b, b ∈ basicIDs es → 0 ≤ GetElementTier es b.

Lemma BidReach_initial : BidReach noForward noBackward (initialState es target).
Proof.
  split; simpl.
  - intros b Hb. by apply elem_of_list_to_set.
  - set_solver.
  - intros x Hx. unfold tierAt. rewrite lookup_gset_to_gmap. 
    rewrite option_guard_True by done. simpl. apply basics_nonNegative.
    by apply elem_of_list_to_set in Hx.
  - intros x Hx Hxb. apply elem_of_singleton in Hxb as ->.
    split; [by apply elem_of_list_to_set in Hx|by left].
  - intros x r Hx Hq. by apply elem_of_list_to_set in Hx.
  - intros x r i Hx Hq. apply elem_of_singleton in Hx as ->. destruct Hq. by left.
Qed.

Lemma bid_search_finds s b rs :
  b ∈ basicIDs es → tierPath es b rs target →
  search es target = Some s → bidFound s = true.
Proof.
  intros Hb Hpath Hs. destruct (bidFound s) eqn:Hf; [done|]. exfalso.
  destruct (bidLoop_reach _ _ _ (BidInv_initial es target) BidReach_initial Hs Hf)
    as [[H1 H2 H3 H4 H5 H6] Hq].
  assert (∀ x, x ∈ forwardVisited s → x ∈ backwardVisited s → False) as Hdisjoint.
  { intros x Hx Hxb. destruct (H4 x Hx Hxb) as [Hin1 Hin2].
    destruct Hq as [Hq|Hq]; [rewrite Hq in Hin1|rewrite Hq in Hin2]; by eapply elem_of_nil. }
  destruct Hq as [Hq|Hq].
  - apply (Hdisjoint target); [|done].
    apply (tierPath_forward es _ b rs); [|done|by apply H1].
    intros x r Hx Hr Hi Hv. destruct (H5 x r) as [?|[]]; try done.
    rewrite Hq. apply not_elem_of_nil.
  - apply (Hdisjoint b); [by apply H1|].
    apply (tierPath_backward es _ b rs target); [|done|done].
    intros r i Hres Hr Hv Hi. destruct (H6 (Result r) r i) as [?|[]]; try done.
    rewrite Hq. apply not_elem_of_nil.
Qed.

End BidirectionalComplete.

(** The tier-valid path of the scenario: D is made from A and C. *)
Lemma scenario_tierPath : tierPath scenario "A" [mkRecipe ["A"; "C"] "D"] "D".
Proof.
  apply (tierPath_step scenario "A" [] "A" (mkRecipe ["A"; "C"] "D")).
  - constructor.
  - vm_compute. set_solver.
  - simpl. set_solver.
  - intros ingredient Hin. simpl in Hin.
    apply elem_of_cons in Hin as [->|Hin]; [by vm_compute|].
    apply list_elem_of_singleton in Hin as ->. by vm_compute.
Qed.

Lemma scenario_basics b : b ∈ basicIDs scenario → 0 ≤ GetElementTier scenario b.
Proof.
  intros Hb. vm_compute in Hb.
  apply elem_of_cons in Hb as [->|Hb]; [by vm_compute|].
  apply list_elem_of_singleton in Hb as ->. by vm_compute.
Qed.

(** X9: the path of the depth-first engine. The path returned by
    [FindShortestPath] of the tier-checking depth-first engine, or by
    [findPathVariation] for any variation index, tier bound and content of
    the signature set, is a tier-valid path from a basic element to the
    target: recipes of the catalog, the first with a basic element among its
    ingredients, each next one with the result of the one before among its
    ingredients, the last one producing the target. *)
Theorem dfs_result_is_path es target elapsed res :
  (DepthFirstFinder.FindShortestPath es target elapsed = Some (inr res)
   ∨ ∃ variationIndex targetTier existing,
       DepthFirstFinder.findPathVariation es target variationIndex targetTier
         existing elapsed = Some (inr res)) →
  ∃ b, b ∈ basicIDs es ∧ tierPath es b (Path res) target.
Proof. apply strict_dfs_path. Qed.

Lemma dfs_result_is_path_witness :
  ∃ b, b ∈ basicIDs scenario
       ∧ tierPath scenario b [mkRecipe ["A"; "B"] "C"; mkRecipe ["A"; "C"] "D"] "D".
Proof.
  apply (dfs_result_is_path scenario "D" 0
           {| Path := [mkRecipe ["A"; "B"] "C"; mkRecipe ["A"; "C"] "D"];
              VisitedNodes := 3; ExecutionTime := 0; VariationIndex := 0 |}).
  left. by vm_compute.
Defined.

(** X10: the depth-first engine finds a path when there is one. In a catalog
    whose basic elements have a non-negative tier (and a target tier below
    2^62), [FindShortestPath] of the tier-checking depth-first engine returns
    a result only when some tier-valid path leads from a basic element to
    the target, and [ErrNoPathFound] exactly when the catalog has basic
    elements and no such path: the depth limit of twice the target tier cuts
    off no path.  When every ingredient of a recipe of the catalog is an
    element of the catalog, it returns a result whenever there is such a
    path. *)
Theorem dfs_finds_path es target elapsed :
  (∀ b, b ∈ basicIDs es → 0 ≤ GetElementTier es b) →
  GetElementTier es target < 2 ^ 62 →
  is_Some (Elements es !! target) →
  ((∃ res, DepthFirstFinder.FindShortestPath es target elapsed = Some (inr res))
   → ∃ b rs, b ∈ basicIDs es ∧ tierPath es b rs target)
  ∧ (listed es → (∃ b rs, b ∈ basicIDs es ∧ tierPath es b rs target) →
     ∃ res, DepthFirstFinder.FindShortestPath es target elapsed = Some (inr res))
  ∧ (DepthFirstFinder.FindShortestPath es target elapsed = Some (inl ErrNoPathFound)
     ↔ GetBasicElements es ≠ [] ∧ ¬ ∃ b rs, b ∈ basicIDs es ∧ tierPath es b rs target).
Proof.
  intros Hbasics Hsmall Htarget. split; [|split].
  - intros [res Hres]. destruct (strict_dfs_path es target elapsed res) as (b & ? & ?);
      [by left|]. by exists b, (Path res).
  - intros Hlisted (b & rs & Hb & Hpath). destruct Htarget as [elem Hel].
    destruct (strict_dfs_search_finds es target b rs) as (s & path & Hs & Hp); try done.
    destruct (strict_dfs_search_path es target s path Hs Hp) as (b' & Hb' & Hpath').
    unfold DepthFirstFinder.FindShortestPath. rewrite Hel, Hs.
    destruct (GetBasicElements es) as [|e0 l] eqn:Hbs.
    { unfold basicIDs in Hb. rewrite Hbs in Hb. by apply elem_of_nil in Hb. }
    eexists. apply finishDepth_iff. exists s, path. repeat split; try done.
    apply (tierPath_builds es b'); [done|done|by eexists].
  - destruct Htarget as [elem Hel].
    unfold DepthFirstFinder.FindShortestPath. rewrite Hel.
    destruct (GetBasicElements es) as [|e0 l] eqn:Hbs.
    { split; [done|]. by intros [? _]. }
    rewrite finishDepth_error. split.
    + intros (_ & s & Hs). split; [done|]. intros (b & rs & Hb & Hpath).
      destruct (strict_dfs_search_finds es target b rs) as (s' & path & Hs' & _); try done.
      congruence.
    + intros [_ Hno]. split; [done|].
      destruct (dfs_search_ends es target) as (b & s & Hs & Hrec). destruct b; [|by exists s].
      destruct (Hrec eq_refl) as [path Hp]. destruct Hno.
      destruct (strict_dfs_search_path es target s path Hs Hp) as (b & ? & ?). eauto.
Qed.

Lemma dfs_finds_path_witness :
  ∃ res, DepthFirstFinder.FindShortestPath scenario "D" 0 = Some (inr res).
Proof.
  destruct (dfs_finds_path scenario "D" 0 scenario_basics) as (_ & Hfinds & _).
  - by vm_compute.
  - vm_compute. eauto.
  - apply (Hfinds scenario_listed). exists "A", [mkRecipe ["A"; "C"] "D"].
    split; [vm_compute; set_solver|exact scenario_tierPath].
Defined.

(** X11: the earlier depth-first engine. A path returned by
    [FindShortestPath] of the earlier depth-first engine leads from a basic
    element to the target by recipes of the catalog, each raising the tier
    above that of the ingredient it is entered by.  In a catalog whose basic
    elements have a non-negative tier, when such a path exists the search
    finds one: the call returns it when the display tree of that path can
    be built, and otherwise gives nothing back. *)
Theorem v1_dfs_paths es target elapsed :
  (∀ b, b ∈ basicIDs es → 0 ≤ GetElementTier es b) →
  GetElementTier es target < 2 ^ 62 →
  is_Some (Elements es !! target) →
  (∀ res, DepthFirstFinderV1.FindShortestPath es target elapsed = Some (inr res) →
     ∃ b, b ∈ basicIDs es ∧ progressPath es b (Path res) target)
  ∧ ((∃ b rs, b ∈ basicIDs es ∧ progressPath es b rs target) →
     ∃ b path, b ∈ basicIDs es ∧ progressPath es b path target
       ∧ ((builds es path target
           ∧ ∃ res, DepthFirstFinderV1.FindShortestPath es target elapsed = Some (inr res)
                    ∧ Path res = path)
          ∨ (¬ builds es path target
             ∧ DepthFirstFinderV1.FindShortestPath es target elapsed = None))).
Proof.
  intros Hbasics Hsmall [elem Hel]. split; [intros res; apply v1_dfs_path|].
  intros (b & rs & Hb & Hpath).
  destruct (v1_dfs_search_finds es target b rs) as (s & path & Hs & Hp); try done.
  destruct (v1_dfs_search_path es target s path Hs Hp) as (b' & Hb' & Hpath').
  exists b', path. split; [done|]. split; [done|].
  unfold DepthFirstFinderV1.FindShortestPath. rewrite Hel, Hs.
  destruct (GetBasicElements es) as [|e0 l] eqn:Hbs.
  { unfold basicIDs in Hb. rewrite Hbs in Hb. by apply elem_of_nil in Hb. }
  by apply finishDepth_found.
Qed.

Lemma scenario_progressPath : progressPath scenario "A" [mkRecipe ["A"; "C"] "D"] "D".
Proof.
  apply (progressPath_step scenario "A" [] "A" (mkRecipe ["A"; "C"] "D")).
  - constructor.
  - vm_compute. set_solver.
  - simpl. set_solver.
  - by vm_compute.
Qed.

Lemma v1_dfs_paths_witness :
  ∃ b path, b ∈ basicIDs scenario ∧ progressPath scenario b path "D"
    ∧ ((builds scenario path "D"
        ∧ ∃ res, DepthFirstFinderV1.FindShortestPath scenario "D" 0 = Some (inr res)
                 ∧ Path res = path)
       ∨ (¬ builds scenario path "D"
          ∧ DepthFirstFinderV1.FindShortestPath scenario "D" 0 = None)).
Proof.
  destruct (v1_dfs_paths scenario "D" 0 scenario_basics) as [_ Hfinds].
  - by vm_compute.
  - vm_compute. eauto.
  - apply Hfinds. exists "A", [mkRecipe ["A"; "C"] "D"].
    split; [vm_compute; set_solver|exact scenario_progressPath].
Defined.

(** X12: the path of the bidirectional engine. The path returned by
    [FindShortestPath] of the bidirectional engine, the forward part
    followed by the backward part, is a tier-valid path from a basic element
    to the target. *)
Theorem bid_result_is_path es target elapsed res :
  BidirectionalFinder.FindShortestPath es target elapsed = Some (inr res) →
  ∃ b, b ∈ basicIDs es ∧ tierPath es b (Path res) target.
Proof. apply bid_path. Qed.

Lemma bid_result_is_path_witness :
  ∃ b, b ∈ basicIDs scenario ∧ tierPath scenario b [mkRecipe ["A"; "C"] "D"] "D".
Proof.
  apply (bid_result_is_path scenario "D" 0
           {| Path := [mkRecipe ["A"; "C"] "D"];
              VisitedNodes := 5; ExecutionTime := 0; VariationIndex := 0 |}).
  by vm_compute.
Defined.

(** X13: the bidirectional engine finds a path when there is one. In a
    catalog whose basic elements have a non-negative tier,
    [FindShortestPath] of the bidirectional engine returns a result only
    when some tier-valid path leads from a basic element to the target, and
    [ErrNoPathFound] exactly when the catalog has basic elements and no such
    path.  When every ingredient of a recipe of the catalog is an element of
    the catalog, it returns a result whenever there is such a path. *)
Theorem bid_finds_path es target elapsed :
  (∀ b, b ∈ basicIDs es → 0 ≤ GetElementTier es b) →
  is_Some (Elements es !! target) →
  ((∃ res, BidirectionalFinder.FindShortestPath es target elapsed = Some (inr res))
   → ∃ b rs, b ∈ basicIDs es ∧ tierPath es b rs target)
  ∧ (listed es → (∃ b rs, b ∈ basicIDs es ∧ tierPath es b rs target) →
     ∃ res, BidirectionalFinder.FindShortestPath es target elapsed = Some (inr res))
  ∧ (BidirectionalFinder.FindShortestPath es target elapsed = Some (inl ErrNoPathFound)
     ↔ GetBasicElements es ≠ [] ∧ ¬ ∃ b rs, b ∈ basicIDs es ∧ tierPath es b rs target).
Proof.
  intros Hbasics [elem Hel].
  destruct (bid_search_ends es target) as (s & Hs & _ & [fp Hfp] & [bp Hbp]).
  split; [|split].
  - intros [res Hres]. destruct (bid_path es target elapsed res Hres) as (b & ? & ?).
    by exists b, (Path res).
  - intros Hlisted (b & rs & Hb & Hpath).
    pose proof (bid_search_finds es target Hbasics s b rs Hb Hpath Hs) as Hf.
    destruct (bid_search_path es target s fp bp Hs Hf Hfp Hbp) as (b' & Hb' & Hpath').
    assert (builds es (fp ++ bp) target) as [tree Htree]%builds_treeOf.
    { apply (tierPath_builds es b'); [done|done|by eexists]. }
    unfold BidirectionalFinder.FindShortestPath. rewrite Hel, Hs, Hf, Hfp, Hbp, Htree.
    destruct (GetBasicElements es) as [|e0 l] eqn:Hbs; [|eauto].
    unfold basicIDs in Hb. rewrite Hbs in Hb. by apply elem_of_nil in Hb.
  - unfold BidirectionalFinder.FindShortestPath. rewrite Hel, Hs, Hfp, Hbp.
    destruct (GetBasicElements es) as [|e0 l] eqn:Hbs.
    { split; [done|]. by intros [? _]. }
    destruct (bidFound s) eqn:Hf.
    + split; [by destruct (treeOf es (fp ++ bp) target)|].
      intros [_ Hno]. destruct Hno.
      destruct (bid_search_path es target s fp bp Hs Hf Hfp Hbp) as (b' & ? & ?). eauto.
    + split; [|done]. intros _. split; [done|]. intros (b & rs & Hb & Hpath).
      pose proof (bid_search_finds es target Hbasics s b rs Hb Hpath Hs). congruence.
Qed.

Lemma bid_finds_path_witness :
  ∃ res, BidirectionalFinder.FindShortestPath scenario "D" 0 = Some (inr res).
Proof.
  destruct (bid_finds_path scenario "D" 0 scenario_basics) as (_ & Hfinds & _).
  - vm_compute. eauto.
  - apply (Hfinds scenario_listed). exists "A", [mkRecipe ["A"; "C"] "D"].
    split; [vm_compute; set_solver|exact scenario_tierPath].
Defined.

(** X14: the earlier breadth-first engine finds a shortest path of its own
    kind. When the target is in the catalog and some path leads from a basic
    element to it by recipes of the catalog that each raise the tier above
    that of the ingredient they are entered by, the search finds such a
    path, and none has fewer recipes; the call returns that path when its
    display tree can be built, and otherwise gives nothing back. *)
Theorem v1_bfs_shortest_path es target elapsed b rs :
  is_Some (Elements es !! target) →
  b ∈ basicIDs es →
  progressPath es b rs target →
  ∃ b' path, b' ∈ basicIDs es ∧ progressPath es b' path target
    ∧ (length path ≤ length rs)%nat
    ∧ ((builds es path target
        ∧ ∃ res, BreadthFirstFinderV1.FindShortestPath es target elapsed = Some (inr res)
                 ∧ Path res = path)
       ∨ (¬ builds es path target
          ∧ BreadthFirstFinderV1.FindShortestPath es target elapsed = None)).
Proof.
  intros [e He] Hb Hpath. unfold BreadthFirstFinderV1.FindShortestPath. rewrite He.
  destruct (GetBasicElements es) as [|e0 l] eqn:Hbasics.
  { unfold basicIDs in Hb. rewrite Hbasics in Hb. by apply elem_of_nil in Hb. }
  destruct (v1_search_total es target) as [s Hs]. rewrite Hs.
  unfold BreadthFirstFinderV1.search in Hs.
  apply (bfsLoop_outcome target _ _ (basicIDs es)) in Hs as (Hreach & _ & Hp & _).
  assert (Hf : found s = true).
  { apply Hreach. exists b, rs. split; [done|]. by apply v1_chain. }
  destruct (Hp Hf) as (p & b' & Hrec & Hb' & Hch & Hmin).
  exists b', p. split; [done|]. split; [by apply v1_chain|]. split.
  - apply (Hmin b rs Hb). by apply v1_chain.
  - by apply finish_found.
Qed.

Lemma v1_bfs_shortest_path_witness :
  ∃ b' path, b' ∈ basicIDs scenario ∧ progressPath scenario b' path "D"
    ∧ (length path ≤ length [mkRecipe ["A"; "C"] "D"])%nat
    ∧ ((builds scenario path "D"
        ∧ ∃ res, BreadthFirstFinderV1.FindShortestPath scenario "D" 0 = Some (inr res)
                 ∧ Path res = path)
       ∨ (¬ builds scenario path "D"
          ∧ BreadthFirstFinderV1.FindShortestPath scenario "D" 0 = None)).
Proof.
  apply (v1_bfs_shortest_path scenario "D" 0 "A" [mkRecipe ["A"; "C"] "D"]).
  - vm_compute. eauto.
  - vm_compute. set_solver.
  - exact scenario_progressPath.
Defined.

(** ** The duplicate check of the breadth-first variations

    The loop with a duplicate check [accept] is compared with the loop that
    accepts the target as soon as it is reached. *)

(** Queued identifiers and both ends of a backpointer are visited. *)
Definition tidy (s : SearchState) : Prop :=
  (∀ x, x ∈ queue s → x ∈ visited s)
  ∧ ∀ x st, parent s !! x = Some st → x ∈ visited s ∧ ParentID st ∈ visited s.

(** The later state keeps what the earlier one visited, with the same
    backpointers. *)
Definition stable (s s' : SearchState) : Prop :=
  visited s ⊆ visited s' ∧ ∀ x, x ∈ visited s → parent s' !! x = parent s !! x.

Lemma stable_refl s : stable s s.
Proof. by split. Qed.

Lemma stable_trans s1 s2 s3 : stable s1 s2 → stable s2 s3 → stable s1 s3.
Proof.
  intros [Hv1 Hp1] [Hv2 Hp2]. split; [set_solver|].
  intros x Hx. rewrite Hp2 by set_solver. by apply Hp1.
Qed.

Lemma tidy_discover cur r s :
  tidy s → cur ∈ visited s → Result r ∉ visited s →
  tidy (discover cur r s) ∧ stable s (discover cur r s).
Proof.
  intros [Hq Hp] Hcur Hnv. split; [split|split]; simpl.
  - intros x [Hx|Hx]%elem_of_app; [set_solver|].
    apply list_elem_of_singleton in Hx. set_solver.
  - intros x st. destruct (decide (x = Result r)) as [->|Hne].
    + rewrite lookup_insert_eq. intros [= <-]. simpl. set_solver.
    + rewrite lookup_insert_ne by done. intros Hx. apply Hp in Hx. set_solver.
  - set_solver.
  - intros x Hx. rewrite lookup_insert_ne; [done|]. by intros <-.
Qed.

Section BreadthFirstAccept.
Variable target : string.
Variable possible : string -> list Recipe.
Variable keep : string -> Recipe -> bool.
Variable accept : gmap string RecipeStep -> bool.

Definition always : gmap string RecipeStep -> bool := fun _ => true.

(** Once the target is visited, [accept] is never consulted. *)
Lemma expand_visited cur recipes : ∀ s,
  target ∈ visited s → tidy s → cur ∈ visited s →
  expand target keep accept cur recipes s = expand target keep always cur recipes s
  ∧ found (expand target keep accept cur recipes s) = found s
  ∧ tidy (expand target keep accept cur recipes s)
  ∧ stable s (expand target keep accept cur recipes s)
  ∧ ∀ x, x ∈ queue s → x ∈ queue (expand target keep accept cur recipes s).
Proof.
  induction recipes as [|r rest IH]; intros s Ht Htidy Hcur; simpl.
  { split; [done|]. split; [done|]. split; [done|]. split; [apply stable_refl|done]. }
  destruct (keep cur r); simpl; [|by apply IH].
  destruct (decide (Result r ∈ visited s)) as [|Hnv]; [by apply IH|].
  destruct (decide (Result r = target)) as [Heq|Hne]; [by rewrite Heq in Hnv|].
  destruct (tidy_discover cur r s Htidy Hcur Hnv) as [Htidy' Hst].
  destruct (IH (discover cur r s)) as (He & Hf & Ht' & Hst' & Hq);
    [simpl; set_solver|done|simpl; set_solver|].
  split; [done|]. split; [done|]. split; [done|]. split; [by eapply stable_trans|].
  intros x Hx. apply Hq. simpl. apply elem_of_app. by left.
Qed.

Lemma bfsLoop_visited fuel : ∀ s,
  target ∈ visited s → tidy s →
  bfsLoop target possible keep accept fuel s = bfsLoop target possible keep always fuel s.
Proof.
  induction fuel as [|fuel IH]; intros s Ht Htidy; simpl; [done|].
  destruct (queue s) as [|cur rest] eqn:Hq; [done|].
  destruct (found s); [done|].
  destruct (decide (cur = target)); [done|].
  assert (tidy (withQueue rest s)) as Htidy'.
  { destruct Htidy as [H1 H2]. split; [|done]. simpl. intros x Hx. apply H1.
    rewrite Hq. by right. }
  assert (cur ∈ visited (withQueue rest s)) as Hcur.
  { simpl. apply (proj1 Htidy). rewrite Hq. by left. }
  destruct (expand_visited cur (possible cur) (withQueue rest s) Ht Htidy' Hcur)
    as (He & _ & Ht' & [Hsub _] & _).
  rewrite <- He. apply IH; [set_solver|done].
Qed.

Lemma tidy_withFound b s : tidy s → tidy (withFound b s).
Proof. intros [? ?]. by split. Qed.

Lemma tidy_withQueue cur rest s : tidy s → queue s = cur :: rest → tidy (withQueue rest s).
Proof.
  intros [H1 H2] Hq. split; [|done]. simpl. intros x Hx. apply H1. rewrite Hq. by right.
Qed.

Lemma bfsLoop_visited_tidy fuel : ∀ s s',
  target ∈ visited s → tidy s →
  bfsLoop target possible keep accept fuel s = Some s' →
  tidy s' ∧ stable s s'.
Proof.
  induction fuel as [|fuel IH]; intros s s' Ht Htidy Hrun; simpl in Hrun.
  - destruct (queue s); [|destruct (found s); [|done]]; injection Hrun as <-;
      (split; [done|apply stable_refl]).
  - destruct (queue s) as [|cur rest] eqn:Hq.
    { injection Hrun as <-. split; [done|apply stable_refl]. }
    destruct (found s). { injection Hrun as <-. split; [done|apply stable_refl]. }
    pose proof (tidy_withQueue _ _ _ Htidy Hq) as Htidy'.
    destruct (decide (cur = target)).
    { injection Hrun as <-. split; [by apply tidy_withFound|by split]. }
    assert (cur ∈ visited (withQueue rest s)) as Hcur.
    { simpl. apply (proj1 Htidy). rewrite Hq. by left. }
    destruct (expand_visited cur (possible cur) (withQueue rest s) Ht Htidy' Hcur)
      as (_ & _ & Ht' & Hst & _).
    apply IH in Hrun as [? Hst']; [| |done].
    + split; [done|]. by eapply stable_trans.
    + by apply (proj1 Hst).
Qed.

(** From a state whose queue holds the visited target, the loop ends with
    [found], and with the backpointers it had. *)
Lemma bfsLoop_drain fuel : ∀ s s',
  tidy s → target ∈ visited s → target ∈ queue s → found s = false →
  bfsLoop target possible keep accept fuel s = Some s' →
  found s' = true ∧ stable s s'.
Proof.
  induction fuel as [|fuel IH]; intros s s' Htidy Ht Hq Hf Hrun; simpl in Hrun.
  - destruct (queue s); [by apply elem_of_nil in Hq|]. by rewrite Hf in Hrun.
  - destruct (queue s) as [|cur rest] eqn:Hqs; [by apply elem_of_nil in Hq|].
    rewrite Hf in Hrun. destruct (decide (cur = target)) as [->|Hne].
    { injection Hrun as <-. split; [done|]. by split. }
    assert (tidy (withQueue rest s)) as Htidy'.
    { destruct Htidy as [H1 H2]. split; [|done]. simpl. intros x Hx. apply H1.
      rewrite Hqs. by right. }
    assert (cur ∈ visited (withQueue rest s)) as Hcur.
    { simpl. apply (proj1 Htidy). rewrite Hqs. by left. }
    destruct (expand_visited cur (possible cur) (withQueue rest s) Ht Htidy' Hcur)
      as (_ & Hf' & Ht' & Hst & Hkeep).
    apply IH in Hrun as [Hfound Hst']; [|done| | |by rewrite Hf'].
    + split; [done|]. eapply stable_trans; [|exact Hst']. exact Hst.
    + by apply (proj1 Hst).
    + apply Hkeep. simpl. apply elem_of_cons in Hq as [?|?]; [congruence|done].
Qed.

(** One expansion before the target was visited: either [accept] was not
    consulted, or the target was reached in a state [s'] that the two loops
    leave with different flags. *)
Lemma expand_compare cur recipes : ∀ s,
  target ∉ visited s → tidy s → cur ∈ visited s →
  (expand target keep accept cur recipes s = expand target keep always cur recipes s
   ∧ found (expand target keep always cur recipes s) = found s
   ∧ tidy (expand target keep always cur recipes s)
   ∧ target ∉ visited (expand target keep always cur recipes s))
  ∨ ∃ s', expand target keep always cur recipes s = withFound true s'
          ∧ expand target keep accept cur recipes s = withFound (accept (parent s')) s'
          ∧ tidy s' ∧ target ∈ visited s' ∧ target ∈ queue s'.
Proof.
  induction recipes as [|r rest IH]; intros s Ht Htidy Hcur; simpl.
  { left. done. }
  destruct (keep cur r); simpl; [|by apply IH].
  destruct (decide (Result r ∈ visited s)) as [|Hnv]; [by apply IH|].
  destruct (tidy_discover cur r s Htidy Hcur Hnv) as [Htidy' Hst].
  destruct (decide (Result r = target)) as [Heq|Hne].
  - right. exists (discover cur r s). split; [done|]. split; [done|]. split; [done|].
    simpl. rewrite Heq. split; [set_solver|]. apply elem_of_app. right.
    by apply list_elem_of_singleton.
  - destruct (IH (discover cur r s)) as [(He & Hf & Ht2 & Hn)|Hex];
      [simpl; set_solver|done|simpl; set_solver|by left|by right].
Qed.

Lemma bfsLoop_compare fuel : ∀ s sA sT,
  tidy s → found s = false →
  bfsLoop target possible keep accept fuel s = Some sA →
  bfsLoop target possible keep always fuel s = Some sT →
  found sA = found sT
  ∧ (found sT = true → stable sT sA ∧ tidy sT ∧ target ∈ visited sT).
Proof.
  induction fuel as [|fuel IH]; intros s sA sT Htidy Hf HA HT; simpl in HA, HT.
  - destruct (queue s); [|by rewrite Hf in HA].
    injection HA as <-. injection HT as <-. split; [done|]. congruence.
  - destruct (queue s) as [|cur rest] eqn:Hq.
    { injection HA as <-. injection HT as <-. split; [done|]. congruence. }
    rewrite Hf in HA, HT.
    assert (cur ∈ visited s) as Hcur0 by (apply (proj1 Htidy); rewrite Hq; by left).
    destruct (decide (cur = target)) as [->|Hne].
    { injection HA as <-. injection HT as <-. split; [done|]. intros _.
      split; [apply stable_refl|]. split; [|done].
      apply tidy_withFound. destruct Htidy as [H1 H2]. split; [|done]. simpl.
      intros x Hx. apply H1. rewrite Hq. by right. }
    assert (tidy (withQueue rest s)) as Htidy'.
    { destruct Htidy as [H1 H2]. split; [|done]. simpl. intros x Hx. apply H1.
      rewrite Hq. by right. }
    destruct (decide (target ∈ visited s)) as [Ht|Ht].
    + destruct (expand_visited cur (possible cur) (withQueue rest s) Ht Htidy' Hcur0)
        as (He & Hf' & Ht' & [Hsub _] & _).
      rewrite He in HA.
      assert (tidy sA ∧ target ∈ visited sA) as [HtA HvA].
      { apply (bfsLoop_visited_tidy fuel) in HA as [HtA [HvA _]].
        - split; [done|]. apply HvA. rewrite <- He. by apply Hsub.
        - rewrite <- He. by apply Hsub.
        - by rewrite <- He. }
      rewrite (bfsLoop_visited fuel) in HA; [|rewrite <- He; set_solver|by rewrite <- He].
      rewrite HT in HA. injection HA as <-. split; [done|]. intros Hfound.
      split; [apply stable_refl|]. done.
    + destruct (expand_compare cur (possible cur) (withQueue rest s) Ht Htidy' Hcur0)
        as [(He & Hf' & Ht' & Hnt)|(s' & HeT & HeA & Ht' & Hv' & Hq')].
      * rewrite He in HA. eapply IH; [exact Ht'| |exact HA|exact HT]. by rewrite Hf'.
      * rewrite HeT in HT. rewrite HeA in HA.
        rewrite bfsLoop_found in HT by done. injection HT as <-.
        destruct (accept (parent s')) eqn:Hacc.
        -- rewrite bfsLoop_found in HA by done. injection HA as <-.
           split; [done|]. intros _. split; [apply stable_refl|]. split; [|done].
           by apply tidy_withFound.
        -- apply bfsLoop_drain in HA as [Hfound Hst]; [|by apply tidy_withFound|done|done|done].
           split; [done|]. intros _. split; [exact Hst|]. split; [|done].
           by apply tidy_withFound.
Qed.

End BreadthFirstAccept.

(** The backpointer walk over the visited part is the same in a later,
    stable state. *)
Lemma stable_parent_subseteq sT sA : tidy sT → stable sT sA → parent sT ⊆ parent sA.
Proof.
  intros [_ Hp] [_ Hst]. apply map_subseteq_spec. intros x st Hx.
  rewrite Hst; [done|]. by apply (Hp x st).
Qed.

Lemma reconstructPathFrom_stable sT sA : tidy sT → stable sT sA →
  ∀ fuel x acc p, x ∈ visited sT →
  reconstructPathFrom fuel (parent sT) x acc = Some p →
  ∀ fuel', (fuel ≤ fuel')%nat → reconstructPathFrom fuel' (parent sA) x acc = Some p.
Proof.
  intros Htidy Hst. induction fuel as [|fuel IH]; intros x acc p Hx Hrun fuel' Hle.
  - assert (parent sT !! x = None) as Hnone.
    { simpl in Hrun. by destruct (parent sT !! x). }
    simpl in Hrun. rewrite Hnone in Hrun.
    destruct fuel'; simpl; rewrite (proj2 Hst x Hx), Hnone; done.
  - destruct fuel' as [|fuel']; [lia|]. simpl in *.
    rewrite (proj2 Hst x Hx). destruct (parent sT !! x) as [st|] eqn:Hp; [|done].
    apply (IH _ _ _ (proj2 (proj2 Htidy x st Hp)) Hrun). lia.
Qed.

Lemma reconstructPath_stable sT sA target p : tidy sT → stable sT sA →
  target ∈ visited sT →
  reconstructPath target (parent sT) = Some p →
  reconstructPath target (parent sA) = Some p.
Proof.
  intros Htidy Hst Ht Hrun. unfold reconstructPath in *.
  apply (reconstructPathFrom_stable sT sA Htidy Hst _ _ _ _ Ht Hrun).
  apply map_subseteq_size. by apply stable_parent_subseteq.
Qed.

Lemma tidy_seedState ids : tidy (seedState ids).
Proof.
  split; simpl.
  - intros x Hx. by apply elem_of_list_to_set.
  - intros x st. by rewrite lookup_empty.
Qed.

(** ** The variations of the breadth-first engine *)

Lemma swapPairs_perm randomFactor n : ∀ recipes i, (length recipes ≤ n)%nat →
  MultiplePaths.swapPairs randomFactor i recipes ≡ₚ recipes.
Proof.
  induction n as [|n IH]; intros recipes i Hlen.
  { destruct recipes; [done|simpl in Hlen; lia]. }
  destruct recipes as [|a [|b rest]]; [done|done|]. simpl in *.
  destruct (_ =? _).
  - rewrite (IH rest (i + 2)) by lia. apply Permutation_swap.
  - by rewrite (IH rest (i + 2)) by lia.
Qed.

Lemma reorder_perm randomFactor recipes :
  MultiplePaths.reorder randomFactor recipes ≡ₚ recipes.
Proof.
  unfold MultiplePaths.reorder. destruct (_ && _); [|done].
  by apply (swapPairs_perm _ (length recipes)).
Qed.

(** The candidates and the check of the inner loop of [findPathVariation]. *)
Definition variationRecipes (es : ElementStore) (variationIndex targetTier : Z)
    (current : string) : list Recipe :=
  MultiplePaths.reorder (Z.rem variationIndex 10)
    (BreadthFirstFinder.getPossibleRecipesThatRespectTiers es current
       (GetElementTier es current) targetTier).

Definition variationCheck (es : ElementStore) (current : string) (recipe : Recipe) : bool :=
  allIngredientsLowerTier es recipe (GetElementTier es (Result recipe)).

Definition variationSeeds (es : ElementStore) (variationIndex : Z) : list string :=
  rotate (Z.to_nat (Z.rem variationIndex (Z.of_nat (length (GetBasicElements es)))))
         (basicIDs es).

Lemma variationSeeds_elem_of es variationIndex x :
  x ∈ variationSeeds es variationIndex ↔ x ∈ basicIDs es.
Proof.
  unfold variationSeeds, rotate. rewrite elem_of_app.
  rewrite <- (take_drop (Z.to_nat (Z.rem variationIndex (Z.of_nat (length (GetBasicElements es)))))
                (basicIDs es)) at 3.
  rewrite elem_of_app. tauto.
Qed.

Lemma variationSeeds_length es variationIndex :
  length (variationSeeds es variationIndex) = length (GetBasicElements es).
Proof.
  unfold variationSeeds, rotate. rewrite length_app, Nat.add_comm, <- length_app, take_drop.
  apply basicIDs_length.
Qed.

Lemma variation_edge es variationIndex target y r z :
  edge (variationRecipes es variationIndex (GetElementTier es target)) (variationCheck es) y r z
  ↔ edge (BreadthFirstFinder.possibleRecipes es target) (BreadthFirstFinder.keepRecipe es) y r z.
Proof.
  rewrite strict_edge. unfold edge, variationRecipes, variationCheck.
  rewrite reorder_perm. unfold BreadthFirstFinder.getPossibleRecipesThatRespectTiers.
  rewrite list_elem_of_In, filter_In, <- list_elem_of_In.
  rewrite !andb_true_iff, !negb_true_iff, isIngredient_spec, allIngredientsLowerTier_spec.
  rewrite Z.ltb_ge, Z.ltb_lt. unfold tierValid.
  split; [tauto|]. intros (? & Hy & Hv & ? & ?).
  specialize (Hv _ Hy) as Hlt. tauto.
Qed.

Lemma chain_edges possible1 keep1 possible2 keep2 x rs y :
  (∀ a r b, edge possible1 keep1 a r b → edge possible2 keep2 a r b) →
  chain possible1 keep1 x rs y → chain possible2 keep2 x rs y.
Proof.
  intros Hedge. induction 1 as [|rs y r z _ IH He]; [constructor|].
  econstructor; [exact IH|]. by apply Hedge.
Qed.

Lemma variation_chain es variationIndex target x rs :
  chain (variationRecipes es variationIndex (GetElementTier es target)) (variationCheck es)
        x rs target
  ↔ tierPath es x rs target.
Proof.
  rewrite <- strict_chain_target.
  split; apply chain_edges; intros a r b; by rewrite variation_edge.
Qed.

Lemma variation_total es target variationIndex targetTier accept :
  is_Some (bfsLoop target (variationRecipes es variationIndex targetTier) (variationCheck es)
             accept (bfsFuel es) (seedState (variationSeeds es variationIndex))).
Proof.
  apply (bfsLoop_total _ _ _ _ (Recipes es)).
  - intros x r. unfold variationRecipes. rewrite reorder_perm.
    unfold BreadthFirstFinder.getPossibleRecipesThatRespectTiers.
    rewrite !list_elem_of_In, filter_In. tauto.
  - etrans; [apply measure_seed|]. rewrite variationSeeds_length. unfold bfsFuel. lia.
Qed.

(** The loop of [findPathVariation] without the duplicate check. *)
Definition variationSearch (es : ElementStore) (target : string)
    (variationIndex targetTier : Z) : option SearchState :=
  bfsLoop target (variationRecipes es variationIndex targetTier) (variationCheck es)
          always (bfsFuel es) (seedState (variationSeeds es variationIndex)).

(** What [findPathVariation] returns, read off the loop without the
    duplicate check. *)
Lemma findPathVariation_path es target variationIndex targetTier existingPaths elapsed :
  GetBasicElements es ≠ [] →
  ∃ s, variationSearch es target variationIndex targetTier = Some s
    ∧ pathOf (MultiplePaths.findPathVariation es target variationIndex targetTier
                existingPaths elapsed)
      = pathOf (finish es target elapsed variationIndex (Some s)).
Proof.
  intros Hbasics. unfold MultiplePaths.findPathVariation.
  destruct (GetBasicElements es) as [|e0 l] eqn:Hb; [done|]. rewrite <- Hb. clear Hbasics.
  fold (variationSeeds es variationIndex).
  change (λ current : string, MultiplePaths.reorder (Z.rem variationIndex 10)
            (BreadthFirstFinder.getPossibleRecipesThatRespectTiers es current
               (GetElementTier es current) targetTier))
    with (variationRecipes es variationIndex targetTier).
  change (λ (_ : string) (recipe : Recipe),
            allIngredientsLowerTier es recipe (GetElementTier es (Result recipe)))
    with (variationCheck es).
  destruct (variation_total es target variationIndex targetTier
              (MultiplePaths.isNewPath target existingPaths)) as [sA HA].
  destruct (variation_total es target variationIndex targetTier always) as [sT HT].
  exists sT. split; [exact HT|].
  pose proof (bfsLoop_outcome _ _ _ _ _ _ HT) as (_ & _ & Hp & _).
  assert (found sT = true → is_Some (reconstructPath target (parent sT))) as Hsome.
  { intros Hf. destruct (Hp Hf) as (p & _ & -> & _). eauto. }
  destruct (bfsLoop_compare _ _ _ _ _ _ _ _ (tidy_seedState _) eq_refl HA HT) as [Hfound Hst].
  rewrite HA. unfold finish. rewrite Hfound.
  destruct (found sT) eqn:Hf; [|done].
  destruct (Hst eq_refl) as (Hstable & Htidy & Ht).
  destruct (Hsome eq_refl) as [p Hrec].
  rewrite (reconstructPath_stable _ _ _ _ Htidy Hstable Ht Hrec), Hrec.
  by destruct (treeOf es p target).
Qed.

Lemma pathOf_result (outcome : Outcome) p :
  pathOf outcome = Some (inr p) ↔ ∃ res, outcome = Some (inr res) ∧ Path res = p.
Proof.
  destruct outcome as [[err|res]|]; simpl; split; try done.
  - by intros (? & ? & _).
  - intros [= <-]. eauto.
  - by intros (? & [= <-] & <-).
  - by intros (? & ? & _).
Qed.

Lemma pathOf_error (outcome : Outcome) err :
  pathOf outcome = Some (inl err) ↔ outcome = Some (inl err).
Proof. destruct outcome as [[err'|res]|]; simpl; split; congruence. Qed.

Lemma pathOf_nothing (outcome : Outcome) : pathOf outcome = None ↔ outcome = None.
Proof. by destruct outcome as [[err'|res]|]. Qed.

(** A shortest tier-valid path from a basic element to the target. *)
Definition shortest (es : ElementStore) (target : string) (path : list Recipe) : Prop :=
  (∃ b, b ∈ basicIDs es ∧ tierPath es b path target)
  ∧ ∀ b' rs, b' ∈ basicIDs es → tierPath es b' rs target → (length path ≤ length rs)%nat.

(** With the tier of the target as the ceiling, the loop of a variation
    finds a shortest tier-valid path from a basic element, which is returned
    when its tree is built, or there is none. *)
Lemma findPathVariation_shortest es target variationIndex existingPaths elapsed :
  GetBasicElements es ≠ [] →
  (∃ path, shortest es target path
     ∧ ((builds es path target
         ∧ ∃ res, MultiplePaths.findPathVariation es target variationIndex
                    (GetElementTier es target) existingPaths elapsed = Some (inr res)
                  ∧ Path res = path)
        ∨ (¬ builds es path target
           ∧ MultiplePaths.findPathVariation es target variationIndex
               (GetElementTier es target) existingPaths elapsed = None)))
  ∨ (MultiplePaths.findPathVariation es target variationIndex
       (GetElementTier es target) existingPaths elapsed = Some (inl ErrNoPathFound)
     ∧ ∀ b rs, b ∈ basicIDs es → ¬ tierPath es b rs target).
Proof.
  intros Hbasics.
  destruct (findPathVariation_path es target variationIndex (GetElementTier es target)
              existingPaths elapsed Hbasics) as (s & Hs & Hpath).
  unfold variationSearch in Hs.
  apply (bfsLoop_outcome target _ _ (variationSeeds es variationIndex)) in Hs
    as (Hreach & _ & Hp & _).
  destruct (found s) eqn:Hf.
  - left. destruct (Hp eq_refl) as (p & b & Hrec & Hb & Hch & Hmin).
    exists p. split.
    { split.
      - exists b. split; [by apply variationSeeds_elem_of in Hb|by apply variation_chain in Hch].
      - intros b' rs Hb' Hrs. apply (Hmin b' rs).
        + by apply variationSeeds_elem_of.
        + by apply variation_chain. }
    destruct (finish_found es target elapsed variationIndex s p Hf Hrec)
      as [[Hbuilds (res & Hres & Hpr)]|[Hno Hnone]].
    + left. split; [done|]. rewrite Hres in Hpath. simpl in Hpath.
      apply pathOf_result in Hpath as (res' & Hres' & Hp'). exists res'. split; [done|].
      congruence.
    + right. split; [done|]. rewrite Hnone in Hpath. by apply pathOf_nothing in Hpath.
  - right. unfold finish in Hpath. rewrite Hf in Hpath. split; [by apply pathOf_error|].
    intros b rs Hb Hrs.
    assert (false = true); [|done]. apply Hreach. exists b, rs.
    split; [by apply variationSeeds_elem_of|by apply variation_chain].
Qed.

Lemma strict_bfs_shortest es target elapsed :
  is_Some (Elements es !! target) → GetBasicElements es ≠ [] →
  (∃ path, shortest es target path
     ∧ ((builds es path target
         ∧ ∃ res, BreadthFirstFinder.FindShortestPath es target elapsed = Some (inr res)
                  ∧ Path res = path)
        ∨ (¬ builds es path target
           ∧ BreadthFirstFinder.FindShortestPath es target elapsed = None)))
  ∨ (BreadthFirstFinder.FindShortestPath es target elapsed = Some (inl ErrNoPathFound)
     ∧ ∀ b rs, b ∈ basicIDs es → ¬ tierPath es b rs target).
Proof.
  intros [e He] Hbasics. unfold BreadthFirstFinder.FindShortestPath. rewrite He.
  destruct (GetBasicElements es) as [|e0 l] eqn:Hb; [done|].
  destruct (strict_search_total es target) as [s Hs]. rewrite Hs.
  unfold BreadthFirstFinder.search in Hs.
  apply (bfsLoop_outcome target _ _ (basicIDs es)) in Hs as (Hreach & _ & Hp & _).
  destruct (found s) eqn:Hf.
  - left. destruct (Hp eq_refl) as (p & b & Hrec & Hb' & Hch & Hmin).
    exists p. split; [|by apply finish_found].
    split; [exists b; split; [done|by apply strict_chain_target]|].
    intros b' rs ? Hrs. apply (Hmin b' rs); [done|]. by apply strict_chain_target.
  - right. split; [by unfold finish; rewrite Hf|]. intros b rs ? Hrs.
    assert (false = true); [|done]. apply Hreach. exists b, rs.
    split; [done|]. by apply strict_chain_target.
Qed.

(** The workers of [FindMultiplePaths], when a tier-valid path exists: every
    one of them adds a result, or one of them gives nothing back; none does
    when the catalog lists every ingredient. *)
Lemma collect_shortest es target elapsed seen b0 rs0 :
  GetBasicElements es ≠ [] → b0 ∈ basicIDs es → tierPath es b0 rs0 target →
  ∀ completion results,
    (∃ more,
       ScheduledPaths.collect es target elapsed seen completion results = Some (results ++ more)
       ∧ length more = length completion
       ∧ ∀ res, res ∈ more → shortest es target (Path res))
    ∨ (ScheduledPaths.collect es target elapsed seen completion results = None
       ∧ ¬ (listed es ∧ is_Some (Elements es !! target))).
Proof.
  intros Hbasics Hb0 Hrs0. induction completion as [|index rest IH]; intros results.
  { left. exists []. simpl. rewrite app_nil_r. split; [done|]. split; [done|].
    intros ? H. by apply elem_of_nil in H. }
  simpl.
  destruct (findPathVariation_shortest es target (Z.of_nat index) (seen index) elapsed Hbasics)
    as [(path & Hshort & [[_ (res & Hres & <-)]|[Hno Hnone]])|[_ Hno]];
    [| |by destruct (Hno b0 rs0)].
  - rewrite Hres. destruct (IH (results ++ [res])) as [(more & Hrun & Hlen & Hall)|[Hrun Hnl]].
    + left. exists (res :: more). rewrite Hrun, <- app_assoc. split; [done|].
      split; [simpl; lia|].
      intros res' [->|Hin]%elem_of_cons; [done|by apply Hall].
    + right. by rewrite Hrun.
  - right. rewrite Hnone. split; [done|]. intros [Hlisted Htarget]. apply Hno.
    destruct Hshort as [(b & _ & Hpath) _]. by apply (tierPath_builds es b).
Qed.

Lemma scenario_has_basics : GetBasicElements scenario ≠ [].
Proof. by vm_compute. Qed.

(** X15: the duplicate check of the breadth-first variation. The path, or the
    error, that [findPathVariation] of the tier-checking breadth-first
    engine returns is the same whatever signatures are already stored: when
    the target is first reached by a path whose signature is stored, the
    search goes on with the target in the queue, and when the target is
    taken from the queue it is accepted with the backpointers it had. *)
Theorem bfs_variation_ignores_signatures es target variationIndex targetTier
    existing1 existing2 elapsed :
  0 ≤ variationIndex →
  pathOf (MultiplePaths.findPathVariation es target variationIndex targetTier
            existing1 elapsed)
  = pathOf (MultiplePaths.findPathVariation es target variationIndex targetTier
              existing2 elapsed).
Proof.
  intros _. destruct (GetBasicElements es) as [|e0 l] eqn:Hb.
  { unfold MultiplePaths.findPathVariation. by rewrite Hb. }
  assert (GetBasicElements es ≠ []) as Hbasics by (by rewrite Hb).
  destruct (findPathVariation_path es target variationIndex targetTier existing1 elapsed
              Hbasics) as (s1 & Hs1 & ->).
  destruct (findPathVariation_path es target variationIndex targetTier existing2 elapsed
              Hbasics) as (s2 & Hs2 & ->).
  rewrite Hs1 in Hs2. by injection Hs2 as <-.
Qed.

Lemma bfs_variation_ignores_signatures_witness :
  0 ≤ 1
  ∧ pathOf (MultiplePaths.findPathVariation scenario "D" 1 (GetElementTier scenario "D")
              ∅ 0)
    = pathOf (MultiplePaths.findPathVariation scenario "D" 1 (GetElementTier scenario "D")
                {["D:A+C;"%string]} 0).
Proof.
  split; [lia|].
  apply (bfs_variation_ignores_signatures scenario "D" 1 (GetElementTier scenario "D")
           ∅ {["D:A+C;"%string]} 0).
  lia.
Defined.

(** X16: the path of a breadth-first variation. Called as [FindMultiplePaths]
    calls it, with the tier of the target as the ceiling, [findPathVariation]
    of the tier-checking breadth-first engine returns a tier-valid path from
    a basic element to the target that has no more recipes than any other
    such path, whatever the variation index and the stored signatures; it
    returns [ErrNoPathFound] only when there is no such path; and it gives
    nothing back only when it found such a path and the display tree of
    that path is not built. *)
Theorem bfs_variation_shortest es target variationIndex existingPaths elapsed :
  0 ≤ variationIndex →
  GetBasicElements es ≠ [] →
  match MultiplePaths.findPathVariation es target variationIndex
          (GetElementTier es target) existingPaths elapsed with
  | Some (inr res) =>
      ∃ b, b ∈ basicIDs es ∧ tierPath es b (Path res) target
        ∧ ∀ b' rs, b' ∈ basicIDs es → tierPath es b' rs target →
                   (length (Path res) ≤ length rs)%nat
  | Some (inl err) =>
      err = ErrNoPathFound ∧ ∀ b rs, b ∈ basicIDs es → ¬ tierPath es b rs target
  | None =>
      ∃ b path, b ∈ basicIDs es ∧ tierPath es b path target ∧ ¬ builds es path target
  end.
Proof.
  intros _ Hbasics.
  destruct (findPathVariation_shortest es target variationIndex existingPaths elapsed Hbasics)
    as [(path & [(b & Hb & Hpath) Hmin] & [[_ (res & -> & <-)]|[Hno ->]])|[-> ?]]; eauto.
Qed.

Lemma bfs_variation_shortest_witness :
  0 ≤ 1 ∧ GetBasicElements scenario ≠ []
  ∧ match MultiplePaths.findPathVariation scenario "D" 1
            (GetElementTier scenario "D") {["D:A+C;"%string]} 0 with
    | Some (inr res) =>
        ∃ b, b ∈ basicIDs scenario ∧ tierPath scenario b (Path res) "D"
          ∧ ∀ b' rs, b' ∈ basicIDs scenario → tierPath scenario b' rs "D" →
                     (length (Path res) ≤ length rs)%nat
    | Some (inl err) =>
        err = ErrNoPathFound
        ∧ ∀ b rs, b ∈ basicIDs scenario → ¬ tierPath scenario b rs "D"
    | None =>
        ∃ b path, b ∈ basicIDs scenario ∧ tierPath scenario b path "D"
          ∧ ¬ builds scenario path "D"
    end.
Proof.
  split; [lia|]. split; [exact scenario_has_basics|].
  apply (bfs_variation_shortest scenario "D" 1 {["D:A+C;"%string]} 0);
    [lia|exact scenario_has_basics].
Defined.

(** X17: the results of the breadth-first [FindMultiplePaths]. Under every
    schedule of the workers, the tier-checking orchestrator fails exactly as
    [FindShortestPath] does, and gives nothing back when [FindShortestPath]
    gives nothing back.  Otherwise it returns no error, and what it returns
    is the result of [FindShortestPath] followed by one result for every
    worker: each of them is a tier-valid path from a basic element to the
    target with as many recipes as the first one, so that the set of
    signatures never removes a result.  It does return when every
    ingredient of a recipe of the catalog is an element of the catalog: a
    worker gives nothing back only when the display tree of its path is not
    built. *)
Theorem bfs_multiple_paths_schedule es target completion seen elapsed :
  match BreadthFirstFinder.FindShortestPath es target elapsed with
  | Some (inr first) =>
      (∀ results,
         ScheduledPaths.FindMultiplePaths es target completion seen elapsed
         = Some (inr results) →
         ∃ more, results = first :: more
           ∧ length more = length completion
           ∧ ∀ res, res ∈ more →
               length (Path res) = length (Path first)
               ∧ ∃ b, b ∈ basicIDs es ∧ tierPath es b (Path res) target)
      ∧ (∀ err, ScheduledPaths.FindMultiplePaths es target completion seen elapsed
                ≠ Some (inl err))
      ∧ (listed es →
         ∃ results, ScheduledPaths.FindMultiplePaths es target completion seen elapsed
                    = Some (inr results))
  | Some (inl err) =>
      ScheduledPaths.FindMultiplePaths es target completion seen elapsed = Some (inl err)
  | None =>
      ScheduledPaths.FindMultiplePaths es target completion seen elapsed = None
  end.
Proof.
  unfold ScheduledPaths.FindMultiplePaths.
  destruct (Elements es !! target) as [e|] eqn:He.
  2:{ unfold BreadthFirstFinder.FindShortestPath. by rewrite He. }
  destruct (GetBasicElements es) as [|e0 l] eqn:Hb.
  { unfold BreadthFirstFinder.FindShortestPath. by rewrite He, Hb. }
  assert (GetBasicElements es ≠ []) as Hbasics by (by rewrite Hb).
  destruct (strict_bfs_shortest es target elapsed ltac:(eauto) Hbasics)
    as [(path & [(b & Hb0 & Hpath) Hmin] & [[_ (first & -> & <-)]|[_ ->]])|[-> _]];
    [|done|done].
  destruct (collect_shortest es target elapsed seen b (Path first) Hbasics Hb0 Hpath
              completion [first]) as [(more & -> & Hlen & Hall)|[-> Hnl]].
  - simpl. split; [|split; [done|eauto]].
    intros results [= <-]. exists more. split; [done|]. split; [done|].
    intros res Hres. destruct (Hall res Hres) as [(b' & Hb' & Hpath') Hmin'].
    split; [|eauto].
    specialize (Hmin b' (Path res) Hb' Hpath'). specialize (Hmin' b (Path first) Hb0 Hpath).
    lia.
  - split; [done|]. split; [done|]. intros Hlisted. destruct Hnl. split; [done|by eexists].
Qed.

(** ** The signatures of the depth-first orchestrator *)

(** An accepted path has a signature that the set did not hold. *)
Lemma tryStartsVariation_fresh target possible keep maxDepth existing starts : ∀ k s s',
  DepthFirstFinder.tryStartsVariation target possible keep maxDepth existing k starts s
  = Some (true, s') →
  ∃ path k', reconstructPath target (dfsParent s') = Some path
    ∧ getPathSignature path ∉ existing k'.
Proof.
  induction starts as [|id rest IH]; intros k s s' Hrun; simpl in Hrun; [done|].
  destruct (dfsSearchWithTiers target possible keep maxDepth (Z.to_nat maxDepth) id 0 (enter id s))
    as [[[] s1]|] eqn:Hd; [| |done].
  - destruct (reconstructPath target (dfsParent s1)) as [path|] eqn:Hp; [|done].
    destruct (decide (getPathSignature path ∈ existing k)).
    + by apply IH in Hrun.
    + injection Hrun as <-. eauto.
  - by apply IH in Hrun.
Qed.

Lemma findPathVariation_fresh es target variationIndex targetTier pathSignatures elapsed res :
  DepthFirstFinder.findPathVariation es target variationIndex targetTier
    (fun _ => pathSignatures) elapsed = Some (inr res) →
  getPathSignature (Path res) ∉ pathSignatures.
Proof.
  unfold DepthFirstFinder.findPathVariation. destruct (GetBasicElements es); [done|].
  intros (s' & Hrun & Hp)%finishDepth_result.
  apply tryStartsVariation_fresh in Hrun as (path & k' & Hp' & Hfresh). congruence.
Qed.

Lemma runWorkers_distinct es target elapsed indices : ∀ results pathSignatures final,
  DepthFirstPaths.runWorkers es target elapsed indices results pathSignatures = Some final →
  ∃ more, final = results ++ more
    ∧ (length more ≤ length indices)%nat
    ∧ NoDup (signatureOf <$> more)
    ∧ (∀ res, res ∈ more → signatureOf res ∉ pathSignatures)
    ∧ ∀ res, res ∈ more →
        ∃ variationIndex existing,
          DepthFirstFinder.findPathVariation es target variationIndex
            (GetElementTier es target) existing elapsed = Some (inr res).
Proof.
  induction indices as [|index rest IH]; intros results sigs final Hrun; simpl in Hrun.
  { injection Hrun as <-. exists []. rewrite app_nil_r. split; [done|]. split; [done|].
    split; [constructor|]. split; intros ? H; by apply elem_of_nil in H. }
  destruct (DepthFirstFinder.findPathVariation es target (Z.of_nat index)
              (GetElementTier es target) (fun _ => sigs) elapsed) as [[err|res]|] eqn:Hres;
    [| |done].
  - apply IH in Hrun as (more & -> & Hlen & Hnd & Hfresh & Hall).
    exists more. split; [done|]. split; [simpl; lia|done].
  - pose proof (findPathVariation_fresh _ _ _ _ _ _ _ Hres) as Hnew.
    apply IH in Hrun as (more & -> & Hlen & Hnd & Hfresh & Hall).
    exists (res :: more). rewrite <- app_assoc. split; [done|]. split; [simpl; lia|].
    split; [|split].
    + simpl. constructor; [|done]. intros Hin.
      apply list_elem_of_fmap in Hin as (res' & Heq & Hin).
      apply (Hfresh res' Hin). rewrite <- Heq. set_solver.
    + intros res' [->|Hin]%elem_of_cons; [done|].
      specialize (Hfresh res' Hin). set_solver.
    + intros res' [->|Hin]%elem_of_cons; [eauto|by apply Hall].
Qed.

Lemma dfs_multiple_paths es target maxPaths elapsed results :
  DepthFirstPaths.FindMultiplePaths es target maxPaths elapsed = Some (inr results) →
  ∃ first more, results = first :: more
    ∧ DepthFirstFinder.FindShortestPath es target elapsed = Some (inr first)
    ∧ (length more ≤ Z.to_nat (maxPaths - 1))%nat
    ∧ NoDup (signatureOf <$> more)
    ∧ (Path first ≠ [] → NoDup (signatureOf <$> results))
    ∧ ∀ res, res ∈ results → ∃ b, b ∈ basicIDs es ∧ tierPath es b (Path res) target.
Proof.
  unfold DepthFirstPaths.FindMultiplePaths. intros Hres.
  destruct (Elements es !! target); [|done].
  destruct (DepthFirstFinder.FindShortestPath es target elapsed) as [[err|first]|] eqn:Hfirst;
    [done| |done].
  destruct (DepthFirstPaths.runWorkers _ _ _ _ _ _) as [final|] eqn:Hrun; [|done].
  apply runWorkers_distinct in Hrun as (more & -> & Hlen & Hnd & Hfresh & Hall).
  rewrite length_seq in Hlen. simpl in Hres. injection Hres as <-.
  exists first, more. split; [done|]. split; [done|]. split; [done|]. split; [done|].
  split.
  - intros Hne. simpl. constructor; [|done]. intros Hin.
    apply list_elem_of_fmap in Hin as (res & Heq & Hin).
    apply (Hfresh res Hin). rewrite <- Heq. unfold signatureOf.
    destruct (Path first); [done|]. set_solver.
  - intros res [->|Hin]%elem_of_cons.
    + apply (strict_dfs_path es target elapsed). by left.
    + destruct (Hall res Hin) as (vi & existing & Hvar).
      apply (strict_dfs_path es target elapsed). right. eauto.
Qed.

(** X18: the results of the depth-first [FindMultiplePaths]. When the workers
    of the tier-checking depth-first orchestrator run one after the other,
    the list returned is the result of [FindShortestPath] followed by at
    most [maxPaths - 1] results of workers, each a tier-valid path from a
    basic element to the target; the workers' results have pairwise
    distinct signatures, and so has the whole list when the first path is
    not empty (the signature of an empty first path is not stored). *)
Theorem dfs_multiple_paths_distinct es target maxPaths elapsed results :
  0 ≤ maxPaths →
  DepthFirstPaths.FindMultiplePaths es target maxPaths elapsed = Some (inr results) →
  ∃ first more, results = first :: more
    ∧ DepthFirstFinder.FindShortestPath es target elapsed = Some (inr first)
    ∧ (length more ≤ Z.to_nat (maxPaths - 1))%nat
    ∧ NoDup (signatureOf <$> more)
    ∧ (Path first ≠ [] → NoDup (signatureOf <$> results))
    ∧ ∀ res, res ∈ results → ∃ b, b ∈ basicIDs es ∧ tierPath es b (Path res) target.
Proof. intros _. apply dfs_multiple_paths. Qed.

Lemma dfs_multiple_paths_distinct_witness :
  ∃ results,
    DepthFirstPaths.FindMultiplePaths twoWays "T" 4 0 = Some (inr results)
    ∧ length results = 2%nat
    ∧ ∃ first more, results = first :: more
      ∧ DepthFirstFinder.FindShortestPath twoWays "T" 0 = Some (inr first)
      ∧ (length more ≤ Z.to_nat (4 - 1))%nat
      ∧ NoDup (signatureOf <$> more)
      ∧ (Path first ≠ [] → NoDup (signatureOf <$> results))
      ∧ ∀ res, res ∈ results → ∃ b, b ∈ basicIDs twoWays ∧ tierPath twoWays b (Path res) "T".
Proof.
  eexists. split; [by vm_compute|]. split; [done|].
  apply (dfs_multiple_paths_distinct twoWays "T" 4 0); [lia|by vm_compute].
Defined.

(** When the target is a basic element the first path is empty, and so is
    the path of the first worker: two results with the one signature. *)
Example dfs_multiple_paths_basic_target :
  match DepthFirstPaths.FindMultiplePaths scenario "A" 4 0 with
  | Some (inr results) => Path <$> results = [[]; []]
  | _ => False
  end.
Proof. by vm_compute. Qed.

(** ** Path signatures *)

Lemma append_nil_r (s : string) : (s ++ "")%string = s.
Proof.
  induction s as [|c s IH]; [done|].
  change (String c (s ++ "") = String c s)%string. by rewrite IH.
Qed.

Lemma append_assoc (s1 s2 s3 : string) :
  (s1 ++ (s2 ++ s3))%string = ((s1 ++ s2) ++ s3)%string.
Proof.
  induction s1 as [|c s1 IH]; [done|].
  change (String c (s1 ++ (s2 ++ s3)) = String c ((s1 ++ s2) ++ s3))%string. by rewrite IH.
Qed.

Lemma signature_fold path : ∀ sig,
  fold_left (fun sig recipe => (sig ++ recipeSignature recipe)%string) path sig
  = (sig ++ getPathSignature path)%string.
Proof.
  unfold getPathSignature. induction path as [|r path IH]; intros sig; simpl.
  { by rewrite append_nil_r. }
  change ("" ++ recipeSignature r)%string with (recipeSignature r).
  rewrite IH, (IH (recipeSignature r)). by rewrite append_assoc.
Qed.

Lemma getPathSignature_cons r path :
  getPathSignature (r :: path) = (recipeSignature r ++ getPathSignature path)%string.
Proof. unfold getPathSignature at 1. simpl. apply signature_fold. Qed.

Lemma getPathSignature_app p q :
  getPathSignature (p ++ q) = (getPathSignature p ++ getPathSignature q)%string.
Proof.
  induction p as [|r p IH]; [done|]. simpl.
  by rewrite !getPathSignature_cons, IH, append_assoc.
Qed.

Lemma ltb_total a b : String.ltb a b = false → String.ltb b a = false → a = b.
Proof.
  unfold String.ltb. rewrite (String.compare_antisym b a).
  destruct (String.compare a b) eqn:Hc; simpl; try done.
  intros _ _. by apply String.compare_eq_iff.
Qed.

Lemma ltb_asym a b : String.ltb a b = true → String.ltb b a = false.
Proof.
  unfold String.ltb. rewrite (String.compare_antisym b a).
  by destruct (String.compare a b).
Qed.

Lemma pairSignature_swap a b :
  (if String.ltb b a then b ++ "+" ++ a ++ ";" else a ++ "+" ++ b ++ ";")%string
  = (if String.ltb a b then a ++ "+" ++ b ++ ";" else b ++ "+" ++ a ++ ";")%string.
Proof.
  destruct (String.ltb b a) eqn:Hba.
  - by rewrite (ltb_asym _ _ Hba).
  - destruct (String.ltb a b) eqn:Hab; [done|]. by rewrite (ltb_total _ _ Hab Hba).
Qed.

Lemma recipeSignature_sameStep r1 r2 :
  sameStep r1 r2 → recipeSignature r1 = recipeSignature r2.
Proof.
  intros [Hres Hperm]. unfold recipeSignature. rewrite Hres. f_equal. f_equal.
  destruct (Ingredients r1) as [|a [|b l1]], (Ingredients r2) as [|c [|d l2]]; simpl in Hperm;
    try done; try (by apply Permutation_length in Hperm).
  apply Permutation_cons_inv_l in Hperm as Hcases.
  assert ((a = c ∧ b = d) ∨ (a = d ∧ b = c)) as [[-> ->]|[-> ->]].
  { assert (a ∈ [c; d]) as Ha by (rewrite <- Hperm; set_solver).
    assert (b ∈ [c; d]) as Hb by (rewrite <- Hperm; set_solver).
    assert (c ∈ [a; b]) as Hc by (rewrite Hperm; set_solver).
    assert (d ∈ [a; b]) as Hd by (rewrite Hperm; set_solver).
    destruct (decide (a = c)) as [->|Hac].
    - left. split; [done|]. apply Permutation_cons_inv in Hperm.
      by apply Permutation_singleton_inj in Hperm.
    - right. set_solver. }
  - done.
  - apply pairSignature_swap.
Qed.

(** X19: path signatures. Two paths of the same length whose recipes, taken
    in order, make the same elements from the same first two ingredients
    have the same signature, whatever the order of the two ingredients in
    each recipe: [FindMultiplePaths] takes such paths for duplicates. *)
Theorem signature_ignores_ingredient_order p q :
  Forall2 sameStep p q → getPathSignature p = getPathSignature q.
Proof.
  induction 1 as [|r1 r2 p q Hstep _ IH]; [done|].
  rewrite !getPathSignature_cons, IH. f_equal. by apply recipeSignature_sameStep.
Qed.

Lemma signature_ignores_ingredient_order_witness :
  getPathSignature [mkRecipe ["A"; "B"] "C"; mkRecipe ["C"; "A"] "D"]
  = getPathSignature [mkRecipe ["B"; "A"] "C"; mkRecipe ["A"; "C"] "D"].
Proof.
  apply signature_ignores_ingredient_order.
  repeat constructor; simpl; apply Permutation_swap.
Defined.

(** ** The variations of the bidirectional engine *)

Section BidirectionalVariations.
Import BidirectionalFinder BidirectionalVariation.

Lemma rotateRecipes_elem_of variationIndex recipes rotated r :
  rotateRecipes variationIndex recipes = Returns rotated → r ∈ rotated → r ∈ recipes.
Proof.
  unfold rotateRecipes. destruct recipes as [|r0 l]; [done|].
  destruct (_ && _); intros [= <-]; [apply rotate_elem_of|done].
Qed.

Lemma processOrder_elem_of variationIndex ingredients i :
  i ∈ processOrder variationIndex ingredients → i ∈ ingredients.
Proof.
  unfold processOrder. destruct (_ && _); [|done].
  destruct ingredients as [|a [|b l]]; [done|done|]. set_solver.
Qed.

(** What the search keeps: the invariant of the bidirectional engine, and
    forward backpointers that lead to visited elements. *)
Definition sound (es : ElementStore) (target : string) (s : BidState) : Prop :=
  BidInv es target s ∧ forwardLinked s.

Lemma forwardLevel_sound es target variationIndex n : ∀ s s',
  sound es target s → forwardLevel es variationIndex n s = Returns s' → sound es target s'.
Proof.
  induction n as [|n IH]; intros s s' [HI Hl] Hrun; simpl in Hrun.
  { by injection Hrun as <-. }
  destruct (bidFound s) eqn:Hf. { by injection Hrun as <-. }
  destruct (forwardQueue s) as [|x rest] eqn:Hq; [done|].
  pose proof (BidInv_popForward _ _ _ _ _ HI Hq) as HI0.
  assert (x ∈ forwardVisited s) as Hx by (apply (bi_fq _ _ _ HI); rewrite Hq; by left).
  destruct (decide (x ∈ backwardVisited s)) as [Hb|Hb].
  { injection Hrun as <-. split; [|done]. by apply BidInv_meet_forward. }
  destruct (rotateRecipes variationIndex _) as [recipes| |] eqn:Hrot; [|done|done].
  apply IH in Hrun; [done|]. split.
  - apply expandForward_inv; [done|done|].
    intros r Hr. by apply (rotateRecipes_elem_of _ _ _ _ Hrot).
  - by apply expandForward_linked.
Qed.

Lemma expandBackward_sound es target variationIndex current recipes : ∀ s,
  BidInv es target s → bidFound s = false → current ∈ backwardVisited s →
  (∀ r, r ∈ recipes → r ∈ Recipes es ∧ Result r = current) →
  BidInv es target
    (expandBackward es variationIndex current (GetElementTier es current) recipes s).
Proof.
  induction recipes as [|r rest IH]; intros s HI Hf Hcur Hsub; simpl; [done|].
  assert (Hsub' : ∀ r', r' ∈ rest → r' ∈ Recipes es ∧ Result r' = current)
    by (intros; apply Hsub; by right).
  destruct (Hsub r ltac:(by left)) as [Hr Hres].
  destruct (negb _) eqn:Hv; [by apply IH|].
  apply negb_false_iff in Hv. rewrite <- Hres in Hv. apply tierValid_check in Hv.
  pose proof (expandIngredients_inv es target current r
                (processOrder variationIndex (Ingredients r)) s HI Hf Hr Hv Hres Hcur
                ltac:(intros i; apply processOrder_elem_of)) as HI'.
  destruct (bidFound (expandIngredients es current (GetElementTier es current) r
                        (processOrder variationIndex (Ingredients r)) s)) eqn:Hf'; [done|].
  apply IH; try done. by apply expandIngredients_visited.
Qed.

Lemma expandBackward_keeps es variationIndex current t recipes : ∀ s,
  forwardParent (expandBackward es variationIndex current t recipes s) = forwardParent s
  ∧ forwardVisited (expandBackward es variationIndex current t recipes s) = forwardVisited s.
Proof.
  induction recipes as [|r rest IH]; intros s; simpl; [done|].
  destruct (negb _); [by apply IH|].
  pose proof (expandIngredients_frame es current t r
                (processOrder variationIndex (Ingredients r)) s) as [H1 _].
  pose proof (expandIngredients_forward es current t r
                (processOrder variationIndex (Ingredients r)) s) as [_ H2].
  destruct (bidFound _); [done|].
  destruct (IH (expandIngredients es current t r
                  (processOrder variationIndex (Ingredients r)) s)) as [-> ->]. done.
Qed.

Lemma relevantRecipes_elem_of es current r :
  r ∈ relevantRecipes es current ↔ r ∈ Recipes es ∧ Result r = current.
Proof.
  unfold relevantRecipes. rewrite list_elem_of_In, filter_In, <- list_elem_of_In.
  by rewrite bool_decide_eq_true.
Qed.

Lemma backwardLevel_sound es target variationIndex n : ∀ s s',
  sound es target s → backwardLevel es variationIndex n s = Returns s' → sound es target s'.
Proof.
  induction n as [|n IH]; intros s s' [HI Hl] Hrun; simpl in Hrun.
  { by injection Hrun as <-. }
  destruct (bidFound s) eqn:Hf. { by injection Hrun as <-. }
  destruct (backwardQueue s) as [|x rest] eqn:Hq; [done|].
  pose proof (BidInv_popBackward _ _ _ _ _ HI Hq) as HI0.
  assert (Hx : x ∈ backwardVisited s) by (apply (bi_bq _ _ _ HI); rewrite Hq; by left).
  destruct (decide (x ∈ forwardVisited s)) as [Hb|Hb].
  { injection Hrun as <-. split; [|done]. by apply BidInv_meet_forward. }
  destruct (rotateRecipes variationIndex _) as [recipes| |] eqn:Hrot; [|done|done].
  apply IH in Hrun; [done|]. split.
  - rewrite (bi_btier _ _ _ HI x Hx). apply expandBackward_sound; try done.
    intros r Hr. apply relevantRecipes_elem_of.
    by apply (rotateRecipes_elem_of _ _ _ _ Hrot).
  - unfold forwardLinked.
    destruct (expandBackward_keeps es variationIndex x (tierAt (backwardTier s) x) recipes
                (popBackward rest s)) as [-> ->]. done.
Qed.

Lemma bidLoop_sound es target variationIndex remaining : ∀ s s',
  sound es target s → bidLoop es variationIndex remaining s = Returns s' →
  sound es target s'.
Proof.
  induction remaining as [|remaining IH]; intros s s' Hs Hrun; simpl in Hrun.
  { destruct (forwardQueue s), (backwardQueue s), (bidFound s); by simplify_eq. }
  destruct (forwardQueue s) as [|f0 fq] eqn:Hfq, (backwardQueue s) as [|b0 bq] eqn:Hbq,
    (bidFound s) eqn:Hf;
    try by simplify_eq.
  rewrite <- ?Hfq, <- ?Hbq in Hrun.
  destruct (Z.rem variationIndex 2 =? 1).
  - rewrite ?Hf in Hrun.
    destruct (backwardLevel es variationIndex _ s) as [s2| |] eqn:H2; [|done|done].
    apply backwardLevel_sound with (target := target) in H2; [|done].
    destruct (forwardLevel es variationIndex _ s2) as [s3| |] eqn:H3; [|done|done].
    apply forwardLevel_sound with (target := target) in H3; [|done]. by eapply IH.
  - destruct (forwardLevel es variationIndex _ s) as [s1| |] eqn:H1; [|done|done].
    apply forwardLevel_sound with (target := target) in H1; [|done].
    destruct (bidFound s1). { by injection Hrun as <-. }
    destruct (backwardLevel es variationIndex _ s1) as [s2| |] eqn:H2; [|done|done].
    apply backwardLevel_sound with (target := target) in H2; [|done]. by eapply IH.
Qed.

Lemma forwardLevel_ends es variationIndex n : ∀ s,
  forwardLevel es variationIndex n s ≠ Unfinished.
Proof.
  induction n as [|n IH]; intros s; simpl; [done|].
  destruct (bidFound s); [done|]. destruct (forwardQueue s); [done|].
  destruct (decide _); [done|].
  unfold rotateRecipes. destruct (getValidRecipesWithElementAnyPosition es _); [done|].
  destruct (_ && _); apply IH.
Qed.

Lemma backwardLevel_ends es variationIndex n : ∀ s,
  backwardLevel es variationIndex n s ≠ Unfinished.
Proof.
  induction n as [|n IH]; intros s; simpl; [done|].
  destruct (bidFound s); [done|]. destruct (backwardQueue s); [done|].
  destruct (decide _); [done|].
  unfold rotateRecipes. destruct (relevantRecipes es _); [done|].
  destruct (_ && _); apply IH.
Qed.

Lemma bidLoop_ends es variationIndex remaining : ∀ s,
  bidLoop es variationIndex remaining s ≠ Unfinished.
Proof.
  induction remaining as [|remaining IH]; intros s; simpl.
  { destruct (forwardQueue s), (backwardQueue s), (bidFound s); done. }
  destruct (forwardQueue s) as [|f0 fq] eqn:Hfq, (backwardQueue s) as [|b0 bq] eqn:Hbq,
    (bidFound s) eqn:Hf;
    try done.
  rewrite <- ?Hfq, <- ?Hbq.
  destruct (Z.rem variationIndex 2 =? 1).
  - rewrite ?Hf.
    pose proof (backwardLevel_ends es variationIndex (length (backwardQueue s)) s).
    destruct (backwardLevel es variationIndex _ s) as [s2| |]; [|done|done].
    pose proof (forwardLevel_ends es variationIndex (length (forwardQueue s2)) s2).
    destruct (forwardLevel es variationIndex _ s2) as [s3| |]; [apply IH|done|done].
  - pose proof (forwardLevel_ends es variationIndex (length (forwardQueue s)) s).
    destruct (forwardLevel es variationIndex _ s) as [s1| |]; [|done|done].
    destruct (bidFound s1); [done|].
    pose proof (backwardLevel_ends es variationIndex (length (backwardQueue s1)) s1).
    destruct (backwardLevel es variationIndex _ s1) as [s2| |]; [apply IH|done|done].
Qed.

Lemma initialState_sound es target startOffset :
  sound es target (initialState es target startOffset).
Proof.
  split.
  - split; simpl; try done.
    + intros x Hx. apply rotate_elem_of in Hx. set_solver.
    + set_solver.
    + set_solver.
    + set_solver.
    + intros x Hx. apply elem_of_singleton in Hx as ->. unfold tierAt.
      by rewrite lookup_singleton_eq.
  - intros x st. simpl. by rewrite lookup_empty.
Qed.

(** The call ends, and a path it returns is a tier-valid path from a basic
    element to the target. *)
Lemma findPathWithVariation_sound es target variationIndex elapsed :
  findPathWithVariation es target variationIndex elapsed ≠ Unfinished
  ∧ ∀ res, findPathWithVariation es target variationIndex elapsed = Returns (inr res) →
      VariationIndex res = variationIndex
      ∧ ∃ b, b ∈ basicIDs es ∧ tierPath es b (Path res) target.
Proof.
  unfold findPathWithVariation.
  destruct (Elements es !! target); [|done].
  destruct (GetBasicElements es); [done|].
  destruct (_ <? 0); [done|].
  destruct (bidLoop es variationIndex _ _) as [s| |] eqn:Hs; [|done|].
  2:{ by apply bidLoop_ends in Hs. }
  apply bidLoop_sound with (target := target) in Hs as [HI Hl]; [|apply initialState_sound].
  destruct (bidFound s) eqn:Hf; [|done].
  destruct (bi_meet _ _ _ HI Hf) as [Hmf Hmb].
  destruct (reconstructForwardPath_tierDecreasing es _
              (bid_forward_tierDecreasing _ _ _ HI) (meetingPoint s)) as [fp Hfp].
  destruct (reconstructBackwardPath_returns _ _ _ HI (meetingPoint s)) as [bp Hbp].
  rewrite Hfp, Hbp.
  assert (∃ b, b ∈ basicIDs es ∧ tierPath es b (fp ++ bp) target) as (b & Hb & Hpath).
  { apply (reconstructForwardFrom_path es target s HI Hl) in Hfp as (b & q & Hb & -> & Hq);
      [|done].
    rewrite app_nil_r in *. exists b. split; [done|].
    unfold BidirectionalFinder.reconstructBackwardPath in Hbp.
    apply (reconstructBackwardFrom_prefix es _ q) in Hbp. rewrite app_nil_r in Hbp.
    by eapply (reconstructBackwardFrom_path es target s b HI). }
  pose proof (buildTreeStructure_finishes es (fp ++ bp) target (length (fp ++ bp))
                (tierPath_valid _ _ _ _ Hpath) ltac:(done)) as Hfin.
  fold (treeOf es (fp ++ bp) target) in Hfin.
  destruct (treeOf es (fp ++ bp) target) as [tree| |]; [|done|done].
  split; [done|]. intros res [= <-]. simpl. split; [done|]. by exists b.
Qed.


Lemma head_rotate {A} (k : nat) (l : list A) :
  (k < length l)%nat → head (rotate k l) = l !! k.
Proof.
  intros Hk. unfold rotate. rewrite head_lookup, lookup_app_l.
  - rewrite lookup_drop. f_equal. lia.
  - rewrite length_drop. lia.
Qed.

Lemma filter_nil_iff {A} (f : A → bool) (l : list A) :
  List.filter f l = [] ↔ ∀ x, x ∈ l → f x = false.
Proof.
  induction l as [|a l IH]; simpl.
  - split; [|done]. intros _ x Hx. by apply elem_of_nil in Hx.
  - destruct (f a) eqn:Ha.
    + split; [done|]. intros H. specialize (H a ltac:(by left)). congruence.
    + rewrite IH. split.
      * intros H x [->|Hx]%elem_of_cons; [done|by apply H].
      * intros H x Hx. apply H. by right.
Qed.

(** An odd variation starts with the backward level: a target that is not
    basic and that no recipe makes is divided by. *)
Lemma findPathWithVariation_no_recipe es target variationIndex elapsed :
  is_Some (Elements es !! target) → GetBasicElements es ≠ [] →
  0 ≤ variationIndex → Z.rem variationIndex 2 = 1 →
  target ∉ basicIDs es → (∀ r, r ∈ Recipes es → Result r ≠ target) →
  findPathWithVariation es target variationIndex elapsed = Panics.
Proof.
  intros [e He] Hbasics Hvi Hodd Hnb Hnone. unfold findPathWithVariation. rewrite He.
  destruct (GetBasicElements es) as [|e0 l] eqn:Hb; [done|]. rewrite <- Hb.
  assert (0 < Z.of_nat (length (GetBasicElements es))) as Hlen by (rewrite Hb; simpl; lia).
  pose proof (Z.rem_nonneg variationIndex (Z.of_nat (length (GetBasicElements es)))
                ltac:(lia) Hvi) as Hoff.
  destruct (_ <? 0) eqn:Hneg; [lia|].
  pose proof (Z.rem_nonneg variationIndex 500 ltac:(lia) Hvi) as H500.
  destruct (Z.to_nat (1000 + Z.rem variationIndex 500)) as [|remaining] eqn:Hrem; [lia|].
  simpl. unfold rotate at 1.
  destruct (drop _ (basicIDs es) ++ take _ (basicIDs es)) as [|f0 fq] eqn:Hfq.
  { apply (f_equal length) in Hfq. rewrite length_app, length_drop, length_take in Hfq.
    rewrite basicIDs_length in Hfq. simpl in Hfq. lia. }
  rewrite Hodd. simpl.
  destruct (decide (target ∈ _)) as [Hin|_]; [set_solver|].
  assert (relevantRecipes es target = []) as ->; [|done].
  apply filter_nil_iff. intros r Hr. apply bool_decide_eq_false.
  by apply Hnone.
Qed.

(** An even variation starts with the forward level: a first basic element
    that is not the target and that enters no tier-valid recipe is divided
    by. *)
Lemma findPathWithVariation_no_use es target variationIndex elapsed b :
  is_Some (Elements es !! target) →
  0 ≤ variationIndex → Z.rem variationIndex 2 = 0 →
  basicIDs es !! Z.to_nat (Z.rem variationIndex (Z.of_nat (length (basicIDs es)))) = Some b →
  b ≠ target →
  (∀ r, r ∈ Recipes es → b ∈ Ingredients r → ¬ tierValid es r) →
  findPathWithVariation es target variationIndex elapsed = Panics.
Proof.
  intros [e He] Hvi Heven Hb Hne Hnone. unfold findPathWithVariation. rewrite He.
  rewrite basicIDs_length in Hb.
  destruct (GetBasicElements es) as [|e0 l] eqn:Hbs.
  { unfold basicIDs in Hb. by rewrite Hbs in Hb. }
  rewrite <- Hbs in *.
  assert (0 < Z.of_nat (length (GetBasicElements es))) as Hlen by (rewrite Hbs; simpl; lia).
  pose proof (Z.rem_nonneg variationIndex (Z.of_nat (length (GetBasicElements es)))
                ltac:(lia) Hvi) as Hoff.
  destruct (_ <? 0) eqn:Hneg; [lia|].
  pose proof (Z.rem_nonneg variationIndex 500 ltac:(lia) Hvi) as H500.
  destruct (Z.to_nat (1000 + Z.rem variationIndex 500)) as [|remaining] eqn:Hrem; [lia|].
  rewrite <- head_rotate in Hb by (by apply lookup_lt_Some in Hb).
  simpl.
  destruct (rotate _ (basicIDs es)) as [|f0 fq] eqn:Hfq; [done|]. injection Hb as ->.
  rewrite Heven. simpl. rewrite Hfq.
  destruct (decide (b ∈ _)) as [Hin|_]; [set_solver|].
  assert (getValidRecipesWithElementAnyPosition es b = []) as ->; [|done].
  apply filter_nil_iff. intros r Hr.
  destruct (isIngredient b r) eqn:Hi; [|done]. simpl.
  apply isIngredient_spec in Hi. apply not_true_is_false. intros Hv.
  apply tierValid_check in Hv. by apply (Hnone r).
Qed.

End BidirectionalVariations.

(** X20: the path of a bidirectional variation. A call of
    [findPathWithVariation] of the bidirectional engine ends (its loop is
    cut off after [1000 + variationIndex % 500] passes, and both backpointer
    walks end); when it returns a result, the path is a tier-valid path from
    a basic element to the target and the result carries the variation
    index. *)
Theorem bid_variation_result_is_path es target variationIndex elapsed :
  BidirectionalVariation.findPathWithVariation es target variationIndex elapsed ≠ Unfinished
  ∧ ∀ res,
      BidirectionalVariation.findPathWithVariation es target variationIndex elapsed
      = Returns (inr res) →
      VariationIndex res = variationIndex
      ∧ ∃ b, b ∈ basicIDs es ∧ tierPath es b (Path res) target.
Proof. apply findPathWithVariation_sound. Qed.

(** X21: the division by the number of recipes. In [findPathWithVariation] of
    the bidirectional engine the order of the recipes of an expanded element
    is rotated by [variationIndex % len(recipes)], which panics when there
    is no recipe. So an odd variation panics for a target that is not basic
    and that no recipe makes, and an even variation panics when the basic
    element it starts with is not the target and enters no tier-valid
    recipe: the call does not return [ErrNoPathFound] there. *)
Theorem bid_variation_divides_by_zero es target variationIndex elapsed :
  is_Some (Elements es !! target) →
  0 ≤ variationIndex →
  (Z.rem variationIndex 2 = 1 ∧ GetBasicElements es ≠ [] ∧ (target ∉ basicIDs es)
   ∧ ∀ r, r ∈ Recipes es → Result r ≠ target)
  ∨ (Z.rem variationIndex 2 = 0
     ∧ ∃ b, basicIDs es !! Z.to_nat (Z.rem variationIndex (Z.of_nat (length (basicIDs es))))
            = Some b
          ∧ b ≠ target
          ∧ ∀ r, r ∈ Recipes es → b ∈ Ingredients r → ¬ tierValid es r) →
  BidirectionalVariation.findPathWithVariation es target variationIndex elapsed = Panics.
Proof.
  intros Htarget Hvi [(Hodd & Hbasics & Hnb & Hnone)|(Heven & b & Hb & Hne & Hnone)].
  - by apply findPathWithVariation_no_recipe.
  - by apply (findPathWithVariation_no_use es target variationIndex elapsed b).
Qed.

Lemma bid_variation_divides_by_zero_witness :
  BidirectionalVariation.findPathWithVariation mixed "X" 1 0 = Panics
  ∧ BidirectionalVariation.findPathWithVariation mixed "C" 0 0 = Panics.
Proof.
  split.
  - apply (bid_variation_divides_by_zero mixed "X" 1 0); [by vm_compute; eauto|lia|].
    left. split; [done|]. split; [by vm_compute|]. split.
    + vm_compute. set_solver.
    + intros r Hr. vm_compute in Hr. apply list_elem_of_singleton in Hr as ->. done.
  - apply (bid_variation_divides_by_zero mixed "C" 0 0); [by vm_compute; eauto|lia|].
    right. split; [done|]. exists "A"%string. split; [by vm_compute|]. split; [done|].
    intros r Hr _ Hv. vm_compute in Hr. apply list_elem_of_singleton in Hr as ->.
    specialize (Hv "X"%string ltac:(simpl; set_solver)). vm_compute in Hv. done.
Defined.

(** X22: [contains] and [containsAll]. [contains] tells whether the name is in
    the slice, and [containsAll] whether the needed names are in the names
    at hand counted with their repetitions: a recipe that needs a name twice
    is contained only in a path that has it twice. *)
Theorem contains_all_counts_repetitions have need s :
  (Algorithm.contains have s = true ↔ s ∈ have)
  ∧ (Algorithm.containsAll have need = true ↔ need ⊆+ have).
Proof. split; [apply contains_spec|apply containsAll_spec]. Qed.

Lemma mudOnly_two_or_more name el recipe :
  mudOnly !! name = Some el → recipe ∈ Algorithm.Recipes el → (2 ≤ length recipe)%nat.
Proof.
  unfold mudOnly. intros [_ <-]%lookup_singleton_Some Hr. simpl in Hr.
  by apply list_elem_of_singleton in Hr as ->.
Qed.

(** X23: the search over element names. When every recipe names two elements
    or more (a Little Alchemy recipe names two), [Search] for one recipe
    finds nothing that has to be made: a path starts with one name and a
    recipe is used only when the path holds all its names, so no recipe is
    ever used. Whatever the order in which the map is visited, the
    breadth-first search returns the target alone when it is one of air,
    earth, fire and water, and nil otherwise, and the depth-first search
    returns nil for every target. *)
Theorem name_search_uses_no_recipe target algo elements orders :
  (∀ k, orders k ≡ₚ map_to_list elements) →
  (∀ name el recipe, elements !! name = Some el → recipe ∈ Algorithm.Recipes el →
     (2 ≤ length recipe)%nat) →
  Algorithm.Search target algo elements orders
  = Some (if String.eqb algo "DFS" then None
          else if decide (target ∈ Algorithm.base) then Some [target] else None).
Proof.
  intros Hperm Hlong. unfold Algorithm.Search. destruct (String.eqb algo "DFS").
  - rewrite (dfs_no_empty_recipe target elements orders Hperm); [done|].
    intros name el recipe Hel Hr ->. specialize (Hlong name el [] Hel Hr). simpl in Hlong. lia.
  - by apply bfs_two_ingredients.
Qed.

Lemma name_search_uses_no_recipe_witness :
  Algorithm.Search "mud" "BFS" mudOnly (fun _ => map_to_list mudOnly) = Some None
  ∧ Algorithm.Search "mud" "DFS" mudOnly (fun _ => map_to_list mudOnly) = Some None
  ∧ Algorithm.Search "water" "BFS" mudOnly (fun _ => map_to_list mudOnly)
    = Some (Some ["water"%string]).
Proof.
  split; [|split].
  - apply (name_search_uses_no_recipe "mud" "BFS" mudOnly (fun _ => map_to_list mudOnly));
      [done|apply mudOnly_two_or_more].
  - apply (name_search_uses_no_recipe "mud" "DFS" mudOnly (fun _ => map_to_list mudOnly));
      [done|apply mudOnly_two_or_more].
  - apply (name_search_uses_no_recipe "water" "BFS" mudOnly (fun _ => map_to_list mudOnly));
      [done|apply mudOnly_two_or_more].
Defined.

(** X24: one result for each worker. At every moment of a run of
    [FindMultipleRecipes], every worker that has returned has added a path
    of its own to the results, and every result ends with the target. So
    when the function returns, all eight workers having returned, it returns
    eight paths or more, whatever [max] is. *)
Theorem multiple_recipes_one_per_worker target max elements s :
  rtc (Algorithm.step target max elements) Algorithm.launched s →
  (returned (Algorithm.workers s) ≤ length (Algorithm.results s))%nat
  ∧ (∀ path, path ∈ Algorithm.results s → last path = Some target)
  ∧ (Forall (fun w => w = Algorithm.Returned) (Algorithm.workers s) →
     (8 ≤ length (Algorithm.results s))%nat).
Proof.
  intros Hrun. destruct (counted_reachable target max elements s Hrun) as [Hw Hr Ht].
  split; [done|]. split; [done|]. intros Hall.
  rewrite (returned_all _ Hall) in Hr. lia.
Qed.

Lemma multiple_recipes_one_per_worker_witness :
  ∃ s, rtc (Algorithm.step "air" 1 mudOnly) Algorithm.launched s
    ∧ Algorithm.results s = [["air"%string]]
    ∧ returned (Algorithm.workers s) = 1%nat
    ∧ (returned (Algorithm.workers s) ≤ length (Algorithm.results s))%nat
    ∧ (∀ path, path ∈ Algorithm.results s → last path = Some "air"%string)
    ∧ (Forall (fun w => w = Algorithm.Returned) (Algorithm.workers s) →
       (8 ≤ length (Algorithm.results s))%nat).
Proof.
  assert (rtc (Algorithm.step "air" 1 mudOnly) Algorithm.launched
            {| Algorithm.queue := [["earth"]; ["fire"]; ["water"]]%string;
               Algorithm.workers := <[0%nat := Algorithm.Returned]> (replicate 8 Algorithm.Receiving);
               Algorithm.results := [["air"%string]] |}) as Hrun.
  { apply rtc_once.
    apply (Algorithm.step_result "air" 1 mudOnly Algorithm.launched 0 ["air"%string]
             [["earth"]; ["fire"]; ["water"]]%string); done. }
  eexists. split; [exact Hrun|]. split; [done|]. split; [done|].
  apply (multiple_recipes_one_per_worker "air" 1 mudOnly _ Hrun).
Defined.

(** X25: [FindMultipleRecipes] does not return. When every recipe names two
    elements or more, no worker ever sends a path: the channel only holds
    the four paths it starts with, so at most four of the eight workers
    return and the others wait for a path for ever. [wg.Wait()] never ends,
    whatever the target, [max] and the order of the steps. *)
Theorem multiple_recipes_never_returns target max elements found :
  (∀ name el recipe, elements !! name = Some el → recipe ∈ Algorithm.Recipes el →
     (2 ≤ length recipe)%nat) →
  ¬ Algorithm.FindMultipleRecipes target elements max found.
Proof.
  intros Hlong (s & Hrun & Hall & _).
  destruct (starved_reachable target max elements Hlong s Hrun) as [Hw _ _ Hc].
  rewrite (returned_all _ Hall) in Hc. lia.
Qed.

Lemma multiple_recipes_never_returns_witness :
  ¬ Algorithm.FindMultipleRecipes "mud" mudOnly 1 [["mud"%string]].
Proof.
  apply (multiple_recipes_never_returns "mud" 1 mudOnly [["mud"%string]]).
  apply mudOnly_two_or_more.
Defined.

(** ** The variations of the earlier depth-first engine *)

Lemma rotate_elem_of_iff {A} (k : nat) (l : list A) x : x ∈ rotate k l ↔ x ∈ l.
Proof.
  unfold rotate. rewrite elem_of_app. rewrite <- (take_drop k l) at 3.
  rewrite elem_of_app. tauto.
Qed.

Section EarlierVariation.
Variable es : ElementStore.
Variable target : string.
Hypothesis basics_nonNegative : ∀ b, b ∈ basicIDs es → 0 ≤ GetElementTier es b.
Hypothesis target_small : GetElementTier es target < 2 ^ 61.
Hypothesis target_known : is_Some (Elements es !! target).

(** The starting elements of a variation are the basic elements. *)
Lemma v1_variation_starts (variationIndex : Z) x :
  x ∈ (if (0 <? Z.rem variationIndex (Z.of_nat (length (GetBasicElements es))))
          && (1 <? length (GetBasicElements es))%nat
       then rotate (Z.to_nat (Z.rem variationIndex (Z.of_nat (length (GetBasicElements es)))))
                   (basicIDs es)
       else basicIDs es)
  ↔ x ∈ basicIDs es.
Proof. destruct (_ && _); [apply rotate_elem_of_iff|done]. Qed.

Lemma v1_variation variationIndex elapsed :
  0 ≤ variationIndex →
  (∃ b path, b ∈ basicIDs es ∧ progressPath es b path target
     ∧ ((builds es path target
         ∧ ∃ res, DepthFirstPathsV1.findPathWithVariation es target variationIndex elapsed
                  = Some (inr res)
                  ∧ Path res = path ∧ VariationIndex res = variationIndex)
        ∨ (¬ builds es path target
           ∧ DepthFirstPathsV1.findPathWithVariation es target variationIndex elapsed
             = None)))
  ∨ ((∃ err, DepthFirstPathsV1.findPathWithVariation es target variationIndex elapsed
             = Some (inl err))
     ∧ ∀ b rs, b ∈ basicIDs es → ¬ progressPath es b rs target).
Proof.
  intros Hvi. destruct target_known as [elem Hel].
  unfold DepthFirstPathsV1.findPathWithVariation. rewrite Hel.
  destruct (GetBasicElements es) as [|e0 l] eqn:Hbs.
  { right. split; [eauto|]. intros b rs Hb. unfold basicIDs in Hb. rewrite Hbs in Hb.
    by apply elem_of_nil in Hb. }
  rewrite <- Hbs.
  set (maxDepth := wrapInt (wrapInt (GetElementTier es target * 2) + Z.rem variationIndex 5)).
  set (starts := if _ && _ then _ else _).
  assert (∀ x, x ∈ starts ↔ x ∈ basicIDs es) as Hstarts
    by (intros x; apply v1_variation_starts).
  destruct (tryStarts_total target (DepthFirstFinderV1.possibleRecipes es)
              (DepthFirstFinderV1.keepRecipe es) maxDepth starts emptyDepthState)
    as [[found s] Hrun].
  rewrite Hrun.
  destruct found.
  - left.
    destruct (tryStarts_climbing target _ _ _ (GetElementTier es) (fun _ => True)
                (dfs_v1_keep_progress es) ltac:(done) starts emptyDepthState true s
                ltac:(done) (climbing_empty _ _ _) Hrun) as [Hc _].
    assert (Hdec : tierDecreasing es (dfsParent s)).
    { intros child step Hp. by destruct (Hc _ _ Hp) as (_ & ? & _). }
    destruct (reconstructPath_tierDecreasing es _ Hdec target) as [p Hp].
    apply tryStarts_path in Hrun as (b & Hb & Hinv & Hroot); [|done|done].
    exists b, p. split; [by apply Hstarts|]. split; [apply v1_chain; by eapply stack_path|].
    unfold finishDepth. rewrite Hp, builds_treeOf.
    destruct (treeOf es p target) as [tree| |].
    + left. split; [by exists tree|]. by eexists.
    + right. split; [by intros [? ?]|done].
    + right. split; [by intros [? ?]|done].
  - right. split; [simpl; eauto|]. intros b rs Hb Hpath.
    apply v1_chain in Hpath.
    pose proof (chain_tier _ _ (GetElementTier es) (dfs_v1_keep_progress es) _ _ _ Hpath)
      as Htier.
    specialize (basics_nonNegative b Hb) as Hb0.
    pose proof (Z.rem_nonneg variationIndex 5 ltac:(lia) Hvi) as H5.
    pose proof (Z.rem_bound_pos variationIndex 5 Hvi ltac:(lia)) as H5'.
    assert (GetElementTier es target - GetElementTier es b ≤ maxDepth) as Hdepth.
    { unfold maxDepth. rewrite (wrapInt_small (_ * 2)) by lia. rewrite wrapInt_small; lia. }
    destruct (tryStarts_finds target (DepthFirstFinderV1.possibleRecipes es)
                (DepthFirstFinderV1.keepRecipe es) maxDepth (GetElementTier es)
                (dfs_v1_keep_progress es) starts b rs ltac:(by apply Hstarts) Hpath Hdepth
                emptyDepthState eq_refl eq_refl) as [s' Hs'].
    congruence.
Qed.

(** A path found whose display tree is not built. *)
Definition treeless : Prop :=
  ∃ b path, b ∈ basicIDs es ∧ progressPath es b path target ∧ ¬ builds es path target.

Lemma v1_collect_found elapsed b0 rs0 :
  b0 ∈ basicIDs es → progressPath es b0 rs0 target →
  ∀ completion results,
    (∃ more,
       DepthFirstPathsV1.collect es target elapsed completion results = Some (results ++ more)
       ∧ VariationIndex <$> more = Z.of_nat <$> completion
       ∧ ∀ res, res ∈ more → ∃ b, b ∈ basicIDs es ∧ progressPath es b (Path res) target)
    ∨ (DepthFirstPathsV1.collect es target elapsed completion results = None ∧ treeless).
Proof.
  intros Hb0 Hrs0. induction completion as [|index rest IH]; intros results.
  { left. exists []. simpl. rewrite app_nil_r. split; [done|]. split; [done|].
    intros ? H. by apply elem_of_nil in H. }
  simpl.
  destruct (v1_variation (Z.of_nat index) elapsed ltac:(lia))
    as [(b & path & Hb & Hpath & [[_ (res & Hres & <- & Hvi)]|[Hno Hnone]])|[_ Hno]];
    [| |by destruct (Hno b0 rs0)].
  - rewrite Hres.
    destruct (IH (results ++ [res])) as [(more & Hrun & Hidx & Hall)|[Hrun Hbad]].
    + left. exists (res :: more). rewrite Hrun, <- app_assoc. split; [done|].
      split; [by rewrite !fmap_cons, Hvi, Hidx|].
      intros res' [->|Hin]%elem_of_cons; [eauto|by apply Hall].
    + right. by rewrite Hrun.
  - right. rewrite Hnone. split; [done|]. by exists b, path.
Qed.

Lemma v1_collect_none elapsed :
  (∀ b rs, b ∈ basicIDs es → ¬ progressPath es b rs target) →
  ∀ completion results,
    DepthFirstPathsV1.collect es target elapsed completion results = Some results.
Proof.
  intros Hno. induction completion as [|index rest IH]; intros results; [done|]. simpl.
  destruct (v1_variation (Z.of_nat index) elapsed ltac:(lia))
    as [(b & path & Hb & Hpath & _)|[[err ->] _]]; [by destruct (Hno b path)|].
  apply IH.
Qed.

Lemma v1_dfs_multiple completion elapsed :
  match DepthFirstPathsV1.FindMultiplePaths es target completion elapsed with
  | Some (inr results) =>
      VariationIndex <$> results = Z.of_nat <$> completion
      ∧ ∀ res, res ∈ results → ∃ b, b ∈ basicIDs es ∧ progressPath es b (Path res) target
  | Some (inl err) =>
      err = ErrNoPathFound
      ∧ (completion = [] ∨ ∀ b rs, b ∈ basicIDs es → ¬ progressPath es b rs target)
  | None => treeless
  end.
Proof.
  unfold DepthFirstPathsV1.FindMultiplePaths. destruct target_known as [elem ->].
  destruct (v1_variation 0 elapsed ltac:(lia))
    as [(b & path & Hb & Hpath & _)|[_ Hno]].
  - destruct (v1_collect_found elapsed b path Hb Hpath completion [])
      as [(more & -> & Hidx & Hall)|[-> Hbad]]; [|done].
    simpl. destruct more as [|res more].
    + split; [done|]. left. by destruct completion.
    + done.
  - rewrite (v1_collect_none elapsed Hno). split; [done|]. by right.
Qed.

End EarlierVariation.

(** X26: the results of the earlier depth-first [FindMultiplePaths]. In a
    catalog whose basic elements have a non-negative tier, for a target of
    the catalog: when some path leads from a basic element to the target by
    recipes that each raise the tier above that of the ingredient they are
    entered by, every worker adds a result, so the list has one result for
    each variation index, in the order in which the workers finish, each
    with such a path (no duplicate is removed); when there is no such path,
    or no worker, the call returns [ErrNoPathFound]; and the call gives
    nothing back only when a worker found such a path and the display tree
    of that path is not built. *)
Theorem v1_dfs_multiple_paths es target completion elapsed :
  (∀ b, b ∈ basicIDs es → 0 ≤ GetElementTier es b) →
  GetElementTier es target < 2 ^ 61 →
  is_Some (Elements es !! target) →
  match DepthFirstPathsV1.FindMultiplePaths es target completion elapsed with
  | Some (inr results) =>
      VariationIndex <$> results = Z.of_nat <$> completion
      ∧ ∀ res, res ∈ results → ∃ b, b ∈ basicIDs es ∧ progressPath es b (Path res) target
  | Some (inl err) =>
      err = ErrNoPathFound
      ∧ (completion = [] ∨ ∀ b rs, b ∈ basicIDs es → ¬ progressPath es b rs target)
  | None =>
      ∃ b path, b ∈ basicIDs es ∧ progressPath es b path target ∧ ¬ builds es path target
  end.
Proof. intros. by apply v1_dfs_multiple. Qed.

Lemma v1_dfs_multiple_paths_witness :
  ∃ results,
    DepthFirstPathsV1.FindMultiplePaths scenario "D" [1; 0; 2]%nat 0 = Some (inr results)
    ∧ VariationIndex <$> results = [1; 0; 2]
    ∧ ∀ res, res ∈ results →
        ∃ b, b ∈ basicIDs scenario ∧ progressPath scenario b (Path res) "D".
Proof.
  pose proof (v1_dfs_multiple_paths scenario "D" [1; 0; 2]%nat 0 scenario_basics
                ltac:(by vm_compute) ltac:(by vm_compute; eauto)) as H.
  destruct (DepthFirstPathsV1.FindMultiplePaths scenario "D" [1; 0; 2]%nat 0)
    as [[err|results]|] eqn:Hrun; [by vm_compute in Hrun| |by vm_compute in Hrun].
  exists results. split; [done|]. exact H.
Defined.
